(** * dockerfile-ast: a shallow embedding of the scanner, the argument
      tokenizer, the property extractor and the variable resolver.

    Offsets, lines and columns are JavaScript numbers used as integers; they
    are modelled by [Z] (the code uses [-1] as the "not found yet" index).
    Text is a list of characters; [charAt] past the end yields the empty
    string, modelled by [None]. *)

From Stdlib Require Import ZArith List Ascii String Bool Lia.
Import ListNotations.
Open Scope Z_scope.

(** ** JavaScript strings *)

Definition jsstring := list ascii.

Definition str (s : string) : jsstring := list_ascii_of_string s.

Definition len (s : jsstring) : Z := Z.of_nat (List.length s).

(** [s.charAt(i)]: the character at [i], or the empty string out of range. *)
Definition charAt (s : jsstring) (i : Z) : option ascii :=
  if i <? 0 then None else nth_error s (Z.to_nat i).

Definition clamp (s : jsstring) (i : Z) : Z := Z.max 0 (Z.min i (len s)).

(** [s.substring(a, b)]: both indices are clamped to the string and swapped
    when out of order. *)
Definition substring (s : jsstring) (a b : Z) : jsstring :=
  let a' := clamp s a in
  let b' := clamp s b in
  let lo := Z.min a' b' in
  let hi := Z.max a' b' in
  firstn (Z.to_nat (hi - lo)) (skipn (Z.to_nat lo) s).

(** [s.substring(a)] *)
Definition substringFrom (s : jsstring) (a : Z) : jsstring :=
  substring s a (len s).

Definition SP : ascii := " "%char.
Definition TAB : ascii := "009"%char.
Definition LF : ascii := "010"%char.
Definition CR : ascii := "013"%char.
Definition HASH : ascii := "#"%char.
Definition EQUALS : ascii := "="%char.
Definition BACKSLASH : ascii := "\"%char.
Definition BACKTICK : ascii := "`"%char.
Definition DOLLAR : ascii := "$"%char.
Definition DQUOTE : ascii := "034"%char.
Definition SQUOTE : ascii := "'"%char.
Definition LBRACE : ascii := "{"%char.
Definition RBRACE : ascii := "}"%char.
Definition COLON : ascii := ":"%char.

(** [char === c] for the result [char] of a [charAt]. *)
Definition isChar (c : ascii) (char : option ascii) : bool :=
  match char with
  | Some x => Ascii.eqb x c
  | None => false
  end.

(** The text of a [charAt] result, for concatenation. *)
Definition chars (char : option ascii) : jsstring :=
  match char with
  | Some x => [x]
  | None => []
  end.

Fixpoint jsstring_eqb (a b : jsstring) : bool :=
  match a, b with
  | [], [] => true
  | x :: a', y :: b' => Ascii.eqb x y && jsstring_eqb a' b'
  | _, _ => false
  end.

(** [toUpperCase] and [toLowerCase] change the letters [a] to [z] and [A]
    to [Z] only, as [String.prototype.toUpperCase] and [toLowerCase] do on
    a text of ASCII characters.  On letters outside ASCII the methods of
    JavaScript change more than these functions, so what is stated with
    them holds for the code on ASCII texts, and on any text when the result
    is compared with an ASCII word. *)
Definition toUpperChar (c : ascii) : ascii :=
  let n := nat_of_ascii c in
  if ((97 <=? n) && (n <=? 122))%nat then ascii_of_nat (n - 32) else c.

Definition toLowerChar (c : ascii) : ascii :=
  let n := nat_of_ascii c in
  if ((65 <=? n) && (n <=? 90))%nat then ascii_of_nat (n + 32) else c.

Definition toUpperCase (s : jsstring) : jsstring := map toUpperChar s.
Definition toLowerCase (s : jsstring) : jsstring := map toLowerChar s.

(** [s.indexOf(c)] for a one-character needle: [-1] when absent. *)
Fixpoint indexOfFrom (s : jsstring) (c : ascii) (i : Z) : Z :=
  match s with
  | [] => -1
  | x :: rest => if Ascii.eqb x c then i else indexOfFrom rest c (i + 1)
  end.

Definition indexOf (s : jsstring) (c : ascii) : Z := indexOfFrom s c 0.

(** ** Loops

    A [for (let j = a; j < n; j++)] loop whose body may assign to [j], leave
    the loop, or leave an enclosing one.  The body returns [Next j' s'] to
    go on (the loop then increments [j']) or [Done r] to leave with [r].
    Every assignment to a loop index in the code moves it forward, so
    [n - j] iterations are enough. *)

Inductive ctl (St R : Type) : Type :=
| Next (j : Z) (s : St)
| Done (r : R).
Arguments Next {St R} j s.
Arguments Done {St R} r.

Fixpoint for_ {St R : Type} (fuel : nat) (n : Z) (body : Z -> St -> ctl St R)
    (eof : St -> R) (j : Z) (s : St) : R :=
  match fuel with
  | O => eof s
  | S fuel' =>
      if j <? n then
        match body j s with
        | Next j' s' => for_ fuel' n body eof (j' + 1) s'
        | Done r => r
        end
      else eof s
  end.

Definition loop {St R : Type} (n : Z) (body : Z -> St -> ctl St R)
    (eof : St -> R) (j : Z) (s : St) : R :=
  for_ (Z.to_nat (n - j)) n body eof j s.

(** ** Positions and the text document

    [TextDocument] is the document of vscode-languageserver-types, a
    dependency of the package: line offsets are the offsets that follow a
    line break (CR, LF or CR LF), [positionAt] finds the last line offset
    that is not larger than the offset, [offsetAt] adds the column to the
    line offset and clips it to the line. *)

Record Position : Type := mkPosition { line : Z; character : Z }.
Record Range : Type := mkRange { start : Position; end_ : Position }.

Module TextDocument.

Fixpoint computeLineOffsets (text : jsstring) (i : Z) (isLineStart : bool)
    : list Z :=
  match text with
  | [] => if isLineStart && (0 <? i) then [i] else []
  | ch :: rest =>
      (if isLineStart then [i] else []) ++
      (if Ascii.eqb ch CR then
         match rest with
         | ch2 :: rest2 =>
             if Ascii.eqb ch2 LF
             then computeLineOffsets rest2 (i + 2) true
             else computeLineOffsets rest (i + 1) true
         | [] => computeLineOffsets rest (i + 1) true
         end
       else computeLineOffsets rest (i + 1) (Ascii.eqb ch LF))
  end.

Definition getLineOffsets (text : jsstring) : list Z :=
  computeLineOffsets text 0 true.

(** The least index whose line offset is larger than [offset], or the
    number of lines when there is none. *)
Fixpoint upperBound (lineOffsets : list Z) (offset : Z) (low : Z) : Z :=
  match lineOffsets with
  | [] => low
  | lo :: rest =>
      if offset <? lo then low else upperBound rest offset (low + 1)
  end.

Definition nthZ (l : list Z) (i : Z) : Z := nth (Z.to_nat i) l 0.

Definition positionAt (text : jsstring) (offset : Z) : Position :=
  let offset := Z.max (Z.min offset (len text)) 0 in
  let lineOffsets := getLineOffsets text in
  match lineOffsets with
  | [] => mkPosition 0 offset
  | _ =>
      let low := upperBound lineOffsets offset 0 in
      let line := low - 1 in
      mkPosition line (offset - nthZ lineOffsets line)
  end.

Definition offsetAt (text : jsstring) (position : Position) : Z :=
  let lineOffsets := getLineOffsets text in
  let lines := Z.of_nat (List.length lineOffsets) in
  if lines <=? line position then len text
  else if line position <? 0 then 0
  else
    let lineOffset := nthZ lineOffsets (line position) in
    let nextLineOffset :=
      if line position + 1 <? lines
      then nthZ lineOffsets (line position + 1)
      else len text in
    Z.max (Z.min (lineOffset + character position) nextLineOffset) lineOffset.

End TextDocument.

Definition positionAt := TextDocument.positionAt.
Definition offsetAt := TextDocument.offsetAt.

(** [Range.create(document.positionAt(a), document.positionAt(b))] *)
Definition rangeAt (text : jsstring) (a b : Z) : Range :=
  mkRange (positionAt text a) (positionAt text b).

(** The text of the document inside a range. *)
Definition textOf (text : jsstring) (r : Range) : jsstring :=
  substring text (offsetAt text (start r)) (offsetAt text (end_ r)).

(** ** Lines of a Dockerfile

    Every line keeps the range it was scanned at.  The document they share is
    passed to the accessors that read text back. *)

(** [new Comment(document, range)] *)
Record Comment : Type := mkComment { commentRange : Range }.

(** [new ParserDirective(document, range, nameRange, valueRange)] *)
Record ParserDirective : Type := mkParserDirective {
  directiveRange : Range;
  nameRange : Range;
  valueRange : Range
}.

(** The class [Parser.createInstruction] instantiates for a keyword. *)
Inductive InstructionClass : Type :=
| Add | Arg | Cmd | Copy | Entrypoint | Env | From | Healthcheck | Label
| Onbuild | JSONInstruction | Shell | Stopsignal | Workdir | User | Volume
| Generic.

(** [class Instruction] of instruction.ts, with the class it was created
    as. *)
Record Instruction : Type := mkInstruction {
  class : InstructionClass;
  range : Range;
  escapeChar : ascii;
  instruction : jsstring;
  instructionRange : Range
}.

Inductive Line : Type :=
| LComment (c : Comment)
| LDirective (d : ParserDirective)
| LInstruction (i : Instruction).

Definition getRange (l : Line) : Range :=
  match l with
  | LComment c => commentRange c
  | LDirective d => directiveRange d
  | LInstruction i => range i
  end.

(** [enum Directive] of main.ts. *)
Inductive Directive : Type := escape.

Module ParserDirectiveM.

(** Modelled from the spec: parserDirective.ts is absent.  The directive
    "holds name Range, value Range, resolved name string, resolved value
    string": the strings are the text of the document in the two ranges. *)
Definition getName (text : jsstring) (d : ParserDirective) : jsstring :=
  textOf text (nameRange d).

(** Modelled from the spec: the "resolved value string" of the directive
    (parserDirective.ts is absent), the text of the document in the value
    range. *)
Definition getValue (text : jsstring) (d : ParserDirective) : jsstring :=
  textOf text (valueRange d).

(** Modelled from the spec: "an enumerated directive kind (recognized
    kinds: escape) or unresolved if unrecognized".  The tests of
    test/parserDirective.test.ts fix the letter case: the names [Escape]
    and [escape] are both of the escape kind, [unknown] is of none. *)
Definition getDirective (text : jsstring) (d : ParserDirective)
    : option Directive :=
  if jsstring_eqb (toLowerCase (getName text d)) (str "escape")
  then Some escape else None.

End ParserDirectiveM.

(** ** The document *)

(** Modelled from the spec: the document (dockerfile.ts is absent), the
    "ordered list of all Lines in source order" with its derived views "all
    comments, all instructions, ... the leading directive (if any)".  The
    record keeps the directive and the two lists, each in the order the
    scanner adds to it. *)
Record Dockerfile : Type := mkDockerfile {
  directive : option ParserDirective;
  comments : list Comment;
  instructions : list Instruction
}.

(** Modelled from the spec: [new Dockerfile(document)], a document without
    lines yet. *)
Definition newDockerfile : Dockerfile := mkDockerfile None [] [].

(** Modelled from the spec: [setDirective] records the leading directive. *)
Definition setDirective (d : Dockerfile) (p : ParserDirective) : Dockerfile :=
  mkDockerfile (Some p) (comments d) (instructions d).

(** Modelled from the spec: [addComment]; "the Scanner appends to the
    Document's line list during the pass". *)
Definition addComment (d : Dockerfile) (c : Comment) : Dockerfile :=
  mkDockerfile (directive d) (comments d ++ [c]) (instructions d).

(** Modelled from the spec: [addInstruction], which appends likewise. *)
Definition addInstruction (d : Dockerfile) (i : Instruction) : Dockerfile :=
  mkDockerfile (directive d) (comments d) (instructions d ++ [i]).

(** Modelled from the spec: [organizeComments], the post-processing step
    that attributes each comment to a stage; the comments "are not
    duplicated in the document-level comment list", which stays as it is. *)
Definition organizeComments (d : Dockerfile) : Dockerfile := d.

(** Modelled from the spec: the document's "list of comments". *)
Definition getComments (d : Dockerfile) : list Comment := comments d.

(** Modelled from the spec: the document's "list of all instructions". *)
Definition getInstructions (d : Dockerfile) : list Instruction := instructions d.

(** Modelled from the spec: the "leading directive or null". *)
Definition getDirective (d : Dockerfile) : option ParserDirective := directive d.

(** ** The scanner (parser.ts) *)

Module Parser.

Definition createInstruction (escapeChar : ascii) (lineRange : Range)
    (instruction : jsstring) (instructionRange : Range) : Instruction :=
  let kw := toUpperCase instruction in
  let cls :=
    if jsstring_eqb kw (str "ADD") then Add
    else if jsstring_eqb kw (str "ARG") then Arg
    else if jsstring_eqb kw (str "CMD") then Cmd
    else if jsstring_eqb kw (str "COPY") then Copy
    else if jsstring_eqb kw (str "ENTRYPOINT") then Entrypoint
    else if jsstring_eqb kw (str "ENV") then Env
    else if jsstring_eqb kw (str "FROM") then From
    else if jsstring_eqb kw (str "HEALTHCHECK") then Healthcheck
    else if jsstring_eqb kw (str "LABEL") then Label
    else if jsstring_eqb kw (str "ONBUILD") then Onbuild
    else if jsstring_eqb kw (str "RUN") then JSONInstruction
    else if jsstring_eqb kw (str "SHELL") then Shell
    else if jsstring_eqb kw (str "STOPSIGNAL") then Stopsignal
    else if jsstring_eqb kw (str "WORKDIR") then Workdir
    else if jsstring_eqb kw (str "USER") then User
    else if jsstring_eqb kw (str "VOLUME") then Volume
    else Generic in
  mkInstruction cls lineRange escapeChar instruction instructionRange.

(** *** getDirectiveSymbol *)

(** The [directiveValue] loop: state [(valueStart, valueEnd)], result
    [(valueStart, valueEnd, lineEnd)]. *)
Definition directiveValue_body (buffer : jsstring) (k : Z) (s : Z * Z)
    : ctl (Z * Z) (Z * Z * Z) :=
  let '(valueStart, valueEnd) := s in
  let char := charAt buffer k in
  if isChar CR char || isChar LF char then
    let valueEnd :=
      if negb (valueStart =? -1) && (valueEnd =? -1) then k else valueEnd in
    Done (valueStart, valueEnd, k)
  else if isChar TAB char || isChar SP char then
    let valueEnd :=
      if negb (valueStart =? -1) && (valueEnd =? -1) then k else valueEnd in
    Next k (valueStart, valueEnd)
  else
    Next k (if valueStart =? -1 then k else valueStart, valueEnd).

Definition directiveValue (buffer : jsstring) (j : Z) : Z * Z * Z :=
  loop (len buffer) (directiveValue_body buffer)
       (fun s => (fst s, snd s, len buffer)) (j + 1) (-1, -1).

(** What the [=] case returns, in offsets: the line, and the name and
    value when the comment is a directive. *)
Inductive symbol : Type :=
| SComment (commentStart lineEnd : Z)
| SDirective (commentStart lineEnd directiveStart directiveEnd
              valueStart valueEnd : Z).

Definition directiveAtEquals (buffer : jsstring)
    (commentStart directiveStart directiveEnd j : Z) : symbol :=
  let directiveEnd := if directiveEnd =? -1 then j else directiveEnd in
  let '(valueStart, valueEnd, lineEnd) := directiveValue buffer j in
  if directiveStart =? -1 then SComment commentStart lineEnd
  else
    let '(valueStart, valueEnd) :=
      if valueStart =? -1 then (j + 1, lineEnd)
      else if valueEnd =? -1 then (valueStart, len buffer)
      else (valueStart, valueEnd) in
    SDirective commentStart lineEnd directiveStart directiveEnd
               valueStart valueEnd.

(** The loop over the comment that starts at [commentStart]: state
    [(directiveStart, directiveEnd)]; [None] when the buffer ends before a
    line break or an [=] is met. *)
Definition directiveName_body (buffer : jsstring) (commentStart : Z)
    (j : Z) (s : Z * Z) : ctl (Z * Z) (option symbol) :=
  let '(directiveStart, directiveEnd) := s in
  let char := charAt buffer j in
  if isChar SP char || isChar TAB char then
    Next j (directiveStart,
            if negb (directiveStart =? -1) && (directiveEnd =? -1)
            then j else directiveEnd)
  else if isChar CR char || isChar LF char then
    Done (Some (SComment commentStart j))
  else if isChar EQUALS char then
    Done (Some (directiveAtEquals buffer commentStart directiveStart
                                  directiveEnd j))
  else
    Next j (if directiveStart =? -1 then j else directiveStart, directiveEnd).

Definition directiveName (buffer : jsstring) (commentStart : Z)
    : option symbol :=
  loop (len buffer) (directiveName_body buffer commentStart)
       (fun _ => None) (commentStart + 1) (-1, -1).

Definition directiveCheck_body (buffer : jsstring) (i : Z) (s : unit)
    : ctl unit (option symbol) :=
  let char := charAt buffer i in
  if isChar SP char || isChar TAB char then Next i tt
  else if isChar CR char || isChar LF char then Done None
  else if isChar HASH char then
    match directiveName buffer i with
    | Some l => Done (Some l)
    | None => Next i tt
    end
  else Done None.

Definition getDirectiveOffsets (buffer : jsstring) : option symbol :=
  loop (len buffer) (directiveCheck_body buffer) (fun _ => None) 0 tt.

Definition lineOfSymbol (buffer : jsstring) (s : symbol) : Line :=
  match s with
  | SComment commentStart lineEnd =>
      LComment (mkComment (rangeAt buffer commentStart lineEnd))
  | SDirective commentStart lineEnd directiveStart directiveEnd
               valueStart valueEnd =>
      LDirective (mkParserDirective
                    (rangeAt buffer commentStart lineEnd)
                    (rangeAt buffer directiveStart directiveEnd)
                    (rangeAt buffer valueStart valueEnd))
  end.

Definition getDirectiveSymbol (buffer : jsstring) : option Line :=
  option_map (lineOfSymbol buffer) (getDirectiveOffsets buffer).

(** *** parse *)

Section MainLoop.

Variable buffer : jsstring.
Variable escapeChar : ascii.

(** A comment that starts at [i]: the loop over [j] leaves by
    [continue lineCheck] at a line break and by [break lineCheck] at the
    end of the buffer. *)
Definition comment_body (dockerfile : Dockerfile) (i : Z) (j : Z)
    (s : unit) : ctl unit (ctl Dockerfile Dockerfile) :=
  let char := charAt buffer j in
  if isChar CR char then
    (* offset one more for \r\n *)
    Done (Next (j + 1)
            (addComment dockerfile (mkComment (rangeAt buffer i j))))
  else if isChar LF char then
    Done (Next j (addComment dockerfile (mkComment (rangeAt buffer i j))))
  else Next j tt.

Definition commentLoop (dockerfile : Dockerfile) (i : Z)
    : ctl Dockerfile Dockerfile :=
  loop (len buffer) (comment_body dockerfile i)
       (fun _ =>
          Done (addComment dockerfile
                  (mkComment (rangeAt buffer i (len buffer)))))
       (i + 1) tt.

(** An escape character followed by a blank inside the arguments: the
    loop over [l] yields the new [(escaped, k)]. *)
Definition escapeCheck_body (escaped : bool) (l : Z) (s : unit)
    : ctl unit (bool * Z) :=
  let char := charAt buffer l in
  if isChar SP char || isChar TAB char then Next l tt
  else if isChar CR char then Done (true, l + 1)
  else if isChar LF char then Done (true, l)
  else Done (escaped, l).

Definition escapeCheck (escaped : bool) (k : Z) : bool * Z :=
  loop (len buffer) (escapeCheck_body escaped)
       (fun _ => (escaped, k)) (k + 2) tt.

Section Arguments.

Variable instructionStart : Z.
Variable instruction : jsstring.
Variable instructionEnd : Z.

Definition completed (dockerfile : Dockerfile) (lineEnd : Z)
    : Dockerfile :=
  addInstruction dockerfile
    (createInstruction escapeChar
       (rangeAt buffer instructionStart lineEnd) instruction
       (rangeAt buffer instructionStart instructionEnd)).

(** A comment nested in the arguments, starting at [k]. *)
Definition nested_body (escaped : bool) (dockerfile : Dockerfile)
    (k : Z) (l : Z) (s : unit)
    : ctl unit (ctl (bool * Dockerfile) (ctl Dockerfile Dockerfile)) :=
  let char := charAt buffer l in
  if isChar CR char then
    Done (Next (l + 1)
            (escaped,
             addComment dockerfile (mkComment (rangeAt buffer k l))))
  else if isChar LF char then
    Done (Next l
            (escaped,
             addComment dockerfile (mkComment (rangeAt buffer k l))))
  else Next l tt.

Definition nestedComment (escaped : bool) (dockerfile : Dockerfile)
    (k : Z) : ctl (bool * Dockerfile) (ctl Dockerfile Dockerfile) :=
  loop (len buffer) (nested_body escaped dockerfile k)
       (fun _ =>
          Done (Done
            (completed
               (addComment dockerfile
                  (mkComment (rangeAt buffer k (len buffer))))
               (len buffer))))
       (k + 1) tt.

(** The [argumentsCheck] loop: state [(escaped, dockerfile)]. *)
Definition arguments_body (k : Z) (s : bool * Dockerfile)
    : ctl (bool * Dockerfile) (ctl Dockerfile Dockerfile) :=
  let '(escaped, dockerfile) := s in
  let char := charAt buffer k in
  if isChar CR char || isChar LF char then
    if escaped then Next k s
    else Done (Next k (completed dockerfile k))
  else if isChar escapeChar char then
    let next := charAt buffer (k + 1) in
    if isChar LF next then Next (k + 1) (true, dockerfile)
    else if isChar CR next then Next (k + 2) (true, dockerfile)
    else if isChar SP next || isChar TAB next then
      let '(escaped, k) := escapeCheck escaped k in
      Next k (escaped, dockerfile)
    else Next k s
  else if isChar HASH char then
    if escaped then nestedComment escaped dockerfile k
    else Next k s
  else if isChar SP char || isChar TAB char then Next k s
  else Next k (false, dockerfile).

Definition argumentsCheck (dockerfile : Dockerfile) (j : Z)
    : ctl Dockerfile Dockerfile :=
  loop (len buffer) arguments_body
       (fun s => Done (completed (snd s) (len buffer)))
       (j + 1) (false, dockerfile).

End Arguments.

(** An instruction without arguments: its line range is the range of
    its keyword. *)
Definition bare (dockerfile : Dockerfile) (instructionStart : Z)
    (instruction : jsstring) (instructionEnd : Z) : Dockerfile :=
  let lineRange := rangeAt buffer instructionStart instructionEnd in
  addInstruction dockerfile
    (createInstruction escapeChar lineRange instruction lineRange).

(** An escape character followed by a blank inside the keyword. *)
Definition keywordEscape_body (instruction : jsstring)
    (instructionEnd : Z) (j : Z) (k : Z) (s : unit)
    : ctl unit (ctl (jsstring * Z) (ctl Dockerfile Dockerfile)) :=
  let char := charAt buffer k in
  if isChar SP char || isChar TAB char then Next k tt
  else if isChar CR char then
    (* skip another for \r\n *)
    Done (Next (k + 1) (instruction, instructionEnd))
  else if isChar LF char then
    Done (Next k (instruction, instructionEnd))
  else
    Done (Next (k - 2) (instruction ++ [escapeChar], j + 1)).

(** The [instructionCheck] loop: state [(instruction, instructionEnd)]. *)
Definition instruction_body (dockerfile : Dockerfile)
    (instructionStart : Z) (j : Z) (s : jsstring * Z)
    : ctl (jsstring * Z) (ctl Dockerfile Dockerfile) :=
  let '(instruction, instructionEnd) := s in
  let char := charAt buffer j in
  if isChar escapeChar char then
    let char := charAt buffer (j + 1) in
    if isChar CR char then Next (j + 2) s
    else if isChar LF char then Next (j + 1) s
    else if isChar SP char || isChar TAB char then
      loop (len buffer) (keywordEscape_body instruction instructionEnd j)
           (fun _ =>
              Done (Done (bare dockerfile instructionStart
                            (instruction ++ [escapeChar]) (j + 1))))
           (j + 2) tt
    else Next j (instruction ++ [escapeChar], j + 1)
  else if isChar SP char || isChar TAB char then
    let instructionEnd := if instructionEnd =? -1 then j else instructionEnd in
    Done (argumentsCheck instructionStart instruction instructionEnd
            dockerfile j)
  else if isChar CR char then
    let instructionEnd := if instructionEnd =? -1 then j else instructionEnd in
    (* skip for \r\n, then fall through to the \n case *)
    let j := j + 1 in
    let instructionEnd := if instructionEnd =? -1 then j else instructionEnd in
    Done (Next j (bare dockerfile instructionStart instruction instructionEnd))
  else if isChar LF char then
    let instructionEnd := if instructionEnd =? -1 then j else instructionEnd in
    Done (Next j (bare dockerfile instructionStart instruction instructionEnd))
  else
    Next j (instruction ++ chars char, j + 1).

Definition instructionCheck (dockerfile : Dockerfile) (i : Z)
    (char : option ascii) : ctl Dockerfile Dockerfile :=
  loop (len buffer) (instruction_body dockerfile i)
       (fun s =>
          let '(instruction, instructionEnd) := s in
          let instructionEnd :=
            if instructionEnd =? -1 then len buffer else instructionEnd in
          Done (bare dockerfile i instruction instructionEnd))
       (i + 1) (chars char, -1).

(** The [lineCheck] loop: the state is the document built so far. *)
Definition line_body (i : Z) (dockerfile : Dockerfile)
    : ctl Dockerfile Dockerfile :=
  let char := charAt buffer i in
  if isChar SP char || isChar TAB char || isChar CR char || isChar LF char
  then Next i dockerfile
  else if isChar HASH char then commentLoop dockerfile i
  else instructionCheck dockerfile i char.

Definition lineCheck (offset : Z) (dockerfile : Dockerfile) : Dockerfile :=
  loop (len buffer) line_body (fun d => d) offset dockerfile.

End MainLoop.

(** The part of [parse] before the main loop: the document with its
    directive or first comment, the escape character of the parser, and
    the offset the main loop starts at. *)
Definition prologue (buffer : jsstring) : Dockerfile * ascii * Z :=
  let dockerfile := newDockerfile in
  let line := getDirectiveSymbol buffer in
  match line with
  | Some (LDirective directive) =>
      let dockerfile := setDirective dockerfile directive in
      let escapeChar :=
        match ParserDirectiveM.getDirective buffer directive with
        | Some escape =>
            let value := ParserDirectiveM.getValue buffer directive in
            if jsstring_eqb value [BACKTICK] then BACKTICK
            else if jsstring_eqb value [BACKSLASH] then BACKSLASH
            else BACKSLASH
        | None => BACKSLASH
        end in
      (dockerfile, escapeChar, offsetAt buffer (end_ (directiveRange directive)))
  | Some (LComment c) =>
      (addComment dockerfile c, BACKSLASH, offsetAt buffer (mkPosition 1 0))
  | _ => (dockerfile, BACKSLASH, 0)
  end.

(** [this.escapeChar] once the directive has been looked at. *)
Definition parserEscapeChar (buffer : jsstring) : ascii :=
  snd (fst (prologue buffer)).

Definition parse (buffer : jsstring) : Dockerfile :=
  let '(dockerfile, escapeChar, offset) := prologue buffer in
  organizeComments (lineCheck buffer escapeChar offset dockerfile).

End Parser.

(** ** Util (util.ts is absent) *)

Module Util.

(** Modelled from the spec: [Util.isNewline]; a line break is CR or LF
    ("the first unescaped, non-continued \r/\n"). *)
Definition isNewline (char : option ascii) : bool :=
  isChar CR char || isChar LF char.

(** Modelled from the spec: [Util.isWhitespace]; whitespace is a blank, a
    tab ("horizontal whitespace") or a line break. *)
Definition isWhitespace (char : option ascii) : bool :=
  isChar SP char || isChar TAB char || isNewline char.

(** After an escape character: the offset of the line break that only
    blanks and tabs separate from it, if there is one. *)
Definition leadingEscape_body (content : jsstring) (j : Z) (u : unit)
    : ctl unit (option Z) :=
  let char := charAt content j in
  if isChar SP char || isChar TAB char then Next j tt
  else if isChar CR char then Done (Some (j + 1))
  else if isChar LF char then Done (Some j)
  else Done None.

Definition leading_body (content : jsstring) (escapeChar : ascii) (i : Z)
    (u : unit) : ctl unit Z :=
  let char := charAt content i in
  if isChar SP char || isChar TAB char then Next i tt
  else if isChar escapeChar char then
    match loop (len content) (leadingEscape_body content) (fun _ => None)
               (i + 1) tt with
    | Some j => Next j tt
    | None => Done i
    end
  else Done i.

(** Modelled from the spec: the offset of the first character of [content]
    that is not leading whitespace, that is the first one that is neither a
    blank nor a tab nor part of a continuation ("an escape character
    immediately preceding a line break, optionally followed by trailing
    whitespace before the actual break"); [-1] when there is none. *)
Definition findLeadingNonWhitespace (content : jsstring) (escapeChar : ascii)
    : Z :=
  loop (len content) (leading_body content escapeChar) (fun _ => -1) 0 tt.

End Util.

(** ** Arguments, variables and the values the resolver returns *)

Record Argument : Type := mkArgument {
  argValue : jsstring;
  argRange : Range
}.

(** [string | null | undefined] of [resolveVariable]. *)
Inductive resolved : Type :=
| Value (v : jsstring)
| Null
| Undefined.

(** A computation that may end in a TypeError (a member read on [null]). *)
Inductive outcome (A : Type) : Type :=
| Ok (a : A)
| TypeError.
Arguments Ok {A} a.
Arguments TypeError {A}.

Record VariableT : Type := mkVariable {
  varName : jsstring;
  varNameRange : Range;
  varRange : Range;
  modifier : option jsstring;
  modifierRange : option Range;
  substitutionParameter : option jsstring;
  substitutionRange : option Range;
  defined : bool;
  buildVariable : option bool;
  stringValue : jsstring
}.

Definition isDefined (r : resolved) : bool :=
  match r with
  | Undefined => false
  | _ => true
  end.

(** ** Instruction.getArguments (instruction.ts) *)

Module InstructionM.

(** Modelled from the spec: [Line.getTextContent] (line.ts is absent), the
    text of the document in the range the line owns. *)
Definition getTextContent (text : jsstring) (i : Instruction) : jsstring :=
  textOf text (range i).

Definition getInstruction (i : Instruction) : jsstring := instruction i.

Definition getKeyword (i : Instruction) : jsstring :=
  toUpperCase (getInstruction i).

Record ArgState : Type := mkArgState {
  args : list Argument;
  start_ : bool;
  comment : bool;
  found : Z;
  escapedWhitespaceDetected : bool;
  escaping : bool;
  escapeMarker : Z;
  escapedArg : jsstring
}.

Section GetArguments.

Variable text : jsstring.
Variable escChar : ascii.
Variable fullArgs : jsstring.
Variable offset : Z.

(** [args.push(new Argument(escapedArg, Range(found, upTo)))] followed by
    [escapedArg = ""; found = -1]. *)
Definition pushArg (s : ArgState) (upTo : Z) : ArgState :=
  mkArgState
    (args s ++ [mkArgument (escapedArg s)
                  (rangeAt text (offset + found s) (offset + upTo))])
    (start_ s) (comment s) (-1) (escapedWhitespaceDetected s)
    (escaping s) (escapeMarker s) [].

(** The push guarded by [escapedWhitespaceDetected && escapeMarker !== -1]
    before a character is appended. *)
Definition flushEscaped (s : ArgState) : ArgState :=
  if escapedWhitespaceDetected s && negb (escapeMarker s =? -1)
  then pushArg s (escapeMarker s) else s.

(** The escape character at [i] begins an escaped newline. *)
Definition escapedNewline (s : ArgState) (i : Z) : ArgState :=
  mkArgState (args s) true (comment s) (found s)
    (escapedWhitespaceDetected s) true
    (if negb (found s =? -1) then i else escapeMarker s) (escapedArg s).

(** The loop over the blanks that follow the escape character at [i]. *)
Definition whitespaceCheck_body (s : ArgState) (i : Z) (j : Z) (u : unit)
    : ctl unit (Z * ArgState) :=
  let newlineCheck := charAt fullArgs j in
  if isChar SP newlineCheck || isChar TAB newlineCheck then Next j tt
  else if isChar CR newlineCheck then Done (j + 1, escapedNewline s i)
  else if isChar LF newlineCheck then Done (j, escapedNewline s i)
  else
    Done (if found s =? -1 then j - 1 else i,
          mkArgState (args s) (start_ s) (comment s) (found s)
            (escapedWhitespaceDetected s) (escaping s) i (escapedArg s)).

Definition whitespaceCheck (s : ArgState) (i : Z) : Z * ArgState :=
  loop (len fullArgs) (whitespaceCheck_body s i) (fun _ => (i, s))
       (i + 2) tt.

Definition arg_body (i : Z) (s : ArgState) : ctl ArgState ArgState :=
  let char := charAt fullArgs i in
  if Util.isWhitespace char then
    if escaping s then
      let newline := Util.isNewline char in
      Next i (mkArgState (args s) (start_ s)
                (if newline then false else comment s) (found s)
                (negb newline) (escaping s) (escapeMarker s)
                (escapedArg s))
    else if negb (found s =? -1) then
      let s' :=
        if escapeMarker s =? -1 then pushArg s i
        else pushArg s (escapeMarker s) in
      Next i (mkArgState (args s') (start_ s') (comment s') (found s')
                (escapedWhitespaceDetected s') (escaping s') (-1)
                (escapedArg s'))
    else Next i s
  else if isChar escChar char then
    let next := charAt fullArgs (i + 1) in
    if isChar SP next || isChar TAB next then
      let '(i', s') := whitespaceCheck s i in Next i' s'
    else if isChar CR next then Next (i + 2) (escapedNewline s i)
    else if isChar LF next then Next (i + 1) (escapedNewline s i)
    else
      let s1 := flushEscaped s in
      let appended :=
        if isChar DOLLAR next then escapedArg s1 ++ chars char ++ chars next
        else escapedArg s1 ++ chars next in
      Next (i + 1)
        (mkArgState (args s1) (start_ s1) (comment s1)
           (if found s1 =? -1 then i else found s1)
           false false (escapeMarker s1) appended)
  else if negb (comment s) then
    if start_ s && isChar HASH char then
      Next i (mkArgState (args s) false true (found s)
                (escapedWhitespaceDetected s) (escaping s)
                (escapeMarker s) (escapedArg s))
    else
      let s1 := flushEscaped s in
      Next i (mkArgState (args s1) (start_ s1) (comment s1)
                (if found s1 =? -1 then i else found s1)
                false false (-1) (escapedArg s1 ++ chars char))
  else Next i s.

Definition initialArgState : ArgState :=
  mkArgState [] false false (-1) false false (-1) [].

Definition finishArgs (s : ArgState) : list Argument :=
  if negb (found s =? -1) then
    if escapeMarker s =? -1 then args (pushArg s (len fullArgs))
    else args (pushArg s (escapeMarker s))
  else args s.

(** The state the loop over [fullArgs] ends in. *)
Definition scanArgs : ArgState :=
  loop (len fullArgs) arg_body (fun s => s) 0 initialArgState.

End GetArguments.

Definition getArguments (text : jsstring) (i : Instruction) : list Argument :=
  let range := instructionRange i in
  let extra := offsetAt text (end_ range) - offsetAt text (start range) in
  let content := getTextContent text i in
  let fullArgs := substringFrom content extra in
  let offset := offsetAt text (start range) + extra in
  finishArgs text fullArgs offset (scanArgs text (escapeChar i) fullArgs offset).

End InstructionM.

(** ** Property (property.ts) *)

Record Property : Type := mkProperty {
  propRange : Range;
  propNameRange : Range;
  propName : jsstring;
  propValueRange : option Range;
  propValue : option jsstring
}.

Module PropertyM.

Definition getName (p : Property) : jsstring := propName p.
Definition getValue_ (p : Property) : option jsstring := propValue p.

Definition getNameRange (text : jsstring) (arg : Argument) : Range :=
  let value := argValue arg in
  let index := indexOf value EQUALS in
  if negb (index =? -1) then
    let initial := charAt value 0 in
    let before := charAt value (index - 1) in
    (* check if content before the equals sign are in quotes *)
    if (isChar DQUOTE initial && isChar DQUOTE before)
       || (isChar SQUOTE initial && isChar SQUOTE before)
       || (negb (isChar DQUOTE initial) && negb (isChar SQUOTE initial))
    then
      mkRange (start (argRange arg))
              (positionAt text (offsetAt text (start (argRange arg)) + index))
    else argRange arg
  else
    (* no '=' found, just defined the ARG's name *)
    argRange arg.

Definition getValueRange (text : jsstring) (arg : Argument) : Range :=
  mkRange
    (positionAt text
       (offsetAt text (start (argRange arg)) + indexOf (argValue arg) EQUALS + 1))
    (positionAt text (offsetAt text (end_ (argRange arg)))).

Section GetValue.

(** [Util.findLeadingNonWhitespace] belongs to util.ts, which is absent:
    it is a parameter of the extraction. *)
Variable findLeadingNonWhitespace : jsstring -> ascii -> Z.

Variable escapeChar : ascii.

(** Whether a value that starts with a double quote also ends with an
    unescaped one. *)
Definition inDouble_body (value : jsstring) (i : Z) (inDouble : bool)
    : ctl bool bool :=
  if isChar escapeChar (charAt value i) then Next (i + 1) inDouble
  else if isChar DQUOTE (charAt value i) && (i =? len value - 1)
  then Next i true
  else Next i inDouble.

Definition scanInDouble (value : jsstring) : bool :=
  loop (len value) (inDouble_body value) (fun b => b) 1 false.

Record ValueState : Type := mkValueState {
  escaped : bool;
  commentCheck : Z;
  escapedValue : jsstring
}.

Section ParseValue.

Variable value : jsstring.
Variables inDouble inSingle literal : bool.

(** The blanks after the escape character at [i]; [char] is the first
    of them.  [None]: go on with the code after the loop. *)
Definition valueWhitespace_body (s : ValueState) (i : Z)
    (char : option ascii) (j : Z) (u : unit)
    : ctl unit (option (ctl ValueState jsstring)) :=
  let char2 := charAt value j in
  if isChar SP char2 || isChar TAB char2 then Next j tt
  else if isChar CR char2 then
    Done (Some (Next (j + 1)
                  (mkValueState true (commentCheck s) (escapedValue s))))
  else if isChar LF char2 then
    Done (Some (Next j
                  (mkValueState true (commentCheck s) (escapedValue s))))
  else if negb inDouble && negb inSingle && negb literal then
    if isChar escapeChar char2 then
      (* add the escaped character, parse from the next escape *)
      Done (Some (Next (i + 1)
                    (mkValueState (escaped s) (commentCheck s)
                       (escapedValue s ++ chars char))))
    else
      Done (Some (Next j
                    (mkValueState (escaped s) (commentCheck s)
                       (escapedValue s ++ chars char ++ chars char2))))
  else Done None.

Definition valueWhitespace (s : ValueState) (i : Z)
    (char : option ascii) : option (ctl ValueState jsstring) :=
  loop (len value) (valueWhitespace_body s i char) (fun _ => None)
       (i + 2) tt.

(** The escape character at [i], once the blanks are dealt with. *)
Definition valueEscape (s : ValueState) (i : Z) (char : option ascii)
    : ctl ValueState jsstring :=
  let append x :=
    mkValueState (escaped s) (commentCheck s) (escapedValue s ++ x) in
  let nowEscaped :=
    mkValueState true (commentCheck s) (escapedValue s) in
  if inDouble then
    if isChar CR char then Next (i + 2) nowEscaped
    else if isChar LF char then Next (i + 1) nowEscaped
    else if negb (isChar DQUOTE char) then
      Next (if isChar escapeChar char then i + 1 else i)
           (append [escapeChar])
    else Next i s
  else if inSingle || literal then
    if isChar CR char then Next (i + 2) nowEscaped
    else if isChar LF char then Next (i + 1) nowEscaped
    else Next i (append [escapeChar])
  else if isChar escapeChar char then
    (* double escape, append one and move on *)
    Next (i + 1) (append [escapeChar])
  else if isChar CR char then Next (i + 2) nowEscaped
  else if isChar LF char then Next (i + 1) nowEscaped
  else
    (* any other escapes are simply ignored *)
    Next (i + 1) (append (chars char)).

(** The line break that ends a comment starting at [i]. *)
Definition valueComment_body (j : Z) (u : unit) : ctl unit Z :=
  if isChar CR (charAt value j) then Done (j + 1)
  else if isChar LF (charAt value j) then Done j
  else Next j tt.

Definition dropLast (v : jsstring) (n : Z) : jsstring :=
  substring v 0 (len v - n).

Definition value_body (i : Z) (s : ValueState)
    : ctl ValueState jsstring :=
  let char := charAt value i in
  let other :=
    Next i (mkValueState false
              (if escaped s then -1 else commentCheck s)
              (escapedValue s ++ chars char)) in
  let lineBreak (i : Z) :=
    if escaped s && negb (commentCheck s =? -1) then
      (* rollback and remove the whitespace that was appended *)
      Next i (mkValueState (escaped s) (-1)
                (dropLast (escapedValue s) (i - commentCheck s - 1)))
    else Next i s in
  if isChar escapeChar char then
    if i + 1 =? len value then Done (escapedValue s ++ [escapeChar])
    else
      let char := charAt value (i + 1) in
      if isChar SP char || isChar TAB char then
        match valueWhitespace s i char with
        | Some r => r
        | None => valueEscape s i char
        end
      else valueEscape s i char
  else if isChar SP char || isChar TAB char then
    Next i (mkValueState (escaped s)
              (if escaped s && (commentCheck s =? -1) then i
               else commentCheck s)
              (escapedValue s ++ chars char))
  else if isChar CR char then lineBreak (i + 1)
  else if isChar LF char then lineBreak i
  else if isChar HASH char then
    (* a newline was escaped and now there is a comment *)
    if escaped s then
      let s' :=
        if negb (commentCheck s =? -1) then
          mkValueState (escaped s) (-1)
            (dropLast (escapedValue s) (i - commentCheck s))
        else s in
      Next (loop (len value) valueComment_body (fun _ => i) (i + 1) tt) s'
    else other
  else other.

End ParseValue.

Definition getValue (value : jsstring) : jsstring :=
  let skip := findLeadingNonWhitespace value escapeChar in
  (* need to skip over comments *)
  let escaped := negb (skip =? 0) && isChar HASH (charAt value skip) in
  let value := substringFrom value skip in
  let first := charAt value 0 in
  let last := charAt value (len value - 1) in
  let literal := isChar SQUOTE first || isChar DQUOTE first in
  let inSingle := isChar SQUOTE first && isChar SQUOTE last in
  let inDouble := if isChar DQUOTE first then scanInDouble value else false in
  let value :=
    if inSingle || inDouble then substring value 1 (len value - 1)
    else value in
  loop (len value) (value_body value inDouble inSingle literal)
       (fun s => escapedValue s) 0 (mkValueState escaped (-1) []).

Definition rangeEqb (a b : Range) : bool :=
  (line (start a) =? line (start b))
  && (character (start a) =? character (start b))
  && (line (end_ a) =? line (end_ b))
  && (character (end_ a) =? character (end_ b)).

(** [new Property(document, escapeChar, arg, arg2?)] *)
Definition newProperty (text : jsstring) (arg : Argument)
    (arg2 : option Argument) : Property :=
  let nameRange := getNameRange text arg in
  let name := getValue (textOf text nameRange) in
  match arg2 with
  | Some arg2 =>
      let valueRange := argRange arg2 in
      mkProperty (mkRange (start nameRange) (end_ valueRange)) nameRange
        name (Some valueRange) (Some (getValue (textOf text valueRange)))
  | None =>
      let argRange := argRange arg in
      if rangeEqb nameRange argRange then
        mkProperty argRange nameRange name None None
      else
        let valueRange := getValueRange text arg in
        mkProperty argRange nameRange name (Some valueRange)
          (Some (getValue (textOf text valueRange)))
  end.

End GetValue.

End PropertyM.

(** ** Instruction.parseVariables and Instruction.isBuildVariable

    The instruction consults its document.  The classes behind these calls
    (dockerfile.ts, imageTemplate.ts, line.ts, instructions/arg.ts and
    instructions/env.ts) are absent, so what the two methods call on them is
    a parameter here. *)

Module Variables.

Section Document.

Variable text : jsstring.

(** [this.dockerfile.resolveVariable(name, line)] *)
Variable resolveVariable : jsstring -> Z -> resolved.

Variable ImageTemplate : Type.

(** [this.dockerfile.getInitialARGs()] *)
Variable getInitialARGs : list Instruction.

(** [this.dockerfile.getContainingImage(position)], [null] being [None] *)
Variable getContainingImage : Position -> option ImageTemplate.

(** [image.getENVs()] and [image.getARGs()] *)
Variable getENVs : ImageTemplate -> list Instruction.
Variable getARGs : ImageTemplate -> list Instruction.

(** [instruction.isBefore(line)] *)
Variable isBefore : Instruction -> Z -> bool.

(** [env.getProperties()] and [arg.getProperty()], [null] being [None] *)
Variable getProperties : Instruction -> list Property.
Variable getProperty : Instruction -> option Property.

Definition declares (variable : jsstring) (property : Property) : bool :=
  jsstring_eqb (PropertyM.getName property) variable.

(** The loop over the initial ARGs of a FROM. *)
Fixpoint initialDeclares (initialArgs : list Instruction)
    (variable : jsstring) : bool :=
  match initialArgs with
  | [] => false
  | arg :: rest =>
      match getProperty arg with
      | Some property =>
          if declares variable property then true
          else initialDeclares rest variable
      | None => initialDeclares rest variable
      end
  end.

(** [for (let i = envs.length - 1; i >= 0; i--)], over the reversed
    list. *)
Fixpoint envDeclares (envs : list Instruction) (variable : jsstring)
    (line : Z) : bool :=
  match envs with
  | [] => false
  | env :: rest =>
      if isBefore env line && existsb (declares variable) (getProperties env)
      then true
      else envDeclares rest variable line
  end.

Fixpoint argDeclares (args : list Instruction) (variable : jsstring)
    (line : Z) : bool :=
  match args with
  | [] => false
  | arg :: rest =>
      if isBefore arg line
         && match getProperty arg with
            | Some property => declares variable property
            | None => false
            end
      then true
      else argDeclares rest variable line
  end.

(** [true], [false] or [undefined] ([None]); a TypeError when the
    containing image is [null]. *)
Definition isBuildVariable (this : Instruction) (variable : jsstring)
    (line : Z) : outcome (option bool) :=
  if jsstring_eqb (InstructionM.getKeyword this) (str "FROM") then
    if initialDeclares getInitialARGs variable then Ok (Some true)
    else Ok None
  else
    match getContainingImage (mkPosition line 0) with
    | None => TypeError
    | Some image =>
        if envDeclares (rev (getENVs image)) variable line
        then Ok (Some false)
        else if argDeclares (rev (getARGs image)) variable line
        then Ok (Some true)
        else Ok None
    end.

Section ParseVariables.

Variable this : Instruction.
Variable offset : Z.
Variable arg : jsstring.

Definition escChar : ascii := escapeChar this.

Definition at_ (a b : Z) : Range := rangeAt text (offset + a) (offset + b).

(** [variables.push(new Variable(...))] for a reference that starts at
    [i]: the line of its start decides how it resolves. *)
Definition pushVariable (variables : list VariableT) (i : Z)
    (name : jsstring) (nameRange range : Range)
    (modifier : option jsstring) (modifierRange : option Range)
    (substitutionParameter : option jsstring)
    (substitutionRange : option Range) (stringValue : jsstring)
    : outcome (list VariableT) :=
  let start := positionAt text (offset + i) in
  match isBuildVariable this name (line start) with
  | TypeError => TypeError
  | Ok build =>
      Ok (variables ++
          [mkVariable name nameRange range modifier modifierRange
             substitutionParameter substitutionRange
             (isDefined (resolveVariable name (line start)))
             build stringValue])
  end.

Definition pushPlain (variables : list VariableT) (i j : Z)
    (escapedName : jsstring) : outcome (list VariableT) :=
  pushVariable variables i escapedName (at_ (i + 1) j) (at_ i j)
    None None None None (DOLLAR :: escapedName).

(** After an escape character inside a name: the next LF, if only
    blanks and CRs come before it. *)
Definition escapedLine_body (k : Z) (u : unit) : ctl unit (option Z) :=
  let c := charAt arg k in
  if isChar SP c || isChar TAB c || isChar CR c then Next k tt
  else if isChar LF c then Done (Some k)
  else Next k tt.

Definition escapedLine (j : Z) : option Z :=
  loop (len arg) escapedLine_body (fun _ => None) (j + 1) tt.

Record BraceState : Type := mkBraceState {
  escapedString : jsstring;
  escapedName : jsstring;
  nameEnd : Z;
  escapedSubstitutionParameter : jsstring;
  substitutionStart : Z;
  substitutionEnd : Z;
  modifierRead : Z
}.

(** The closing brace at [j] of the reference that starts at [i]. *)
Definition closeBrace (variables : list VariableT) (i j : Z)
    (s : BraceState) : outcome (list VariableT) :=
  let escapedString := escapedString s ++ [RBRACE] in
  let substitutionParameter :=
    if negb (modifierRead s =? -1)
    then Some (escapedSubstitutionParameter s) else None in
  let '(nameEnd, modifier, modifierRange, substitutionRange) :=
    if nameEnd s =? -1 then (j, None, None, None)
    else if nameEnd s + 1 =? j then
      (nameEnd s, Some [], Some (at_ (nameEnd s + 1) (nameEnd s + 1)), None)
    else
      let '(substitutionStart, substitutionEnd) :=
        if substitutionStart s =? -1
        then (modifierRead s + 1, modifierRead s + 1)
        else (substitutionStart s, substitutionEnd s + 1) in
      (nameEnd s,
       Some (substring arg (modifierRead s) (modifierRead s + 1)),
       Some (at_ (modifierRead s) (modifierRead s + 1)),
       Some (at_ substitutionStart substitutionEnd)) in
  pushVariable variables i (escapedName s) (at_ (i + 2) nameEnd)
    (at_ i (j + 1)) modifier modifierRange substitutionParameter
    substitutionRange escapedString.

(** A character at [j] after the name: part of the substitution
    parameter once the modifier has been read, the modifier before. *)
Definition afterName (s : BraceState) (j : Z) (c : jsstring)
    : BraceState :=
  if negb (modifierRead s =? -1) then
    mkBraceState (escapedString s ++ c) (escapedName s) (nameEnd s)
      (escapedSubstitutionParameter s ++ c)
      (if substitutionStart s =? -1 then j else substitutionStart s)
      j (modifierRead s)
  else
    mkBraceState (escapedString s ++ c) (escapedName s) (nameEnd s)
      (escapedSubstitutionParameter s) (substitutionStart s)
      (substitutionEnd s) j.

Definition brace_body (variables : list VariableT) (i : Z) (j : Z)
    (s : BraceState)
    : ctl BraceState (ctl (list VariableT) (outcome (list VariableT))) :=
  let char := charAt arg j in
  if isChar escChar char then
    match escapedLine j with
    | Some k => Next k s
    | None => Next j s
    end
  else if isChar RBRACE char then
    match closeBrace variables i j s with
    | TypeError => Done (Done TypeError)
    | Ok variables' => Done (Next j variables')
    end
  else if isChar COLON char then
    if nameEnd s =? -1 then
      Next j (mkBraceState (escapedString s ++ [COLON]) (escapedName s)
                j (escapedSubstitutionParameter s) (substitutionStart s)
                (substitutionEnd s) (modifierRead s))
    else Next j (afterName s j [COLON])
  else if isChar LF char || isChar CR char || isChar SP char
          || isChar TAB char then Next j s
  else if nameEnd s =? -1 then
    Next j (mkBraceState (escapedString s ++ chars char)
              (escapedName s ++ chars char) (nameEnd s)
              (escapedSubstitutionParameter s) (substitutionStart s)
              (substitutionEnd s) (modifierRead s))
  else Next j (afterName s j (chars char)).

(** [char.match(/^[a-z0-9_]+$/i) !== null] for one character *)
Definition isNameChar (c : ascii) : bool :=
  let n := nat_of_ascii c in
  (((97 <=? n) && (n <=? 122)) || ((65 <=? n) && (n <=? 90))
   || ((48 <=? n) && (n <=? 57)) || (n =? 95))%nat.

Definition plain_body (variables : list VariableT) (i : Z) (j : Z)
    (escapedName : jsstring)
    : ctl jsstring (ctl (list VariableT) (outcome (list VariableT))) :=
  let char := charAt arg j in
  let finish :=
    match pushPlain variables i j escapedName with
    | TypeError => Done (Done TypeError)
    | Ok variables' => Done (Next (j - 1) variables')
    end in
  if isChar CR char || isChar LF char || isChar SP char
     || isChar TAB char then Next j escapedName
  else if isChar DOLLAR char || isChar SQUOTE char || isChar DQUOTE char
  then finish
  else if isChar escChar char then
    match escapedLine j with
    | Some k => Next k escapedName
    | None =>
        (* reached EOF after an escape character *)
        Done (Done (pushPlain variables i j escapedName))
    end
  else
    match char with
    | Some c =>
        if isNameChar c then Next j (escapedName ++ [c]) else finish
    | None => finish
    end.

Definition variable_body (i : Z) (variables : list VariableT)
    : ctl (list VariableT) (outcome (list VariableT)) :=
  let char := charAt arg i in
  if isChar escChar char then
    if isChar DOLLAR (charAt arg (i + 1)) then Next (i + 1) variables
    else Next i variables
  else if isChar DOLLAR char then
    if isChar LBRACE (charAt arg (i + 1)) then
      loop (len arg) (brace_body variables i)
           (* no } found, not a valid variable, stop processing *)
           (fun _ => Done (Ok variables))
           (i + 2)
           (mkBraceState (str "${") [] (-1) [] (-1) (-1) (-1))
    else if Util.isWhitespace (charAt arg (i + 1))
            || (i =? len arg - 1) then
      (* $ followed by whitespace or EOF, ignore this variable *)
      Next i variables
    else
      loop (len arg) (plain_body variables i)
           (fun escapedName =>
              Done (pushPlain variables i (len arg) escapedName))
           (i + 1) []
  else Next i variables.

Definition parseVariables : outcome (list VariableT) :=
  loop (len arg) variable_body (fun variables => Ok variables) 0 [].

End ParseVariables.

(** [getVariables]: the variables of the raw text of every argument. *)
Fixpoint collectVariables (this : Instruction) (args : list Argument)
    : outcome (list VariableT) :=
  match args with
  | [] => Ok []
  | arg :: rest =>
      let range := argRange arg in
      let rawValue :=
        substring text (offsetAt text (start range))
                  (offsetAt text (end_ range)) in
      match parseVariables this (offsetAt text (start range)) rawValue with
      | TypeError => TypeError
      | Ok parsedVariables =>
          match collectVariables this rest with
          | TypeError => TypeError
          | Ok more => Ok (parsedVariables ++ more)
          end
      end
  end.

Definition getVariables (this : Instruction) : outcome (list VariableT) :=
  collectVariables this (InstructionM.getArguments text this).

End Document.

End Variables.

(** ** The document's views and the resolver

    dockerfile.ts, imageTemplate.ts, line.ts, instructions/arg.ts and
    instructions/env.ts are absent: the definitions of this module follow
    the specification. *)

Module Resolver.

(** Modelled from the spec: the escape character in effect (dockerfile.ts
    is absent).  "The recognized directive kind escape accepts exactly one
    character as value; that character becomes the escape character ...
    any other value keeps the default escape character in effect." *)
Definition getEscapeCharacter (text : jsstring) (d : Dockerfile) : jsstring :=
  match getDirective d with
  | Some p =>
      match ParserDirectiveM.getDirective text p with
      | Some escape =>
          let value := ParserDirectiveM.getValue text p in
          if jsstring_eqb value [BACKSLASH] || jsstring_eqb value [BACKTICK]
          then value else [BACKSLASH]
      | None => [BACKSLASH]
      end
  | None => [BACKSLASH]
  end.

(** Modelled from the spec: the "stage-introducing instruction", the one
    the scanner created as a FROM. *)
Definition isFROM (i : Instruction) : bool :=
  match class i with From => true | _ => false end.

(** Modelled from the spec: the "declaration keyword" instruction, the one
    the scanner created as an ARG. *)
Definition isARG (i : Instruction) : bool :=
  match class i with Arg => true | _ => false end.

(** Modelled from the spec: the "environment-setting keyword" instruction,
    the one the scanner created as an ENV. *)
Definition isENV (i : Instruction) : bool :=
  match class i with Env => true | _ => false end.

(** The first and the last line of the range of an instruction. *)
Definition startLine (i : Instruction) : Z := line (start (range i)).

Definition endLine (i : Instruction) : Z := line (end_ (range i)).

(** Modelled from the spec: the partition of the instructions into stages
    "at each stage-introducing instruction".  The first component holds the
    instructions before the first FROM; every stage begins with its FROM
    and "extends to (but excludes) the next stage-introducing instruction
    or end of document". *)
Fixpoint splitStages (instrs : list Instruction)
    : list Instruction * list (list Instruction) :=
  match instrs with
  | [] => ([], [])
  | i :: rest =>
      let '(initial, stages) := splitStages rest in
      if isFROM i then ([], (i :: initial) :: stages)
      else (i :: initial, stages)
  end.

(** Modelled from the spec: "the initial (stage-0,
    pre-first-stage-instruction) declarations of the ARG-equivalent
    keyword". *)
Definition getInitialARGs (d : Dockerfile) : list Instruction :=
  filter isARG (fst (splitStages (getInstructions d))).

(** Modelled from the spec: the "list of instructions filtered by" the
    FROM keyword. *)
Definition getFROMs (d : Dockerfile) : list Instruction :=
  filter isFROM (getInstructions d).

(** Modelled from the spec: an "ImageScope (Document itself, or a stage
    view)"; a stage "is computed on demand from the Document's instruction
    list" and is given here by its instructions. *)
Inductive ImageScope : Type :=
| DocumentScope
| StageScope (instrs : list Instruction).

(** Modelled from the spec: "stage boundaries are the lines of all
    stage-introducing instructions": the stage of a line is the last one
    whose FROM starts at or before the line. *)
Fixpoint stageAt (stages : list (list Instruction)) (line : Z)
    (found : option (list Instruction)) : option (list Instruction) :=
  match stages with
  | [] => found
  | stage :: rest =>
      match stage with
      | from :: _ =>
          if startLine from <=? line then stageAt rest line (Some stage)
          else stageAt rest line found
      | [] => stageAt rest line found
      end
  end.

Definition positionEqb (a b : Position) : bool :=
  (line a =? line b) && (character a =? character b).

(** Modelled from the spec: a position is in the document when it is
    "actually reachable", that is when an offset of the text has it. *)
Definition reachable (text : jsstring) (position : Position) : bool :=
  positionEqb (positionAt text (offsetAt text position)) position.

(** Modelled from the spec: "returns the Document itself if position falls
    before any stage-introducing instruction (or the document has none), or
    the smallest-stage image scope that structurally contains the
    position's line, or null if the position is out of document bounds or
    strictly lies in the gap between the end of one physical line's content
    and the newline when that position is not actually reachable".  As the
    sentence says, every line at or after a FROM is in the stage of that
    FROM here, and every line before the first FROM is in the document
    itself.  The tests of getContainingImage in the repository expect the
    document itself for the line of a comment that follows the
    instructions of a stage, and a scope other than the document for the
    line of an ARG before the first FROM: on such lines this function
    follows the sentence.  It agrees with the tests on the empty document
    and on the lines of the instructions of a stage. *)
Definition getContainingImage (text : jsstring) (d : Dockerfile)
    (position : Position) : option ImageScope :=
  if reachable text position then
    match stageAt (snd (splitStages (getInstructions d))) (line position) None with
    | Some stage => Some (StageScope stage)
    | None => Some DocumentScope
    end
  else None.

Section Declarations.

Variable findLeadingNonWhitespace : jsstring -> ascii -> Z.
Variable text : jsstring.

(** Modelled from the spec: the property of a declaration keyword, "an
    argument of the form NAME or NAME=VALUE", taken from its first
    argument; none without arguments. *)
Definition getProperty (i : Instruction) : option Property :=
  match InstructionM.getArguments text i with
  | [] => None
  | arg :: _ =>
      Some (PropertyM.newProperty findLeadingNonWhitespace (escapeChar i)
              text arg None)
  end.

(** The argument is of the form NAME=VALUE. *)
Definition hasEquals (arg : Argument) : bool :=
  negb (indexOf (argValue arg) EQUALS =? -1).

(** Modelled from the spec: the properties of an environment-setting
    instruction: one per NAME=VALUE argument, or the "legacy two-token
    form" of a name followed by a value. *)
Definition getProperties (i : Instruction) : list Property :=
  let new a b :=
    PropertyM.newProperty findLeadingNonWhitespace (escapeChar i) text a b in
  match InstructionM.getArguments text i with
  | [] => []
  | arg :: arg2 :: rest =>
      if hasEquals arg then map (fun a => new a None) (arg :: arg2 :: rest)
      else [new arg (Some arg2)]
  | [arg] => [new arg None]
  end.

(** Modelled from the spec: the declarations of a "declaration-bearing"
    instruction, in order: the property of an ARG, the properties of an
    ENV. *)
Definition declarations (i : Instruction) : list Property :=
  if isARG i then
    match getProperty i with Some p => [p] | None => [] end
  else if isENV i then getProperties i
  else [].

(** A "match by name". *)
Definition declares (variable : jsstring) (p : Property) : bool :=
  jsstring_eqb (PropertyM.getName p) variable.

(** Modelled from the spec: a declaration is visible at [line] when its
    instruction starts "at or before" the line; "declarations strictly after
    line ... are not visible". *)
Definition visibleAt (line : Z) (i : Instruction) : bool :=
  startLine i <=? line.

(** "The declared value (string) if found, null if
    declared-but-valueless". *)
Definition valueOf (p : Property) : resolved :=
  match PropertyM.getValue_ p with
  | Some v => Value v
  | None => Null
  end.

(** Modelled from the spec: "walks the ... declaration-bearing
    instructions (both the declaration keyword and the alternate
    environment-setting keyword) backward from line, returning the first
    (nearest preceding) match by name".  [instrs] is the reversed list. *)
Fixpoint walkBack (instrs : list Instruction) (variable : jsstring)
    (line : Z) : resolved :=
  match instrs with
  | [] => Undefined
  | i :: rest =>
      if visibleAt line i then
        match find (declares variable) (declarations i) with
        | Some p => valueOf p
        | None => walkBack rest variable line
        end
      else walkBack rest variable line
  end.

(** Modelled from the spec: the walk "backward from line" over the
    instructions of a scope. *)
Definition resolveIn (instrs : list Instruction) (variable : jsstring)
    (line : Z) : resolved :=
  walkBack (rev instrs) variable line.

(** Modelled from the spec: the instructions in scope: those of the
    stage, or all of them when "the Document itself acts as stage 0". *)
Definition scopeInstructions (d : Dockerfile) (scope : ImageScope)
    : list Instruction :=
  match scope with
  | DocumentScope => getInstructions d
  | StageScope stage => stage
  end.

(** Modelled from the spec: the line is one of "the stage-introducing
    instruction's own argument list". *)
Definition onFROM (d : Dockerfile) (line : Z) : bool :=
  existsb (fun from => (startLine from <=? line) && (line <=? endLine from))
          (getFROMs d).

(** Modelled from the spec: [resolveVariable] (section 4.4; dockerfile.ts
    is absent).  On the line of a FROM the
    initial declarations are what is visible.  Elsewhere the containing
    stage is walked; a declaration without a value there re-declares the
    name, so an initial declaration of it is inherited, and the name
    stays declared-but-valueless ([Null]) when there is none. *)
Definition resolveVariable (d : Dockerfile) (variable : jsstring)
    (line : Z) : resolved :=
  if onFROM d line then resolveIn (getInitialARGs d) variable line
  else
    match getContainingImage text d (mkPosition line 0) with
    | None => Undefined
    | Some scope =>
        match resolveIn (scopeInstructions d scope) variable line with
        | Null =>
            match resolveIn (getInitialARGs d) variable line with
            | Undefined => Null
            | r => r
            end
        | r => r
        end
    end.

End Declarations.

End Resolver.

(** ** Predicates used in the statements *)

(** Every character of [s] at an offset in [[a, b)] satisfies [p]. *)
Definition allBetween (p : option ascii -> bool) (s : jsstring) (a b : Z)
    : Prop :=
  forall x, a <= x < b -> p (charAt s x) = true.

Definition isBlank (char : option ascii) : bool :=
  isChar SP char || isChar TAB char.

Definition notWhitespace (char : option ascii) : bool :=
  negb (Util.isWhitespace char).

(** Neither whitespace nor [=]. *)
Definition isDirectiveNameChar (char : option ascii) : bool :=
  negb (Util.isWhitespace char) && negb (isChar EQUALS char).

(** What [getDirectiveSymbol] finds, in offsets of the buffer. *)
Definition goodSymbol (buffer : jsstring) (s : Parser.symbol) : Prop :=
  match s with
  | Parser.SComment commentStart lineEnd =>
      0 <= commentStart <= lineEnd /\ lineEnd <= len buffer
      /\ allBetween isBlank buffer 0 commentStart
  | Parser.SDirective commentStart lineEnd directiveStart directiveEnd
                      valueStart valueEnd =>
      0 <= commentStart /\ commentStart < directiveStart
      /\ directiveStart < directiveEnd /\ directiveEnd < valueStart
      /\ valueStart <= valueEnd /\ valueEnd <= lineEnd
      /\ lineEnd <= len buffer
      /\ allBetween isBlank buffer 0 commentStart
      /\ allBetween isDirectiveNameChar buffer directiveStart directiveEnd
      /\ (isChar EQUALS (charAt buffer directiveEnd) = true
          \/ isBlank (charAt buffer directiveEnd) = true)
      /\ (allBetween notWhitespace buffer valueStart valueEnd
          \/ allBetween isBlank buffer valueStart lineEnd /\ valueEnd = lineEnd)
  end.

(** The value scanned after the [=] at [j]. *)
Definition valueResult (buffer : jsstring) (j : Z) (r : Z * Z * Z) : Prop :=
  let '(valueStart, valueEnd, lineEnd) := r in
  j + 1 <= lineEnd <= len buffer
  /\ ((valueStart = -1 /\ allBetween isBlank buffer (j + 1) lineEnd)
      \/ (j + 1 <= valueStart
          /\ ((valueEnd = -1 /\ lineEnd = len buffer /\ valueStart < len buffer
               /\ allBetween notWhitespace buffer valueStart (len buffer))
              \/ (valueStart < valueEnd <= lineEnd
                  /\ allBetween notWhitespace buffer valueStart valueEnd)))).

(** Not a character that ends the scan of a directive: a line break or
    [=]. *)
Definition notDirectiveStop (char : option ascii) : bool :=
  negb (isChar CR char) && negb (isChar LF char) && negb (isChar EQUALS char).

(** What a loop of the scanner hands to [lineCheck]: an index not before
    [lo], and a document that satisfies [J]. *)
Definition resumes (J : Dockerfile -> Prop) (lo : Z)
    (r : ctl Dockerfile Dockerfile) : Prop :=
  match r with
  | Next i d => lo <= i /\ J d
  | Done d => J d
  end.

(** A string that neither starts nor ends with whitespace. *)
Definition noFlankingWhitespace (s : jsstring) : Prop :=
  notWhitespace (charAt s 0) = true
  /\ notWhitespace (charAt s (len s - 1)) = true.

(** Documents used as examples. *)
Definition NL : jsstring := [LF].

Definition blankValueDirective : jsstring :=
  str "# escape= " ++ [TAB; CR; LF].

Definition commentThenDirective : jsstring :=
  str "# comment" ++ NL ++ str "# escape=`".

Definition escapeBacktick : jsstring := str "# escape=`".
Definition escapeLetter : jsstring := str "# escape=a".
Definition capitalEscape : jsstring := str "# Escape=`".

(** The directive of a one-line document whose name is at columns 2 to 8
    and whose value is at columns 9 to [valueEnd]. *)
Definition directiveAt (valueEnd : Z) : ParserDirective :=
  mkParserDirective
    (mkRange (mkPosition 0 0) (mkPosition 0 valueEnd))
    (mkRange (mkPosition 0 2) (mkPosition 0 8))
    (mkRange (mkPosition 0 9) (mkPosition 0 valueEnd)).




Definition quotedNameARG : jsstring :=
  str "ARG " ++ [DQUOTE] ++ str "var" ++ [DQUOTE] ++ str "=value".




Definition quotedNameArgument : Argument :=
  mkArgument ([DQUOTE] ++ str "var" ++ [DQUOTE] ++ str "=value")
             (mkRange (mkPosition 0 4) (mkPosition 0 15)).


(** The document of the stage-scoping example: an ARG before the first
    FROM, re-declared without a value in the first stage and with another
    value in the second. *)
Definition stagedARGs : jsstring :=
  str "ARG v=1" ++ NL ++ str "FROM a" ++ NL ++ str "ARG v" ++ NL
  ++ str "RUN echo $v" ++ NL ++ str "FROM b" ++ NL ++ str "ARG v=2" ++ NL
  ++ str "RUN echo $v".

(** The instructions of the image that contains [position], as the
    resolver sees it. *)
Definition imageAt (text : jsstring) (d : Dockerfile) (position : Position)
    : option (list Instruction) :=
  option_map (Resolver.scopeInstructions d)
             (Resolver.getContainingImage text d position).

(** [isBefore] read as: the instruction starts on an earlier line. *)
Definition startsBefore (i : Instruction) (line : Z) : bool :=
  Resolver.startLine i <? line.

Definition nthInstruction (text : jsstring) (n : nat) : Instruction :=
  nth n (getInstructions (Parser.parse text))
      (mkInstruction Generic (mkRange (mkPosition 0 0) (mkPosition 0 0))
         BACKSLASH [] (mkRange (mkPosition 0 0) (mkPosition 0 0))).

(** What the argument splitter makes of a token without whitespace: the
    escape character is dropped and the character after it is kept, except
    before [$], where both are kept. *)
Fixpoint unescapeToken (e : ascii) (token : jsstring) : jsstring :=
  match token with
  | [] => []
  | c :: rest =>
      if Ascii.eqb c e then
        match rest with
        | [] => []
        | next :: rest' =>
            if Ascii.eqb next DOLLAR
            then e :: DOLLAR :: unescapeToken e rest'
            else next :: unescapeToken e rest'
        end
      else c :: unescapeToken e rest
  end.

(** A variable whose range starts, at offset [p] of the argument, at a [$]
    that no escape character precedes. *)
Definition startsAtLiveDollar (text : jsstring) (e : ascii) (offset : Z)
    (arg : jsstring) (v : VariableT) : Prop :=
  exists p q,
    varRange v = rangeAt text (offset + p) (offset + q)
    /\ charAt arg p = Some DOLLAR
    /\ isChar e (charAt arg (p - 1)) = false.

Definition escapedDollarRUN : jsstring := str "RUN echo \$v a\bc".

(** ** The nearest visible declaration *)

Section Nearest.

Variable findLeadingNonWhitespace : jsstring -> ascii -> Z.
Variable text : jsstring.

(** What [instruction] declares [variable] to be, if it does. *)
Definition declaration (variable : jsstring) (instruction : Instruction)
    : option Property :=
  find (Resolver.declares variable)
       (Resolver.declarations findLeadingNonWhitespace text instruction).

(** No instruction of [instrs] that is visible at [line] declares
    [variable]. *)
Definition undeclared (instrs : list Instruction) (variable : jsstring)
    (line : Z) : Prop :=
  forall i, In i instrs -> Resolver.visibleAt line i = true ->
            declaration variable i = None.

(** [p] is the declaration of [variable] by the last instruction of
    [instrs] that is visible at [line] and declares it. *)
Definition nearest (instrs : list Instruction) (variable : jsstring)
    (line : Z) (p : Property) : Prop :=
  exists before i after,
    instrs = before ++ i :: after
    /\ Resolver.visibleAt line i = true
    /\ declaration variable i = Some p
    /\ undeclared after variable line.

(** The instructions whose declarations are visible at [line]: the initial
    ARGs on the line of a FROM, those of the containing image elsewhere, and
    none outside the document. *)
Definition visibleScope (d : Dockerfile) (line : Z)
    : option (list Instruction) :=
  if Resolver.onFROM d line then Some (Resolver.getInitialARGs d)
  else imageAt text d (mkPosition line 0).

End Nearest.

(** An ARG before the first FROM that no stage re-declares. *)
Definition initialOnly : jsstring :=
  str "ARG v=1" ++ NL ++ str "FROM a$v" ++ NL ++ str "RUN echo $v".

(** The documents of the resolveVariable test. *)
Definition threeStages : jsstring :=
  str "ARG ver=latest" ++ NL ++ str "FROM busybox:$ver" ++ NL
  ++ str "ARG ver" ++ NL ++ str "RUN echo $ver" ++ NL
  ++ str "FROM busybox:$ver" ++ NL ++ str "ARG ver=override" ++ NL
  ++ str "RUN echo $ver" ++ NL ++ str "FROM busybox:$ver" ++ NL
  ++ str "RUN echo $ver".

Definition redeclaredTwice : jsstring :=
  str "ARG ver=latest" ++ NL ++ str "ARG ver" ++ NL ++ str "FROM alpine" ++ NL
  ++ str "ARG ver" ++ NL ++ str "RUN echo $ver".

Definition envBeforeFROM : jsstring :=
  str "ENV image=alpine" ++ NL ++ str "FROM $image".

Definition fromAlpine : jsstring := str "FROM alpine".

(** [dockerfile.resolveVariable(variable, line)] on the parsed text. *)
Definition resolveAt (text : jsstring) (variable : string) (line : Z)
    : resolved :=
  Resolver.resolveVariable Util.findLeadingNonWhitespace text
    (Parser.parse text) (str variable) line.

(** ** The text of an instruction (instruction.ts) *)

Module InstructionText.

(** [toString]: the keyword, then every argument value after a blank. *)
Definition toString (text : jsstring) (i : Instruction) : jsstring :=
  fold_left (fun value arg => value ++ [SP] ++ argValue arg)
            (InstructionM.getArguments text i) (InstructionM.getKeyword i).

(** [getRangeContent]: [null] for the [null] range. *)
Definition getRangeContent (text : jsstring) (range : option Range)
    : option jsstring :=
  match range with
  | None => None
  | Some range =>
      Some (substring text (offsetAt text (start range))
                      (offsetAt text (end_ range)))
  end.

Definition getInstructionRange (i : Instruction) : Range := instructionRange i.

(** [getArgumentsRange]: from the start of the first argument to the end of
    the last one, [null] without arguments. *)
Definition getArgumentsRange (text : jsstring) (i : Instruction)
    : option Range :=
  let args := InstructionM.getArguments text i in
  match args with
  | [] => None
  | first :: _ =>
      Some (mkRange (start (argRange first))
                    (end_ (argRange (last args first))))
  end.

Definition getRawArgumentsContent (text : jsstring) (i : Instruction)
    : option jsstring :=
  let args := InstructionM.getArguments text i in
  match args with
  | [] => None
  | first :: _ =>
      getRangeContent text
        (Some (mkRange (start (argRange first))
                       (end_ (argRange (last args first)))))
  end.

End InstructionText.

(** ** Blank-separated tokens *)

(** The text of a list of tokens, each after its run of whitespace. *)
Definition joinSegments (segments : list (jsstring * jsstring)) : jsstring :=
  flat_map (fun segment => fst segment ++ snd segment) segments.

(** The arguments the tokens of [segments] are, when the first run of
    whitespace starts at offset [from] of the document. *)
Fixpoint tokenArguments (text : jsstring) (from : Z)
    (segments : list (jsstring * jsstring)) : list Argument :=
  match segments with
  | [] => []
  | segment :: rest =>
      let a := from + len (fst segment) in
      let b := a + len (snd segment) in
      mkArgument (snd segment) (rangeAt text a b) :: tokenArguments text b rest
  end.

(** A run of whitespace that is not empty, then a token that is not empty
    and holds neither whitespace nor the escape character. *)
Definition goodSegment (e : ascii) (segment : jsstring * jsstring) : Prop :=
  fst segment <> []
  /\ Forall (fun c => Util.isWhitespace (Some c) = true) (fst segment)
  /\ snd segment <> []
  /\ Forall (fun c => Util.isWhitespace (Some c) = false
                      /\ Ascii.eqb c e = false) (snd segment).

(** A character of a keyword: neither whitespace nor the backslash. *)
Definition isKeywordChar (c : ascii) : bool :=
  negb (Util.isWhitespace (Some c)) && negb (Ascii.eqb c BACKSLASH).

(** A character of the ASCII range, where [toUpperCase] and [toLowerCase]
    are those of the code: the letters [a] to [z] and [A] to [Z] are the
    only characters they change. *)
Definition isAsciiChar (c : ascii) : bool := (nat_of_ascii c <? 128)%nat.

(** A character of a line without continuation: neither a line break nor
    the backslash. *)
Definition isLineChar (c : ascii) : bool :=
  negb (Util.isNewline (Some c)) && negb (Ascii.eqb c BACKSLASH).

(** The only instruction of a one-line document that begins with
    [keyword]. *)
Definition lineInstruction (buffer keyword : jsstring) : Instruction :=
  Parser.createInstruction BACKSLASH (rangeAt buffer 0 (len buffer))
    keyword (rangeAt buffer 0 (len keyword)).

(** The state of [getArguments] between two arguments, and inside an
    argument that began at [found] and holds no escape character. *)
Definition idleState (args : list Argument) : InstructionM.ArgState :=
  InstructionM.mkArgState args false false (-1) false false (-1) [].

Definition tokenState (args : list Argument) (found : Z)
    (escapedArg : jsstring) : InstructionM.ArgState :=
  InstructionM.mkArgState args false false found false false (-1) escapedArg.

(** The values of the tokens, each after one blank: what [toString] puts
    after the keyword. *)
Definition joinTokens (segments : list (jsstring * jsstring)) : jsstring :=
  flat_map (fun segment => SP :: snd segment) segments.

(** The text of the tokens from the first one to the last one. *)
Definition trimSegments (segments : list (jsstring * jsstring)) : jsstring :=
  match segments with
  | [] => []
  | segment :: rest => snd segment ++ joinSegments rest
  end.

(** An instruction of [text] that starts at [a], whose keyword ends at [c]
    and that ends at [b]. *)
Definition instructionAt (text : jsstring) (i : Instruction) (a c b : Z)
    : Prop :=
  range i = rangeAt text a b /\ instructionRange i = rangeAt text a c
  /\ 0 <= a <= c /\ c <= b <= len text.

(** A segment of a line without continuation: blanks and tabs, then a token
    without whitespace or backslash. *)
Definition lineSegment (segment : jsstring * jsstring) : Prop :=
  goodSegment BACKSLASH segment
  /\ Forall (fun c => isBlank (Some c) = true) (fst segment).

(** ** Variable references *)

(** A character that ends the name of a [$name] reference and is not part
    of another one: neither whitespace, nor the escape character, nor a
    character of a name. *)
Definition isReferenceEnd (e : ascii) (c : ascii) : bool :=
  negb (Util.isWhitespace (Some c)) && negb (Ascii.eqb c e)
  && negb (Variables.isNameChar c).

(** A character of the name of a [${name}] reference. *)
Definition isBraceNameChar (e : ascii) (c : ascii) : bool :=
  negb (Ascii.eqb c e) && negb (Ascii.eqb c RBRACE)
  && negb (Ascii.eqb c COLON) && negb (Util.isWhitespace (Some c)).

(** A character of the substitution parameter of a [${name:-parameter}]
    reference. *)
Definition isBraceParameterChar (e : ascii) (c : ascii) : bool :=
  negb (Ascii.eqb c e) && negb (Ascii.eqb c RBRACE)
  && negb (Util.isWhitespace (Some c)).

(** The text between the name and the closing brace: nothing, or a colon,
    a modifier character and a substitution parameter. *)
Definition modifierText (modifier : option (ascii * jsstring)) : jsstring :=
  match modifier with
  | None => []
  | Some (m, parameter) => COLON :: m :: parameter
  end.

(** Every [$] of [arg] is its last character or has whitespace after it. *)
Definition noReference (arg : jsstring) : Prop :=
  forall i, charAt arg i = Some DOLLAR ->
    Util.isWhitespace (charAt arg (i + 1)) = true \/ i = len arg - 1.

(** An instruction with references in its arguments, and [parseVariables]
    on an argument of its first instruction when the document declares
    nothing. *)
Definition echoReferences : jsstring :=
  str "RUN echo a-$var/b ${name:-value} x${open".

Definition parseUndeclared (text : jsstring) (offset : Z) (arg : jsstring)
    : outcome (list VariableT) :=
  Variables.parseVariables text (fun _ _ => Undefined) unit []
    (fun _ => Some tt) (fun _ => []) (fun _ => []) (fun _ _ => false)
    (fun _ => []) (fun _ => None) (nthInstruction text 0) offset arg.

(** ** Values of properties *)

(** The text between a pair of enclosing single or double quotes, or the
    value itself when it is not enclosed in such a pair. *)
Definition unquote (value : jsstring) : jsstring :=
  let first := charAt value 0 in
  let last := charAt value (len value - 1) in
  if (2 <=? len value)
     && ((isChar SQUOTE first && isChar SQUOTE last)
         || (isChar DQUOTE first && isChar DQUOTE last))
  then substring value 1 (len value - 1)
  else value.

(** A character that is neither the escape character nor a line break. *)
Definition isPlainChar (e : ascii) (c : ascii) : bool :=
  negb (Ascii.eqb c e) && negb (Util.isNewline (Some c)).

(** ** Property.getUnescapedValue (property.ts) *)

Module PropertyText.

Section GetUnescapedValue.

Variable escapeChar : ascii.
Variable value : jsstring.

Record RawState : Type := mkRawState {
  rawEscaped : bool;
  rawValue : jsstring
}.

(** After the escape character [char] at [i]: a line break that only
    blanks and tabs separate from it is escaped; any other character keeps
    the escape character in the value. *)
Definition rawEscape_body (s : RawState) (i : Z) (char : option ascii)
    (j : Z) (u : unit) : ctl unit (ctl RawState jsstring) :=
  let c := charAt value j in
  if isChar CR c then Done (Next (j + 1) (mkRawState true (rawValue s)))
  else if isChar LF c then Done (Next j (mkRawState true (rawValue s)))
  else if isChar SP c || isChar TAB c then Next j tt
  else Done (Next i (mkRawState (rawEscaped s) (rawValue s ++ chars char))).

(** The line break that ends a comment starting at [i]. *)
Definition rawComment_body (j : Z) (u : unit) : ctl unit Z :=
  if isChar CR (charAt value j) then Done (j + 1)
  else if isChar LF (charAt value j) then Done j
  else Next j tt.

Definition raw_body (i : Z) (s : RawState) : ctl RawState jsstring :=
  let char := charAt value i in
  if isChar escapeChar char then
    loop (len value) (rawEscape_body s i char)
         (* only whitespace after the escape character *)
         (fun _ =>
            Next i (mkRawState (rawEscaped s) (rawValue s ++ chars char)))
         (i + 1) tt
  else if isChar CR char || isChar LF char then Next i s
  else if isChar SP char || isChar TAB char then
    Next i (if negb (rawEscaped s)
            then mkRawState (rawEscaped s) (rawValue s ++ chars char)
            else s)
  else if isChar HASH char then
    if rawEscaped s then
      Next (loop (len value) rawComment_body (fun _ => i) (i + 1) tt) s
    else Next i (mkRawState (rawEscaped s) (rawValue s ++ chars char))
  else Next i (mkRawState false (rawValue s ++ chars char)).

Definition unescape : jsstring :=
  loop (len value) raw_body (fun s => rawValue s) 0 (mkRawState false []).

End GetUnescapedValue.

(** [getUnescapedValue] of a property of the document [text] that was made
    with the escape character [escapeChar]; [null] is [None]. *)
Definition getUnescapedValue (text : jsstring) (escapeChar : ascii)
    (p : Property) : option jsstring :=
  match propValueRange p with
  | None => None
  | Some valueRange =>
      let value :=
        substring text (offsetAt text (start valueRange))
                  (offsetAt text (end_ valueRange)) in
      Some (unescape escapeChar value)
  end.

End PropertyText.

(** The first character of the text after an escaped line break: not a
    blank, a tab, a line break, the escape character or [#]. *)
Definition isContinuationStart (e : ascii) (c : ascii) : bool :=
  negb (Util.isWhitespace (Some c)) && negb (Ascii.eqb c e)
  && negb (Ascii.eqb c HASH).

(** ** Instruction.getExpandedArguments (instruction.ts) *)

Module Expansion.

Section Document.

Variable text : jsstring.

(** The document of the instruction, as in [Variables]. *)
Variable resolveVariable : jsstring -> Z -> resolved.
Variable ImageTemplate : Type.
Variable getInitialARGs : list Instruction.
Variable getContainingImage : Position -> option ImageTemplate.
Variable getENVs : ImageTemplate -> list Instruction.
Variable getARGs : ImageTemplate -> list Instruction.
Variable isBefore : Instruction -> Z -> bool.
Variable getProperties : Instruction -> list Property.
Variable getProperty : Instruction -> option Property.

Variable this : Instruction.

(** The loop over the variables of an argument: the value every variable
    resolves to, and whether one of them is not [undefined]. *)
Definition resolveAll (variables : list VariableT) : list resolved * bool :=
  fold_left
    (fun (acc : list resolved * bool) variable =>
       let value :=
         resolveVariable (varName variable)
           (line (start (varNameRange variable))) in
       (fst acc ++ [value], snd acc || isDefined value))
    variables ([], false).

(** [if (swaps[j])]: a string that is not empty. *)
Definition truthy (value : resolved) : option jsstring :=
  match value with
  | Value (c :: rest) => Some (c :: rest)
  | _ => None
  end.

(** The loop over the swaps: the text before every variable, then its
    value or, without one, its own text. *)
Definition swap (acc : Z * jsstring) (entry : resolved * VariableT)
    : Z * jsstring :=
  let '(offset, expanded) := acc in
  let variableRange := varRange (snd entry) in
  let start := offsetAt text (start variableRange) in
  let end' := offsetAt text (end_ variableRange) in
  match truthy (fst entry) with
  | Some value =>
      (* replace variable with its resolved value *)
      (end', expanded ++ substring text offset start ++ value)
  | None => (end', expanded ++ substring text offset end')
  end.

Definition expandArgument (arg : Argument) : outcome Argument :=
  let argRange := argRange arg in
  let offset := offsetAt text (start argRange) in
  match Variables.parseVariables text resolveVariable ImageTemplate
          getInitialARGs getContainingImage getENVs getARGs isBefore
          getProperties getProperty this offset (argValue arg) with
  | TypeError => TypeError
  | Ok variables =>
      let '(swaps, requiresExpansion) := resolveAll variables in
      if requiresExpansion then
        let '(offset, expanded) :=
          fold_left swap (combine swaps variables) (offset, []) in
        let argEnd := offsetAt text (end_ argRange) in
        let expanded :=
          if negb (argEnd =? offset)
          then expanded ++ substring text offset argEnd
          else expanded in
        Ok (mkArgument expanded argRange)
      else Ok arg
  end.

Fixpoint expandAll (args : list Argument) : outcome (list Argument) :=
  match args with
  | [] => Ok []
  | arg :: rest =>
      match expandArgument arg with
      | TypeError => TypeError
      | Ok arg' =>
          match expandAll rest with
          | TypeError => TypeError
          | Ok rest' => Ok (arg' :: rest')
          end
      end
  end.

Definition getExpandedArguments : outcome (list Argument) :=
  expandAll (InstructionM.getArguments text this).

End Document.

End Expansion.

(** An instruction whose second argument is a reference, a resolver that
    knows [v] only, and the expansion of the arguments with it. *)
Definition expandExample : jsstring := str "RUN echo $v x".

Definition resolveExample (name : jsstring) (line : Z) : resolved :=
  if jsstring_eqb name (str "v") then Value (str "1") else Undefined.

Definition expandExampleArgument (arg : Argument) : outcome Argument :=
  Expansion.expandArgument expandExample resolveExample unit []
    (fun _ => Some tt) (fun _ => []) (fun _ => []) (fun _ _ => false)
    (fun _ => []) (fun _ => None) (nthInstruction expandExample 0) arg.

Definition expandedExample : outcome (list Argument) :=
  Expansion.getExpandedArguments expandExample resolveExample unit []
    (fun _ => Some tt) (fun _ => []) (fun _ => []) (fun _ _ => false)
    (fun _ => []) (fun _ => None) (nthInstruction expandExample 0).

(** ** The order of the lines *)

Definition notNewline (char : option ascii) : bool :=
  negb (Util.isNewline char).

(** What a loop of the scanner hands to [lineCheck] when every comment
    recorded so far ends at or before the first index of [K] and every
    instruction at or before the second one: an index not before [lo] after
    which the scan goes on, or the document at the end of the scan. *)
Definition resumesAt (K : Z -> Z -> Dockerfile -> Prop) (lo : Z)
    (r : ctl Dockerfile Dockerfile) : Prop :=
  match r with
  | Next i d => lo <= i /\ K (i + 1) (i + 1) d
  | Done d => exists m, K m m d
  end.

(** Every element of the list is related to the ones after it. *)
Fixpoint inOrder {A : Type} (R : A -> A -> Prop) (l : list A) : Prop :=
  match l with
  | [] => True
  | x :: rest => Forall (R x) rest /\ inOrder R rest
  end.

(** An instruction scanned in [buffer] that ends at or before [hi]: it
    starts at a character that is neither whitespace nor [#], its keyword
    range starts there and is not empty, and its range contains it. *)
Definition scannedInstruction (buffer : jsstring) (hi : Z) (x : Instruction)
    : Prop :=
  exists a c b,
    0 <= a /\ a < c /\ c <= b /\ b <= len buffer /\ b <= hi
    /\ range x = rangeAt buffer a b
    /\ instructionRange x = rangeAt buffer a c
    /\ notWhitespace (charAt buffer a) = true
    /\ isChar HASH (charAt buffer a) = false.

(** [x] ends at or before the start of [y]. *)
Definition endsBefore (text : jsstring) (x y : Range) : Prop :=
  offsetAt text (end_ x) <= offsetAt text (start y).

(** A comment scanned in [buffer] that ends at or before [hi]: it starts at
    a [#], holds no line break, and ends at a line break or at the end of
    the buffer. *)
Definition scannedComment (buffer : jsstring) (hi : Z) (c : Comment) : Prop :=
  exists a b,
    0 <= a /\ a < b /\ b <= len buffer /\ b <= hi
    /\ commentRange c = rangeAt buffer a b
    /\ isChar HASH (charAt buffer a) = true
    /\ allBetween notNewline buffer a b
    /\ (b = len buffer \/ Util.isNewline (charAt buffer b) = true).

(** [getVariables] on the first instruction of a document that declares
    nothing. *)
Definition variablesUndeclared (text : jsstring) : outcome (list VariableT) :=
  Variables.getVariables text (fun _ _ => Undefined) unit []
    (fun _ => Some tt) (fun _ => []) (fun _ => []) (fun _ _ => false)
    (fun _ => []) (fun _ => None) (nthInstruction text 0).

(** ** Instruction.getArgumentsRanges and Instruction.getArgumentsContent
       (instruction.ts)

    [Range.create] belongs to vscode-languageserver-types and rejects a
    position that is [null] with an exception; the functions below return
    [None] when the code reaches such a call. *)

Module InstructionRanges.

(** The variables of the loop of [getArgumentsRanges]; [lastEnd] is the
    source's [end]. *)
Record RangesState : Type := mkRangesState {
  ranges : list Range;
  lastEnd : Z;
  startPosition : option Position;
  start_ : bool;
  comment : bool
}.

(** [Range.create(startPosition, end)] *)
Definition createRange (startPosition : option Position) (upTo : Position)
    : option Range :=
  match startPosition with
  | Some p => Some (mkRange p upTo)
  | None => None
  end.

Section GetArgumentsRanges.

Variable text : jsstring.
Variable escChar : ascii.
Variable fullArgs : jsstring.
Variable offset : Z.

(** [ranges.push(Range.create(startPosition, positionAt(offset + end + 1)))]
    followed by [startPosition = null; start = true; comment = false]. *)
Definition continueLine (s : RangesState) : option RangesState :=
  match createRange (startPosition s)
          (positionAt text (offset + lastEnd s + 1)) with
  | Some r => Some (mkRangesState (ranges s ++ [r]) (lastEnd s) None true false)
  | None => None
  end.

(** The loop over the blanks that follow the escape character at [i]. *)
Definition whitespaceCheck_body (s : RangesState) (i : Z) (j : Z) (u : unit)
    : ctl unit (option (Z * RangesState)) :=
  let c := charAt fullArgs j in
  if isChar SP c || isChar TAB c then Next j tt
  else if isChar CR c then
    Done (match continueLine s with
          | Some s' => Some (j + 1, s')
          | None => None
          end)
  else if isChar LF c then
    Done (match continueLine s with
          | Some s' => Some (j, s')
          | None => None
          end)
  else Done (Some (i, s)).

Definition whitespaceCheck (s : RangesState) (i : Z)
    : option (Z * RangesState) :=
  loop (len fullArgs) (whitespaceCheck_body s i) (fun _ => Some (i, s))
       (i + 2) tt.

Definition range_body (i : Z) (s : RangesState)
    : ctl RangesState (option (list Range)) :=
  let char := charAt fullArgs i in
  if isChar escChar char then
    let next := charAt fullArgs (i + 1) in
    if isChar SP next || isChar TAB next then
      match whitespaceCheck s i with
      | Some (i', s') => Next i' s'
      | None => Done None
      end
    else if isChar CR next then
      match continueLine s with
      | Some s' => Next (i + 2) s'
      | None => Done None
      end
    else if isChar LF next then
      match continueLine s with
      | Some s' => Next (i + 1) s'
      | None => Done None
      end
    else Next (i + 1) s
  else if Util.isNewline char then
    if comment s then
      Next i (mkRangesState
                (match startPosition s with
                 | Some p =>
                     ranges s
                     ++ [mkRange p (positionAt text (offset + lastEnd s))]
                 | None => ranges s
                 end)
                (lastEnd s) None true false)
    else Next i s
  else if negb (comment s) then
    match startPosition s with
    | None =>
        let position := positionAt text (offset + i) in
        Next i (mkRangesState (ranges s) i
                  (if negb (character position =? 0)
                   then Some (mkPosition (line position) 0) else None)
                  (start_ s)
                  (if isChar HASH char then true else comment s))
    | Some _ =>
        Next i (mkRangesState (ranges s) i (startPosition s) (start_ s)
                  (comment s))
    end
  else Next i s.

(** The last [ranges.push] and the [return]. *)
Definition finishRanges (s : RangesState) : option (list Range) :=
  match createRange (startPosition s)
          (positionAt text (offset + lastEnd s + 1)) with
  | Some r => Some (ranges s ++ [r])
  | None => None
  end.

Definition scanRanges (startPosition : Position) : option (list Range) :=
  loop (len fullArgs) range_body finishRanges 0
       (mkRangesState [] (-1) (Some startPosition) false false).

End GetArgumentsRanges.

Definition getArgumentsRanges (text : jsstring) (i : Instruction)
    : option (list Range) :=
  let args := InstructionM.getArguments text i in
  match args with
  | [] => Some []
  | first :: _ =>
      let final := last args first in
      if line (start (argRange first)) =? line (end_ (argRange final)) then
        Some [mkRange (start (argRange first)) (end_ (argRange final))]
      else
        let range := InstructionText.getInstructionRange i in
        let extra :=
          offsetAt text (end_ range) - offsetAt text (start range) in
        let content := InstructionM.getTextContent text i in
        let fullArgs :=
          substring content extra
            (offsetAt text (end_ (argRange final))
             - offsetAt text (start range)) in
        let offset := offsetAt text (start range) + extra in
        scanRanges text (escapeChar i) fullArgs offset
          (start (argRange first))
  end.

(** [getArgumentsContent]: [Some None] is the source's [null]. *)
Definition getArgumentsContent (text : jsstring) (i : Instruction)
    : option (option jsstring) :=
  match InstructionM.getArguments text i with
  | [] => Some None
  | _ :: _ =>
      match getArgumentsRanges text i with
      | Some ranges =>
          Some (Some (fold_left
                        (fun content range =>
                           content ++ substring text
                                        (offsetAt text (start range))
                                        (offsetAt text (end_ range)))
                        ranges []))
      | None => None
      end
  end.

End InstructionRanges.

(** What the loop of [getArgumentsRanges] has pushed: the first range starts
    at [origin], the others at column 0; [startPosition] is [origin] while
    there is no range, and [null] or at column 0 afterwards. *)
Definition rangesShape (origin : Position)
    (s : InstructionRanges.RangesState) : Prop :=
  match InstructionRanges.ranges s with
  | [] => InstructionRanges.startPosition s = Some origin
  | r :: more =>
      start r = origin
      /\ Forall (fun r' => character (start r') = 0) more
      /\ match InstructionRanges.startPosition s with
         | Some p => character p = 0
         | None => True
         end
  end.

(** Ranges of which the first starts at [origin] and the others at
    column 0. *)
Definition rangesFrom (origin : Position) (ranges : list Range) : Prop :=
  match ranges with
  | [] => False
  | r :: more =>
      start r = origin /\ Forall (fun r' => character (start r') = 0) more
  end.

(** A character of a line of arguments that is neither the escape character
    nor a line break. *)
Definition isArgumentChar (e : ascii) (c : ascii) : bool :=
  negb (Ascii.eqb c e) && negb (Util.isNewline (Some c)).

(** ** Documents of instructions, one on each line *)

(** The lines that continue an instruction: each one after an escape
    character and a line feed. *)
Definition continuedLines (e : ascii) (later : list jsstring) : jsstring :=
  flat_map (fun l => e :: LF :: l) later.

(** A line of a document: a keyword, the text after it on its line, and the
    lines that continue it. *)
Record SourceLine : Type := mkSourceLine {
  lineKeyword : jsstring;
  lineArguments : jsstring;
  lineContinued : list jsstring
}.

Definition lineText (l : SourceLine) : jsstring :=
  lineKeyword l ++ lineArguments l
  ++ continuedLines BACKSLASH (lineContinued l).

(** The text of a document of such lines, a line feed between them. *)
Fixpoint documentOf (lines : list SourceLine) : jsstring :=
  match lines with
  | [] => []
  | l :: rest =>
      match rest with
      | [] => lineText l
      | _ :: _ => lineText l ++ LF :: documentOf rest
      end
  end.

(** The instructions of the lines of [buffer], the first of which starts at
    [from]. *)
Fixpoint lineInstructions (buffer : jsstring) (from : Z)
    (lines : list SourceLine) : list Instruction :=
  match lines with
  | [] => []
  | l :: rest =>
      let upTo := from + len (lineText l) in
      Parser.createInstruction BACKSLASH (rangeAt buffer from upTo)
        (lineKeyword l) (rangeAt buffer from (from + len (lineKeyword l)))
      :: lineInstructions buffer (upTo + 1) rest
  end.

(** A character of a line that continues an instruction: neither a line
    break nor the backslash nor [#]. *)
Definition isContinuedChar (c : ascii) : bool :=
  isLineChar c && negb (Ascii.eqb c HASH).

(** A line of continuation: such characters, one of which is not a
    blank. *)
Definition goodContinued (later : jsstring) : Prop :=
  Forall (fun c => isContinuedChar c = true) later
  /\ Exists (fun c => isBlank (Some c) = false) later.

(** A line with a keyword (no whitespace, no backslash, not starting with
    [#]), then nothing, or a blank and characters that are neither line
    breaks nor backslashes, and lines of continuation. *)
Definition goodLine (l : SourceLine) : Prop :=
  Forall (fun c => isKeywordChar c = true) (lineKeyword l)
  /\ (exists c word, lineKeyword l = c :: word /\ Ascii.eqb c HASH = false)
  /\ Forall (fun c => isLineChar c = true) (lineArguments l)
  /\ match lineArguments l with
     | [] => lineContinued l = []
     | b :: _ => isBlank (Some b) = true
     end
  /\ Forall goodContinued (lineContinued l).

(** ** Arguments on several lines *)

(** The state of [getArguments] between two arguments, after a line
    continuation ([escaping]) or not, and inside an argument that began at
    [found] and holds no escape character. *)
Definition betweenState (args : list Argument)
    (start_ detected escaping : bool) : InstructionM.ArgState :=
  InstructionM.mkArgState args start_ false (-1) detected escaping (-1) [].

Definition insideState (args : list Argument) (start_ : bool) (found : Z)
    (escapedArg : jsstring) : InstructionM.ArgState :=
  InstructionM.mkArgState args start_ false found false false (-1) escapedArg.

(** A token scanned when [start] is [started]: no whitespace, no escape
    character and, once a line has been continued, no [#]. *)
Definition tokenOk (e : ascii) (started : bool) (token : jsstring) : Prop :=
  Forall (fun c => Util.isWhitespace (Some c) = false
                   /\ Ascii.eqb c e = false
                   /\ (started = true -> Ascii.eqb c HASH = false)) token.

Definition segmentOk (e : ascii) (started : bool)
    (segment : jsstring * jsstring) : Prop :=
  fst segment <> []
  /\ Forall (fun c => Util.isWhitespace (Some c) = true) (fst segment)
  /\ snd segment <> []
  /\ tokenOk e started (snd segment).

(** A segment of a line that continues an instruction: its token holds
    no [#]. *)
Definition continuedSegment (e : ascii) (segment : jsstring * jsstring)
    : Prop :=
  goodSegment e segment
  /\ Forall (fun c => Ascii.eqb c HASH = false) (snd segment).

(** A line continuation: whitespace, the escape character and a line feed,
    then the segments of the next line. *)
Definition continuationText (e : ascii)
    (l : jsstring * list (jsstring * jsstring)) : jsstring :=
  fst l ++ e :: LF :: joinSegments (snd l).

Definition continuedText (e : ascii)
    (later : list (jsstring * list (jsstring * jsstring))) : jsstring :=
  flat_map (continuationText e) later.

Definition goodContinuation (e : ascii)
    (l : jsstring * list (jsstring * jsstring)) : Prop :=
  fst l <> []
  /\ Forall (fun c => Util.isWhitespace (Some c) = true) (fst l)
  /\ Forall (continuedSegment e) (snd l).

(** The arguments the tokens of the continued lines are, when the first
    continuation starts at offset [from] of the document. *)
Fixpoint continuedTokens (text : jsstring) (from : Z)
    (later : list (jsstring * list (jsstring * jsstring)))
    : list Argument :=
  match later with
  | [] => []
  | l :: rest =>
      let a := from + len (fst l) + 2 in
      tokenArguments text a (snd l)
      ++ continuedTokens text (a + len (joinSegments (snd l))) rest
  end.

(** ** The directive of the first line, offset by offset *)

(** The line of the [=] at [j] ends at [lineEnd]: the first line break
    after the sign, or the end of the text. *)
Definition scannedLineEnd (buffer : jsstring) (j lineEnd : Z) : Prop :=
  j < lineEnd <= len buffer
  /\ allBetween notNewline buffer (j + 1) lineEnd
  /\ (lineEnd = len buffer \/ Util.isNewline (charAt buffer lineEnd) = true).

(** The name of the directive of the comment that starts at
    [commentStart], whose first [=] is at [j]: it starts at the first
    character after the comment sign that is not a blank and stops at the
    first blank after it, or at the [=]. *)
Definition scannedName (buffer : jsstring)
    (commentStart j directiveStart directiveEnd : Z) : Prop :=
  commentStart < directiveStart
  /\ allBetween isBlank buffer (commentStart + 1) directiveStart
  /\ directiveStart < directiveEnd <= j
  /\ allBetween isDirectiveNameChar buffer directiveStart directiveEnd
  /\ (directiveEnd = j \/ isBlank (charAt buffer directiveEnd) = true).

(** The value of the directive after the [=] at [j]: it starts at the
    first character after the sign that is not a blank and stops at the
    first whitespace after it, or at the end of the text; when nothing but
    blanks follows the sign on the line, it is all of them. *)
Definition scannedValue (buffer : jsstring)
    (j lineEnd valueStart valueEnd : Z) : Prop :=
  (j < valueStart
   /\ allBetween isBlank buffer (j + 1) valueStart
   /\ valueStart < valueEnd <= lineEnd
   /\ allBetween notWhitespace buffer valueStart valueEnd
   /\ (valueEnd = lineEnd \/ isBlank (charAt buffer valueEnd) = true))
  \/ (allBetween isBlank buffer (j + 1) lineEnd
      /\ valueStart = j + 1 /\ valueEnd = lineEnd).

(** What [getDirectiveSymbol] makes a directive of: a comment sign after
    blanks only, the first [=] of its line, and the name, the line end and
    the value that go with them. *)
Definition scannedDirective (buffer : jsstring)
    (commentStart lineEnd directiveStart directiveEnd valueStart valueEnd : Z)
    : Prop :=
  exists j,
    0 <= commentStart
    /\ allBetween isBlank buffer 0 commentStart
    /\ charAt buffer commentStart = Some HASH
    /\ commentStart < j < len buffer
    /\ charAt buffer j = Some EQUALS
    /\ allBetween notDirectiveStop buffer (commentStart + 1) j
    /\ scannedName buffer commentStart j directiveStart directiveEnd
    /\ scannedLineEnd buffer j lineEnd
    /\ scannedValue buffer j lineEnd valueStart valueEnd.

(** ** A first line that is a directive *)

(** Blanks and tabs only. *)
Definition allBlank (s : jsstring) : Prop :=
  Forall (fun c => isBlank (Some c) = true) s.

(** The line [# name = value], with blanks and tabs around its parts. *)
Definition directiveLine (lead ws1 name ws2 ws3 value ws4 : jsstring)
    : jsstring :=
  lead ++ HASH :: ws1 ++ name ++ ws2 ++ EQUALS :: ws3 ++ value ++ ws4.

(** What follows the first line of a document: nothing, or a text that
    begins with a line break. *)
Definition startsWithNewline (rest : jsstring) : Prop :=
  rest = [] \/ Util.isNewline (hd_error rest) = true.

Definition spacedEscape : jsstring :=
  HASH :: TAB :: TAB :: str "Escape   =`" ++ [SP; CR; LF] ++ str "FROM x".



(** * Properties *)

(** ** The text document *)

Example positionAt_ex1 :
  map (positionAt (str "ab" ++ [CR; LF] ++ str "cd" ++ [LF])) [0; 2; 3; 4; 5; 6; 7; 9]
  = [mkPosition 0 0; mkPosition 0 2; mkPosition 0 3; mkPosition 1 0;
     mkPosition 1 1; mkPosition 1 2; mkPosition 2 0; mkPosition 2 0].
Proof. reflexivity. Qed.

Example offsetAt_ex1 :
  map (offsetAt (str "ab" ++ [CR; LF] ++ str "cd" ++ [LF]))
      [mkPosition 0 0; mkPosition 0 9; mkPosition 1 1; mkPosition 2 0; mkPosition 3 0; mkPosition (-1) 4]
  = [0; 4; 5; 7; 7; 0].
Proof. reflexivity. Qed.

(** ** Loops *)

(** The rule for a loop whose body moves the index forward: the invariant
    may mention the index, and the loop is left at the end only when the
    index has reached the bound. *)
Lemma for_invariant {St R : Type} (I : Z -> St -> Prop) (P : R -> Prop)
    (n : Z) (body : Z -> St -> ctl St R) (eof : St -> R) :
  (forall j s, I j s -> j < n ->
     match body j s with
     | Next j' s' => j <= j' /\ I (j' + 1) s'
     | Done r => P r
     end) ->
  (forall j s, I j s -> n <= j -> P (eof s)) ->
  forall fuel j s,
    (Z.to_nat (n - j) <= fuel)%nat -> I j s -> P (for_ fuel n body eof j s).
Proof.
  intros Hbody Heof fuel.
  induction fuel as [|fuel IH]; intros j s Hfuel Hs; simpl.
  - apply (Heof j); [exact Hs | lia].
  - destruct (Z.ltb_spec j n) as [Hlt|Hge].
    + specialize (Hbody j s Hs Hlt).
      destruct (body j s) as [j' s'|r].
      * destruct Hbody as [Hle Hs']. apply IH; [lia | exact Hs'].
      * exact Hbody.
    + apply (Heof j); assumption.
Qed.

Lemma loop_invariant {St R : Type} (I : Z -> St -> Prop) (P : R -> Prop)
    (n : Z) (body : Z -> St -> ctl St R) (eof : St -> R) (j : Z) (s : St) :
  (forall j s, I j s -> j < n ->
     match body j s with
     | Next j' s' => j <= j' /\ I (j' + 1) s'
     | Done r => P r
     end) ->
  (forall j s, I j s -> n <= j -> P (eof s)) ->
  I j s -> P (loop n body eof j s).
Proof.
  intros Hbody Heof Hs. unfold loop.
  apply for_invariant with (I := I); auto.
Qed.

(** More fuel than the distance to the bound changes nothing when the body
    moves forward. *)
Lemma for_fuel {St R : Type} (n : Z) (body : Z -> St -> ctl St R)
    (eof : St -> R) :
  (forall j s j' s', j < n -> body j s = Next j' s' -> j <= j') ->
  forall fuel1 fuel2 j s,
    (Z.to_nat (n - j) <= fuel1)%nat ->
    (Z.to_nat (n - j) <= fuel2)%nat ->
    for_ fuel1 n body eof j s = for_ fuel2 n body eof j s.
Proof.
  intros Hprog fuel1.
  induction fuel1 as [|fuel1 IH]; intros fuel2 j s H1 H2.
  - destruct fuel2 as [|fuel2]; [reflexivity|].
    simpl. destruct (Z.ltb_spec j n); [lia | reflexivity].
  - destruct fuel2 as [|fuel2].
    + simpl. destruct (Z.ltb_spec j n); [lia | reflexivity].
    + simpl. destruct (Z.ltb_spec j n) as [Hlt|Hge]; [|reflexivity].
      destruct (body j s) as [j' s'|r] eqn:Eb; [|reflexivity].
      pose proof (Hprog _ _ _ _ Hlt Eb) as Hle.
      apply IH; lia.
Qed.

(** The equation of the [for] loop: the model runs the body until the index
    reaches the bound or the body leaves. *)
Lemma loop_unfold {St R : Type} (n : Z) (body : Z -> St -> ctl St R)
    (eof : St -> R) (j : Z) (s : St) :
  (forall j s j' s', j < n -> body j s = Next j' s' -> j <= j') ->
  loop n body eof j s =
  if j <? n then
    match body j s with
    | Next j' s' => loop n body eof (j' + 1) s'
    | Done r => r
    end
  else eof s.
Proof.
  intros Hprog.
  destruct (Z.ltb_spec j n) as [Hlt|Hge].
  - unfold loop at 1.
    destruct (Z.to_nat (n - j)) as [|m] eqn:Em; [lia|].
    simpl. destruct (Z.ltb_spec j n); [|lia].
    destruct (body j s) as [j' s'|r] eqn:Eb; [|reflexivity].
    pose proof (Hprog _ _ _ _ Hlt Eb).
    unfold loop. apply for_fuel; [exact Hprog | lia | lia].
  - unfold loop. replace (Z.to_nat (n - j)) with O by lia. reflexivity.
Qed.

Lemma len_nonneg (s : jsstring) : 0 <= len s.
Proof. unfold len. lia. Qed.

Lemma lineOffsets_cons (ch : ascii) (rest : jsstring) :
  exists more, TextDocument.getLineOffsets (ch :: rest) = 0 :: more.
Proof.
  unfold TextDocument.getLineOffsets. simpl. eexists. reflexivity.
Qed.

(** [upperBound] stops at the first line offset that is larger than the
    offset. *)
Lemma upperBound_spec (l : list Z) (o : Z) :
  forall b,
    let k := TextDocument.upperBound l o b in
    b <= k <= b + Z.of_nat (List.length l)
    /\ (forall idx, (idx < Z.to_nat (k - b))%nat -> nth idx l 0 <= o)
    /\ (k - b < Z.of_nat (List.length l) -> o < nth (Z.to_nat (k - b)) l 0).
Proof.
  induction l as [|x l IH]; intros b; simpl.
  - split; [lia|]. split; [intros idx Hidx; lia | lia].
  - destruct (Z.ltb_spec o x) as [Hlt|Hge].
    + split; [lia|]. split.
      * intros idx Hidx. lia.
      * intros _. replace (b - b) with 0 by lia. simpl. exact Hlt.
    + specialize (IH (b + 1)). simpl in IH.
      destruct IH as [Hb [Hle Hgt]].
      set (k := TextDocument.upperBound l o (b + 1)) in *.
      split; [lia|]. split.
      * intros idx Hidx. destruct idx as [|idx]; [exact Hge|].
        apply Hle. lia.
      * intros Hk. replace (Z.to_nat (k - b)) with (S (Z.to_nat (k - (b + 1)))) by lia.
        simpl. apply Hgt. lia.
Qed.

(** An offset of the text is the offset of its position. *)
Lemma offsetAt_positionAt (text : jsstring) (o : Z) :
  0 <= o <= len text -> offsetAt text (positionAt text o) = o.
Proof.
  intros Ho.
  unfold offsetAt, positionAt, TextDocument.offsetAt, TextDocument.positionAt.
  replace (Z.max (Z.min o (len text)) 0) with o by lia.
  destruct text as [|ch rest].
  - simpl. unfold len in *. simpl in *. lia.
  - destruct (lineOffsets_cons ch rest) as [more Hlo].
    rewrite Hlo.
    set (lo := 0 :: more) in *.
    pose proof (upperBound_spec lo o 0) as Hub. cbv zeta in Hub.
    set (k := TextDocument.upperBound lo o 0) in *.
    destruct Hub as [Hk [Hle Hgt]].
    assert (Hk1 : 1 <= k).
    { destruct (Z.ltb_spec k 1) as [Hk0|]; [|assumption].
      assert (k - 0 < Z.of_nat (List.length lo)) by (subst lo; simpl; lia).
      specialize (Hgt H). replace (Z.to_nat (k - 0)) with O in Hgt by lia.
      subst lo. simpl in Hgt. lia. }
    cbn [line character].
    destruct (Z.leb_spec (Z.of_nat (List.length lo)) (k - 1)) as [Hbad|Hok]; [lia|].
    destruct (Z.ltb_spec (k - 1) 0) as [Hneg|_]; [lia|].
    unfold TextDocument.nthZ.
    assert (Hline : nth (Z.to_nat (k - 1)) lo 0 <= o) by (apply Hle; lia).
    destruct (Z.ltb_spec (k - 1 + 1) (Z.of_nat (List.length lo))) as [Hnext|Hlast].
    + assert (Hn : o < nth (Z.to_nat (k - 1 + 1)) lo 0).
      { replace (k - 1 + 1) with (k - 0) by lia. apply Hgt. lia. }
      lia.
    + lia.
Qed.

Lemma textOf_rangeAt (text : jsstring) (a b : Z) :
  0 <= a <= len text -> 0 <= b <= len text ->
  textOf text (rangeAt text a b) = substring text a b.
Proof.
  intros Ha Hb. unfold textOf, rangeAt. simpl.
  rewrite !offsetAt_positionAt by assumption. reflexivity.
Qed.

(** ** The leading directive *)

Lemma allBetween_nil (p : option ascii -> bool) (s : jsstring) (a b : Z) :
  b <= a -> allBetween p s a b.
Proof. intros H x Hx. lia. Qed.

Lemma allBetween_snoc (p : option ascii -> bool) (s : jsstring) (a b : Z) :
  allBetween p s a b -> p (charAt s b) = true -> allBetween p s a (b + 1).
Proof.
  intros H Hb x Hx.
  destruct (Z.eq_dec x b) as [->|Hne]; [exact Hb | apply H; lia].
Qed.

Lemma allBetween_shrink (p : option ascii -> bool) (s : jsstring)
    (a b a' b' : Z) :
  allBetween p s a b -> a <= a' -> b' <= b -> allBetween p s a' b'.
Proof. intros H Ha Hb x Hx. apply H. lia. Qed.

Lemma directiveValue_spec (buffer : jsstring) (j : Z) :
  0 <= j < len buffer -> valueResult buffer j (Parser.directiveValue buffer j).
Proof.
  intros Hj. unfold Parser.directiveValue.
  apply loop_invariant with
    (I := fun k s =>
            let '(valueStart, valueEnd) := s in
            j + 1 <= k <= len buffer
            /\ ((valueStart = -1 /\ valueEnd = -1
                 /\ allBetween isBlank buffer (j + 1) k)
                \/ (j + 1 <= valueStart < k
                    /\ ((valueEnd = -1
                         /\ allBetween notWhitespace buffer valueStart k)
                        \/ (valueStart < valueEnd < k
                            /\ allBetween notWhitespace buffer valueStart
                                 valueEnd))))).
  - intros k [vs ve] [Hk HI] Hlt.
    unfold Parser.directiveValue_body.
    destruct (isChar CR (charAt buffer k) || isChar LF (charAt buffer k)) eqn:Enl;
      [|destruct (isChar TAB (charAt buffer k) || isChar SP (charAt buffer k)) eqn:Ebl].
    + (* line break *)
      unfold valueResult. split; [lia|].
      destruct HI as [[-> [-> Hall]]|[Hvs [[-> Hall]|[Hve Hall]]]].
      * left. simpl. split; [reflexivity | exact Hall].
      * right. split; [lia|]. right.
        destruct (Z.eqb_spec vs (-1)); [lia|]. simpl. split; [lia | exact Hall].
      * right. split; [lia|]. right.
        destruct (Z.eqb_spec vs (-1)); [lia|].
        destruct (Z.eqb_spec ve (-1)); [lia|]. simpl. split; [lia | exact Hall].
    + (* blank *)
      split; [lia|]. split; [lia|].
      destruct HI as [[-> [-> Hall]]|[Hvs [[-> Hall]|[Hve Hall]]]].
      * left. simpl. repeat split; try reflexivity.
        apply allBetween_snoc; [exact Hall|].
        unfold isBlank. rewrite orb_comm. exact Ebl.
      * right. split; [lia|]. right.
        destruct (Z.eqb_spec vs (-1)); [lia|]. simpl. split; [lia | exact Hall].
      * right. split; [lia|]. right.
        destruct (Z.eqb_spec vs (-1)); [lia|].
        destruct (Z.eqb_spec ve (-1)); [lia|]. simpl. split; [lia | exact Hall].
    + (* any other character *)
      assert (Hnw : notWhitespace (charAt buffer k) = true).
      { unfold notWhitespace, Util.isWhitespace, Util.isNewline.
        apply orb_false_iff in Enl, Ebl. destruct Enl as [E1 E2], Ebl as [E3 E4].
        rewrite E1, E2, E3, E4. reflexivity. }
      split; [lia|]. split; [lia|].
      destruct HI as [[-> [-> Hall]]|[Hvs [[-> Hall]|[Hve Hall]]]].
      * right. simpl. split; [lia|]. left. split; [reflexivity|].
        intros x Hx. replace x with k by lia. exact Hnw.
      * right. destruct (Z.eqb_spec vs (-1)); [lia|]. split; [lia|]. left.
        split; [reflexivity|]. apply allBetween_snoc; assumption.
      * right. destruct (Z.eqb_spec vs (-1)); [lia|]. split; [lia|]. right.
        split; [lia | exact Hall].
  - intros k [vs ve] [Hk HI] Hge. simpl.
    assert (k = len buffer) by lia. subst k.
    unfold valueResult. split; [lia|].
    destruct HI as [[-> [-> Hall]]|[Hvs [[-> Hall]|[Hve Hall]]]].
    + left. split; [reflexivity | exact Hall].
    + right. split; [lia|]. left. repeat split; try lia. exact Hall.
    + right. split; [lia|]. right. split; [lia | exact Hall].
  - simpl. split; [lia|]. left. repeat split; try reflexivity.
    apply allBetween_nil. lia.
Qed.

Lemma directiveAtEquals_good (buffer : jsstring)
    (commentStart directiveStart directiveEnd j : Z) :
  0 <= commentStart -> allBetween isBlank buffer 0 commentStart ->
  0 <= j < len buffer ->
  isChar EQUALS (charAt buffer j) = true ->
  (directiveStart = -1
   \/ (commentStart < directiveStart < j
       /\ ((directiveEnd = -1
            /\ allBetween isDirectiveNameChar buffer directiveStart j)
           \/ (directiveStart < directiveEnd < j
               /\ isBlank (charAt buffer directiveEnd) = true
               /\ allBetween isDirectiveNameChar buffer directiveStart
                    directiveEnd)))) ->
  commentStart < j ->
  goodSymbol buffer
    (Parser.directiveAtEquals buffer commentStart directiveStart directiveEnd j).
Proof.
  intros Hcs Hblank Hj Heq Hname Hlt.
  unfold Parser.directiveAtEquals.
  pose proof (directiveValue_spec buffer j Hj) as Hv.
  destruct (Parser.directiveValue buffer j) as [[vs ve] le].
  unfold valueResult in Hv. destruct Hv as [Hle Hv].
  destruct (Z.eqb_spec directiveStart (-1)) as [Hds|Hds].
  - simpl. repeat split; try lia. exact Hblank.
  - destruct Hname as [Hname|[Hds' Hname]]; [contradiction|].
    assert (Hnm : exists de,
               (if directiveEnd =? -1 then j else directiveEnd) = de
               /\ directiveStart < de <= j
               /\ allBetween isDirectiveNameChar buffer directiveStart de
               /\ (isChar EQUALS (charAt buffer de) = true
                   \/ isBlank (charAt buffer de) = true)).
    { destruct Hname as [[-> Hall]|[Hde [Hbl Hall]]].
      - exists j. simpl. repeat split; try lia; auto.
      - exists directiveEnd. destruct (Z.eqb_spec directiveEnd (-1)); [lia|].
        repeat split; try lia; auto. }
    destruct Hnm as [de [-> [Hde [Hall Hstop]]]].
    destruct Hv as [[-> Hbl]|[Hvs [[-> [-> [Hlen Hnw]]]|[Hve Hnw]]]].
    + simpl. repeat split; try lia; auto.
    + destruct (Z.eqb_spec vs (-1)); [lia|]. simpl.
      repeat split; try lia; auto.
    + destruct (Z.eqb_spec vs (-1)); [lia|].
      destruct (Z.eqb_spec ve (-1)); [lia|]. simpl.
      repeat split; try lia; auto.
Qed.

Lemma directiveName_good (buffer : jsstring) (commentStart : Z) :
  0 <= commentStart < len buffer ->
  allBetween isBlank buffer 0 commentStart ->
  forall sym, Parser.directiveName buffer commentStart = Some sym ->
              goodSymbol buffer sym.
Proof.
  intros Hcs Hblank. unfold Parser.directiveName.
  apply loop_invariant with
    (I := fun j s =>
            let '(directiveStart, directiveEnd) := s in
            commentStart < j <= len buffer
            /\ ((directiveStart = -1 /\ directiveEnd = -1)
                \/ (commentStart < directiveStart < j
                    /\ ((directiveEnd = -1
                         /\ allBetween isDirectiveNameChar buffer
                              directiveStart j)
                        \/ (directiveStart < directiveEnd < j
                            /\ isBlank (charAt buffer directiveEnd) = true
                            /\ allBetween isDirectiveNameChar buffer
                                 directiveStart directiveEnd))))).
  - intros j [ds de] [Hj HI] Hlt.
    unfold Parser.directiveName_body.
    destruct (isChar SP (charAt buffer j) || isChar TAB (charAt buffer j)) eqn:Ebl;
      [|destruct (isChar CR (charAt buffer j) || isChar LF (charAt buffer j)) eqn:Enl;
        [|destruct (isChar EQUALS (charAt buffer j)) eqn:Eeq]].
    + (* blank *)
      split; [lia|]. split; [lia|].
      destruct HI as [[-> ->]|[Hds [[-> Hall]|[Hde [Hb Hall]]]]].
      * left. simpl. split; reflexivity.
      * right. split; [lia|]. right.
        destruct (Z.eqb_spec ds (-1)); [lia|]. simpl.
        repeat split; try lia; auto.
      * right. split; [lia|]. right.
        destruct (Z.eqb_spec ds (-1)); [lia|].
        destruct (Z.eqb_spec de (-1)); [lia|]. simpl.
        repeat split; try lia; auto.
    + (* line break: a comment *)
      intros sym Hsym. injection Hsym as <-. simpl.
      repeat split; try lia. exact Hblank.
    + (* the equals sign *)
      intros sym Hsym. injection Hsym as <-.
      apply directiveAtEquals_good; try lia; auto.
      destruct HI as [[-> ->]|[Hds HI]]; [left; reflexivity | right].
      split; [lia | exact HI].
    + (* a character of the name, or after it *)
      assert (Hnc : isDirectiveNameChar (charAt buffer j) = true).
      { unfold isDirectiveNameChar, Util.isWhitespace, Util.isNewline.
        apply orb_false_iff in Enl, Ebl. destruct Enl as [E1 E2], Ebl as [E3 E4].
        rewrite E1, E2, E3, E4, Eeq. reflexivity. }
      split; [lia|]. split; [lia|].
      destruct HI as [[-> ->]|[Hds [[-> Hall]|[Hde [Hb Hall]]]]].
      * right. simpl. split; [lia|]. left. split; [reflexivity|].
        intros x Hx. replace x with j by lia. exact Hnc.
      * right. destruct (Z.eqb_spec ds (-1)); [lia|]. split; [lia|]. left.
        split; [reflexivity|]. apply allBetween_snoc; assumption.
      * right. destruct (Z.eqb_spec ds (-1)); [lia|]. split; [lia|]. right.
        repeat split; try lia; auto.
  - intros j s _ _ sym Hsym. discriminate.
  - simpl. split; [lia|]. left. split; reflexivity.
Qed.

(** A comment that the buffer ends in, without a line break or an [=]:
    no later comment of the first line can be a directive either. *)
Lemma directiveName_None (buffer : jsstring) (i : Z) :
  0 <= i < len buffer ->
  Parser.directiveName buffer i = None ->
  allBetween notDirectiveStop buffer (i + 1) (len buffer).
Proof.
  intros Hi. unfold Parser.directiveName.
  apply loop_invariant with
    (I := fun j (_ : Z * Z) =>
            i + 1 <= j <= len buffer
            /\ allBetween notDirectiveStop buffer (i + 1) j).
  - intros j [ds de] [Hj Hall] Hlt.
    unfold Parser.directiveName_body.
    destruct (isChar SP (charAt buffer j) || isChar TAB (charAt buffer j)) eqn:Ebl;
      [|destruct (isChar CR (charAt buffer j) || isChar LF (charAt buffer j)) eqn:Enl;
        [|destruct (isChar EQUALS (charAt buffer j)) eqn:Eeq]];
      try (intros Hsym; discriminate).
    + split; [lia|]. split; [lia|]. apply allBetween_snoc; [exact Hall|].
      unfold notDirectiveStop.
      destruct (charAt buffer j) as [c|]; [|reflexivity].
      simpl in *. apply orb_true_iff in Ebl.
      destruct Ebl as [E|E]; apply Ascii.eqb_eq in E; subst c; reflexivity.
    + split; [lia|]. split; [lia|]. apply allBetween_snoc; [exact Hall|].
      unfold notDirectiveStop. apply orb_false_iff in Enl.
      destruct Enl as [E1 E2]. rewrite E1, E2, Eeq. reflexivity.
  - intros j s [Hj Hall] Hge _. replace (len buffer) with j by lia. exact Hall.
  - split; [lia|]. apply allBetween_nil. lia.
Qed.

Lemma directiveName_stays_None (buffer : jsstring) (i : Z) :
  allBetween notDirectiveStop buffer (i + 1) (len buffer) ->
  Parser.directiveName buffer i = None.
Proof.
  intros Hall. unfold Parser.directiveName.
  apply loop_invariant with (I := fun j (_ : Z * Z) => i + 1 <= j).
  - intros j [ds de] Hj Hlt.
    unfold Parser.directiveName_body.
    assert (Hns : notDirectiveStop (charAt buffer j) = true) by (apply Hall; lia).
    unfold notDirectiveStop in Hns.
    apply andb_true_iff in Hns. destruct Hns as [Hns E3].
    apply andb_true_iff in Hns. destruct Hns as [E1 E2].
    apply negb_true_iff in E1, E2, E3. rewrite E1, E2, E3. simpl.
    destruct (isChar SP (charAt buffer j) || isChar TAB (charAt buffer j));
      split; lia.
  - reflexivity.
  - lia.
Qed.

Lemma getDirectiveOffsets_good (buffer : jsstring) (sym : Parser.symbol) :
  Parser.getDirectiveOffsets buffer = Some sym -> goodSymbol buffer sym.
Proof.
  revert sym. unfold Parser.getDirectiveOffsets.
  apply loop_invariant with
    (I := fun i (_ : unit) =>
            0 <= i <= len buffer
            /\ (allBetween isBlank buffer 0 i
                \/ allBetween notDirectiveStop buffer i (len buffer))).
  - intros i [] [Hi Hblank] Hlt.
    unfold Parser.directiveCheck_body.
    destruct (isChar SP (charAt buffer i) || isChar TAB (charAt buffer i)) eqn:Ebl.
    + split; [lia|]. split; [lia|].
      destruct Hblank as [Hblank|Hns].
      * left. apply allBetween_snoc; assumption.
      * right. apply (allBetween_shrink _ _ _ _ _ _ Hns); lia.
    + destruct (isChar CR (charAt buffer i) || isChar LF (charAt buffer i)).
      * intros sym Hsym. discriminate.
      * destruct (isChar HASH (charAt buffer i)); [|intros sym Hsym; discriminate].
        destruct (Parser.directiveName buffer i) as [l|] eqn:El.
        -- intros sym Hsym. injection Hsym as <-.
           destruct Hblank as [Hblank|Hns].
           ++ apply (directiveName_good buffer i); auto. lia.
           ++ rewrite directiveName_stays_None in El; [discriminate|].
              apply (allBetween_shrink _ _ _ _ _ _ Hns); lia.
        -- (* the buffer ended inside the comment *)
           split; [lia|]. split; [lia|]. right.
           apply directiveName_None; [lia | exact El].
  - intros i [] _ _ sym Hsym. discriminate.
  - split; [pose proof (len_nonneg buffer); lia|]. left. apply allBetween_nil. lia.
Qed.

(** ** Substrings *)

Lemma charAt_nth_error (s : jsstring) (i : Z) :
  0 <= i -> charAt s i = nth_error s (Z.to_nat i).
Proof.
  intros Hi. unfold charAt. destruct (Z.ltb_spec i 0); [lia | reflexivity].
Qed.

Lemma substring_ordered (s : jsstring) (a b : Z) :
  0 <= a <= b -> b <= len s ->
  substring s a b = firstn (Z.to_nat (b - a)) (skipn (Z.to_nat a) s).
Proof.
  intros Ha Hb. unfold substring, clamp.
  replace (Z.max 0 (Z.min a (len s))) with a by lia.
  replace (Z.max 0 (Z.min b (len s))) with b by lia.
  replace (Z.min a b) with a by lia.
  replace (Z.max a b) with b by lia.
  reflexivity.
Qed.

Lemma substring_length (s : jsstring) (a b : Z) :
  0 <= a <= b -> b <= len s -> len (substring s a b) = b - a.
Proof.
  intros Ha Hb. rewrite substring_ordered by assumption.
  unfold len in *. rewrite length_firstn, length_skipn. lia.
Qed.

Lemma charAt_substring (s : jsstring) (a b i : Z) :
  0 <= a <= b -> b <= len s -> 0 <= i < b - a ->
  charAt (substring s a b) i = charAt s (a + i).
Proof.
  intros Ha Hb Hi. rewrite substring_ordered by assumption.
  rewrite !charAt_nth_error by lia.
  rewrite nth_error_firstn.
  destruct (Nat.ltb_spec (Z.to_nat i) (Z.to_nat (b - a))) as [_|Hbad]; [|lia].
  rewrite nth_error_skipn. f_equal. lia.
Qed.

Lemma substring_Forall (p : option ascii -> bool) (s : jsstring) (a b : Z) :
  0 <= a <= b -> b <= len s -> allBetween p s a b ->
  Forall (fun c => p (Some c) = true) (substring s a b).
Proof.
  intros Ha Hb Hall. apply Forall_forall. intros c Hc.
  apply In_nth_error in Hc. destruct Hc as [n Hn].
  assert (Hlt : (n < List.length (substring s a b))%nat).
  { apply nth_error_Some. rewrite Hn. discriminate. }
  pose proof (substring_length s a b Ha Hb) as Hl. unfold len in Hl.
  specialize (Hall (a + Z.of_nat n)).
  rewrite <- (charAt_substring s a b (Z.of_nat n)) in Hall by lia.
  rewrite charAt_nth_error in Hall by lia.
  rewrite Nat2Z.id, Hn in Hall. apply Hall. lia.
Qed.

(** ** Lines of the text document *)

Lemma computeLineOffsets_breaks :
  forall n text i b, (List.length text <= n)%nat ->
    exists rest,
      TextDocument.computeLineOffsets text i b =
        (if b then match text with
                   | [] => if 0 <? i then [i] else []
                   | _ => [i]
                   end
         else []) ++ rest
      /\ forall x, In x rest ->
           i < x /\ Util.isNewline (charAt text (x - i - 1)) = true.
Proof.
  induction n as [|n IH]; intros text i b Hn.
  - destruct text; [|simpl in Hn; lia].
    exists []. simpl. destruct b; simpl.
    + destruct (0 <? i); split; auto; intros x [].
    + split; auto. intros x [].
  - destruct text as [|ch rest].
    + exists []. simpl. destruct b; simpl.
      * destruct (0 <? i); split; auto; intros x [].
      * split; auto. intros x [].
    + simpl in Hn.
      assert (Hstep : forall tl k b',
                 (List.length tl <= n)%nat -> 1 <= k ->
                 (b' = true -> Util.isNewline (charAt (ch :: rest) (k - 1)) = true) ->
                 (forall y, 0 <= y -> charAt tl y = charAt (ch :: rest) (y + k)) ->
                 exists more,
                   TextDocument.computeLineOffsets tl (i + k) b' = more
                   /\ forall x, In x more ->
                        i < x /\ Util.isNewline (charAt (ch :: rest) (x - i - 1)) = true).
      { intros tl k b' Htl Hk Hnl Hsh.
        destruct (IH tl (i + k) b' Htl) as [more [Heq Hmore]].
        eexists. split; [reflexivity|].
        rewrite Heq. intros x Hx. apply in_app_or in Hx.
        destruct Hx as [Hx|Hx].
        - destruct b'; [|destruct Hx].
          assert (x = i + k).
          { destruct tl; [destruct (0 <? i + k)|]; simpl in Hx;
              try destruct Hx as [Hx|[]]; try destruct Hx; lia. }
          subst x. split; [lia|].
          replace (i + k - i - 1) with (k - 1) by lia. auto.
        - destruct (Hmore x Hx) as [Hlt Hnlx]. split; [lia|].
          rewrite Hsh in Hnlx by lia.
          replace (x - (i + k) - 1 + k) with (x - i - 1) in Hnlx by lia.
          exact Hnlx. }
      assert (Hsh1 : forall y, 0 <= y -> charAt rest y = charAt (ch :: rest) (y + 1)).
      { intros y Hy. rewrite !charAt_nth_error by lia.
        replace (Z.to_nat (y + 1)) with (S (Z.to_nat y)) by lia. reflexivity. }
      cbn [TextDocument.computeLineOffsets].
      destruct (Ascii.eqb ch CR) eqn:Ecr.
      * destruct rest as [|ch2 rest2].
        -- destruct (Hstep [] 1 true) as [more [Heq Hmore]]; simpl; try lia; auto.
           { intros _. unfold Util.isNewline. simpl. rewrite Ecr. reflexivity. }
           replace (i + 1) with (i + 1) in Heq by lia.
           exists more. split; [|exact Hmore].
           rewrite <- Heq. destruct b; reflexivity.
        -- destruct (Ascii.eqb ch2 LF) eqn:Elf.
           ++ destruct (Hstep rest2 2 true) as [more [Heq Hmore]];
                simpl in *; try lia; auto.
              { intros _. unfold Util.isNewline. simpl. rewrite Elf.
                apply orb_true_r. }
              { intros y Hy. rewrite !charAt_nth_error by lia.
                replace (Z.to_nat (y + 2)) with (S (S (Z.to_nat y))) by lia.
                reflexivity. }
              exists more. split; [|exact Hmore].
              rewrite <- Heq. destruct b; reflexivity.
           ++ destruct (Hstep (ch2 :: rest2) 1 true) as [more [Heq Hmore]];
                simpl in *; try lia; auto.
              { intros _. unfold Util.isNewline. simpl. rewrite Ecr. reflexivity. }
              exists more. split; [|exact Hmore].
              rewrite <- Heq. destruct b; reflexivity.
      * destruct (Hstep rest 1 (Ascii.eqb ch LF)) as [more [Heq Hmore]];
          simpl in *; try lia; auto.
        { intros E. unfold Util.isNewline. simpl. rewrite E. apply orb_true_r. }
        exists more. split; [|exact Hmore].
        rewrite <- Heq. destruct b; reflexivity.
Qed.

(** An offset that no line break precedes is on line 0, at column
    [offset]. *)
Lemma positionAt_first_line (text : jsstring) (o : Z) :
  0 <= o <= len text ->
  allBetween (fun c => negb (Util.isNewline c)) text 0 o ->
  positionAt text o = mkPosition 0 o.
Proof.
  intros Ho Hall.
  unfold positionAt, TextDocument.positionAt.
  replace (Z.max (Z.min o (len text)) 0) with o by lia.
  destruct text as [|ch rest] eqn:Et; [reflexivity|]. rewrite <- Et in *.
  destruct (computeLineOffsets_breaks (List.length text) text 0 true (Nat.le_refl _))
    as [more [Heq Hmore]].
  unfold TextDocument.getLineOffsets. rewrite Heq.
  replace (match text with
           | [] => if 0 <? 0 then [0] else []
           | _ :: _ => [0]
           end) with [0] by (rewrite Et; reflexivity).
  simpl.
  destruct (Z.ltb_spec o 0) as [|_]; [lia|].
  assert (Hub : TextDocument.upperBound more o 1 = 1).
  { destruct more as [|x more']; [reflexivity|]. simpl.
    destruct (Hmore x (or_introl eq_refl)) as [Hx Hnl].
    destruct (Z.ltb_spec o x) as [|Hle]; [reflexivity|].
    assert (H : 0 <= x - 0 - 1 < o) by lia.
    specialize (Hall (x - 0 - 1) H). cbv beta in Hall.
    rewrite Hnl in Hall. discriminate. }
  rewrite Hub. unfold TextDocument.nthZ. simpl. f_equal. lia.
Qed.

(** ** The main loop of the scanner

    Every index the loops assign moves forward, and every line the main loop
    adds starts at or after the offset it was started at. *)

Section LineCheck.

Variable buffer : jsstring.
Variable e : ascii.
Variable offset : Z.
Variable J : Dockerfile -> Prop.

Hypothesis J_comment : forall d a b,
  J d -> offset <= a < len buffer ->
  J (addComment d (mkComment (rangeAt buffer a b))).

Hypothesis J_instruction : forall d a b c instruction,
  J d -> offset <= a < len buffer ->
  J (addInstruction d
       (Parser.createInstruction e (rangeAt buffer a b) instruction
          (rangeAt buffer a c))).

Lemma commentLoop_resumes (d : Dockerfile) (i : Z) :
  J d -> offset <= i < len buffer ->
  resumes J i (Parser.commentLoop buffer d i).
Proof.
  intros Hd Hi. unfold Parser.commentLoop.
  apply loop_invariant with (I := fun j (_ : unit) => i < j).
  - intros j [] Hj Hlt. unfold Parser.comment_body.
    destruct (isChar CR (charAt buffer j)); [|destruct (isChar LF (charAt buffer j))];
      simpl; try (split; [lia|]; apply J_comment; auto); lia.
  - intros j [] _ _. simpl. apply J_comment; auto.
  - lia.
Qed.

Lemma escapeCheck_forward (escaped : bool) (k : Z) :
  k <= snd (Parser.escapeCheck buffer escaped k).
Proof.
  unfold Parser.escapeCheck.
  apply loop_invariant with (I := fun l (_ : unit) => k + 2 <= l).
  - intros l [] Hl Hlt. unfold Parser.escapeCheck_body.
    destruct (isChar SP (charAt buffer l) || isChar TAB (charAt buffer l));
      [lia|].
    destruct (isChar CR (charAt buffer l)); [simpl; lia|].
    destruct (isChar LF (charAt buffer l)); simpl; lia.
  - intros l [] _ _. simpl. lia.
  - lia.
Qed.

Section Arguments.

Variable instructionStart : Z.
Variable instruction : jsstring.
Variable instructionEnd : Z.
Hypothesis Hstart : offset <= instructionStart < len buffer.

Lemma completed_J (d : Dockerfile) (lineEnd : Z) :
  J d ->
  J (Parser.completed buffer e instructionStart instruction instructionEnd
       d lineEnd).
Proof. intros Hd. unfold Parser.completed. apply J_instruction; auto. Qed.

Lemma nestedComment_resumes (escaped : bool) (d : Dockerfile) (k : Z) :
  J d -> offset <= k < len buffer ->
  match Parser.nestedComment buffer e instructionStart instruction
          instructionEnd escaped d k with
  | Next k' s => k <= k' /\ J (snd s)
  | Done r => resumes J k r
  end.
Proof.
  intros Hd Hk. unfold Parser.nestedComment.
  apply loop_invariant with (I := fun l (_ : unit) => k < l).
  - intros l [] Hl Hlt. unfold Parser.nested_body.
    destruct (isChar CR (charAt buffer l));
      [|destruct (isChar LF (charAt buffer l))];
      simpl; try (split; [lia|]; apply J_comment; auto); lia.
  - intros l [] _ _. simpl. apply completed_J. apply J_comment; auto.
  - lia.
Qed.

Lemma argumentsCheck_resumes (d : Dockerfile) (j : Z) :
  J d -> instructionStart <= j ->
  resumes J j
    (Parser.argumentsCheck buffer e instructionStart instruction
       instructionEnd d j).
Proof.
  intros Hd Hj. unfold Parser.argumentsCheck.
  apply loop_invariant with
    (I := fun k (s : bool * Dockerfile) => j < k /\ J (snd s)).
  - intros k [escaped d'] [Hk Hd'] Hlt. simpl in Hd'.
    unfold Parser.arguments_body.
    destruct (isChar CR (charAt buffer k) || isChar LF (charAt buffer k)).
    { destruct escaped; simpl.
      - repeat split; try lia; auto.
      - split; [lia|]. apply completed_J; auto. }
    destruct (isChar e (charAt buffer k)).
    { destruct (isChar LF (charAt buffer (k + 1))); [simpl; repeat split; try lia; auto|].
      destruct (isChar CR (charAt buffer (k + 1))); [simpl; repeat split; try lia; auto|].
      destruct (isChar SP (charAt buffer (k + 1)) || isChar TAB (charAt buffer (k + 1))).
      - pose proof (escapeCheck_forward escaped k) as Hf.
        destruct (Parser.escapeCheck buffer escaped k) as [escaped' k'].
        simpl in *. repeat split; try lia; auto.
      - simpl. repeat split; try lia; auto. }
    destruct (isChar HASH (charAt buffer k)).
    { destruct escaped.
      - pose proof (nestedComment_resumes true d' k Hd') as Hn.
        destruct (Parser.nestedComment buffer e instructionStart instruction
                    instructionEnd true d' k) as [k' s'|r].
        + destruct Hn as [Hle Hs]; [lia|]. repeat split; try lia; auto.
        + assert (Hr : resumes J k r) by (apply Hn; lia).
          destruct r as [i' d''|d'']; simpl in *; [split; [lia|]; tauto | auto].
      - simpl. repeat split; try lia; auto. }
    destruct (isChar SP (charAt buffer k) || isChar TAB (charAt buffer k));
      simpl; repeat split; try lia; auto.
  - intros k [escaped d'] [Hk Hd'] _. simpl in *. apply completed_J; auto.
  - simpl. split; [lia | auto].
Qed.

End Arguments.

Lemma bare_J (d : Dockerfile) (instructionStart : Z) (instruction : jsstring)
    (instructionEnd : Z) :
  J d -> offset <= instructionStart < len buffer ->
  J (Parser.bare buffer e d instructionStart instruction instructionEnd).
Proof. intros Hd Hs. unfold Parser.bare. apply J_instruction; auto. Qed.

Lemma instructionCheck_resumes (d : Dockerfile) (i : Z) (char : option ascii) :
  J d -> offset <= i < len buffer ->
  resumes J i (Parser.instructionCheck buffer e d i char).
Proof.
  intros Hd Hi. unfold Parser.instructionCheck.
  apply loop_invariant with (I := fun j (_ : jsstring * Z) => i < j).
  - intros j [instruction instructionEnd] Hj Hlt.
    unfold Parser.instruction_body.
    destruct (isChar e (charAt buffer j)).
    { destruct (isChar CR (charAt buffer (j + 1))); [lia|].
      destruct (isChar LF (charAt buffer (j + 1))); [lia|].
      destruct (isChar SP (charAt buffer (j + 1)) || isChar TAB (charAt buffer (j + 1)));
        [|lia].
      apply loop_invariant with (I := fun k (_ : unit) => j + 2 <= k).
      - intros k [] Hk Hklt. unfold Parser.keywordEscape_body.
        destruct (isChar SP (charAt buffer k) || isChar TAB (charAt buffer k)); [lia|].
        destruct (isChar CR (charAt buffer k)); [lia|].
        destruct (isChar LF (charAt buffer k)); lia.
      - intros k [] _ _. simpl. apply bare_J; auto.
      - lia. }
    destruct (isChar SP (charAt buffer j) || isChar TAB (charAt buffer j)).
    { pose proof (argumentsCheck_resumes i instruction
                    (if instructionEnd =? -1 then j else instructionEnd) Hi d j Hd)
        as Ha.
      destruct (Parser.argumentsCheck buffer e i instruction
                  (if instructionEnd =? -1 then j else instructionEnd) d j)
        as [i' d'|d']; simpl in *.
      - destruct Ha as [Hle Hd']; [lia|]. split; [lia | auto].
      - apply Ha. lia. }
    destruct (isChar CR (charAt buffer j)).
    { simpl. split; [lia|]. apply bare_J; auto. }
    destruct (isChar LF (charAt buffer j)).
    { simpl. split; [lia|]. apply bare_J; auto. }
    lia.
  - intros j [instruction instructionEnd] _ _. simpl. apply bare_J; auto.
  - lia.
Qed.

Lemma lineCheck_invariant (d : Dockerfile) :
  J d -> J (Parser.lineCheck buffer e offset d).
Proof.
  intros Hd. unfold Parser.lineCheck.
  apply loop_invariant with (I := fun i d => offset <= i /\ J d).
  - intros i d' [Hi Hd'] Hlt. unfold Parser.line_body.
    destruct (isChar SP (charAt buffer i) || isChar TAB (charAt buffer i)
              || isChar CR (charAt buffer i) || isChar LF (charAt buffer i)).
    { repeat split; try lia; auto. }
    destruct (isChar HASH (charAt buffer i)).
    + pose proof (commentLoop_resumes d' i Hd') as Hc.
      destruct (Parser.commentLoop buffer d' i) as [i' d''|d'']; simpl in *.
      * destruct Hc as [Hle Hd'']; [lia|]. repeat split; try lia; auto.
      * apply Hc. lia.
    + pose proof (instructionCheck_resumes d' i (charAt buffer i) Hd') as Hc.
      destruct (Parser.instructionCheck buffer e d' i (charAt buffer i))
        as [i' d''|d'']; simpl in *.
      * destruct Hc as [Hle Hd'']; [lia|]. repeat split; try lia; auto.
      * apply Hc. lia.
  - intros i d' [_ Hd'] _. exact Hd'.
  - split; [lia | exact Hd].
Qed.

End LineCheck.

(** ** The loops run to their end

    The bodies of the loops move their index forward, so the loops of the
    model satisfy the equation of the [for] loops they stand for. *)

Lemma line_body_forward (buffer : jsstring) (e : ascii) (i : Z)
    (d : Dockerfile) (i' : Z) (d' : Dockerfile) :
  i < len buffer -> Parser.line_body buffer e i d = Next i' d' -> i <= i'.
Proof.
  intros Hlt. unfold Parser.line_body.
  destruct (isChar SP (charAt buffer i) || isChar TAB (charAt buffer i)
            || isChar CR (charAt buffer i) || isChar LF (charAt buffer i)).
  { intros H. injection H as <- _. lia. }
  assert (Hj : forall (d0 : Dockerfile) (a b : Z),
             True -> i <= a < len buffer -> True) by auto.
  destruct (isChar HASH (charAt buffer i)).
  - pose proof (commentLoop_resumes buffer i (fun _ => True) Hj d i I) as Hc.
    intros H. rewrite H in Hc. simpl in Hc. apply Hc. lia.
  - pose proof (instructionCheck_resumes buffer e i (fun _ => True) Hj
                  (fun _ _ _ _ _ _ _ => I) d i (charAt buffer i) I) as Hc.
    intros H. rewrite H in Hc. simpl in Hc. apply Hc. lia.
Qed.

Lemma lineCheck_equation (buffer : jsstring) (e : ascii) (i : Z)
    (d : Dockerfile) :
  Parser.lineCheck buffer e i d =
  if i <? len buffer then
    match Parser.line_body buffer e i d with
    | Next i' d' => Parser.lineCheck buffer e (i' + 1) d'
    | Done d' => d'
    end
  else d.
Proof.
  unfold Parser.lineCheck. apply loop_unfold.
  intros j s j' s'. apply line_body_forward.
Qed.

Lemma whitespaceCheck_forward (fullArgs : jsstring)
    (s : InstructionM.ArgState) (i : Z) :
  i <= fst (InstructionM.whitespaceCheck fullArgs s i).
Proof.
  unfold InstructionM.whitespaceCheck.
  apply loop_invariant with (I := fun j (_ : unit) => i + 2 <= j).
  - intros j [] Hj Hlt. unfold InstructionM.whitespaceCheck_body.
    destruct (isChar SP (charAt fullArgs j) || isChar TAB (charAt fullArgs j));
      [lia|].
    destruct (isChar CR (charAt fullArgs j)); [simpl; lia|].
    destruct (isChar LF (charAt fullArgs j)); [simpl; lia|].
    destruct (InstructionM.found s =? -1); simpl; lia.
  - intros j [] _ _. simpl. lia.
  - lia.
Qed.

Lemma arg_body_forward (text : jsstring) (e : ascii) (fullArgs : jsstring)
    (offset i : Z) (s : InstructionM.ArgState) (i' : Z)
    (s' : InstructionM.ArgState) :
  InstructionM.arg_body text e fullArgs offset i s = Next i' s' -> i <= i'.
Proof.
  unfold InstructionM.arg_body.
  destruct (Util.isWhitespace (charAt fullArgs i)).
  { destruct (InstructionM.escaping s);
      [|destruct (negb (InstructionM.found s =? -1))];
      intros H; injection H as <- _; lia. }
  destruct (isChar e (charAt fullArgs i)).
  { destruct (isChar SP (charAt fullArgs (i + 1))
              || isChar TAB (charAt fullArgs (i + 1))).
    - pose proof (whitespaceCheck_forward fullArgs s i) as Hw.
      destruct (InstructionM.whitespaceCheck fullArgs s i) as [k t].
      intros H. injection H as <- _. exact Hw.
    - destruct (isChar CR (charAt fullArgs (i + 1)));
        [|destruct (isChar LF (charAt fullArgs (i + 1)))];
        intros H; injection H as <- _; lia. }
  destruct (negb (InstructionM.comment s));
    [destruct (InstructionM.start_ s && isChar HASH (charAt fullArgs i))|];
    intros H; injection H as <- _; lia.
Qed.

(** [getArguments] scans the trailing text of the instruction to its end. *)
Lemma scanArgs_equation (text : jsstring) (e : ascii) (fullArgs : jsstring)
    (offset i : Z) (s : InstructionM.ArgState) :
  loop (len fullArgs) (InstructionM.arg_body text e fullArgs offset)
       (fun s => s) i s =
  if i <? len fullArgs then
    match InstructionM.arg_body text e fullArgs offset i s with
    | Next i' s' =>
        loop (len fullArgs) (InstructionM.arg_body text e fullArgs offset)
             (fun s => s) (i' + 1) s'
    | Done r => r
    end
  else s.
Proof.
  apply loop_unfold. intros j t j' t' _. apply arg_body_forward.
Qed.

Lemma valueWhitespace_forward (e : ascii) (value : jsstring)
    (inDouble inSingle literal : bool) (s : PropertyM.ValueState) (i : Z)
    (char : option ascii) (i' : Z) (s' : PropertyM.ValueState) :
  PropertyM.valueWhitespace e value inDouble inSingle literal s i char
  = Some (Next i' s') -> i <= i'.
Proof.
  unfold PropertyM.valueWhitespace. revert i' s'.
  apply loop_invariant with (I := fun j (_ : unit) => i + 2 <= j).
  - intros j [] Hj Hlt. unfold PropertyM.valueWhitespace_body.
    destruct (isChar SP (charAt value j) || isChar TAB (charAt value j)); [lia|].
    destruct (isChar CR (charAt value j));
      [intros i' s' H; injection H as <- _; lia|].
    destruct (isChar LF (charAt value j));
      [intros i' s' H; injection H as <- _; lia|].
    destruct (negb inDouble && negb inSingle && negb literal);
      [|intros i' s' H; discriminate].
    destruct (isChar e (charAt value j));
      intros i' s' H; injection H as <- _; lia.
  - intros j [] _ _ i' s' H. discriminate.
  - lia.
Qed.

Lemma valueComment_forward (value : jsstring) (i : Z) :
  i <= loop (len value) (PropertyM.valueComment_body value) (fun _ => i)
            (i + 1) tt.
Proof.
  apply loop_invariant with (I := fun j (_ : unit) => i < j).
  - intros j [] Hj Hlt. unfold PropertyM.valueComment_body.
    destruct (isChar CR (charAt value j)); [lia|].
    destruct (isChar LF (charAt value j)); lia.
  - intros j [] _ _. lia.
  - lia.
Qed.

Lemma value_body_forward (e : ascii) (value : jsstring)
    (inDouble inSingle literal : bool) (i : Z) (s : PropertyM.ValueState)
    (i' : Z) (s' : PropertyM.ValueState) :
  PropertyM.value_body e value inDouble inSingle literal i s = Next i' s' ->
  i <= i'.
Proof.
  assert (Hescape : forall char,
             PropertyM.valueEscape e inDouble inSingle literal s i char
             = Next i' s' -> i <= i').
  { intros char. unfold PropertyM.valueEscape.
    destruct inDouble;
      [destruct (isChar CR char); [|destruct (isChar LF char);
         [|destruct (negb (isChar DQUOTE char));
           [destruct (isChar e char)|]]]|];
      try (intros H; injection H as <- _; lia).
    destruct (inSingle || literal);
      [destruct (isChar CR char); [|destruct (isChar LF char)]|];
      try (intros H; injection H as <- _; lia).
    destruct (isChar e char); [|destruct (isChar CR char);
                                 [|destruct (isChar LF char)]];
      intros H; injection H as <- _; lia. }
  unfold PropertyM.value_body.
  destruct (isChar e (charAt value i)).
  { destruct (i + 1 =? len value); [discriminate|].
    destruct (isChar SP (charAt value (i + 1))
              || isChar TAB (charAt value (i + 1))); [|apply Hescape].
    destruct (PropertyM.valueWhitespace e value inDouble inSingle literal s i
                (charAt value (i + 1))) as [r|] eqn:Ew; [|apply Hescape].
    intros H. subst r. apply valueWhitespace_forward in Ew. exact Ew. }
  destruct (isChar SP (charAt value i) || isChar TAB (charAt value i)).
  { intros H. injection H as <- _. lia. }
  destruct (isChar CR (charAt value i)).
  { destruct (PropertyM.escaped s && negb (PropertyM.commentCheck s =? -1));
      intros H; injection H as <- _; lia. }
  destruct (isChar LF (charAt value i)).
  { destruct (PropertyM.escaped s && negb (PropertyM.commentCheck s =? -1));
      intros H; injection H as <- _; lia. }
  destruct (isChar HASH (charAt value i)).
  { destruct (PropertyM.escaped s).
    - intros H. injection H as <- _. apply valueComment_forward.
    - intros H. injection H as <- _. lia. }
  intros H. injection H as <- _. lia.
Qed.

(** [Property.getValue] scans the value to its end. *)
Lemma parseValue_equation (e : ascii) (value : jsstring)
    (inDouble inSingle literal : bool) (i : Z) (s : PropertyM.ValueState) :
  loop (len value) (PropertyM.value_body e value inDouble inSingle literal)
       (fun s => PropertyM.escapedValue s) i s =
  if i <? len value then
    match PropertyM.value_body e value inDouble inSingle literal i s with
    | Next i' s' =>
        loop (len value)
             (PropertyM.value_body e value inDouble inSingle literal)
             (fun s => PropertyM.escapedValue s) (i' + 1) s'
    | Done r => r
    end
  else PropertyM.escapedValue s.
Proof.
  apply loop_unfold. intros j t j' t' _. apply value_body_forward.
Qed.

Lemma leading_body_forward (content : jsstring) (e : ascii) (i : Z) (u : unit)
    (i' : Z) (u' : unit) :
  Util.leading_body content e i u = Next i' u' -> i <= i'.
Proof.
  unfold Util.leading_body.
  destruct (isChar SP (charAt content i) || isChar TAB (charAt content i)).
  { intros H. injection H as <-. lia. }
  destruct (isChar e (charAt content i)); [|discriminate].
  assert (Hj : forall j,
             loop (len content) (Util.leadingEscape_body content)
                  (fun _ => None) (i + 1) tt = Some j -> i < j).
  { apply loop_invariant with (I := fun j (_ : unit) => i < j).
    - intros j [] Hj Hlt. unfold Util.leadingEscape_body.
      destruct (isChar SP (charAt content j) || isChar TAB (charAt content j));
        [lia|].
      destruct (isChar CR (charAt content j));
        [intros k H; injection H as <-; lia|].
      destruct (isChar LF (charAt content j));
        [intros k H; injection H as <-; lia | intros k H; discriminate].
    - intros j [] _ _ k H. discriminate.
    - lia. }
  destruct (loop (len content) (Util.leadingEscape_body content)
              (fun _ => None) (i + 1) tt) as [j|]; [|discriminate].
  intros H. injection H as <-. specialize (Hj j eq_refl). lia.
Qed.

Lemma inDouble_body_forward (e : ascii) (value : jsstring) (i : Z) (b : bool)
    (i' : Z) (b' : bool) :
  PropertyM.inDouble_body e value i b = Next i' b' -> i <= i'.
Proof.
  unfold PropertyM.inDouble_body.
  destruct (isChar e (charAt value i));
    [|destruct (isChar DQUOTE (charAt value i) && (i =? len value - 1))];
    intros H; injection H as <- _; lia.
Qed.

(** ** What the scanner keeps of the first line *)

Lemma jsstring_eqb_eq (a b : jsstring) : jsstring_eqb a b = true <-> a = b.
Proof.
  revert b. induction a as [|x a IH]; intros [|y b]; simpl;
    try (split; [discriminate | intros H; discriminate H]); [tauto|].
  rewrite andb_true_iff, Ascii.eqb_eq, IH.
  split; [intros [-> ->]; reflexivity | intros H; injection H; auto].
Qed.

Lemma getDirectiveSymbol_directive (buffer : jsstring) (p : ParserDirective) :
  Parser.getDirectiveSymbol buffer = Some (LDirective p) ->
  exists commentStart lineEnd directiveStart directiveEnd valueStart valueEnd,
    goodSymbol buffer
      (Parser.SDirective commentStart lineEnd directiveStart directiveEnd
         valueStart valueEnd)
    /\ p = mkParserDirective (rangeAt buffer commentStart lineEnd)
             (rangeAt buffer directiveStart directiveEnd)
             (rangeAt buffer valueStart valueEnd).
Proof.
  unfold Parser.getDirectiveSymbol.
  destruct (Parser.getDirectiveOffsets buffer) as [sym|] eqn:E; [|discriminate].
  apply getDirectiveOffsets_good in E.
  destruct sym as [cs le|cs le ds de vs ve]; simpl; intros H; [discriminate|].
  injection H as <-. exists cs, le, ds, de, vs, ve. split; [exact E | reflexivity].
Qed.

Lemma prologue_directive (buffer : jsstring) :
  directive (fst (fst (Parser.prologue buffer))) =
  match Parser.getDirectiveSymbol buffer with
  | Some (LDirective p) => Some p
  | _ => None
  end.
Proof.
  unfold Parser.prologue.
  destruct (Parser.getDirectiveSymbol buffer) as [[c|p|i]|]; reflexivity.
Qed.

Lemma parse_lineCheck (buffer : jsstring) :
  Parser.parse buffer =
  Parser.lineCheck buffer (Parser.parserEscapeChar buffer)
    (snd (Parser.prologue buffer)) (fst (fst (Parser.prologue buffer))).
Proof.
  unfold Parser.parse, Parser.parserEscapeChar, organizeComments.
  destruct (Parser.prologue buffer) as [[d e] o]. reflexivity.
Qed.

(** The main loop leaves the directive alone. *)
Lemma parse_directive (buffer : jsstring) :
  getDirective (Parser.parse buffer) =
  match Parser.getDirectiveSymbol buffer with
  | Some (LDirective p) => Some p
  | _ => None
  end.
Proof.
  rewrite <- prologue_directive, parse_lineCheck. unfold getDirective.
  apply lineCheck_invariant with
    (J := fun d => directive d = directive (fst (fst (Parser.prologue buffer))));
    auto.
Qed.

(** Every instruction is scanned with the escape character of the parser. *)
Lemma parse_escapeChar (buffer : jsstring) :
  Forall (fun i => escapeChar i = Parser.parserEscapeChar buffer)
         (getInstructions (Parser.parse buffer)).
Proof.
  rewrite parse_lineCheck. unfold getInstructions.
  apply lineCheck_invariant with
    (J := fun d => Forall (fun i => escapeChar i = Parser.parserEscapeChar buffer)
                          (instructions d)).
  - intros d a b Hd _. exact Hd.
  - intros d a b c instruction Hd _. simpl.
    apply Forall_app. split; [exact Hd|]. constructor; [reflexivity | constructor].
  - unfold Parser.prologue.
    destruct (Parser.getDirectiveSymbol buffer) as [[c|p|i]|]; simpl; constructor.
Qed.

(** The comments of the document: the first line when it is a plain
    comment, and comments that start at or after the offset the main loop
    starts at. *)
Lemma parse_comments (buffer : jsstring) (c : Comment) :
  In c (getComments (Parser.parse buffer)) ->
  In c (comments (fst (fst (Parser.prologue buffer))))
  \/ exists a b, snd (Parser.prologue buffer) <= a < len buffer
                 /\ commentRange c = rangeAt buffer a b.
Proof.
  revert c. rewrite parse_lineCheck. unfold getComments.
  apply lineCheck_invariant with
    (J := fun d => forall c, In c (comments d) ->
             In c (comments (fst (fst (Parser.prologue buffer))))
             \/ exists a b, snd (Parser.prologue buffer) <= a < len buffer
                            /\ commentRange c = rangeAt buffer a b).
  - intros d a b Hd Ha c Hc. simpl in Hc. apply in_app_or in Hc.
    destruct Hc as [Hc|[<-|[]]]; [auto|]. right. exists a, b. auto.
  - intros d a b c instruction Hd _. exact Hd.
  - intros c Hc. left. exact Hc.
Qed.

(** ** Claims on the leading directive *)

Lemma parse_directive_offsets (buffer : jsstring) (p : ParserDirective) :
  getDirective (Parser.parse buffer) = Some p ->
  exists commentStart lineEnd directiveStart directiveEnd valueStart valueEnd,
    goodSymbol buffer
      (Parser.SDirective commentStart lineEnd directiveStart directiveEnd
         valueStart valueEnd)
    /\ p = mkParserDirective (rangeAt buffer commentStart lineEnd)
             (rangeAt buffer directiveStart directiveEnd)
             (rangeAt buffer valueStart valueEnd).
Proof.
  rewrite parse_directive. intros H.
  apply getDirectiveSymbol_directive.
  destruct (Parser.getDirectiveSymbol buffer) as [[c|q|i]|];
    try discriminate. injection H as ->. reflexivity.
Qed.

(** C6 as stated fails: the value of [# escape= \t\r\n] is the blank and
    the tab, as test/parserDirective.test.ts expects. *)
Lemma directive_value_blank_counterexample :
  getDirective (Parser.parse blankValueDirective) = Some (directiveAt 11)
  /\ ParserDirectiveM.getValue blankValueDirective (directiveAt 11) = [SP; TAB]
  /\ ~ noFlankingWhitespace
         (ParserDirectiveM.getValue blankValueDirective (directiveAt 11)).
Proof.
  split; [reflexivity|]. split; [reflexivity|].
  intros [H _]. vm_compute in H. discriminate.
Qed.

(** C4: for a first line that is an escape directive, the parser's escape
    character, which every instruction is scanned with, is the directive's
    value when the value is the backtick or the backslash, and the backslash
    for any other value; [getEscapeCharacter] agrees; the directive is
    recorded as it was scanned in all cases. *)
Theorem escape_directive_validation (buffer : jsstring) (p : ParserDirective) :
  Parser.getDirectiveSymbol buffer = Some (LDirective p) ->
  ParserDirectiveM.getDirective buffer p = Some escape ->
  let value := ParserDirectiveM.getValue buffer p in
  let dockerfile := Parser.parse buffer in
  getDirective dockerfile = Some p
  /\ Forall (fun i => escapeChar i = Parser.parserEscapeChar buffer)
            (getInstructions dockerfile)
  /\ Resolver.getEscapeCharacter buffer dockerfile
     = [Parser.parserEscapeChar buffer]
  /\ (value = [BACKTICK] -> Parser.parserEscapeChar buffer = BACKTICK)
  /\ (value = [BACKSLASH] -> Parser.parserEscapeChar buffer = BACKSLASH)
  /\ (value <> [BACKTICK] -> value <> [BACKSLASH] ->
      Parser.parserEscapeChar buffer = BACKSLASH).
Proof.
  intros Hsym Hkind value dockerfile.
  assert (Hdir : getDirective dockerfile = Some p).
  { unfold dockerfile. rewrite parse_directive, Hsym. reflexivity. }
  assert (Hesc : Parser.parserEscapeChar buffer =
                 if jsstring_eqb value [BACKTICK] then BACKTICK else BACKSLASH).
  { unfold Parser.parserEscapeChar, Parser.prologue. rewrite Hsym. simpl.
    rewrite Hkind. fold value.
    destruct (jsstring_eqb value [BACKTICK]); [reflexivity|].
    destruct (jsstring_eqb value [BACKSLASH]); reflexivity. }
  split; [exact Hdir|]. split; [apply parse_escapeChar|]. split.
  - unfold Resolver.getEscapeCharacter. rewrite Hdir, Hkind. fold value.
    rewrite Hesc.
    destruct (jsstring_eqb value [BACKTICK]) eqn:Et.
    + apply jsstring_eqb_eq in Et. rewrite Et. reflexivity.
    + destruct (jsstring_eqb value [BACKSLASH]) eqn:Es; [|reflexivity].
      apply jsstring_eqb_eq in Es. rewrite Es. reflexivity.
  - rewrite Hesc. split; [|split].
    + intros ->. reflexivity.
    + intros ->. reflexivity.
    + intros Ht _.
      destruct (jsstring_eqb value [BACKTICK]) eqn:Et; [|reflexivity].
      apply jsstring_eqb_eq in Et. contradiction.
Qed.

Lemma escape_directive_validation_witness :
  Resolver.getEscapeCharacter escapeLetter (Parser.parse escapeLetter)
  = [BACKSLASH]
  /\ getDirective (Parser.parse escapeLetter) = Some (directiveAt 10)
  /\ ParserDirectiveM.getValue escapeLetter (directiveAt 10) = str "a".
Proof.
  assert (Hsym : Parser.getDirectiveSymbol escapeLetter
                 = Some (LDirective (directiveAt 10))) by reflexivity.
  assert (Hkind : ParserDirectiveM.getDirective escapeLetter (directiveAt 10)
                  = Some escape) by reflexivity.
  destruct (escape_directive_validation escapeLetter (directiveAt 10) Hsym Hkind)
    as [Hdir [_ [Hget [_ [_ Hother]]]]].
  split; [|split; [exact Hdir | reflexivity]].
  rewrite Hget, Hother; [reflexivity | |];
    intros H; vm_compute in H; discriminate.
Defined.

(** C5: the directive-shaped second line of [# comment\n# escape=`] is a
    comment: the document has no directive, two comments and the default
    escape character; in any document, a directive starts on line 0 with
    nothing but blanks and tabs before it. *)
Theorem directive_only_on_first_line :
  (getDirective (Parser.parse commentThenDirective) = None
   /\ Resolver.getEscapeCharacter commentThenDirective
        (Parser.parse commentThenDirective) = [BACKSLASH]
   /\ Parser.parserEscapeChar commentThenDirective = BACKSLASH
   /\ getComments (Parser.parse commentThenDirective)
      = [mkComment (mkRange (mkPosition 0 0) (mkPosition 0 9));
         mkComment (mkRange (mkPosition 1 0) (mkPosition 1 10))])
  /\ forall buffer p,
       getDirective (Parser.parse buffer) = Some p ->
       line (start (directiveRange p)) = 0
       /\ allBetween isBlank buffer 0 (character (start (directiveRange p))).
Proof.
  split; [repeat split; reflexivity|].
  intros buffer p H.
  destruct (parse_directive_offsets buffer p H)
    as [cs [le [ds [de [vs [ve [Hgood ->]]]]]]].
  simpl in Hgood.
  destruct Hgood as [H0 [H1 [H2 [H3 [H4 [H5 [H6 [Hblank _]]]]]]]].
  simpl.
  assert (Hpos : positionAt buffer cs = mkPosition 0 cs).
  { apply positionAt_first_line; [lia|].
    intros x Hx. specialize (Hblank x Hx).
    unfold isBlank in Hblank. unfold Util.isNewline.
    destruct (charAt buffer x) as [c|]; [|reflexivity]. simpl in *.
    apply orb_true_iff in Hblank.
    destruct Hblank as [E|E]; apply Ascii.eqb_eq in E; subst c; reflexivity. }
  rewrite Hpos. simpl. split; [reflexivity | exact Hblank].
Qed.

Lemma directive_only_on_first_line_witness :
  line (start (directiveRange (directiveAt 10))) = 0.
Proof.
  destruct directive_only_on_first_line as [_ H].
  apply (H escapeBacktick (directiveAt 10)). reflexivity.
Defined.

(** C9: the empty document has no instructions, no comments, no directive
    and no initial ARGs; its escape character is the backslash; position
    (0, 0) is in the document itself and position (0, 1) in no image. *)
Theorem parse_empty :
  let dockerfile := Parser.parse [] in
  getInstructions dockerfile = []
  /\ getComments dockerfile = []
  /\ getDirective dockerfile = None
  /\ Resolver.getInitialARGs dockerfile = []
  /\ Resolver.getEscapeCharacter [] dockerfile = [BACKSLASH]
  /\ Parser.parserEscapeChar [] = BACKSLASH
  /\ Resolver.getContainingImage [] dockerfile (mkPosition 0 0)
     = Some Resolver.DocumentScope
  /\ Resolver.getContainingImage [] dockerfile (mkPosition 0 1) = None.
Proof. repeat split; reflexivity. Qed.

(** ** Property extraction *)



Lemma substring_substring (s : jsstring) (a b i j : Z) :
  0 <= a <= b -> b <= len s -> 0 <= i <= j -> j <= b - a ->
  substring (substring s a b) i j = substring s (a + i) (a + j).
Proof.
  intros Ha Hb Hi Hj.
  rewrite (substring_ordered (substring s a b))
    by (rewrite ?substring_length; lia).
  rewrite (substring_ordered s a b) by lia.
  rewrite (substring_ordered s (a + i) (a + j)) by lia.
  rewrite skipn_firstn_comm, firstn_firstn, skipn_skipn.
  f_equal; [lia | f_equal; lia].
Qed.




(** ** isBuildVariable *)

Section BuildVariable.

Variable ImageTemplate : Type.
Variable getInitialARGs : list Instruction.
Variable getContainingImage : Position -> option ImageTemplate.
Variable getENVs : ImageTemplate -> list Instruction.
Variable getARGs : ImageTemplate -> list Instruction.
Variable isBefore : Instruction -> Z -> bool.
Variable getProperties : Instruction -> list Property.
Variable getProperty : Instruction -> option Property.

Lemma declares_eq (variable : jsstring) (p : Property) :
  Variables.declares variable p = true <-> PropertyM.getName p = variable.
Proof. unfold Variables.declares. apply jsstring_eqb_eq. Qed.

Lemma initialDeclares_iff (initialArgs : list Instruction) (variable : jsstring) :
  Variables.initialDeclares getProperty initialArgs variable = true <->
  exists arg p, In arg initialArgs /\ getProperty arg = Some p
                /\ PropertyM.getName p = variable.
Proof.
  induction initialArgs as [|arg rest IH]; simpl.
  - split; [discriminate | intros [arg [p [[] _]]]].
  - destruct (getProperty arg) as [p|] eqn:Ep.
    + destruct (Variables.declares variable p) eqn:Ed.
      * split; [|reflexivity]. intros _. exists arg, p.
        apply declares_eq in Ed. auto.
      * rewrite IH. split.
        -- intros [a [q [Hin H]]]. exists a, q. auto.
        -- intros [a [q [[<-|Hin] [Hq Hn]]]].
           ++ rewrite Ep in Hq. injection Hq as <-.
              apply declares_eq in Hn. congruence.
           ++ exists a, q. auto.
    + rewrite IH. split.
      * intros [a [q [Hin H]]]. exists a, q. auto.
      * intros [a [q [[<-|Hin] [Hq Hn]]]]; [congruence|]. exists a, q. auto.
Qed.

Lemma envDeclares_iff (envs : list Instruction) (variable : jsstring) (line : Z) :
  Variables.envDeclares isBefore getProperties envs variable line = true <->
  exists env p, In env envs /\ isBefore env line = true
                /\ In p (getProperties env) /\ PropertyM.getName p = variable.
Proof.
  induction envs as [|env rest IH]; simpl.
  - split; [discriminate | intros [env [p [[] _]]]].
  - destruct (isBefore env line
              && existsb (Variables.declares variable) (getProperties env)) eqn:E.
    + split; [|reflexivity]. intros _.
      apply andb_true_iff in E. destruct E as [Hb He].
      apply existsb_exists in He. destruct He as [p [Hin Hd]].
      apply declares_eq in Hd. exists env, p. auto.
    + rewrite IH. split.
      * intros [a [q [Hin H]]]. exists a, q. auto.
      * intros [a [q [[<-|Hin] [Hb [Hq Hn]]]]]; [|exists a, q; auto].
        rewrite Hb in E. simpl in E.
        assert (existsb (Variables.declares variable) (getProperties env) = true).
        { apply existsb_exists. exists q. split; [exact Hq|].
          apply declares_eq. exact Hn. }
        congruence.
Qed.

Lemma argDeclares_iff (args : list Instruction) (variable : jsstring) (line : Z) :
  Variables.argDeclares isBefore getProperty args variable line = true <->
  exists arg p, In arg args /\ isBefore arg line = true
                /\ getProperty arg = Some p /\ PropertyM.getName p = variable.
Proof.
  induction args as [|arg rest IH]; simpl.
  - split; [discriminate | intros [arg [p [[] _]]]].
  - destruct (isBefore arg line) eqn:Eb; simpl.
    + destruct (getProperty arg) as [p|] eqn:Ep.
      * destruct (Variables.declares variable p) eqn:Ed.
        -- split; [|reflexivity]. intros _. exists arg, p.
           apply declares_eq in Ed. auto.
        -- rewrite IH. split.
           ++ intros [a [q [Hin H]]]. exists a, q. auto.
           ++ intros [a [q [[<-|Hin] [Hb [Hq Hn]]]]]; [|exists a, q; auto].
              rewrite Ep in Hq. injection Hq as <-.
              apply declares_eq in Hn. congruence.
      * rewrite IH. split.
        -- intros [a [q [Hin H]]]. exists a, q. auto.
        -- intros [a [q [[<-|Hin] [Hb [Hq Hn]]]]]; [congruence|]. exists a, q. auto.
    + rewrite IH. split.
      * intros [a [q [Hin H]]]. exists a, q. auto.
      * intros [a [q [[<-|Hin] [Hb [Hq Hn]]]]]; [congruence|]. exists a, q. auto.
Qed.


(** C8: on a FROM only the initial ARGs are looked at, and the result is
    [true] or [undefined]; elsewhere an ENV of the containing image that is
    before the line and declares the name gives [false], otherwise such an
    ARG gives [true], and without a match the result is [undefined]. *)
Theorem isBuildVariable_tristate (this : Instruction) (variable : jsstring)
    (line : Z) :
  let result :=
    Variables.isBuildVariable ImageTemplate getInitialARGs getContainingImage
      getENVs getARGs isBefore getProperties getProperty this variable line in
  let initialMatch :=
    exists arg p, In arg getInitialARGs /\ getProperty arg = Some p
                  /\ PropertyM.getName p = variable in
  (jsstring_eqb (InstructionM.getKeyword this) (str "FROM") = true ->
   (initialMatch -> result = Ok (Some true))
   /\ (~ initialMatch -> result = Ok None)
   /\ result <> Ok (Some false))
  /\ (jsstring_eqb (InstructionM.getKeyword this) (str "FROM") = false ->
      forall image, getContainingImage (mkPosition line 0) = Some image ->
        let envMatch :=
          exists env p, In env (getENVs image) /\ isBefore env line = true
                        /\ In p (getProperties env)
                        /\ PropertyM.getName p = variable in
        let argMatch :=
          exists arg p, In arg (getARGs image) /\ isBefore arg line = true
                        /\ getProperty arg = Some p
                        /\ PropertyM.getName p = variable in
        (envMatch -> result = Ok (Some false))
        /\ (~ envMatch -> argMatch -> result = Ok (Some true))
        /\ (~ envMatch -> ~ argMatch -> result = Ok None)).
Proof.
  intros result initialMatch. unfold result, Variables.isBuildVariable.
  split.
  - intros ->.
    destruct (Variables.initialDeclares getProperty getInitialARGs variable) eqn:E.
    + split; [intros _; reflexivity|]. split; [|discriminate].
      intros Hno. apply initialDeclares_iff in E. contradiction.
    + split; [|split; [intros _; reflexivity | discriminate]].
      intros Hyes. apply initialDeclares_iff in Hyes. congruence.
  - intros Hkw image Himage. rewrite Hkw, Himage.
    pose proof (envDeclares_iff (rev (getENVs image)) variable line) as Henv.
    pose proof (argDeclares_iff (rev (getARGs image)) variable line) as Harg.
    assert (Hrev : forall (l : list Instruction) (P : Instruction -> Property -> Prop),
               (exists x p, In x (rev l) /\ P x p) <-> (exists x p, In x l /\ P x p)).
    { intros l P. split; intros [x [p [Hin HP]]]; exists x, p; split; auto;
        [apply in_rev | apply in_rev in Hin]; auto. }
    rewrite Hrev in Henv, Harg.
    destruct (Variables.envDeclares isBefore getProperties
                (rev (getENVs image)) variable line).
    + split; [intros _; reflexivity|].
      split; intros Hno; exfalso; apply Hno, Henv; reflexivity.
    + split; [intros H; apply Henv in H; discriminate|].
      destruct (Variables.argDeclares isBefore getProperty
                  (rev (getARGs image)) variable line).
      * split; [intros _ _; reflexivity|].
        intros _ Hno. exfalso. apply Hno, Harg. reflexivity.
      * split; [|intros _ _; reflexivity].
        intros _ Hyes. apply Harg in Hyes. discriminate.
Qed.

End BuildVariable.

Lemma isBuildVariable_tristate_witness :
  Variables.isBuildVariable (list Instruction)
    (Resolver.getInitialARGs (Parser.parse stagedARGs))
    (imageAt stagedARGs (Parser.parse stagedARGs))
    (filter Resolver.isENV) (filter Resolver.isARG) startsBefore
    (Resolver.getProperties Util.findLeadingNonWhitespace stagedARGs)
    (Resolver.getProperty Util.findLeadingNonWhitespace stagedARGs)
    (nthInstruction stagedARGs 3) (str "v") 3
  = Ok (Some true).
Proof.
  pose proof (isBuildVariable_tristate (list Instruction)
                (Resolver.getInitialARGs (Parser.parse stagedARGs))
                (imageAt stagedARGs (Parser.parse stagedARGs))
                (filter Resolver.isENV) (filter Resolver.isARG) startsBefore
                (Resolver.getProperties Util.findLeadingNonWhitespace stagedARGs)
                (Resolver.getProperty Util.findLeadingNonWhitespace stagedARGs)
                (nthInstruction stagedARGs 3) (str "v") 3) as H.
  cbv zeta in H. destruct H as [_ H].
  assert (Hkw : jsstring_eqb (InstructionM.getKeyword (nthInstruction stagedARGs 3))
                  (str "FROM") = false) by (vm_compute; reflexivity).
  assert (Himg : imageAt stagedARGs (Parser.parse stagedARGs) (mkPosition 3 0)
                 = Some [nthInstruction stagedARGs 1; nthInstruction stagedARGs 2;
                         nthInstruction stagedARGs 3]) by (vm_compute; reflexivity).
  destruct (H Hkw _ Himg) as [_ [Harg _]].
  apply Harg.
  - intros [env [p [Hin _]]]. vm_compute in Hin. exact Hin.
  - exists (nthInstruction stagedARGs 2).
    let p := eval vm_compute in
               (Resolver.getProperty Util.findLeadingNonWhitespace stagedARGs
                  (nthInstruction stagedARGs 2)) in
    match p with Some ?q => exists q end.
    split; [vm_compute; auto|].
    split; [vm_compute; reflexivity|].
    split; vm_compute; reflexivity.
Defined.

(** ** Escaped characters in arguments *)

(** The step of [getArguments] at an escape character that neither a blank
    nor a line break follows: the argument being read gets the character
    after the escape character, and both of them before a [$]. *)
Lemma arg_body_escape (text : jsstring) (e : ascii) (fullArgs : jsstring)
    (offset i : Z) (s : InstructionM.ArgState) :
  Util.isWhitespace (charAt fullArgs i) = false ->
  isChar e (charAt fullArgs i) = true ->
  Util.isWhitespace (charAt fullArgs (i + 1)) = false ->
  exists s',
    InstructionM.arg_body text e fullArgs offset i s = Next (i + 1) s'
    /\ InstructionM.escapedArg s'
       = InstructionM.escapedArg (InstructionM.flushEscaped text offset s)
         ++ (if isChar DOLLAR (charAt fullArgs (i + 1))
             then [e; DOLLAR]
             else chars (charAt fullArgs (i + 1)))
    /\ InstructionM.found s'
       = (if InstructionM.found (InstructionM.flushEscaped text offset s) =? -1
          then i
          else InstructionM.found (InstructionM.flushEscaped text offset s)).
Proof.
  intros Hws Hesc Hnext.
  unfold InstructionM.arg_body. rewrite Hws, Hesc.
  unfold Util.isWhitespace, Util.isNewline in Hnext.
  apply orb_false_iff in Hnext. destruct Hnext as [Hnext Hnl].
  apply orb_false_iff in Hnext. destruct Hnext as [Hsp Htab].
  apply orb_false_iff in Hnl. destruct Hnl as [Hcr Hlf].
  rewrite Hsp, Htab, Hcr, Hlf. simpl.
  eexists. split; [reflexivity|]. simpl. split; [|reflexivity].
  destruct (isChar DOLLAR (charAt fullArgs (i + 1))) eqn:Ed; [|reflexivity].
  destruct (charAt fullArgs i) as [c|]; [|discriminate].
  simpl in Hesc. apply Ascii.eqb_eq in Hesc. subst c.
  destruct (charAt fullArgs (i + 1)) as [n|]; [|discriminate].
  simpl in Ed. apply Ascii.eqb_eq in Ed. subst n. reflexivity.
Qed.

Lemma charAt_app_left (a b : jsstring) (i : Z) :
  0 <= i < len a -> charAt (a ++ b) i = charAt a i.
Proof.
  intros Hi. rewrite !charAt_nth_error by lia.
  apply nth_error_app1. unfold len in Hi. lia.
Qed.

Lemma charAt_app_right (a b : jsstring) (i : Z) :
  len a <= i -> charAt (a ++ b) i = hd_error (skipn (Z.to_nat (i - len a)) b).
Proof.
  intros Hi. pose proof (len_nonneg a).
  rewrite charAt_nth_error by lia.
  rewrite nth_error_app2 by (unfold len in Hi; lia).
  replace (Z.to_nat i - List.length a)%nat with (Z.to_nat (i - len a))
    by (unfold len; lia).
  generalize (Z.to_nat (i - len a)). intros n. revert b.
  induction n as [|n IH]; intros [|x b]; simpl; auto.
Qed.

Lemma skipn_succ_cons (A : Type) (l : list A) (n : nat) (x : A) (rest : list A) :
  skipn n l = x :: rest -> skipn (S n) l = rest.
Proof.
  revert l. induction n as [|n IH]; intros l H.
  - simpl in H. subst l. reflexivity.
  - destruct l as [|y l]; [discriminate|]. simpl in *. apply IH. exact H.
Qed.

Lemma skipn_past (A : Type) (l : list A) (n : nat) :
  (List.length l <= n)%nat -> skipn n l = [].
Proof. intros H. apply skipn_all2. exact H. Qed.

(** An argument made of one token: the value is the token with its escape
    characters dropped, except before [$]. *)
Lemma scanArgs_single_token (text : jsstring) (e : ascii)
    (blanks token : jsstring) (offset : Z) :
  Forall (fun c => isBlank (Some c) = true) blanks ->
  Forall (fun c => Util.isWhitespace (Some c) = false) token ->
  token <> [] ->
  InstructionM.finishArgs text (blanks ++ token) offset
    (InstructionM.scanArgs text e (blanks ++ token) offset)
  = [mkArgument (unescapeToken e token)
       (rangeAt text (offset + len blanks) (offset + len (blanks ++ token)))].
Proof.
  intros Hblanks Htoken Hne.
  set (fullArgs := blanks ++ token).
  set (lb := len blanks).
  assert (Hlb : 0 <= lb) by apply len_nonneg.
  assert (Hn : len fullArgs = lb + len token).
  { unfold fullArgs, lb, len. rewrite length_app. lia. }
  assert (Hlt : 0 < len token).
  { destruct token; [contradiction|]. unfold len. simpl. lia. }
  unfold InstructionM.scanArgs.
  apply loop_invariant with
    (I := fun i s =>
            (0 <= i < lb /\ s = InstructionM.initialArgState)
            \/ (lb <= i
                /\ InstructionM.args s = []
                /\ InstructionM.start_ s = false
                /\ InstructionM.comment s = false
                /\ InstructionM.found s = (if i =? lb then -1 else lb)
                /\ InstructionM.escapedWhitespaceDetected s = false
                /\ InstructionM.escaping s = false
                /\ InstructionM.escapeMarker s = -1
                /\ InstructionM.escapedArg s
                   ++ unescapeToken e (skipn (Z.to_nat (i - lb)) token)
                   = unescapeToken e token)).
  - intros i s HI Hi.
    destruct HI as [[Hib ->]|[Hib [Hargs [Hstart [Hcomment [Hfound [Hewd
                     [Hescaping [Hmarker Hvalue]]]]]]]]].
    + (* a leading blank *)
      assert (Hc : isBlank (charAt fullArgs i) = true).
      { unfold fullArgs. rewrite charAt_app_left by (fold lb; lia).
        rewrite charAt_nth_error by lia.
        destruct (nth_error blanks (Z.to_nat i)) as [c|] eqn:Ec.
        - apply nth_error_In in Ec. rewrite Forall_forall in Hblanks. auto.
        - apply nth_error_None in Ec. unfold lb, len in Hib. lia. }
      unfold InstructionM.arg_body, Util.isWhitespace.
      unfold isBlank in Hc. rewrite Hc. simpl.
      split; [lia|].
      destruct (Z.eq_dec (i + 1) lb) as [Heq|Hneq].
      * right. rewrite Heq. rewrite Z.eqb_refl. replace (lb - lb) with 0 by lia.
        simpl. repeat split; auto. lia.
      * left. split; [lia | reflexivity].
    + (* a character of the token *)
      destruct (skipn (Z.to_nat (i - lb)) token) as [|c rest] eqn:Esk.
      { apply (f_equal (@List.length ascii)) in Esk.
        rewrite length_skipn in Esk. simpl in Esk. unfold len in *. lia. }
      assert (Hc : charAt fullArgs i = Some c).
      { unfold fullArgs. rewrite charAt_app_right by (fold lb; lia).
        fold lb. rewrite Esk. reflexivity. }
      assert (Hnext : charAt fullArgs (i + 1) = hd_error rest).
      { unfold fullArgs. rewrite charAt_app_right by (fold lb; lia).
        fold lb. replace (Z.to_nat (i + 1 - lb)) with (S (Z.to_nat (i - lb))) by lia.
        rewrite (skipn_succ_cons _ _ _ _ _ Esk). reflexivity. }
      assert (Hrest : skipn (Z.to_nat (i + 1 - lb)) token = rest).
      { replace (Z.to_nat (i + 1 - lb)) with (S (Z.to_nat (i - lb))) by lia.
        apply (skipn_succ_cons _ _ _ _ _ Esk). }
      assert (Hin : forall x, In x (c :: rest) -> Util.isWhitespace (Some x) = false).
      { intros x Hx. rewrite Forall_forall in Htoken. apply Htoken.
        rewrite <- (firstn_skipn (Z.to_nat (i - lb)) token).
        apply in_or_app. right. rewrite Esk. exact Hx. }
      assert (Hcw : Util.isWhitespace (Some c) = false) by (apply Hin; left; reflexivity).
      assert (Hflush : InstructionM.flushEscaped text offset s = s).
      { unfold InstructionM.flushEscaped. rewrite Hewd. reflexivity. }
      assert (Hnotfirst : forall k, i < k -> (k =? lb) = false)
        by (intros k Hk; apply Z.eqb_neq; lia).
      assert (Hfound' : (if InstructionM.found s =? -1 then i else InstructionM.found s)
                        = lb).
      { rewrite Hfound. destruct (Z.eqb_spec i lb); simpl; [lia|].
        destruct (Z.eqb_spec lb (-1)); lia. }
      simpl in Hvalue.
      destruct (Ascii.eqb c e) eqn:Ece.
      * (* the escape character *)
        apply Ascii.eqb_eq in Ece. subst c.
        assert (Hnw : Util.isWhitespace (hd_error rest) = false).
        { destruct rest as [|n rest']; [reflexivity|].
          apply Hin. right. left. reflexivity. }
        assert (Hskip : skipn (Z.to_nat (i + 1 + 1 - lb)) token = tl rest).
        { replace (Z.to_nat (i + 1 + 1 - lb)) with (S (Z.to_nat (i + 1 - lb))) by lia.
          destruct rest as [|n rest'].
          - apply skipn_past.
            apply (f_equal (@List.length ascii)) in Hrest.
            rewrite length_skipn in Hrest. simpl in Hrest. lia.
          - apply (skipn_succ_cons _ _ _ _ _ Hrest). }
        unfold InstructionM.arg_body. rewrite Hc, Hcw.
        cbn [isChar]. rewrite Ascii.eqb_refl. rewrite Hnext.
        unfold Util.isWhitespace, Util.isNewline in Hnw.
        apply orb_false_iff in Hnw. destruct Hnw as [Hnw Hnl].
        apply orb_false_iff in Hnw. destruct Hnw as [Hsp Htab].
        apply orb_false_iff in Hnl. destruct Hnl as [Hcr Hlf].
        rewrite Hsp, Htab, Hcr, Hlf. cbn [orb]. rewrite Hflush, Hfound'.
        split; [lia|]. right.
        cbn [InstructionM.args InstructionM.start_ InstructionM.comment
             InstructionM.found InstructionM.escapedWhitespaceDetected
             InstructionM.escaping InstructionM.escapeMarker
             InstructionM.escapedArg].
        rewrite Hnotfirst by lia. rewrite Hskip.
        split; [lia|]. repeat split; auto.
        rewrite <- Hvalue.
        destruct rest as [|n rest']; cbn [hd_error isChar chars tl].
        -- rewrite !app_nil_r. reflexivity.
        -- destruct (Ascii.eqb n DOLLAR) eqn:En.
           ++ apply Ascii.eqb_eq in En. subst n.
              rewrite <- !app_assoc. reflexivity.
           ++ rewrite <- !app_assoc. reflexivity.
      * (* any other character *)
        unfold InstructionM.arg_body. rewrite Hc, Hcw. simpl. rewrite Ece.
        rewrite Hcomment, Hstart. simpl. rewrite Hflush.
        split; [lia|]. right. simpl. rewrite Hfound'.
        rewrite Hnotfirst by lia.
        split; [lia|]. repeat split; auto.
        rewrite Hrest, <- Hvalue, <- app_assoc. reflexivity.
  - intros i s HI Hi.
    destruct HI as [[Hib _]|[Hib [Hargs [Hstart [Hcomment [Hfound [Hewd
                     [Hescaping [Hmarker Hvalue]]]]]]]]]; [lia|].
    unfold InstructionM.finishArgs.
    assert (Hf : InstructionM.found s = lb).
    { rewrite Hfound. destruct (Z.eqb_spec i lb); [lia | reflexivity]. }
    rewrite Hf, Hmarker.
    destruct (Z.eqb_spec lb (-1)); [lia|]. simpl.
    rewrite Hargs, Hf. simpl. f_equal. f_equal.
    rewrite skipn_past in Hvalue by (unfold len in *; lia).
    rewrite app_nil_r in Hvalue. exact Hvalue.
  - destruct (Z.eq_dec lb 0) as [H0|H0].
    + right. rewrite H0. simpl. repeat split; auto. lia.
    + left. split; [lia | reflexivity].
Qed.

(** ** Escaped dollars in parseVariables *)

Section EscapedDollar.

Variable text : jsstring.
Variable resolveVariable : jsstring -> Z -> resolved.
Variable ImageTemplate : Type.
Variable getInitialARGs : list Instruction.
Variable getContainingImage : Position -> option ImageTemplate.
Variable getENVs : ImageTemplate -> list Instruction.
Variable getARGs : ImageTemplate -> list Instruction.
Variable isBefore : Instruction -> Z -> bool.
Variable getProperties : Instruction -> list Property.
Variable getProperty : Instruction -> option Property.

Variable this : Instruction.
Variable offset : Z.
Variable arg : jsstring.

Let e : ascii := escapeChar this.

Hypothesis e_not_whitespace : Util.isWhitespace (Some e) = false.
Hypothesis e_not_dollar : Ascii.eqb DOLLAR e = false.

Let live (v : VariableT) : Prop := startsAtLiveDollar text e offset arg v.

Let push :=
  Variables.pushVariable text resolveVariable ImageTemplate getInitialARGs
    getContainingImage getENVs getARGs isBefore getProperties getProperty
    this offset.

Lemma pushVariable_live (variables : list VariableT) (i j : Z)
    (name : jsstring) (nameRange : Range) (modifier : option jsstring)
    (modifierRange : option Range) (parameter : option jsstring)
    (parameterRange : option Range) (stringValue : jsstring)
    (variables' : list VariableT) :
  Forall live variables ->
  charAt arg i = Some DOLLAR ->
  isChar e (charAt arg (i - 1)) = false ->
  push variables i name nameRange (Variables.at_ text offset i j) modifier
       modifierRange parameter parameterRange stringValue = Ok variables' ->
  Forall live variables'.
Proof.
  intros Hall Hd He. unfold push, Variables.pushVariable.
  destruct (Variables.isBuildVariable _ _ _ _ _ _ _ _ _ _ _); [|discriminate].
  intros H. injection H as <-.
  apply Forall_app. split; [exact Hall|].
  constructor; [|constructor].
  exists i, j. simpl. repeat split; auto.
Qed.

Lemma escapedLine_forward (j k : Z) :
  Variables.escapedLine arg j = Some k ->
  j < k /\ isChar LF (charAt arg k) = true.
Proof.
  unfold Variables.escapedLine. revert k.
  apply loop_invariant with (I := fun k (_ : unit) => j < k).
  - intros k [] Hk Hlt. unfold Variables.escapedLine_body.
    destruct (isChar SP (charAt arg k) || isChar TAB (charAt arg k)
              || isChar CR (charAt arg k)); [lia|].
    destruct (isChar LF (charAt arg k)) eqn:E; [|lia].
    intros k' H. injection H as <-. auto.
  - intros k [] _ _ k' H. discriminate.
  - lia.
Qed.

Lemma isChar_e_whitespace (char : option ascii) :
  Util.isWhitespace char = true -> isChar e char = false.
Proof.
  intros Hw. destruct char as [c|]; [|reflexivity]. simpl.
  destruct (Ascii.eqb c e) eqn:E; [|reflexivity].
  apply Ascii.eqb_eq in E. subst c. congruence.
Qed.

(** Every variable [parseVariables] emits starts at a [$] that no escape
    character precedes. *)
Lemma parseVariables_live (variables : list VariableT) :
  Variables.parseVariables text resolveVariable ImageTemplate getInitialARGs
    getContainingImage getENVs getARGs isBefore getProperties getProperty
    this offset arg = Ok variables ->
  Forall live variables.
Proof.
  unfold Variables.parseVariables. revert variables.
  apply loop_invariant with
    (I := fun i vars =>
            (isChar DOLLAR (charAt arg i) = true ->
             isChar e (charAt arg (i - 1)) = false)
            /\ Forall live vars).
  - intros i vars [Hlive Hall] Hlt.
    unfold Variables.variable_body. fold e.
    change (Variables.escChar this) with e.
    destruct (isChar e (charAt arg i)) eqn:Ee.
    { (* an escape character *)
      destruct (isChar DOLLAR (charAt arg (i + 1))) eqn:Ed.
      - split; [lia|]. split; [|exact Hall].
        intros _. replace (i + 1 + 1 - 1) with (i + 1) by lia.
        destruct (charAt arg (i + 1)) as [c|]; [|reflexivity].
        simpl in Ed. apply Ascii.eqb_eq in Ed. subst c. simpl. exact e_not_dollar.
      - split; [lia|]. split; [|exact Hall].
        intros Hd. congruence. }
    assert (Hnext : forall vars', Forall live vars' ->
               (isChar DOLLAR (charAt arg (i + 1)) = true ->
                isChar e (charAt arg (i + 1 - 1)) = false) /\ Forall live vars').
    { intros vars' Hv. split; [|exact Hv].
      intros _. replace (i + 1 - 1) with i by lia. exact Ee. }
    destruct (isChar DOLLAR (charAt arg i)) eqn:Ed; [|split; [lia | auto]].
    assert (Hdollar : charAt arg i = Some DOLLAR).
    { destruct (charAt arg i) as [c|]; [|discriminate].
      simpl in Ed. apply Ascii.eqb_eq in Ed. subst c. reflexivity. }
    specialize (Hlive eq_refl).
    destruct (isChar LBRACE (charAt arg (i + 1))).
    { (* a braced reference *)
      apply loop_invariant with (I := fun j (_ : Variables.BraceState) => i < j).
      - intros j s Hj Hjlt. unfold Variables.brace_body.
        change (Variables.escChar this) with e.
        destruct (isChar e (charAt arg j)) eqn:Eje.
        { destruct (Variables.escapedLine arg j) as [k|] eqn:Ek; [|lia].
          apply escapedLine_forward in Ek. lia. }
        destruct (isChar RBRACE (charAt arg j)).
        { destruct (Variables.closeBrace _ _ _ _ _ _ _ _ _ _ _ _ _ _ _ _ _)
            as [vars'|] eqn:Ec; [|intros v H; discriminate].
          split; [lia|]. split.
          - intros _. replace (j + 1 - 1) with j by lia. exact Eje.
          - unfold Variables.closeBrace in Ec.
            destruct (if Variables.nameEnd s =? -1 then _ else _)
              as [[[nameEnd modifier] modifierRange] substitutionRange].
            eapply pushVariable_live; eauto. }
        destruct (isChar COLON (charAt arg j));
          [destruct (Variables.nameEnd s =? -1); lia|].
        destruct (isChar LF (charAt arg j) || isChar CR (charAt arg j)
                  || isChar SP (charAt arg j) || isChar TAB (charAt arg j)); [lia|].
        destruct (Variables.nameEnd s =? -1); lia.
      - intros j s _ _ v H. injection H as <-. exact Hall.
      - lia. }
    destruct (Util.isWhitespace (charAt arg (i + 1)) || (i =? len arg - 1)).
    { split; [lia | auto]. }
    (* a plain reference *)
    apply loop_invariant with
      (I := fun j (_ : jsstring) => i < j /\ isChar e (charAt arg (j - 1)) = false).
    + intros j name [Hj Hprev] Hjlt. unfold Variables.plain_body.
      change (Variables.escChar this) with e.
      assert (Hfinish :
                match
                  match Variables.pushPlain text resolveVariable ImageTemplate
                          getInitialARGs getContainingImage getENVs getARGs
                          isBefore getProperties getProperty this offset vars i j
                          name with
                  | TypeError =>
                      @Done jsstring _
                        (@Done (list VariableT) (outcome (list VariableT))
                           TypeError)
                  | Ok variables' => Done (Next (j - 1) variables')
                  end
                with
                | Next j' _ => j <= j' /\ (i < j' + 1 /\ isChar e (charAt arg (j' + 1 - 1)) = false)
                | Done (Next i' vars') =>
                    i <= i' /\ (isChar DOLLAR (charAt arg (i' + 1)) = true ->
                                isChar e (charAt arg (i' + 1 - 1)) = false)
                    /\ Forall live vars'
                | Done (Done r) => forall v, r = Ok v -> Forall live v
                end).
      { destruct (Variables.pushPlain _ _ _ _ _ _ _ _ _ _ _ _ _ _ _ _)
          as [vars'|] eqn:Ep; [|intros v H; discriminate].
        split; [lia|]. split.
        - intros _. replace (j - 1 + 1 - 1) with (j - 1) by lia. exact Hprev.
        - unfold Variables.pushPlain in Ep. eapply pushVariable_live; eauto. }
      destruct (isChar CR (charAt arg j) || isChar LF (charAt arg j)
                || isChar SP (charAt arg j) || isChar TAB (charAt arg j)) eqn:Ews.
      { split; [lia|]. split; [lia|]. replace (j + 1 - 1) with j by lia.
        apply isChar_e_whitespace. unfold Util.isWhitespace, Util.isNewline.
        destruct (isChar CR (charAt arg j)), (isChar LF (charAt arg j)),
          (isChar SP (charAt arg j)), (isChar TAB (charAt arg j));
          simpl in *; congruence. }
      destruct (isChar DOLLAR (charAt arg j) || isChar SQUOTE (charAt arg j)
                || isChar DQUOTE (charAt arg j)); [exact Hfinish|].
      destruct (isChar e (charAt arg j)) eqn:Eje.
      { destruct (Variables.escapedLine arg j) as [k|] eqn:Ek.
        - apply escapedLine_forward in Ek. destruct Ek as [Hk Hlf].
          split; [lia|]. split; [lia|]. replace (k + 1 - 1) with k by lia.
          apply isChar_e_whitespace. unfold Util.isWhitespace, Util.isNewline.
          rewrite Hlf. repeat rewrite orb_true_r. reflexivity.
        - intros v H. unfold Variables.pushPlain in H.
          eapply pushVariable_live; eauto. }
      destruct (charAt arg j) as [c|] eqn:Ec; [|exact Hfinish].
      destruct (Variables.isNameChar c); [|exact Hfinish].
      split; [lia|]. split; [lia|]. replace (j + 1 - 1) with j by lia.
      rewrite Ec. exact Eje.
    + intros j name _ _ v H. unfold Variables.pushPlain in H.
      eapply pushVariable_live; eauto.
    + split; [lia|]. replace (i + 1 - 1) with i by lia. exact Ee.
  - intros i vars [_ Hall] _ v H. injection H as <-. exact Hall.
  - split; [|constructor].
    intros _. simpl. reflexivity.
Qed.

End EscapedDollar.

Lemma parserEscapeChar_cases (buffer : jsstring) :
  Parser.parserEscapeChar buffer = BACKSLASH
  \/ Parser.parserEscapeChar buffer = BACKTICK.
Proof.
  unfold Parser.parserEscapeChar, Parser.prologue.
  destruct (Parser.getDirectiveSymbol buffer) as [[c|p|i]|]; simpl; auto.
  destruct (ParserDirectiveM.getDirective buffer p) as [[]|]; auto.
  destruct (jsstring_eqb (ParserDirectiveM.getValue buffer p) [BACKTICK]); auto.
  destruct (jsstring_eqb (ParserDirectiveM.getValue buffer p) [BACKSLASH]); auto.
Qed.

(** C7: in [getArguments], an escape character that neither whitespace nor
    a line break follows gives the argument the character after it, and
    both characters before a [$]; an argument made of one token is the token
    with its escape characters dropped except before [$]; and for every
    instruction of a parsed document, no variable that [parseVariables]
    emits starts at a [$] that follows an escape character. *)
Theorem escaped_dollar_preserved :
  (forall text e fullArgs offset i s,
     Util.isWhitespace (charAt fullArgs i) = false ->
     isChar e (charAt fullArgs i) = true ->
     Util.isWhitespace (charAt fullArgs (i + 1)) = false ->
     exists s',
       InstructionM.arg_body text e fullArgs offset i s = Next (i + 1) s'
       /\ InstructionM.escapedArg s'
          = InstructionM.escapedArg (InstructionM.flushEscaped text offset s)
            ++ (if isChar DOLLAR (charAt fullArgs (i + 1))
                then [e; DOLLAR]
                else chars (charAt fullArgs (i + 1))))
  /\ (forall text e blanks token offset,
        Forall (fun c => isBlank (Some c) = true) blanks ->
        Forall (fun c => Util.isWhitespace (Some c) = false) token ->
        token <> [] ->
        map argValue
          (InstructionM.finishArgs text (blanks ++ token) offset
             (InstructionM.scanArgs text e (blanks ++ token) offset))
        = [unescapeToken e token])
  /\ (forall buffer resolveVariable ImageTemplate getInitialARGs
             getContainingImage getENVs getARGs isBefore getProperties
             getProperty this offset arg variables,
        In this (getInstructions (Parser.parse buffer)) ->
        Variables.parseVariables buffer resolveVariable ImageTemplate
          getInitialARGs getContainingImage getENVs getARGs isBefore
          getProperties getProperty this offset arg = Ok variables ->
        Forall (startsAtLiveDollar buffer (escapeChar this) offset arg)
               variables).
Proof.
  split; [|split].
  - intros text e fullArgs offset i s Hws He Hnext.
    destruct (arg_body_escape text e fullArgs offset i s Hws He Hnext)
      as [s' [Hs' [Hv _]]].
    exists s'. split; assumption.
  - intros text e blanks token offset Hb Ht Hne.
    rewrite scanArgs_single_token by assumption. reflexivity.
  - intros buffer resolveVariable ImageTemplate getInitialARGs
           getContainingImage getENVs getARGs isBefore getProperties
           getProperty this offset arg variables Hin Hparse.
    pose proof (parse_escapeChar buffer) as Hesc.
    rewrite Forall_forall in Hesc. specialize (Hesc this Hin).
    eapply parseVariables_live; [| |exact Hparse].
    + rewrite Hesc.
      destruct (parserEscapeChar_cases buffer) as [->| ->]; reflexivity.
    + rewrite Hesc.
      destruct (parserEscapeChar_cases buffer) as [->| ->]; reflexivity.
Qed.

Lemma escaped_dollar_preserved_witness :
  map argValue
    (InstructionM.getArguments escapedDollarRUN (nthInstruction escapedDollarRUN 0))
  = [str "echo"; str "\$v"; str "abc"]
  /\ map argValue
       (InstructionM.finishArgs escapedDollarRUN (str " " ++ str "a\bc\$v") 3
          (InstructionM.scanArgs escapedDollarRUN BACKSLASH
             (str " " ++ str "a\bc\$v") 3))
     = [str "abc\$v"].
Proof.
  split; [vm_compute; reflexivity|].
  destruct escaped_dollar_preserved as [_ [H _]].
  rewrite H.
  - vm_compute. reflexivity.
  - repeat constructor.
  - repeat constructor.
  - discriminate.
Defined.

(** ** Variable resolution *)

Section Resolution.

Variable findLeadingNonWhitespace : jsstring -> ascii -> Z.
Variable text : jsstring.

Let resolveIn := Resolver.resolveIn findLeadingNonWhitespace text.
Let resolveVariable := Resolver.resolveVariable findLeadingNonWhitespace text.

Lemma walkBack_undeclared (instrs : list Instruction) (variable : jsstring)
    (line : Z) :
  undeclared findLeadingNonWhitespace text instrs variable line ->
  Resolver.walkBack findLeadingNonWhitespace text instrs variable line
  = Undefined.
Proof.
  induction instrs as [|i rest IH]; intros Hun; simpl; [reflexivity|].
  assert (Hrest : undeclared findLeadingNonWhitespace text rest variable line).
  { intros i' Hin. apply Hun. right. exact Hin. }
  destruct (Resolver.visibleAt line i) eqn:Ev; [|auto].
  pose proof (Hun i (or_introl eq_refl) Ev) as Hi.
  unfold declaration in Hi. rewrite Hi. auto.
Qed.

Lemma undeclared_rev (instrs : list Instruction) (variable : jsstring)
    (line : Z) :
  undeclared findLeadingNonWhitespace text instrs variable line ->
  undeclared findLeadingNonWhitespace text (rev instrs) variable line.
Proof. intros H i Hin. apply H. apply in_rev. exact Hin. Qed.

Lemma resolveIn_undeclared (instrs : list Instruction) (variable : jsstring)
    (line : Z) :
  undeclared findLeadingNonWhitespace text instrs variable line ->
  resolveIn instrs variable line = Undefined.
Proof.
  intros H. unfold resolveIn, Resolver.resolveIn.
  apply walkBack_undeclared, undeclared_rev, H.
Qed.

Lemma walkBack_app_undeclared (skipped instrs : list Instruction)
    (variable : jsstring) (line : Z) :
  undeclared findLeadingNonWhitespace text skipped variable line ->
  Resolver.walkBack findLeadingNonWhitespace text (skipped ++ instrs) variable line
  = Resolver.walkBack findLeadingNonWhitespace text instrs variable line.
Proof.
  induction skipped as [|i rest IH]; intros Hun; simpl; [reflexivity|].
  assert (Hrest : undeclared findLeadingNonWhitespace text rest variable line).
  { intros i' Hin. apply Hun. right. exact Hin. }
  destruct (Resolver.visibleAt line i) eqn:Ev; [|auto].
  pose proof (Hun i (or_introl eq_refl) Ev) as Hi.
  unfold declaration in Hi. rewrite Hi. auto.
Qed.

(** The walk returns the nearest visible declaration. *)
Lemma resolveIn_nearest (instrs : list Instruction) (variable : jsstring)
    (line : Z) (p : Property) :
  nearest findLeadingNonWhitespace text instrs variable line p ->
  resolveIn instrs variable line = Resolver.valueOf p.
Proof.
  intros [before [i [after [-> [Hv [Hd Hun]]]]]].
  unfold resolveIn, Resolver.resolveIn.
  rewrite rev_app_distr. simpl. rewrite <- app_assoc. simpl.
  rewrite walkBack_app_undeclared by (apply undeclared_rev; exact Hun).
  simpl. rewrite Hv. unfold declaration in Hd. rewrite Hd. reflexivity.
Qed.

Lemma resolveVariable_scope (d : Dockerfile) (variable : jsstring) (line : Z) :
  resolveVariable d variable line =
  match visibleScope text d line with
  | None => Undefined
  | Some instrs =>
      match resolveIn instrs variable line with
      | Null =>
          if Resolver.onFROM d line then Null
          else match resolveIn (Resolver.getInitialARGs d) variable line with
               | Undefined => Null
               | r => r
               end
      | r => r
      end
  end.
Proof.
  unfold resolveVariable, Resolver.resolveVariable, visibleScope, imageAt, resolveIn.
  destruct (Resolver.onFROM d line).
  - destruct (Resolver.resolveIn _ _ _ _ _); reflexivity.
  - destruct (Resolver.getContainingImage text d (mkPosition line 0));
      reflexivity.
Qed.

End Resolution.

(** The assertions of the resolveVariable test hold of the model. *)
Example resolveVariable_test :
  map (resolveAt threeStages "ver") [1; 4; 7; 3; 6; 8]
  = [Value (str "latest"); Value (str "latest"); Value (str "latest");
     Value (str "latest"); Value (str "override"); Undefined]
  /\ resolveAt redeclaredTwice "ver" 4 = Null
  /\ resolveAt envBeforeFROM "image" 1 = Undefined
  /\ resolveAt fromAlpine "image" (-1) = Undefined
  /\ resolveAt fromAlpine "image" 1 = Undefined.
Proof. repeat split; vm_compute; reflexivity. Qed.

(** The assertions of the parser directive tests on names, values and
    ranges. *)
Example parserDirective_test :
  Parser.getDirectiveSymbol ([HASH; TAB; TAB] ++ str "Escape   =`")
  = Some (LDirective
            (mkParserDirective
               (mkRange (mkPosition 0 0) (mkPosition 0 14))
               (mkRange (mkPosition 0 3) (mkPosition 0 9))
               (mkRange (mkPosition 0 13) (mkPosition 0 14))))
  /\ Parser.getDirectiveSymbol (str "# escape=asdf asdf")
     = Some (LDirective
               (mkParserDirective
                  (mkRange (mkPosition 0 0) (mkPosition 0 18))
                  (mkRange (mkPosition 0 2) (mkPosition 0 8))
                  (mkRange (mkPosition 0 9) (mkPosition 0 13))))
  /\ Parser.getDirectiveSymbol (str "# escape=")
     = Some (LDirective (directiveAt 9))
  /\ Parser.getDirectiveSymbol (str "# escape") = None
  /\ getComments (Parser.parse (str "# escape"))
     = [mkComment (mkRange (mkPosition 0 0) (mkPosition 0 8))].
Proof. repeat split; vm_compute; reflexivity. Qed.

(** C1: in the staged document the name resolves to ["1"] on the first RUN
    line and to ["2"] on the second; on the line of a FROM the nearest
    initial ARG that declares a name is what the name resolves to; inside a
    stage a name that no visible instruction of the stage declares is
    undefined, whatever the initial ARGs declare. *)
Theorem stage_scoping :
  (Resolver.resolveVariable Util.findLeadingNonWhitespace stagedARGs
     (Parser.parse stagedARGs) (str "v") 3 = Value (str "1")
   /\ Resolver.resolveVariable Util.findLeadingNonWhitespace stagedARGs
        (Parser.parse stagedARGs) (str "v") 6 = Value (str "2"))
  /\ (forall findLeadingNonWhitespace text d variable line p,
        Resolver.onFROM d line = true ->
        nearest findLeadingNonWhitespace text (Resolver.getInitialARGs d)
                variable line p ->
        Resolver.resolveVariable findLeadingNonWhitespace text d variable line
        = Resolver.valueOf p)
  /\ (forall findLeadingNonWhitespace text d variable line stage,
        Resolver.onFROM d line = false ->
        Resolver.getContainingImage text d (mkPosition line 0)
        = Some (Resolver.StageScope stage) ->
        undeclared findLeadingNonWhitespace text stage variable line ->
        Resolver.resolveVariable findLeadingNonWhitespace text d variable line
        = Undefined).
Proof.
  split; [split; vm_compute; reflexivity|]. split.
  - intros flnw text d variable line p Hfrom Hnear.
    rewrite resolveVariable_scope. unfold visibleScope. rewrite Hfrom.
    rewrite (resolveIn_nearest _ _ _ _ _ _ Hnear).
    destruct (Resolver.valueOf p); reflexivity.
  - intros flnw text d variable line stage Hfrom Himage Hun.
    rewrite resolveVariable_scope. unfold visibleScope, imageAt.
    rewrite Hfrom, Himage. simpl.
    rewrite (resolveIn_undeclared _ _ _ _ _ Hun). reflexivity.
Qed.

Lemma stage_scoping_witness :
  Resolver.resolveVariable Util.findLeadingNonWhitespace initialOnly
    (Parser.parse initialOnly) (str "v") 2 = Undefined
  /\ Resolver.resolveVariable Util.findLeadingNonWhitespace initialOnly
       (Parser.parse initialOnly) (str "v") 1 = Value (str "1").
Proof.
  destruct stage_scoping as [_ [Hfrom Hstage]].
  split.
  - apply (Hstage Util.findLeadingNonWhitespace initialOnly
             (Parser.parse initialOnly) (str "v") 2
             [nthInstruction initialOnly 1; nthInstruction initialOnly 2]).
    + vm_compute. reflexivity.
    + vm_compute. reflexivity.
    + intros i [<-|[<-|[]]] _; vm_compute; reflexivity.
  - let p := eval vm_compute in
               (declaration Util.findLeadingNonWhitespace initialOnly (str "v")
                  (nthInstruction initialOnly 0)) in
    match p with
    | Some ?q =>
        rewrite (Hfrom Util.findLeadingNonWhitespace initialOnly
                   (Parser.parse initialOnly) (str "v") 1 q)
    end.
    + vm_compute. reflexivity.
    + vm_compute. reflexivity.
    + exists [], (nthInstruction initialOnly 0), [].
      split; [vm_compute; reflexivity|].
      split; [vm_compute; reflexivity|].
      split; [vm_compute; reflexivity|].
      intros i [].
Defined.

(** C2, as the code has it: a name resolves to the value of the nearest
    visible declaration when that declaration has one, and is undefined when
    the line is outside the document or no visible instruction declares the
    name; when the nearest visible declaration has no value the result is
    null on the line of a FROM, and elsewhere what the nearest initial ARG
    that declares the name gives (its value, or null), and null when no
    initial ARG declares it. *)
Theorem resolveVariable_tristate
    (findLeadingNonWhitespace : jsstring -> ascii -> Z) (text : jsstring)
    (d : Dockerfile) (variable : jsstring) (line : Z) :
  let result :=
    Resolver.resolveVariable findLeadingNonWhitespace text d variable line in
  let nearest := nearest findLeadingNonWhitespace text in
  let undeclared := undeclared findLeadingNonWhitespace text in
  (visibleScope text d line = None -> result = Undefined)
  /\ forall instrs,
       visibleScope text d line = Some instrs ->
       (undeclared instrs variable line -> result = Undefined)
       /\ (forall p v, nearest instrs variable line p ->
                       propValue p = Some v -> result = Value v)
       /\ (forall p, nearest instrs variable line p -> propValue p = None ->
             (Resolver.onFROM d line = true -> result = Null)
             /\ (Resolver.onFROM d line = false ->
                 (undeclared (Resolver.getInitialARGs d) variable line ->
                  result = Null)
                 /\ (forall q,
                       nearest (Resolver.getInitialARGs d) variable line q ->
                       result = Resolver.valueOf q))).
Proof.
  intros result nearest' undeclared'. unfold result, nearest', undeclared'.
  rewrite resolveVariable_scope.
  split; [intros ->; reflexivity|].
  intros instrs ->. split; [|split].
  - intros Hun. rewrite (resolveIn_undeclared _ _ _ _ _ Hun). reflexivity.
  - intros p v Hnear Hv.
    assert (Hval : Resolver.valueOf p = Value v)
      by (unfold Resolver.valueOf, PropertyM.getValue_; rewrite Hv; reflexivity).
    rewrite (resolveIn_nearest _ _ _ _ _ _ Hnear), Hval. reflexivity.
  - intros p Hnear Hv.
    assert (Hval : Resolver.valueOf p = Null)
      by (unfold Resolver.valueOf, PropertyM.getValue_; rewrite Hv; reflexivity).
    rewrite (resolveIn_nearest _ _ _ _ _ _ Hnear), Hval.
    split; [intros ->; reflexivity|].
    intros ->. split.
    + intros Hun. rewrite (resolveIn_undeclared _ _ _ _ _ Hun). reflexivity.
    + intros q Hq. rewrite (resolveIn_nearest _ _ _ _ _ _ Hq).
      unfold Resolver.valueOf, PropertyM.getValue_.
      destruct (propValue q); reflexivity.
Qed.

Lemma resolveVariable_tristate_witness :
  Resolver.resolveVariable Util.findLeadingNonWhitespace stagedARGs
    (Parser.parse stagedARGs) (str "v") 6 = Value (str "2").
Proof.
  destruct (resolveVariable_tristate Util.findLeadingNonWhitespace stagedARGs
              (Parser.parse stagedARGs) (str "v") 6) as [_ H].
  assert (Hscope : visibleScope stagedARGs (Parser.parse stagedARGs) 6
                   = Some [nthInstruction stagedARGs 4; nthInstruction stagedARGs 5;
                           nthInstruction stagedARGs 6])
    by (vm_compute; reflexivity).
  destruct (H _ Hscope) as [_ [Hvalue _]].
  let p := eval vm_compute in
             (declaration Util.findLeadingNonWhitespace stagedARGs (str "v")
                (nthInstruction stagedARGs 5)) in
  match p with
  | Some ?q => apply (Hvalue q)
  end.
  - exists [nthInstruction stagedARGs 4], (nthInstruction stagedARGs 5),
      [nthInstruction stagedARGs 6].
    split; [reflexivity|].
    split; [vm_compute; reflexivity|].
    split; [vm_compute; reflexivity|].
    intros i [<-|[]] _. vm_compute. reflexivity.
  - vm_compute. reflexivity.
Defined.

(** C2 as stated fails: on the first RUN line of the staged document the
    nearest visible declaration of [v] is the [ARG v] of the stage, which has
    no value, yet the name resolves to ["1"], not to null, as the test of
    resolveVariable expects. *)
Lemma valueless_redeclaration_counterexample :
  exists p,
    visibleScope stagedARGs (Parser.parse stagedARGs) 3
    = Some [nthInstruction stagedARGs 1; nthInstruction stagedARGs 2;
            nthInstruction stagedARGs 3]
    /\ nearest Util.findLeadingNonWhitespace stagedARGs
         [nthInstruction stagedARGs 1; nthInstruction stagedARGs 2;
          nthInstruction stagedARGs 3] (str "v") 3 p
    /\ propValue p = None
    /\ Resolver.resolveVariable Util.findLeadingNonWhitespace stagedARGs
         (Parser.parse stagedARGs) (str "v") 3 = Value (str "1")
    /\ Resolver.resolveVariable Util.findLeadingNonWhitespace stagedARGs
         (Parser.parse stagedARGs) (str "v") 3 <> Null.
Proof.
  let p := eval vm_compute in
             (declaration Util.findLeadingNonWhitespace stagedARGs (str "v")
                (nthInstruction stagedARGs 2)) in
  match p with
  | Some ?q => exists q
  end.
  split; [vm_compute; reflexivity|]. split.
  - exists [nthInstruction stagedARGs 1], (nthInstruction stagedARGs 2),
      [nthInstruction stagedARGs 3].
    split; [reflexivity|].
    split; [vm_compute; reflexivity|].
    split; [vm_compute; reflexivity|].
    intros i [<-|[]] _. vm_compute. reflexivity.
  - split; [reflexivity|]. split; [vm_compute; reflexivity|].
    intros H. vm_compute in H. discriminate.
Qed.

(** ** Running a loop up to an index *)

(** A loop whose body goes on up to the index [k] is, from any index
    before [k], the loop from [k]. *)
Lemma loop_run {St R : Type} (I : Z -> St -> Prop) (n : Z)
    (body : Z -> St -> ctl St R) (eof : St -> R) (k : Z) :
  (forall j s j' s', j < n -> body j s = Next j' s' -> j <= j') ->
  (forall j s, I j s -> j < k ->
     exists j' s', body j s = Next j' s' /\ j' + 1 <= k /\ I (j' + 1) s') ->
  k <= n ->
  forall fuel j s, (Z.to_nat (k - j) <= fuel)%nat -> I j s -> j <= k ->
    exists s', I k s' /\ loop n body eof j s = loop n body eof k s'.
Proof.
  intros Hprog Hstep Hk fuel.
  induction fuel as [|fuel IH]; intros j s Hfuel Hs Hj.
  - assert (j = k) by lia. subst j. exists s. auto.
  - destruct (Z.eq_dec j k) as [->|Hne]; [exists s; auto|].
    destruct (Hstep j s Hs ltac:(lia)) as [j' [s' [Hb [Hle Hs']]]].
    assert (Hjj : j <= j') by (apply (Hprog j s j' s'); [lia | exact Hb]).
    destruct (IH (j' + 1) s' ltac:(lia) Hs' Hle) as [s'' [Hs'' Heq]].
    exists s''. split; [exact Hs''|].
    rewrite (loop_unfold n body eof j s Hprog).
    destruct (Z.ltb_spec j n); [|lia]. rewrite Hb. exact Heq.
Qed.

Lemma charAt_Forall (P : ascii -> Prop) (s : jsstring) (i : Z) :
  Forall P s -> 0 <= i < len s -> exists c, charAt s i = Some c /\ P c.
Proof.
  intros Hall Hi. rewrite charAt_nth_error by lia.
  destruct (nth_error s (Z.to_nat i)) as [c|] eqn:E.
  - exists c. split; [reflexivity|].
    rewrite Forall_forall in Hall. apply Hall. eapply nth_error_In. exact E.
  - apply nth_error_None in E. unfold len in Hi. lia.
Qed.

Lemma len_app (a b : jsstring) : len (a ++ b) = len a + len b.
Proof. unfold len. rewrite length_app. lia. Qed.

Lemma charAt_app_r (a b : jsstring) (i : Z) :
  len a <= i -> charAt (a ++ b) i = charAt b (i - len a).
Proof.
  intros Hi. pose proof (len_nonneg a).
  rewrite !charAt_nth_error by lia.
  rewrite nth_error_app2 by (unfold len in Hi; lia).
  f_equal. unfold len. lia.
Qed.

Lemma isWhitespace_cases (c : ascii) :
  Util.isWhitespace (Some c) = true ->
  c = SP \/ c = TAB \/ c = CR \/ c = LF.
Proof.
  unfold Util.isWhitespace, Util.isNewline. simpl.
  destruct (Ascii.eqb_spec c SP); [auto|].
  destruct (Ascii.eqb_spec c TAB); [auto|].
  destruct (Ascii.eqb_spec c CR); [auto|].
  destruct (Ascii.eqb_spec c LF); [auto|].
  discriminate.
Qed.

Lemma isKeywordChar_spec (c : ascii) :
  isKeywordChar c = true ->
  Ascii.eqb c SP = false /\ Ascii.eqb c TAB = false /\ Ascii.eqb c CR = false
  /\ Ascii.eqb c LF = false /\ Ascii.eqb c BACKSLASH = false.
Proof.
  unfold isKeywordChar, Util.isWhitespace, Util.isNewline. simpl.
  destruct (Ascii.eqb c SP), (Ascii.eqb c TAB), (Ascii.eqb c CR),
    (Ascii.eqb c LF), (Ascii.eqb c BACKSLASH); simpl; intros H;
    try discriminate; auto.
Qed.

Lemma isLineChar_spec (c : ascii) :
  isLineChar c = true ->
  Ascii.eqb c CR = false /\ Ascii.eqb c LF = false
  /\ Ascii.eqb c BACKSLASH = false.
Proof.
  unfold isLineChar, Util.isNewline. simpl.
  destruct (Ascii.eqb c CR), (Ascii.eqb c LF), (Ascii.eqb c BACKSLASH);
    simpl; intros H; try discriminate; auto.
Qed.

(** ** Documents without instructions *)

Lemma getDirectiveOffsets_blank (buffer : jsstring) :
  Forall (fun c => Util.isWhitespace (Some c) = true) buffer ->
  Parser.getDirectiveOffsets buffer = None.
Proof.
  intros Hall. unfold Parser.getDirectiveOffsets.
  apply loop_invariant with (I := fun j (_ : unit) => 0 <= j).
  - intros j [] Hj Hlt. unfold Parser.directiveCheck_body.
    destruct (charAt_Forall _ buffer j Hall ltac:(lia)) as [c [-> Hc]].
    apply isWhitespace_cases in Hc.
    destruct Hc as [->|[->|[->| ->]]]; simpl; try reflexivity; lia.
  - intros j [] _ _. reflexivity.
  - lia.
Qed.

(** X1: a document that holds nothing but blanks, tabs and line breaks has
    no directive, no comment and no instruction. *)
Theorem parse_blank (buffer : jsstring) :
  Forall (fun c => Util.isWhitespace (Some c) = true) buffer ->
  Parser.parse buffer = newDockerfile.
Proof.
  intros Hall.
  unfold Parser.parse, Parser.prologue, Parser.getDirectiveSymbol.
  rewrite (getDirectiveOffsets_blank buffer Hall). simpl.
  unfold organizeComments, Parser.lineCheck.
  apply loop_invariant with (I := fun j d => 0 <= j /\ d = newDockerfile).
  - intros j d [Hj ->] Hlt. unfold Parser.line_body.
    destruct (charAt_Forall _ buffer j Hall ltac:(lia)) as [c [-> Hc]].
    apply isWhitespace_cases in Hc.
    destruct Hc as [->|[->|[->| ->]]]; simpl; (split; [lia|]); split; (lia || reflexivity).
  - intros j d [_ ->] _. reflexivity.
  - split; [lia | reflexivity].
Qed.

Lemma parse_blank_witness :
  Parser.parse ([SP; TAB; CR; LF; SP; LF]) = newDockerfile.
Proof.
  apply parse_blank. repeat constructor.
Defined.

(** ** The class of an instruction *)

Lemma createInstruction_fields (e : ascii) (lineRange : Range)
    (keyword : jsstring) (keywordRange : Range) :
  range (Parser.createInstruction e lineRange keyword keywordRange) = lineRange
  /\ escapeChar (Parser.createInstruction e lineRange keyword keywordRange) = e
  /\ instruction (Parser.createInstruction e lineRange keyword keywordRange)
     = keyword
  /\ instructionRange (Parser.createInstruction e lineRange keyword keywordRange)
     = keywordRange.
Proof. repeat split. Qed.

Ltac keyword_chain :=
  repeat match goal with
         | |- context [jsstring_eqb ?a ?b] =>
             let E := fresh "E" in
             destruct (jsstring_eqb a b) eqn:E;
             [apply jsstring_eqb_eq in E|]
         end.

Lemma createInstruction_class (e : ascii) (lineRange : Range)
    (keyword : jsstring) (keywordRange : Range) :
  let i := Parser.createInstruction e lineRange keyword keywordRange in
  (class i = From <-> toUpperCase keyword = str "FROM")
  /\ (class i = Arg <-> toUpperCase keyword = str "ARG")
  /\ (class i = Env <-> toUpperCase keyword = str "ENV").
Proof.
  cbv zeta. unfold Parser.createInstruction. cbv zeta. cbn [class].
  generalize (toUpperCase keyword). intros kw.
  keyword_chain;
    repeat split; intros H; try discriminate H; try reflexivity;
    try assumption; try congruence;
    subst kw; try discriminate.
Qed.

(** X2: every instruction of a parsed document is the one
    [createInstruction] makes of its own keyword text, with the escape
    character of the parser, which is the backslash or the backtick; its
    keyword range starts where its range starts; and it is a FROM, an ARG or
    an ENV of the document exactly when its keyword, in upper case, is that
    word. *)
Theorem parse_instruction_created (buffer : jsstring) (i : Instruction) :
  In i (getInstructions (Parser.parse buffer)) ->
  i = Parser.createInstruction (Parser.parserEscapeChar buffer) (range i)
        (instruction i) (instructionRange i)
  /\ (escapeChar i = BACKSLASH \/ escapeChar i = BACKTICK)
  /\ start (instructionRange i) = start (range i)
  /\ (Resolver.isFROM i = true <-> InstructionM.getKeyword i = str "FROM")
  /\ (Resolver.isARG i = true <-> InstructionM.getKeyword i = str "ARG")
  /\ (Resolver.isENV i = true <-> InstructionM.getKeyword i = str "ENV").
Proof.
  intros Hin.
  assert (Hmade : i = Parser.createInstruction (Parser.parserEscapeChar buffer)
                        (range i) (instruction i) (instructionRange i)
                  /\ start (instructionRange i) = start (range i)).
  { revert i Hin. rewrite parse_lineCheck. unfold getInstructions.
    apply lineCheck_invariant with
      (J := fun d => forall i, In i (instructions d) ->
               i = Parser.createInstruction (Parser.parserEscapeChar buffer)
                     (range i) (instruction i) (instructionRange i)
               /\ start (instructionRange i) = start (range i)).
    - intros d a b Hd _. exact Hd.
    - intros d a b c keyword Hd _ i Hi. simpl in Hi.
      apply in_app_or in Hi. destruct Hi as [Hi|[<-|[]]]; [auto|].
      split; reflexivity.
    - unfold Parser.prologue.
      destruct (Parser.getDirectiveSymbol buffer) as [[c|p|i0]|];
        simpl; intros i []. }
  destruct Hmade as [Hmade Hstart].
  split; [exact Hmade|]. split.
  { rewrite Hmade. cbn [escapeChar Parser.createInstruction].
    apply parserEscapeChar_cases. }
  split; [exact Hstart|].
  pose proof (createInstruction_class (Parser.parserEscapeChar buffer)
                (range i) (instruction i) (instructionRange i)) as Hclass.
  cbv zeta in Hclass. rewrite <- Hmade in Hclass.
  destruct Hclass as [Hfrom [Harg Henv]].
  unfold Resolver.isFROM, Resolver.isARG, Resolver.isENV,
    InstructionM.getKeyword, InstructionM.getInstruction.
  rewrite <- Hfrom, <- Harg, <- Henv.
  destruct (class i); repeat split; intros H; try discriminate H; reflexivity.
Qed.

Lemma parse_instruction_created_witness :
  Resolver.isFROM (nthInstruction fromAlpine 0) = true
  /\ InstructionM.getKeyword (nthInstruction fromAlpine 0) = str "FROM".
Proof.
  assert (Hin : In (nthInstruction fromAlpine 0)
                   (getInstructions (Parser.parse fromAlpine))).
  { vm_compute. left. reflexivity. }
  destruct (parse_instruction_created fromAlpine _ Hin)
    as [_ [_ [_ [Hfrom _]]]].
  assert (Hk : InstructionM.getKeyword (nthInstruction fromAlpine 0) = str "FROM")
    by (vm_compute; reflexivity).
  split; [apply Hfrom; exact Hk | exact Hk].
Defined.

(** ** One-line documents *)

Lemma firstn_snoc_nth (s : jsstring) (j : Z) (c : ascii) :
  0 <= j -> charAt s j = Some c ->
  firstn (Z.to_nat (j + 1)) s = firstn (Z.to_nat j) s ++ [c].
Proof.
  intros Hj Hc. rewrite charAt_nth_error in Hc by lia.
  replace (Z.to_nat (j + 1)) with (S (Z.to_nat j)) by lia.
  revert Hc. generalize (Z.to_nat j). intros n. revert s.
  induction n as [|n IH]; intros [|x s] Hc; simpl in Hc; try discriminate.
  - injection Hc as ->. reflexivity.
  - simpl. f_equal. apply IH. exact Hc.
Qed.

Lemma firstn_len (s : jsstring) : firstn (Z.to_nat (len s)) s = s.
Proof. unfold len. rewrite Nat2Z.id. apply firstn_all. Qed.

Section SingleLine.

Variable keyword : jsstring.
Variable rest : jsstring.

Let buffer : jsstring := keyword ++ rest.

Hypothesis keyword_chars : Forall (fun c => isKeywordChar c = true) keyword.
Hypothesis keyword_first :
  exists c word, keyword = c :: word /\ Ascii.eqb c HASH = false.
Hypothesis rest_chars : Forall (fun c => isLineChar c = true) rest.
Hypothesis rest_first :
  rest = [] \/ exists b more, rest = b :: more /\ isBlank (Some b) = true.

Lemma singleLine_len : 0 < len keyword /\ len buffer = len keyword + len rest.
Proof.
  destruct keyword_first as [c [word [-> _]]].
  unfold buffer. rewrite len_app. unfold len. simpl. lia.
Qed.

Lemma singleLine_keyword (j : Z) :
  0 <= j < len keyword ->
  exists c, charAt buffer j = Some c /\ charAt keyword j = Some c
            /\ isKeywordChar c = true.
Proof.
  intros Hj. unfold buffer. rewrite charAt_app_left by lia.
  destruct (charAt_Forall _ keyword j keyword_chars Hj) as [c [Hc Hk]].
  exists c. auto.
Qed.

Lemma singleLine_rest (j : Z) :
  len keyword <= j < len buffer ->
  exists c, charAt buffer j = Some c /\ isLineChar c = true.
Proof.
  intros Hj. destruct singleLine_len as [_ Hn].
  unfold buffer. rewrite charAt_app_r by lia.
  apply (charAt_Forall _ rest (j - len keyword) rest_chars). lia.
Qed.

Lemma singleLine_blank :
  len keyword < len buffer ->
  exists b, charAt buffer (len keyword) = Some b /\ isBlank (Some b) = true.
Proof.
  intros Hlt. destruct singleLine_len as [_ Hn].
  destruct rest_first as [E|[b [more [E Hb]]]].
  - rewrite E in Hn. unfold len in Hn at 3. simpl in Hn. lia.
  - exists b. split; [|exact Hb].
    unfold buffer. rewrite charAt_app_r by lia.
    rewrite Z.sub_diag, E. reflexivity.
Qed.

Lemma singleLine_directive : Parser.getDirectiveOffsets buffer = None.
Proof.
  destruct singleLine_len as [Hk Hn]. pose proof (len_nonneg rest).
  unfold Parser.getDirectiveOffsets.
  apply loop_invariant with (I := fun j (_ : unit) => j = 0).
  - intros j [] -> Hlt. unfold Parser.directiveCheck_body.
    destruct (singleLine_keyword 0 ltac:(lia)) as [c [Hc [Hkc Hchar]]].
    rewrite Hc. apply isKeywordChar_spec in Hchar.
    destruct Hchar as [Hsp [Htab [Hcr [Hlf _]]]].
    cbn [isChar]. rewrite Hsp, Htab, Hcr, Hlf. cbn [orb].
    destruct keyword_first as [c0 [word [E Hhash]]].
    rewrite E in Hkc. injection Hkc as <-. rewrite Hhash. reflexivity.
  - intros j [] _ _. reflexivity.
  - reflexivity.
Qed.

Lemma singleLine_arguments (d : Dockerfile) :
  Parser.argumentsCheck buffer BACKSLASH 0 keyword (len keyword) d
    (len keyword)
  = Done (addInstruction d (lineInstruction buffer keyword)).
Proof.
  unfold Parser.argumentsCheck.
  apply loop_invariant with
    (I := fun k (s : bool * Dockerfile) => len keyword < k /\ s = (false, d)).
  - intros k s [Hk ->] Hlt. unfold Parser.arguments_body.
    destruct (singleLine_rest k ltac:(lia)) as [c [Hc Hchar]].
    rewrite Hc. apply isLineChar_spec in Hchar.
    destruct Hchar as [Hcr [Hlf He]].
    cbn [isChar]. rewrite Hcr, Hlf, He. cbn [orb].
    destruct (Ascii.eqb c HASH); [split; [lia|]; split; [lia | reflexivity]|].
    destruct (Ascii.eqb c SP || Ascii.eqb c TAB);
      split; try lia; split; try lia; reflexivity.
  - intros k s [_ ->] _. reflexivity.
  - split; [lia | reflexivity].
Qed.

Lemma singleLine_instruction (d : Dockerfile) (c : ascii) :
  charAt buffer 0 = Some c ->
  Parser.instructionCheck buffer BACKSLASH d 0 (Some c)
  = Done (addInstruction d (lineInstruction buffer keyword)).
Proof.
  intros Hfirst. destruct singleLine_len as [Hk Hn].
  pose proof (len_nonneg rest) as Hrest.
  unfold Parser.instructionCheck.
  apply loop_invariant with
    (I := fun j (s : jsstring * Z) =>
            1 <= j <= len keyword
            /\ s = (firstn (Z.to_nat j) keyword, if j =? 1 then -1 else j)).
  - intros j s [Hj ->] Hlt. unfold Parser.instruction_body.
    destruct (Z.eq_dec j (len keyword)) as [Hend|Hmid].
    + (* the blank after the keyword *)
      destruct (singleLine_blank ltac:(lia)) as [b [Hb Hblank]].
      rewrite Hend, Hb. rewrite firstn_len.
      unfold isBlank in Hblank. cbn [isChar] in Hblank |- *.
      assert (He : Ascii.eqb b BACKSLASH = false).
      { apply orb_true_iff in Hblank.
        destruct Hblank as [E|E]; apply Ascii.eqb_eq in E; subst b;
          reflexivity. }
      rewrite He, Hblank.
      replace (if (if len keyword =? 1 then -1 else len keyword) =? -1
               then len keyword
               else if len keyword =? 1 then -1 else len keyword)
        with (len keyword).
      * apply singleLine_arguments.
      * destruct (Z.eqb_spec (len keyword) 1) as [E|E]; [reflexivity|].
        destruct (Z.eqb_spec (len keyword) (-1)); [lia | reflexivity].
    + (* a character of the keyword *)
      destruct (singleLine_keyword j ltac:(lia)) as [x [Hx [Hkx Hchar]]].
      rewrite Hx. apply isKeywordChar_spec in Hchar.
      destruct Hchar as [Hsp [Htab [Hcr [Hlf He]]]].
      cbn [isChar chars]. rewrite He, Hsp, Htab, Hcr, Hlf. cbn [orb].
      split; [lia|]. split; [lia|].
      rewrite (firstn_snoc_nth keyword j x) by (lia || exact Hkx).
      destruct (Z.eqb_spec (j + 1) 1); [lia | reflexivity].
  - intros j s [Hj ->] Hge.
    assert (Hjk : j = len keyword) by lia.
    assert (Hbuf : len buffer = len keyword) by lia.
    rewrite Hjk, firstn_len.
    replace (if (if len keyword =? 1 then -1 else len keyword) =? -1
             then len buffer
             else if len keyword =? 1 then -1 else len keyword)
      with (len keyword).
    + unfold Parser.bare, lineInstruction. rewrite Hbuf. reflexivity.
    + destruct (Z.eqb_spec (len keyword) 1) as [E|E]; [simpl; lia|].
      destruct (Z.eqb_spec (len keyword) (-1)); [lia | reflexivity].
  - split; [lia|].
    destruct keyword_first as [c0 [word [E _]]].
    unfold buffer in Hfirst. rewrite E in Hfirst |- *.
    simpl in Hfirst. injection Hfirst as ->. reflexivity.
Qed.

Lemma singleLine_parse :
  Parser.parse buffer
  = mkDockerfile None [] [lineInstruction buffer keyword].
Proof.
  destruct singleLine_len as [Hk Hn]. pose proof (len_nonneg rest) as Hrest.
  unfold Parser.parse, Parser.prologue, Parser.getDirectiveSymbol.
  rewrite singleLine_directive. simpl. unfold organizeComments.
  rewrite lineCheck_equation.
  destruct (Z.ltb_spec 0 (len buffer)); [|lia].
  unfold Parser.line_body.
  destruct (singleLine_keyword 0 ltac:(lia)) as [c [Hc [Hkc Hchar]]].
  rewrite Hc. apply isKeywordChar_spec in Hchar.
  destruct Hchar as [Hsp [Htab [Hcr [Hlf _]]]].
  cbn [isChar]. rewrite Hsp, Htab, Hcr, Hlf. cbn [orb].
  destruct keyword_first as [c0 [word [E Hhash]]].
  assert (c = c0) by (rewrite E in Hkc; injection Hkc as <-; reflexivity).
  subst c0. rewrite Hhash.
  rewrite (singleLine_instruction newDockerfile c Hc). reflexivity.
Qed.

End SingleLine.

(** X3: a document of one line that begins with a keyword (characters that
    are neither whitespace nor a backslash, the first one not [#]), followed
    by nothing or by a blank and characters that are neither line breaks nor
    backslashes, has exactly one instruction: its range is the whole
    document, its keyword range and text are those of the keyword; the
    document has no directive and no comment. *)
Theorem parse_single_line (keyword rest : jsstring) :
  Forall (fun c => isKeywordChar c = true) keyword ->
  (exists c word, keyword = c :: word /\ Ascii.eqb c HASH = false) ->
  Forall (fun c => isLineChar c = true) rest ->
  (rest = [] \/ exists b more, rest = b :: more /\ isBlank (Some b) = true) ->
  Parser.parse (keyword ++ rest)
  = mkDockerfile None []
      [Parser.createInstruction BACKSLASH
         (rangeAt (keyword ++ rest) 0 (len (keyword ++ rest))) keyword
         (rangeAt (keyword ++ rest) 0 (len keyword))].
Proof.
  intros Hk Hfirst Hr Hrest.
  apply (singleLine_parse keyword rest Hk Hfirst Hr Hrest).
Qed.

Lemma parse_single_line_witness :
  Parser.parse (str "FROM" ++ str " alpine AS base")
  = mkDockerfile None []
      [mkInstruction From (mkRange (mkPosition 0 0) (mkPosition 0 19))
         BACKSLASH (str "FROM") (mkRange (mkPosition 0 0) (mkPosition 0 4))].
Proof.
  rewrite (parse_single_line (str "FROM") (str " alpine AS base")).
  - vm_compute. reflexivity.
  - repeat constructor.
  - exists "F"%char, (str "ROM"). split; reflexivity.
  - repeat constructor.
  - right. exists " "%char, (str "alpine AS base"). split; reflexivity.
Defined.

(** ** Arguments separated by whitespace *)

Lemma charAt_middle (pre mid post : jsstring) (j : Z) :
  len pre <= j < len pre + len mid ->
  charAt (pre ++ mid ++ post) j = charAt mid (j - len pre).
Proof.
  intros Hj. pose proof (len_nonneg pre).
  rewrite charAt_app_r by lia. apply charAt_app_left. lia.
Qed.

Lemma loop_end {St R : Type} (n : Z) (body : Z -> St -> ctl St R)
    (eof : St -> R) (j : Z) (s : St) :
  n <= j -> loop n body eof j s = eof s.
Proof.
  intros Hj. unfold loop. replace (Z.to_nat (n - j)) with O by lia.
  reflexivity.
Qed.

Section TokenScan.

Variable text : jsstring.
Variable e : ascii.
Variable fullArgs : jsstring.
Variable offset : Z.

Let run (j : Z) (s : InstructionM.ArgState) : InstructionM.ArgState :=
  loop (len fullArgs) (InstructionM.arg_body text e fullArgs offset)
       (fun s => s) j s.

Let argumentAt (token : jsstring) (p : Z) : Argument :=
  mkArgument token (rangeAt text (offset + p) (offset + p + len token)).

Lemma run_progress :
  forall j s j' s', j < len fullArgs ->
    InstructionM.arg_body text e fullArgs offset j s = Next j' s' -> j <= j'.
Proof. intros j s j' s' _. apply arg_body_forward. Qed.

(** A run of whitespace between two arguments changes nothing. *)
Lemma run_whitespace (pre ws post : jsstring) (A : list Argument) :
  fullArgs = pre ++ ws ++ post ->
  Forall (fun c => Util.isWhitespace (Some c) = true) ws ->
  run (len pre) (idleState A) = run (len pre + len ws) (idleState A).
Proof.
  intros Hfull Hws.
  pose proof (len_nonneg pre) as Hpre. pose proof (len_nonneg ws) as Hlw.
  pose proof (len_nonneg post) as Hpost.
  assert (Hn : len fullArgs = len pre + len ws + len post).
  { rewrite Hfull, !len_app. lia. }
  destruct (loop_run
              (fun j s => len pre <= j /\ s = idleState A)
              (len fullArgs) (InstructionM.arg_body text e fullArgs offset)
              (fun s => s) (len pre + len ws) run_progress)
    with (fuel := Z.to_nat (len ws)) (j := len pre) (s := idleState A)
    as [s' [[_ ->] Heq]]; try lia; [|split; [lia | reflexivity] | exact Heq].
  intros j s [Hj ->] Hlt.
  exists j, (idleState A). split; [|split; [lia|split; [lia | reflexivity]]].
  unfold InstructionM.arg_body.
  rewrite Hfull, charAt_middle by lia.
  destruct (charAt_Forall _ ws (j - len pre) Hws ltac:(lia)) as [c [-> Hc]].
  rewrite Hc. reflexivity.
Qed.

(** The characters of a token are appended one by one. *)
Lemma run_token (pre token post : jsstring) (A : list Argument) :
  fullArgs = pre ++ token ++ post ->
  token <> [] ->
  Forall (fun c => Util.isWhitespace (Some c) = false
                   /\ Ascii.eqb c e = false) token ->
  run (len pre) (idleState A)
  = run (len pre + len token) (tokenState A (len pre) token).
Proof.
  intros Hfull Hne Htoken.
  pose proof (len_nonneg pre) as Hpre. pose proof (len_nonneg post) as Hpost.
  assert (Hlt : 0 < len token).
  { destruct token; [contradiction|]. unfold len. simpl. lia. }
  assert (Hn : len fullArgs = len pre + len token + len post).
  { rewrite Hfull, !len_app. lia. }
  set (p := len pre) in *.
  destruct (loop_run
              (fun j s =>
                 p <= j
                 /\ s = tokenState A (if j =? p then -1 else p)
                          (firstn (Z.to_nat (j - p)) token))
              (len fullArgs) (InstructionM.arg_body text e fullArgs offset)
              (fun s => s) (p + len token) run_progress)
    with (fuel := Z.to_nat (len token)) (j := p) (s := idleState A)
    as [s' [[_ ->] Heq]]; try lia.
  - intros j s [Hj ->] Hjlt.
    destruct (charAt_Forall _ token (j - p) Htoken ltac:(lia))
      as [c [Hc [Hws He]]].
    eexists j, _. split; [|split; [lia|split; [lia | reflexivity]]].
    unfold InstructionM.arg_body.
    rewrite Hfull, charAt_middle by (fold p; lia). fold p.
    rewrite Hc, Hws. cbn [isChar]. rewrite He.
    unfold tokenState at 1 2.
    cbn [InstructionM.comment InstructionM.start_ negb andb].
    unfold InstructionM.flushEscaped, tokenState.
    cbn [InstructionM.escapedWhitespaceDetected andb InstructionM.args
         InstructionM.start_ InstructionM.comment InstructionM.found
         InstructionM.escapedArg chars].
    f_equal. f_equal.
    + destruct (Z.eqb_spec j p) as [->|Hnp].
      * simpl. destruct (Z.eqb_spec (p + 1) p); [lia | reflexivity].
      * destruct (Z.eqb_spec p (-1)); [lia|].
        destruct (Z.eqb_spec (j + 1) p); [lia | reflexivity].
    + replace (j + 1 - p) with (j - p + 1) by lia.
      symmetry. apply firstn_snoc_nth; [lia | exact Hc].
  - split; [lia|]. rewrite Z.eqb_refl, Z.sub_diag. reflexivity.
  - unfold run. rewrite Heq. f_equal.
    destruct (Z.eqb_spec (p + len token) p); [lia|].
    replace (p + len token - p) with (len token) by lia.
    rewrite firstn_len. reflexivity.
Qed.

(** The whitespace after a token: its first character ends the argument. *)
Lemma run_gap (pre token ws post : jsstring) (A : list Argument) :
  fullArgs = (pre ++ token) ++ ws ++ post ->
  ws <> [] ->
  Forall (fun c => Util.isWhitespace (Some c) = true) ws ->
  run (len pre + len token) (tokenState A (len pre) token)
  = run (len pre + len token + len ws)
        (idleState (A ++ [argumentAt token (len pre)])).
Proof.
  intros Hfull Hne Hws.
  pose proof (len_nonneg pre) as Hpre. pose proof (len_nonneg token) as Htok.
  pose proof (len_nonneg post) as Hpost.
  assert (Hlt : 0 < len ws).
  { destruct ws; [contradiction|]. unfold len. simpl. lia. }
  assert (Hn : len fullArgs = len pre + len token + len ws + len post).
  { rewrite Hfull, !len_app. lia. }
  set (p := len pre) in *. set (q := p + len token) in *.
  destruct (loop_run
              (fun j s =>
                 (j = q /\ s = tokenState A p token)
                 \/ (q < j /\ s = idleState (A ++ [argumentAt token p])))
              (len fullArgs) (InstructionM.arg_body text e fullArgs offset)
              (fun s => s) (q + len ws) run_progress)
    with (fuel := Z.to_nat (len ws)) (j := q) (s := tokenState A p token)
    as [s' [Hs' Heq]]; try lia.
  - intros j s HI Hjlt.
    assert (Hj : q <= j) by (destruct HI as [[-> _]|[? _]]; lia).
    assert (Hchar : exists c, charAt fullArgs j = Some c
                              /\ Util.isWhitespace (Some c) = true).
    { rewrite Hfull, charAt_middle by (rewrite len_app; fold p q; lia).
      rewrite len_app. fold p q.
      apply (charAt_Forall _ ws (j - q) Hws). lia. }
    destruct Hchar as [c [Hc Hw]].
    exists j, (idleState (A ++ [argumentAt token p])).
    split; [|split; [lia | right; split; [lia | reflexivity]]].
    unfold InstructionM.arg_body. rewrite Hc, Hw.
    destruct HI as [[-> ->]|[_ ->]].
    + unfold tokenState. cbn [InstructionM.escaping InstructionM.found].
      destruct (Z.eqb_spec p (-1)) as [E|E]; [lia|]. cbn [negb].
      cbn [InstructionM.escapeMarker]. rewrite Z.eqb_refl.
      unfold InstructionM.pushArg, idleState, argumentAt.
      cbn [InstructionM.args InstructionM.start_ InstructionM.comment
           InstructionM.found InstructionM.escapedWhitespaceDetected
           InstructionM.escaping InstructionM.escapeMarker
           InstructionM.escapedArg].
      unfold q. replace (offset + (p + len token)) with (offset + p + len token)
        by lia. reflexivity.
    + reflexivity.
  - left. split; reflexivity.
  - destruct Hs' as [[Hq _]|[_ ->]]; [lia|]. exact Heq.
Qed.

(** From the start of a token to the end of the text. *)
Lemma run_tokens (trailing : jsstring) :
  Forall (fun c => Util.isWhitespace (Some c) = true) trailing ->
  forall (rest : list (jsstring * jsstring)) (pre token : jsstring)
         (A : list Argument),
    fullArgs = pre ++ token ++ joinSegments rest ++ trailing ->
    token <> [] ->
    Forall (fun c => Util.isWhitespace (Some c) = false
                     /\ Ascii.eqb c e = false) token ->
    Forall (goodSegment e) rest ->
    InstructionM.finishArgs text fullArgs offset
      (run (len pre) (idleState A))
    = A ++ argumentAt token (len pre)
        :: tokenArguments text (offset + len pre + len token) rest.
Proof.
  intros Htrailing rest.
  induction rest as [|[ws token'] rest IH];
    intros pre token A Hfull Hne Htoken Hrest.
  - (* the last token *)
    simpl in Hfull.
    rewrite (run_token pre token trailing A Hfull Hne Htoken).
    assert (Hn : len fullArgs = len pre + len token + len trailing).
    { rewrite Hfull, !len_app. lia. }
    pose proof (len_nonneg pre) as Hpre.
    destruct trailing as [|w ws'] eqn:Et.
    + change (len (@nil ascii)) with 0 in Hn.
      unfold run. rewrite loop_end by lia.
      unfold InstructionM.finishArgs, tokenState.
      cbn [InstructionM.found InstructionM.escapeMarker].
      destruct (Z.eqb_spec (len pre) (-1)); [lia|]. cbn [negb].
      rewrite Z.eqb_refl. unfold InstructionM.pushArg, argumentAt.
      cbn [InstructionM.args InstructionM.escapedArg InstructionM.found].
      simpl tokenArguments.
      replace (len fullArgs) with (len pre + len token) by lia.
      replace (offset + (len pre + len token)) with (offset + len pre + len token)
        by lia.
      reflexivity.
    + rewrite (run_gap pre token (w :: ws') [] A);
        [|rewrite Hfull, app_nil_r, <- app_assoc; reflexivity
         |discriminate | exact Htrailing].
      unfold run. rewrite loop_end by (rewrite Hn; lia).
      reflexivity.
  - (* a token that another one follows *)
    apply Forall_cons_iff in Hrest. destruct Hrest as [Hseg Hrest].
    destruct Hseg as [Hwne [Hws [Hne' Htoken']]]. simpl in Hwne, Hws, Hne', Htoken'.
    assert (Hfull' : fullArgs
                     = (pre ++ token) ++ ws
                       ++ (token' ++ joinSegments rest ++ trailing)).
    { rewrite Hfull. simpl. rewrite <- !app_assoc. reflexivity. }
    rewrite (run_token pre token _ A Hfull Hne Htoken).
    rewrite (run_gap pre token ws _ A Hfull' Hwne Hws).
    assert (Hfull'' : fullArgs
                      = ((pre ++ token) ++ ws) ++ token'
                        ++ joinSegments rest ++ trailing).
    { rewrite Hfull'. rewrite <- !app_assoc. reflexivity. }
    specialize (IH ((pre ++ token) ++ ws) token'
                  (A ++ [argumentAt token (len pre)]) Hfull'' Hne' Htoken' Hrest).
    rewrite !len_app in IH. rewrite IH. rewrite <- app_assoc. simpl.
    unfold argumentAt.
    replace (offset + (len pre + len token + len ws))
      with (offset + len pre + len token + len ws) by lia.
    reflexivity.
Qed.

Lemma scanArgs_tokens (segments : list (jsstring * jsstring))
    (trailing : jsstring) :
  fullArgs = joinSegments segments ++ trailing ->
  Forall (goodSegment e) segments ->
  Forall (fun c => Util.isWhitespace (Some c) = true) trailing ->
  InstructionM.finishArgs text fullArgs offset
    (InstructionM.scanArgs text e fullArgs offset)
  = tokenArguments text offset segments.
Proof.
  intros Hfull Hsegments Htrailing.
  unfold InstructionM.scanArgs.
  change InstructionM.initialArgState with (idleState []).
  change (loop (len fullArgs) (InstructionM.arg_body text e fullArgs offset)
               (fun s => s) 0 (idleState []))
    with (run (len (@nil ascii)) (idleState [])).
  destruct segments as [|[ws token] rest].
  - simpl in Hfull.
    rewrite (run_whitespace [] trailing [] []);
      [|rewrite app_nil_r; exact Hfull | exact Htrailing].
    change (len [] + len trailing) with (len trailing).
    unfold run. rewrite loop_end by (rewrite Hfull; lia).
    reflexivity.
  - apply Forall_cons_iff in Hsegments. destruct Hsegments as [Hseg Hrest].
    destruct Hseg as [Hwne [Hws [Hne Htoken]]]. simpl in Hwne, Hws, Hne, Htoken.
    assert (Hfull' : fullArgs = [] ++ ws ++ token ++ joinSegments rest ++ trailing).
    { rewrite Hfull. simpl. rewrite <- !app_assoc. reflexivity. }
    rewrite (run_whitespace [] ws _ [] Hfull' Hws).
    change (len [] + len ws) with (len ws).
    rewrite (run_tokens trailing Htrailing rest ws token [] Hfull' Hne Htoken Hrest).
    simpl. unfold argumentAt. reflexivity.
Qed.

End TokenScan.

(** ** The arguments of an instruction *)

Lemma substring_app_right (a b : jsstring) :
  substring (a ++ b) (len a) (len (a ++ b)) = b.
Proof.
  pose proof (len_nonneg a). pose proof (len_nonneg b).
  rewrite substring_ordered by (rewrite ?len_app; lia).
  rewrite len_app. replace (len a + len b - len a) with (len b) by lia.
  unfold len. rewrite !Nat2Z.id.
  rewrite skipn_app, skipn_all, Nat.sub_diag. simpl. apply firstn_all.
Qed.

Lemma substring_middle (pre mid post : jsstring) :
  substring (pre ++ mid ++ post) (len pre) (len pre + len mid) = mid.
Proof.
  pose proof (len_nonneg pre). pose proof (len_nonneg mid).
  pose proof (len_nonneg post).
  rewrite substring_ordered by (rewrite ?len_app; lia).
  replace (len pre + len mid - len pre) with (len mid) by lia.
  unfold len. rewrite !Nat2Z.id.
  rewrite skipn_app, skipn_all, Nat.sub_diag. simpl.
  rewrite firstn_app, firstn_all, Nat.sub_diag. simpl. apply app_nil_r.
Qed.

(** [getArguments] scans the text between the keyword and the end of the
    instruction. *)
Lemma getArguments_scan (text : jsstring) (i : Instruction) (a c b : Z) :
  instructionAt text i a c b ->
  InstructionM.getArguments text i
  = InstructionM.finishArgs text (substring text c b) c
      (InstructionM.scanArgs text (escapeChar i) (substring text c b) c).
Proof.
  intros [Hrange [Hkeyword [Hac Hcb]]].
  unfold InstructionM.getArguments, InstructionM.getTextContent.
  rewrite Hrange, Hkeyword.
  replace (offsetAt text (start (rangeAt text a c))) with a
    by (symmetry; apply offsetAt_positionAt; lia).
  replace (offsetAt text (end_ (rangeAt text a c))) with c
    by (symmetry; apply offsetAt_positionAt; lia).
  rewrite textOf_rangeAt by lia.
  unfold substringFrom. rewrite substring_length by lia.
  rewrite substring_substring by lia.
  replace (a + (c - a)) with c by lia.
  replace (a + (b - a)) with b by lia.
  reflexivity.
Qed.

Lemma tokenArguments_values (text : jsstring) (segments : list (jsstring * jsstring)) :
  forall from, map argValue (tokenArguments text from segments)
               = map snd segments.
Proof.
  induction segments as [|segment rest IH]; intros from; simpl;
    [reflexivity | f_equal; apply IH].
Qed.

Lemma toString_fold (text : jsstring) (segments : list (jsstring * jsstring)) :
  forall from value,
    fold_left (fun value arg => value ++ [SP] ++ argValue arg)
              (tokenArguments text from segments) value
    = value ++ joinTokens segments.
Proof.
  induction segments as [|segment rest IH]; intros from value; simpl.
  - symmetry. apply app_nil_r.
  - rewrite IH. rewrite <- app_assoc. reflexivity.
Qed.

Lemma len_joinSegments_cons (segment : jsstring * jsstring)
    (rest : list (jsstring * jsstring)) :
  len (joinSegments (segment :: rest))
  = len (fst segment) + len (snd segment) + len (joinSegments rest).
Proof.
  unfold joinSegments. cbn [flat_map]. rewrite !len_app. reflexivity.
Qed.

Lemma tokenArguments_last (text : jsstring)
    (segments : list (jsstring * jsstring)) :
  forall from segment default,
    end_ (argRange (last (tokenArguments text from (segment :: segments))
                         default))
    = positionAt text (from + len (joinSegments (segment :: segments))).
Proof.
  induction segments as [|next rest IH]; intros from segment default.
  - rewrite len_joinSegments_cons. change (len (joinSegments [])) with 0.
    cbn [tokenArguments last argRange]. unfold rangeAt. cbn [end_].
    f_equal. lia.
  - rewrite len_joinSegments_cons.
    change (tokenArguments text from (segment :: next :: rest))
      with (mkArgument (snd segment)
              (rangeAt text (from + len (fst segment))
                 (from + len (fst segment) + len (snd segment)))
            :: tokenArguments text
                 (from + len (fst segment) + len (snd segment))
                 (next :: rest)).
    change (last (?x :: tokenArguments text ?p (next :: rest)) default)
      with (last (tokenArguments text p (next :: rest)) default).
    rewrite IH. f_equal. lia.
Qed.

Section TokenInstruction.

Variable text : jsstring.
Variable i : Instruction.
Variables a c b : Z.
Variable segments : list (jsstring * jsstring).
Variable trailing : jsstring.

Hypothesis Hat : instructionAt text i a c b.
Hypothesis Htext : substring text c b = joinSegments segments ++ trailing.
Hypothesis Hsegments : Forall (goodSegment (escapeChar i)) segments.
Hypothesis Htrailing :
  Forall (fun c => Util.isWhitespace (Some c) = true) trailing.

Lemma tokens_getArguments :
  InstructionM.getArguments text i = tokenArguments text c segments.
Proof.
  rewrite (getArguments_scan text i a c b Hat).
  apply scanArgs_tokens with (trailing := trailing); assumption.
Qed.

Lemma tokens_toString :
  InstructionText.toString text i
  = InstructionM.getKeyword i ++ joinTokens segments.
Proof.
  unfold InstructionText.toString. rewrite tokens_getArguments.
  apply toString_fold.
Qed.

Lemma tokens_length :
  b - c = len (joinSegments segments) + len trailing.
Proof.
  destruct Hat as [_ [_ [Hac Hcb]]].
  rewrite <- len_app, <- Htext, substring_length by lia. reflexivity.
Qed.

Lemma tokens_range (segment : jsstring * jsstring)
    (rest : list (jsstring * jsstring)) :
  segments = segment :: rest ->
  InstructionText.getArgumentsRange text i
  = Some (rangeAt text (c + len (fst segment)) (b - len trailing)).
Proof.
  intros Hs. unfold InstructionText.getArgumentsRange.
  rewrite tokens_getArguments. pose proof tokens_length as Hlen.
  rewrite Hs in Hlen |- *. rewrite len_joinSegments_cons in Hlen.
  set (l := tokenArguments text c (segment :: rest)).
  assert (Hlast : forall d,
             end_ (argRange (last l d))
             = positionAt text (c + len (joinSegments (segment :: rest))))
    by (intros d; apply tokenArguments_last).
  assert (Hl : exists more,
             l = mkArgument (snd segment)
                   (rangeAt text (c + len (fst segment))
                      (c + len (fst segment) + len (snd segment))) :: more)
    by (eexists; reflexivity).
  destruct Hl as [more Hl]. clearbody l. cbv zeta.
  rewrite Hl at 1. cbn iota beta. rewrite Hlast.
  rewrite len_joinSegments_cons. unfold rangeAt. cbn [argRange start].
  do 3 f_equal. lia.
Qed.

Lemma tokens_raw (segment : jsstring * jsstring)
    (rest : list (jsstring * jsstring)) :
  segments = segment :: rest ->
  InstructionText.getRawArgumentsContent text i
  = Some (trimSegments segments).
Proof.
  intros Hs.
  pose proof (tokens_range segment rest Hs) as Hrange.
  unfold InstructionText.getArgumentsRange in Hrange.
  unfold InstructionText.getRawArgumentsContent.
  destruct (InstructionM.getArguments text i) as [|first more];
    [discriminate|].
  cbv zeta in Hrange |- *. rewrite Hrange.
  unfold InstructionText.getRangeContent, rangeAt. cbn [start end_].
  pose proof tokens_length as Hlen. rewrite Hs in Hlen.
  rewrite len_joinSegments_cons in Hlen.
  destruct Hat as [_ [_ [Hac Hcb]]].
  pose proof (len_nonneg (fst segment)). pose proof (len_nonneg (snd segment)).
  pose proof (len_nonneg (joinSegments rest)). pose proof (len_nonneg trailing).
  rewrite !offsetAt_positionAt by lia.
  f_equal.
  replace (b - len trailing)
    with (c + (len (fst segment) + len (snd segment ++ joinSegments rest)))
    by (rewrite len_app; lia).
  rewrite <- (substring_substring text c b) by (rewrite ?len_app; lia).
  rewrite Htext, Hs. simpl joinSegments. rewrite <- !app_assoc.
  rewrite (app_assoc (snd segment)). simpl trimSegments.
  apply substring_middle.
Qed.

End TokenInstruction.

(** X4: when the text after the keyword of an instruction is a list of
    tokens, each after whitespace and none with whitespace or the escape
    character in it, possibly followed by whitespace, [getArguments] returns
    these tokens in order, each with the range of its occurrence. *)
Theorem getArguments_tokens (text : jsstring) (i : Instruction) (a c b : Z)
    (segments : list (jsstring * jsstring)) (trailing : jsstring) :
  instructionAt text i a c b ->
  substring text c b = joinSegments segments ++ trailing ->
  Forall (goodSegment (escapeChar i)) segments ->
  Forall (fun c => Util.isWhitespace (Some c) = true) trailing ->
  InstructionM.getArguments text i = tokenArguments text c segments
  /\ map argValue (InstructionM.getArguments text i) = map snd segments.
Proof.
  intros Hat Htext Hsegments Htrailing.
  rewrite (tokens_getArguments text i a c b segments trailing) by assumption.
  split; [reflexivity | apply tokenArguments_values].
Qed.

(** X5: for such an instruction, [getArgumentsRange] is [null] when there
    is no token and otherwise runs from the start of the first token to the
    end of the last one, and [getRawArgumentsContent] is then the text after
    the keyword without the whitespace around it. *)
Theorem getRawArgumentsContent_tokens (text : jsstring) (i : Instruction)
    (a c b : Z) (segments : list (jsstring * jsstring)) (trailing : jsstring) :
  instructionAt text i a c b ->
  substring text c b = joinSegments segments ++ trailing ->
  Forall (goodSegment (escapeChar i)) segments ->
  Forall (fun c => Util.isWhitespace (Some c) = true) trailing ->
  match segments with
  | [] =>
      InstructionText.getArgumentsRange text i = None
      /\ InstructionText.getRawArgumentsContent text i = None
  | segment :: _ =>
      InstructionText.getArgumentsRange text i
      = Some (rangeAt text (c + len (fst segment)) (b - len trailing))
      /\ InstructionText.getRawArgumentsContent text i
         = Some (trimSegments segments)
  end.
Proof.
  intros Hat Htext Hsegments Htrailing.
  destruct segments as [|segment rest] eqn:Es.
  - unfold InstructionText.getArgumentsRange,
      InstructionText.getRawArgumentsContent.
    rewrite (tokens_getArguments text i a c b [] trailing) by assumption.
    split; reflexivity.
  - split.
    + apply (tokens_range text i a c b (segment :: rest) trailing)
        with (rest := rest); auto.
    + apply (tokens_raw text i a c b (segment :: rest) trailing)
        with (segment := segment) (rest := rest); auto.
Qed.

Lemma getArguments_tokens_witness :
  map argValue
    (InstructionM.getArguments (str "RUN echo  hello ")
       (nthInstruction (str "RUN echo  hello ") 0))
  = [str "echo"; str "hello"].
Proof.
  destruct (getArguments_tokens (str "RUN echo  hello ")
              (nthInstruction (str "RUN echo  hello ") 0) 0 3 16
              [(str " ", str "echo"); (str "  ", str "hello")] (str " "))
    as [_ Hvalues].
  - repeat split; try (vm_compute; reflexivity); try lia;
      vm_compute; discriminate.
  - vm_compute. reflexivity.
  - repeat constructor; discriminate.
  - repeat constructor.
  - exact Hvalues.
Defined.

Lemma getRawArgumentsContent_tokens_witness :
  InstructionText.getArgumentsRange (str "RUN echo  hello ")
    (nthInstruction (str "RUN echo  hello ") 0)
  = Some (mkRange (mkPosition 0 4) (mkPosition 0 15))
  /\ InstructionText.getRawArgumentsContent (str "RUN echo  hello ")
       (nthInstruction (str "RUN echo  hello ") 0)
     = Some (str "echo  hello").
Proof.
  apply (getRawArgumentsContent_tokens (str "RUN echo  hello ")
           (nthInstruction (str "RUN echo  hello ") 0) 0 3 16
           [(str " ", str "echo"); (str "  ", str "hello")] (str " ")).
  - repeat split; try (vm_compute; reflexivity); try lia;
      vm_compute; discriminate.
  - vm_compute. reflexivity.
  - repeat constructor; discriminate.
  - repeat constructor.
Defined.

(** ** The text of a one-line instruction *)

Lemma isBlank_isLineChar (c : ascii) :
  isBlank (Some c) = true -> isLineChar c = true.
Proof.
  unfold isBlank. simpl. intros H. apply orb_true_iff in H.
  destruct H as [E|E]; apply Ascii.eqb_eq in E; subst c; reflexivity.
Qed.

Lemma isBlank_isWhitespace (c : ascii) :
  isBlank (Some c) = true -> Util.isWhitespace (Some c) = true.
Proof.
  unfold isBlank, Util.isWhitespace. intros ->. reflexivity.
Qed.

Lemma token_isLineChar (c : ascii) :
  Util.isWhitespace (Some c) = false /\ Ascii.eqb c BACKSLASH = false ->
  isLineChar c = true.
Proof.
  unfold isLineChar, Util.isWhitespace. intros [Hw He]. rewrite He.
  apply orb_false_iff in Hw. destruct Hw as [_ ->]. reflexivity.
Qed.

Lemma lineSegments_chars (segments : list (jsstring * jsstring)) :
  Forall lineSegment segments ->
  Forall (fun c => isLineChar c = true) (joinSegments segments).
Proof.
  induction 1 as [|segment rest Hseg _ IH]; [constructor|].
  unfold joinSegments. cbn [flat_map]. fold (joinSegments rest).
  destruct Hseg as [[_ [_ [_ Htoken]]] Hblanks].
  apply Forall_app. split; [apply Forall_app; split|exact IH].
  - eapply Forall_impl; [|exact Hblanks]. apply isBlank_isLineChar.
  - eapply Forall_impl; [|exact Htoken]. apply token_isLineChar.
Qed.

Lemma lineSegments_first (segments : list (jsstring * jsstring))
    (trailing : jsstring) :
  Forall lineSegment segments ->
  Forall (fun c => isBlank (Some c) = true) trailing ->
  joinSegments segments ++ trailing = []
  \/ exists b more, joinSegments segments ++ trailing = b :: more
                    /\ isBlank (Some b) = true.
Proof.
  intros Hsegments Htrailing.
  destruct segments as [|[ws token] rest].
  - destruct trailing as [|b more]; [left; reflexivity|].
    right. exists b, more. split; [reflexivity|].
    apply Forall_inv in Htrailing. exact Htrailing.
  - apply Forall_inv in Hsegments.
    destruct Hsegments as [[Hne _] Hblanks]. simpl in Hne, Hblanks.
    destruct ws as [|b ws]; [contradiction|].
    right. eexists b, _. split; [reflexivity|].
    apply Forall_inv in Hblanks. exact Hblanks.
Qed.

(** X6: a document of one line, made of a keyword of ASCII characters and
    of tokens without backslashes that blanks and tabs separate, has one
    instruction; [toString] gives its keyword in upper case followed by the
    tokens, each after a single blank, and [getArguments] gives the
    tokens. *)
Theorem toString_single_line (keyword : jsstring)
    (segments : list (jsstring * jsstring)) (trailing : jsstring) :
  Forall (fun c => isAsciiChar c = true) keyword ->
  Forall (fun c => isKeywordChar c = true) keyword ->
  (exists c word, keyword = c :: word /\ Ascii.eqb c HASH = false) ->
  Forall lineSegment segments ->
  Forall (fun c => isBlank (Some c) = true) trailing ->
  let buffer := keyword ++ joinSegments segments ++ trailing in
  exists i,
    getInstructions (Parser.parse buffer) = [i]
    /\ InstructionM.getKeyword i = toUpperCase keyword
    /\ map argValue (InstructionM.getArguments buffer i) = map snd segments
    /\ InstructionText.toString buffer i
       = toUpperCase keyword ++ joinTokens segments.
Proof.
  intros _ Hkeyword Hfirst Hsegments Htrailing buffer.
  set (rest := joinSegments segments ++ trailing).
  assert (Hrest : Forall (fun c => isLineChar c = true) rest).
  { apply Forall_app. split; [apply lineSegments_chars; exact Hsegments|].
    eapply Forall_impl; [|exact Htrailing]. apply isBlank_isLineChar. }
  pose proof (lineSegments_first segments trailing Hsegments Htrailing)
    as Hblank.
  pose proof (singleLine_parse keyword rest Hkeyword Hfirst Hrest Hblank)
    as Hparse.
  cbv zeta in Hparse. change (keyword ++ rest) with buffer in Hparse.
  exists (lineInstruction buffer keyword).
  split; [rewrite Hparse; reflexivity|].
  split; [reflexivity|].
  assert (Hat : instructionAt buffer (lineInstruction buffer keyword) 0
                  (len keyword) (len buffer)).
  { pose proof (len_nonneg keyword). pose proof (len_nonneg rest).
    assert (Hlen : len buffer = len keyword + len rest) by apply len_app.
    unfold instructionAt. repeat split; try reflexivity; lia. }
  assert (Htext : substring buffer (len keyword) (len buffer)
                  = joinSegments segments ++ trailing)
    by apply substring_app_right.
  assert (Hgood : Forall (goodSegment
                            (escapeChar (lineInstruction buffer keyword)))
                         segments).
  { eapply Forall_impl; [|exact Hsegments]. intros segment [H _]. exact H. }
  assert (Hws : Forall (fun c => Util.isWhitespace (Some c) = true) trailing).
  { eapply Forall_impl; [|exact Htrailing]. apply isBlank_isWhitespace. }
  split.
  - rewrite (tokens_getArguments buffer _ 0 (len keyword) (len buffer)
               segments trailing Hat Htext Hgood Hws).
    apply tokenArguments_values.
  - rewrite (tokens_toString buffer _ 0 (len keyword) (len buffer)
               segments trailing Hat Htext Hgood Hws).
    reflexivity.
Qed.

Lemma toString_single_line_witness :
  exists i,
    getInstructions (Parser.parse (str "from  alpine" ++ [TAB] ++ str "AS base "))
    = [i]
    /\ InstructionText.toString
         (str "from  alpine" ++ [TAB] ++ str "AS base ") i
       = str "FROM alpine AS base".
Proof.
  destruct (toString_single_line (str "from")
              [(str "  ", str "alpine"); ([TAB], str "AS"); (str " ", str "base")]
              (str " "))
    as [i [Hparse [_ [_ Htext]]]].
  - repeat constructor.
  - repeat constructor.
  - exists "f"%char, (str "rom"). split; reflexivity.
  - repeat constructor; discriminate.
  - repeat constructor.
  - exists i. split; [exact Hparse | exact Htext].
Defined.

(** ** What parseVariables finds *)

Lemma charAt_past (s : jsstring) (i : Z) : len s <= i -> charAt s i = None.
Proof.
  intros Hi. pose proof (len_nonneg s). rewrite charAt_nth_error by lia.
  apply nth_error_None. unfold len in Hi. lia.
Qed.

Lemma len_cons (c : ascii) (s : jsstring) : len (c :: s) = 1 + len s.
Proof. unfold len. cbn [List.length]. lia. Qed.

Lemma isChar_Some (c : ascii) (char : option ascii) :
  isChar c char = true -> char = Some c.
Proof.
  destruct char as [x|]; [|discriminate]. simpl. intros H.
  apply Ascii.eqb_eq in H. subst x. reflexivity.
Qed.

Lemma isNameChar_spec (c : ascii) :
  Variables.isNameChar c = true ->
  Util.isWhitespace (Some c) = false
  /\ Ascii.eqb c DOLLAR = false /\ Ascii.eqb c SQUOTE = false
  /\ Ascii.eqb c DQUOTE = false /\ Ascii.eqb c LBRACE = false
  /\ Ascii.eqb c BACKSLASH = false /\ Ascii.eqb c BACKTICK = false.
Proof.
  intros H.
  assert (Hne : forall x, Variables.isNameChar x = false -> Ascii.eqb c x = false).
  { intros x Hx. destruct (Ascii.eqb_spec c x) as [->|]; [congruence | reflexivity]. }
  unfold Util.isWhitespace, Util.isNewline. cbn [isChar].
  rewrite (Hne SP), (Hne TAB), (Hne CR), (Hne LF) by reflexivity.
  repeat split; apply Hne; reflexivity.
Qed.

Section ParseVariablesFacts.

Variable text : jsstring.
Variable resolveVariable : jsstring -> Z -> resolved.
Variable ImageTemplate : Type.
Variable getInitialARGs : list Instruction.
Variable getContainingImage : Position -> option ImageTemplate.
Variable getENVs : ImageTemplate -> list Instruction.
Variable getARGs : ImageTemplate -> list Instruction.
Variable isBefore : Instruction -> Z -> bool.
Variable getProperties : Instruction -> list Property.
Variable getProperty : Instruction -> option Property.

Variable this : Instruction.
Variable offset : Z.

Let e : ascii := escapeChar this.

Let parse : jsstring -> outcome (list VariableT) :=
  Variables.parseVariables text resolveVariable ImageTemplate getInitialARGs
    getContainingImage getENVs getARGs isBefore getProperties getProperty
    this offset.

Let push :=
  Variables.pushVariable text resolveVariable ImageTemplate getInitialARGs
    getContainingImage getENVs getARGs isBefore getProperties getProperty
    this offset.

Let at_ : Z -> Z -> Range := Variables.at_ text offset.

Lemma parse_noReference (arg : jsstring) :
  noReference arg -> parse arg = Ok [].
Proof.
  intros Hno. unfold parse, Variables.parseVariables.
  apply loop_invariant with (I := fun i vars => 0 <= i /\ vars = []).
  - intros i vars [Hi ->] Hlt. unfold Variables.variable_body.
    destruct (isChar (Variables.escChar this) (charAt arg i)).
    { destruct (isChar DOLLAR (charAt arg (i + 1)));
        (split; [lia|]); split; (lia || reflexivity). }
    destruct (isChar DOLLAR (charAt arg i)) eqn:Ed;
      [|split; [lia|]; split; [lia | reflexivity]].
    apply isChar_Some in Ed. specialize (Hno i Ed).
    assert (Hbrace : isChar LBRACE (charAt arg (i + 1)) = false).
    { destruct Hno as [Hws|Hlast].
      - destruct (charAt arg (i + 1)) as [c|]; [|reflexivity].
        apply isWhitespace_cases in Hws.
        destruct Hws as [->|[->|[->| ->]]]; reflexivity.
      - rewrite charAt_past by lia. reflexivity. }
    rewrite Hbrace.
    assert (Hskip : Util.isWhitespace (charAt arg (i + 1))
                    || (i =? len arg - 1) = true).
    { destruct Hno as [->|Hlast]; [reflexivity|].
      apply orb_true_iff. right. apply Z.eqb_eq. exact Hlast. }
    rewrite Hskip. split; [lia|]. split; [lia | reflexivity].
  - intros i vars [_ ->] _. reflexivity.
  - split; [lia | reflexivity].
Qed.

(** X7: an argument in which every [$] is the last character or has
    whitespace after it holds no variable; so does an argument without
    [$]. *)
Theorem parseVariables_no_reference (arg : jsstring) :
  noReference arg -> parse arg = Ok [].
Proof. apply parse_noReference. Qed.

Section Reference.

Variable before : jsstring.
Variable after : jsstring.

Hypothesis e_cases : e = BACKSLASH \/ e = BACKTICK.
Hypothesis before_chars :
  Forall (fun c => Ascii.eqb c DOLLAR = false /\ Ascii.eqb c e = false) before.

Lemma e_not_dollar : Ascii.eqb DOLLAR e = false.
Proof. destruct e_cases as [->| ->]; reflexivity. Qed.

Lemma e_not_name (c : ascii) :
  Variables.isNameChar c = true -> Ascii.eqb c e = false.
Proof.
  intros H. apply isNameChar_spec in H.
  destruct H as [_ [_ [_ [_ [_ [Hb Ht]]]]]].
  destruct e_cases as [->| ->]; assumption.
Qed.

(** Before the reference: nothing is found. *)
Lemma variable_body_before (arg : jsstring) (idx : Z)
    (vars : list VariableT) :
  0 <= idx < len before ->
  (forall k, 0 <= k < len before -> charAt arg k = charAt before k) ->
  Variables.variable_body text resolveVariable ImageTemplate getInitialARGs
    getContainingImage getENVs getARGs isBefore getProperties getProperty
    this offset arg idx vars = Next idx vars.
Proof.
  intros Hidx Harg. unfold Variables.variable_body.
  rewrite Harg by lia.
  destruct (charAt_Forall _ before idx before_chars Hidx) as [c [-> [Hd He]]].
  change (Variables.escChar this) with e.
  cbn [isChar]. rewrite He, Hd. reflexivity.
Qed.

(** After the reference, in text without [$]: nothing more is found. *)
Lemma variable_body_after (arg : jsstring) (idx : Z) (vars : list VariableT) :
  isChar DOLLAR (charAt arg idx) = false ->
  exists idx',
    Variables.variable_body text resolveVariable ImageTemplate getInitialARGs
      getContainingImage getENVs getARGs isBefore getProperties getProperty
      this offset arg idx vars = Next idx' vars
    /\ idx <= idx'.
Proof.
  intros Hd. unfold Variables.variable_body. rewrite Hd.
  destruct (isChar (Variables.escChar this) (charAt arg idx)).
  - destruct (isChar DOLLAR (charAt arg (idx + 1)));
      eexists; (split; [reflexivity | lia]).
  - eexists; (split; [reflexivity | lia]).
Qed.

(** X8: an unterminated [${] ends the search: in an argument made of text
    without [$] or escape character, then [${] and text without [}], no
    variable is found. *)
Theorem parseVariables_unterminated (rest : jsstring) :
  Forall (fun c => Ascii.eqb c RBRACE = false) rest ->
  parse (before ++ DOLLAR :: LBRACE :: rest) = Ok [].
Proof.
  intros Hrest.
  set (arg := before ++ DOLLAR :: LBRACE :: rest).
  set (i := len before).
  pose proof (len_nonneg before) as Hi. fold i in Hi.
  assert (Hn : len arg = i + 2 + len rest).
  { unfold arg, i. rewrite len_app, !len_cons. lia. }
  assert (Hbefore : forall k, 0 <= k < len before ->
                              charAt arg k = charAt before k).
  { intros k Hk. apply charAt_app_left. exact Hk. }
  assert (Hdollar : charAt arg i = Some DOLLAR).
  { unfold arg, i. rewrite charAt_app_r by lia. rewrite Z.sub_diag. reflexivity. }
  assert (Hbrace : charAt arg (i + 1) = Some LBRACE).
  { unfold arg, i. rewrite charAt_app_r by lia.
    replace (len before + 1 - len before) with 1 by lia. reflexivity. }
  assert (Hin : forall k, i + 2 <= k < len arg ->
                 isChar RBRACE (charAt arg k) = false).
  { intros k Hk. unfold arg. rewrite charAt_app_r by (fold i; lia). fold i.
    replace (k - i) with ((k - i - 2) + 2) by lia.
    assert (H2 : forall s x y m, 0 <= m ->
                   charAt (x :: y :: s) (m + 2) = charAt s m).
    { intros s x y m Hm. rewrite !charAt_nth_error by lia.
      replace (Z.to_nat (m + 2)) with (S (S (Z.to_nat m))) by lia.
      reflexivity. }
    rewrite H2 by lia.
    destruct (charAt_Forall _ rest (k - i - 2) Hrest ltac:(lia)) as [c [-> Hc]].
    exact Hc. }
  unfold parse, Variables.parseVariables. fold arg.
  apply loop_invariant with (I := fun idx vars => 0 <= idx <= i /\ vars = []).
  - intros idx vars [Hidx ->] Hlt.
    destruct (Z.eq_dec idx i) as [->|Hne].
    + unfold Variables.variable_body.
      change (Variables.escChar this) with e.
      rewrite Hdollar, Hbrace. cbn [isChar].
      rewrite e_not_dollar, !Ascii.eqb_refl.
      apply loop_invariant with
        (I := fun j (_ : Variables.BraceState) => i + 2 <= j).
      * intros j s Hj Hjlt. unfold Variables.brace_body.
        change (Variables.escChar this) with e.
        destruct (isChar e (charAt arg j)).
        { destruct (Variables.escapedLine arg j) as [k|] eqn:Ek; [|lia].
          apply escapedLine_forward in Ek. lia. }
        rewrite (Hin j) by lia.
        destruct (isChar COLON (charAt arg j));
          [destruct (Variables.nameEnd s =? -1); lia|].
        destruct (isChar LF (charAt arg j) || isChar CR (charAt arg j)
                  || isChar SP (charAt arg j) || isChar TAB (charAt arg j));
          [lia|].
        destruct (Variables.nameEnd s =? -1); lia.
      * intros j s _ _. reflexivity.
      * lia.
    + rewrite (variable_body_before arg idx []) by (fold i; lia || assumption).
      split; [lia|]. split; [lia | reflexivity].
  - intros idx vars [Hidx ->] Hge. pose proof (len_nonneg rest). lia.
  - split; [lia | reflexivity].
Qed.

Lemma parse_plain (name : jsstring) :
  name <> [] ->
  Forall (fun c => Variables.isNameChar c = true) name ->
  Forall (fun c => Ascii.eqb c DOLLAR = false) after ->
  (after = [] \/ exists t more, after = t :: more /\ isReferenceEnd e t = true) ->
  let i := len before in
  let j := i + 1 + len name in
  parse (before ++ DOLLAR :: name ++ after)
  = push [] i name (at_ (i + 1) j) (at_ i j) None None None None
         (DOLLAR :: name).
Proof.
  intros Hne Hname Hafter Hend i j.
  set (arg := before ++ DOLLAR :: name ++ after).
  set (expected := push [] i name (at_ (i + 1) j) (at_ i j) None None None
                        None (DOLLAR :: name)).
  pose proof (len_nonneg before) as Hi. fold i in Hi.
  pose proof (len_nonneg after) as Hla.
  assert (Hln : 0 < len name).
  { destruct name; [contradiction|]. unfold len. simpl. lia. }
  assert (Hn : len arg = j + len after).
  { unfold arg, j. rewrite len_app, len_cons, len_app. fold i. lia. }
  assert (Hbefore : forall k, 0 <= k < len before ->
                              charAt arg k = charAt before k).
  { intros k Hk. apply charAt_app_left. exact Hk. }
  assert (Hdollar : charAt arg i = Some DOLLAR).
  { unfold arg, i. rewrite charAt_app_r by lia. rewrite Z.sub_diag. reflexivity. }
  assert (Hshape : arg = (before ++ [DOLLAR]) ++ name ++ after).
  { unfold arg. rewrite <- app_assoc. reflexivity. }
  assert (Hlp : len (before ++ [DOLLAR]) = i + 1).
  { rewrite len_app. reflexivity. }
  assert (Hnamechar : forall k, i + 1 <= k < j ->
             exists c, charAt arg k = Some c /\ charAt name (k - i - 1) = Some c
                       /\ Variables.isNameChar c = true).
  { intros k Hk. rewrite Hshape, charAt_middle by (rewrite Hlp; unfold j in Hk; lia).
    rewrite Hlp. replace (k - (i + 1)) with (k - i - 1) by lia.
    destruct (charAt_Forall _ name (k - i - 1) Hname ltac:(unfold j in Hk; lia))
      as [c [Hc Hnc]].
    exists c. auto. }
  assert (Hafterchar : forall k, j <= k < len arg ->
             isChar DOLLAR (charAt arg k) = false).
  { intros k Hk. rewrite Hshape, app_assoc, charAt_app_r
      by (rewrite len_app, Hlp; unfold j in Hk |- *; lia).
    rewrite len_app, Hlp.
    destruct (charAt_Forall _ after (k - (i + 1 + len name)) Hafter
                ltac:(unfold j in Hk, Hn; lia)) as [c [-> Hc]].
    exact Hc. }
  unfold parse, Variables.parseVariables. fold arg.
  apply loop_invariant with
    (I := fun idx vars =>
            (0 <= idx <= i /\ vars = [])
            \/ (j <= idx /\ expected = Ok vars)).
  - intros idx vars HI Hlt.
    destruct HI as [[Hidx ->]|[Hidx Hexp]].
    + destruct (Z.eq_dec idx i) as [->|Hnei].
      * (* the reference *)
        unfold Variables.variable_body.
        change (Variables.escChar this) with e.
        rewrite Hdollar. cbn [isChar]. rewrite e_not_dollar, Ascii.eqb_refl.
        destruct (Hnamechar (i + 1) ltac:(unfold j; lia)) as [c1 [Hc1 [_ Hn1]]].
        rewrite Hc1. pose proof (isNameChar_spec c1 Hn1) as Hspec.
        destruct Hspec as [Hws [_ [_ [_ [Hlb _]]]]].
        cbn [isChar]. rewrite Hlb, Hws.
        destruct (Z.eqb_spec i (len arg - 1)) as [Hlast|_];
          [unfold j in Hn; lia|]. cbn [orb].
        apply loop_invariant with
          (I := fun jj nm =>
                  i + 1 <= jj <= j
                  /\ nm = firstn (Z.to_nat (jj - i - 1)) name).
        -- intros jj nm [Hjj ->] Hjlt. unfold Variables.plain_body.
           change (Variables.escChar this) with e.
           destruct (Z.eq_dec jj j) as [->|Hmid].
           ++ (* the character that ends the name *)
              destruct Hend as [Ha|[t [more [Ha Ht]]]];
                [rewrite Ha in Hn; change (len []) with 0 in Hn; lia|].
              assert (Hchar : charAt arg j = Some t).
              { rewrite Hshape, app_assoc, charAt_app_r
                  by (rewrite len_app, Hlp; unfold j; lia).
                rewrite len_app, Hlp. unfold j.
                replace (i + 1 + len name - (i + 1 + len name)) with 0 by lia.
                rewrite Ha. reflexivity. }
              assert (Hfull : firstn (Z.to_nat (j - i - 1)) name = name).
              { unfold j. replace (i + 1 + len name - i - 1) with (len name) by lia.
                apply firstn_len. }
              rewrite Hfull.
              assert (Hfinish :
                        match
                          match Variables.pushPlain text resolveVariable
                                  ImageTemplate getInitialARGs getContainingImage
                                  getENVs getARGs isBefore getProperties
                                  getProperty this offset [] i j name with
                          | TypeError =>
                              @Done jsstring _
                                (@Done (list VariableT)
                                   (outcome (list VariableT)) TypeError)
                          | Ok variables' => Done (Next (j - 1) variables')
                          end
                        with
                        | Next j' s' =>
                            j <= j'
                            /\ (i + 1 <= j' + 1 <= j
                                /\ s' = firstn (Z.to_nat (j' + 1 - i - 1)) name)
                        | Done (Next j' s') =>
                            i <= j'
                            /\ ((0 <= j' + 1 <= i /\ s' = [])
                                \/ (j <= j' + 1 /\ expected = Ok s'))
                        | Done (Done r) => r = expected
                        end).
              { change (Variables.pushPlain text resolveVariable ImageTemplate
                          getInitialARGs getContainingImage getENVs getARGs
                          isBefore getProperties getProperty this offset [] i j
                          name) with expected.
                destruct expected as [vars'|]; [|reflexivity].
                split; [unfold j; lia|]. right. split; [lia | reflexivity]. }
              pose proof (Hafterchar j ltac:(lia)) as Hnd.
              rewrite Hchar in Hnd |- *. cbn [isChar] in Hnd |- *.
              unfold isReferenceEnd in Ht.
              apply andb_true_iff in Ht. destruct Ht as [Ht Htn].
              apply andb_true_iff in Ht. destruct Ht as [Htw Hte].
              apply negb_true_iff in Htw, Hte, Htn.
              unfold Util.isWhitespace, Util.isNewline in Htw.
              cbn [isChar] in Htw.
              assert (Hws4 : Ascii.eqb t CR || Ascii.eqb t LF || Ascii.eqb t SP
                             || Ascii.eqb t TAB = false).
              { destruct (Ascii.eqb t CR), (Ascii.eqb t LF), (Ascii.eqb t SP),
                  (Ascii.eqb t TAB); simpl in *; congruence. }
              rewrite Hws4, Hnd. cbn [orb].
              destruct (Ascii.eqb t SQUOTE || Ascii.eqb t DQUOTE);
                [exact Hfinish|].
              rewrite Hte, Htn. exact Hfinish.
           ++ (* a character of the name *)
              destruct (Hnamechar jj ltac:(lia)) as [c [Hc [Hcn Hnc]]].
              rewrite Hc. pose proof (isNameChar_spec c Hnc) as Hspec.
              destruct Hspec as [Hcw [Hd [Hsq [Hdq _]]]].
              unfold Util.isWhitespace, Util.isNewline in Hcw.
              cbn [isChar] in Hcw |- *.
              assert (Hws4 : Ascii.eqb c CR || Ascii.eqb c LF || Ascii.eqb c SP
                             || Ascii.eqb c TAB = false).
              { destruct (Ascii.eqb c CR), (Ascii.eqb c LF), (Ascii.eqb c SP),
                  (Ascii.eqb c TAB); simpl in *; congruence. }
              rewrite Hws4, Hd, Hsq, Hdq, (e_not_name c Hnc), Hnc. cbn [orb].
              split; [lia|]. split; [lia|].
              replace (jj + 1 - i - 1) with (jj - i - 1 + 1) by lia.
              symmetry. apply firstn_snoc_nth; [lia | exact Hcn].
        -- intros jj nm [Hjj ->] Hge.
           assert (Hjn : jj = j /\ len arg = j) by lia.
           destruct Hjn as [-> Hlen].
           assert (Hfull : firstn (Z.to_nat (j - i - 1)) name = name).
           { unfold j. replace (i + 1 + len name - i - 1) with (len name) by lia.
             apply firstn_len. }
           rewrite Hfull, Hlen. reflexivity.
        -- split; [unfold j; lia|].
           replace (i + 1 - i - 1) with 0 by lia. reflexivity.
      * rewrite (variable_body_before arg idx []) by (fold i; lia || assumption).
        split; [lia|]. left. split; [lia | reflexivity].
    + destruct (variable_body_after arg idx vars (Hafterchar idx ltac:(lia)))
        as [idx' [-> Hle]].
      split; [exact Hle|]. right. split; [lia | exact Hexp].
  - intros idx vars HI Hge.
    destruct HI as [[Hidx _]|[_ Hexp]]; [unfold j in Hn; lia|].
    symmetry. exact Hexp.
  - left. split; [lia | reflexivity].
Qed.

(** X9: in an argument made of text without [$] or escape character, then
    [$] and a name of letters, digits and underscores, then nothing or a
    character that ends the name and text without [$], exactly this
    reference is found: its name is the name, its range runs from the [$] to
    the end of the name, and it has neither modifier nor substitution
    parameter. *)
Theorem parseVariables_plain (name : jsstring) :
  name <> [] ->
  Forall (fun c => Variables.isNameChar c = true) name ->
  Forall (fun c => Ascii.eqb c DOLLAR = false) after ->
  (after = [] \/ exists t more, after = t :: more /\ isReferenceEnd e t = true) ->
  let i := len before in
  let j := i + 1 + len name in
  parse (before ++ DOLLAR :: name ++ after)
  = push [] i name (at_ (i + 1) j) (at_ i j) None None None None
         (DOLLAR :: name).
Proof. apply parse_plain. Qed.

End Reference.

End ParseVariablesFacts.

Lemma parseVariables_no_reference_witness :
  parseUndeclared echoReferences 9 (str "a$ b$") = Ok [].
Proof.
  apply parseVariables_no_reference.
  intros i H. unfold charAt in H.
  destruct (i <? 0) eqn:E; [discriminate|]. apply Z.ltb_ge in E.
  remember (Z.to_nat i) as k eqn:Ek.
  destruct k as [|[|[|[|[|k]]]]]; simpl in H; try discriminate.
  - assert (i = 1) by lia. subst i. left. reflexivity.
  - assert (i = 4) by lia. subst i. right. reflexivity.
  - destruct k; discriminate.
Defined.

Lemma parseVariables_unterminated_witness :
  parseUndeclared echoReferences 33 (str "x" ++ DOLLAR :: LBRACE :: str "open")
  = Ok [].
Proof.
  apply parseVariables_unterminated.
  - left. reflexivity.
  - repeat constructor.
  - repeat constructor.
Defined.

Lemma parseVariables_plain_witness :
  parseUndeclared echoReferences 9 (str "a-" ++ DOLLAR :: str "var" ++ str "/b")
  = Ok [mkVariable (str "var")
          (mkRange (mkPosition 0 12) (mkPosition 0 15))
          (mkRange (mkPosition 0 11) (mkPosition 0 15))
          None None None None false None (str "$var")].
Proof.
  unfold parseUndeclared.
  rewrite parseVariables_plain.
  - vm_compute. reflexivity.
  - left. reflexivity.
  - repeat constructor.
  - discriminate.
  - repeat constructor.
  - repeat constructor.
  - right. exists "/"%char, (str "b"). split; reflexivity.
Defined.

(** ** Braced references *)

Lemma isBraceNameChar_spec (e c : ascii) :
  isBraceNameChar e c = true ->
  Ascii.eqb c e = false /\ Ascii.eqb c RBRACE = false
  /\ Ascii.eqb c COLON = false
  /\ Ascii.eqb c LF || Ascii.eqb c CR || Ascii.eqb c SP || Ascii.eqb c TAB
     = false.
Proof.
  unfold isBraceNameChar, Util.isWhitespace, Util.isNewline. cbn [isChar].
  destruct (Ascii.eqb c e), (Ascii.eqb c RBRACE), (Ascii.eqb c COLON),
    (Ascii.eqb c LF), (Ascii.eqb c CR), (Ascii.eqb c SP), (Ascii.eqb c TAB);
    simpl; intros H; try discriminate; auto.
Qed.

Lemma isBraceParameterChar_spec (e c : ascii) :
  isBraceParameterChar e c = true ->
  Ascii.eqb c e = false /\ Ascii.eqb c RBRACE = false
  /\ Ascii.eqb c LF || Ascii.eqb c CR || Ascii.eqb c SP || Ascii.eqb c TAB
     = false.
Proof.
  unfold isBraceParameterChar, Util.isWhitespace, Util.isNewline.
  cbn [isChar].
  destruct (Ascii.eqb c e), (Ascii.eqb c RBRACE),
    (Ascii.eqb c LF), (Ascii.eqb c CR), (Ascii.eqb c SP), (Ascii.eqb c TAB);
    simpl; intros H; try discriminate; auto.
Qed.

Lemma substring_char (s : jsstring) (k : Z) (c : ascii) :
  0 <= k -> charAt s k = Some c -> substring s k (k + 1) = [c].
Proof.
  intros Hk Hc.
  assert (Hlt : k < len s).
  { destruct (Z.lt_ge_cases k (len s)) as [H|H]; [exact H|].
    rewrite charAt_past in Hc by exact H. discriminate. }
  rewrite substring_ordered by lia.
  replace (k + 1 - k) with 1 by lia.
  rewrite charAt_nth_error in Hc by lia.
  clear Hlt. revert Hc. generalize (Z.to_nat k). intros n. revert s.
  induction n as [|n IH]; intros [|x s] Hc; simpl in Hc; try discriminate.
  - injection Hc as ->. reflexivity.
  - simpl skipn. apply (IH s). exact Hc.
Qed.

Lemma charAt_cons (x : ascii) (s : jsstring) (k : Z) :
  1 <= k -> charAt (x :: s) k = charAt s (k - 1).
Proof.
  intros Hk. rewrite !charAt_nth_error by lia.
  replace (Z.to_nat k) with (S (Z.to_nat (k - 1))) by lia. reflexivity.
Qed.

Section BracedReference.

Variable text : jsstring.
Variable resolveVariable : jsstring -> Z -> resolved.
Variable ImageTemplate : Type.
Variable getInitialARGs : list Instruction.
Variable getContainingImage : Position -> option ImageTemplate.
Variable getENVs : ImageTemplate -> list Instruction.
Variable getARGs : ImageTemplate -> list Instruction.
Variable isBefore : Instruction -> Z -> bool.
Variable getProperties : Instruction -> list Property.
Variable getProperty : Instruction -> option Property.

Variable this : Instruction.
Variable offset : Z.

Let e : ascii := escapeChar this.

Let parse : jsstring -> outcome (list VariableT) :=
  Variables.parseVariables text resolveVariable ImageTemplate getInitialARGs
    getContainingImage getENVs getARGs isBefore getProperties getProperty
    this offset.

Let push :=
  Variables.pushVariable text resolveVariable ImageTemplate getInitialARGs
    getContainingImage getENVs getARGs isBefore getProperties getProperty
    this offset.

Let at_ : Z -> Z -> Range := Variables.at_ text offset.

Let body (arg : jsstring) :=
  Variables.variable_body text resolveVariable ImageTemplate getInitialARGs
    getContainingImage getENVs getARGs isBefore getProperties getProperty
    this offset arg.

Let brace (arg : jsstring) :=
  Variables.brace_body text resolveVariable ImageTemplate getInitialARGs
    getContainingImage getENVs getARGs isBefore getProperties getProperty
    this offset arg.

Variable before : jsstring.
Variable after : jsstring.

Hypothesis e_cases : e = BACKSLASH \/ e = BACKTICK.
Hypothesis before_chars :
  Forall (fun c => Ascii.eqb c DOLLAR = false /\ Ascii.eqb c e = false) before.
Hypothesis after_chars : Forall (fun c => Ascii.eqb c DOLLAR = false) after.

(** The search in an argument whose only reference starts at the end of
    [before] and ends before [j']. *)
Lemma parse_one_reference (arg : jsstring) (j' : Z)
    (expected : outcome (list VariableT)) :
  (forall k, 0 <= k < len before -> charAt arg k = charAt before k) ->
  len before < len arg ->
  (forall k, j' <= k < len arg -> isChar DOLLAR (charAt arg k) = false) ->
  match body arg (len before) [] with
  | Next j1 s1 => len before <= j1 /\ j' <= j1 + 1 /\ expected = Ok s1
  | Done r => r = expected
  end ->
  parse arg = expected.
Proof.
  intros Hbefore Hlt Hafter Hat.
  pose proof (len_nonneg before) as Hi.
  unfold parse, Variables.parseVariables.
  apply loop_invariant with
    (I := fun idx vars =>
            (0 <= idx <= len before /\ vars = [])
            \/ (j' <= idx /\ expected = Ok vars)).
  - intros idx vars HI Hidx.
    destruct HI as [[Hle ->]|[Hle Hexp]].
    + destruct (Z.eq_dec idx (len before)) as [->|Hne].
      * fold (body arg (len before) []).
        destruct (body arg (len before) []) as [j1 s1|r]; [|exact Hat].
        destruct Hat as [H1 [H2 H3]]. split; [exact H1|]. right. auto.
      * rewrite (variable_body_before text resolveVariable ImageTemplate
                   getInitialARGs getContainingImage getENVs getARGs isBefore
                   getProperties getProperty this offset before before_chars
                   arg idx []) by (lia || assumption).
        split; [lia|]. left. split; [lia | reflexivity].
    + destruct (variable_body_after text resolveVariable ImageTemplate
                  getInitialARGs getContainingImage getENVs getARGs isBefore
                  getProperties getProperty this offset arg idx vars
                  (Hafter idx ltac:(lia))) as [idx' [-> Hle']].
      split; [exact Hle'|]. right. split; [lia | exact Hexp].
  - intros idx vars HI Hge.
    destruct HI as [[Hle _]|[_ Hexp]]; [lia | symmetry; exact Hexp].
  - left. split; [lia | reflexivity].
Qed.

Lemma brace_forward (arg : jsstring) (variables : list VariableT) (i0 : Z) :
  forall j s j' s', j < len arg ->
    brace arg variables i0 j s = Next j' s' -> j <= j'.
Proof.
  intros j s j' s' _. unfold brace, Variables.brace_body.
  destruct (isChar (Variables.escChar this) (charAt arg j)).
  { destruct (Variables.escapedLine arg j) as [k|] eqn:Ek.
    - apply escapedLine_forward in Ek. intros H. injection H as <- _. lia.
    - intros H. injection H as <- _. lia. }
  destruct (isChar RBRACE (charAt arg j)).
  { destruct (Variables.closeBrace _ _ _ _ _ _ _ _ _ _ _ _ _ _ _ _ _);
      discriminate. }
  destruct (isChar COLON (charAt arg j));
    [destruct (Variables.nameEnd s =? -1); intros H; injection H as <- _; lia|].
  destruct (isChar LF (charAt arg j) || isChar CR (charAt arg j)
            || isChar SP (charAt arg j) || isChar TAB (charAt arg j));
    [intros H; injection H as <- _; lia|].
  destruct (Variables.nameEnd s =? -1); intros H; injection H as <- _; lia.
Qed.

Variable name : jsstring.
Hypothesis name_chars : Forall (fun c => isBraceNameChar e c = true) name.

Let i : Z := len before.
Let ne : Z := i + 2 + len name.

Section Tail.

(** The text after the name: it starts with the [:] or with the [}]. *)
Variable tail : jsstring.

Let arg : jsstring := before ++ DOLLAR :: LBRACE :: name ++ tail.

Lemma braced_len : 0 <= i /\ len arg = ne + len tail /\ 0 <= len name.
Proof.
  pose proof (len_nonneg before). pose proof (len_nonneg name).
  unfold arg, ne, i. rewrite len_app, !len_cons, len_app. lia.
Qed.

Lemma braced_before (k : Z) :
  0 <= k < len before -> charAt arg k = charAt before k.
Proof. intros Hk. apply charAt_app_left. exact Hk. Qed.

Lemma braced_dollar :
  charAt arg i = Some DOLLAR /\ charAt arg (i + 1) = Some LBRACE.
Proof.
  pose proof (len_nonneg before).
  unfold arg, i. rewrite !charAt_app_r by lia.
  rewrite Z.sub_diag. replace (len before + 1 - len before) with 1 by lia.
  split; reflexivity.
Qed.

Lemma braced_name (k : Z) :
  i + 2 <= k < ne ->
  exists c, charAt arg k = Some c /\ charAt name (k - i - 2) = Some c
            /\ isBraceNameChar e c = true.
Proof.
  intros Hk. pose proof (len_nonneg before).
  unfold arg. rewrite charAt_app_r by (fold i; lia). fold i.
  rewrite !charAt_cons by lia.
  rewrite charAt_app_left by (unfold ne in Hk; lia).
  replace (k - i - 1 - 1) with (k - i - 2) by lia.
  destruct (charAt_Forall _ name (k - i - 2) name_chars
              ltac:(unfold ne in Hk; lia)) as [c [Hc Hn]].
  exists c. auto.
Qed.

Lemma braced_tail (k : Z) :
  ne <= k -> charAt arg k = charAt tail (k - ne).
Proof.
  intros Hk. pose proof (len_nonneg before). pose proof (len_nonneg name).
  unfold arg. rewrite charAt_app_r by (fold i; unfold ne in Hk; lia). fold i.
  rewrite !charAt_cons by (unfold ne in Hk; lia).
  rewrite charAt_app_r by (unfold ne in Hk; lia).
  f_equal. unfold ne. lia.
Qed.

(** The state of the loop over the name. *)
Lemma braced_name_loop (P : ctl (list VariableT) (outcome (list VariableT))
                            -> Prop) :
  (forall r,
     loop (len arg) (brace arg [] i)
          (fun _ => Done (Ok [])) ne
          (Variables.mkBraceState (DOLLAR :: LBRACE :: name) name (-1) []
             (-1) (-1) (-1)) = r -> P r) ->
  ne <= len arg ->
  P (loop (len arg) (brace arg [] i) (fun _ => Done (Ok [])) (i + 2)
          (Variables.mkBraceState (str "${") [] (-1) [] (-1) (-1) (-1))).
Proof.
  intros HP Hne.
  destruct braced_len as [Hi [Hn Hln]].
  pose proof (brace_forward arg [] i) as Hprog.
  destruct (loop_run
              (fun jj s =>
                 i + 2 <= jj
                 /\ s = Variables.mkBraceState
                          (DOLLAR :: LBRACE
                             :: firstn (Z.to_nat (jj - i - 2)) name)
                          (firstn (Z.to_nat (jj - i - 2)) name)
                          (-1) [] (-1) (-1) (-1))
              (len arg) (brace arg [] i) (fun _ => Done (Ok [])) ne Hprog)
    with (fuel := Z.to_nat (len name)) (j := i + 2)
         (s := Variables.mkBraceState (str "${") [] (-1) [] (-1) (-1) (-1))
    as [s' [[_ Hs'] Heq]]; try (unfold ne; lia).
  - intros jj s [Hjj ->] Hlt.
    destruct (braced_name jj ltac:(lia)) as [c [Hc [Hcn Hchar]]].
    apply isBraceNameChar_spec in Hchar.
    destruct Hchar as [He [Hrb [Hcolon Hws]]].
    eexists jj, _. split; [|split; [lia|split; [lia | reflexivity]]].
    unfold brace, Variables.brace_body.
    change (Variables.escChar this) with e.
    rewrite Hc. cbn [isChar chars]. rewrite He, Hrb, Hcolon, Hws.
    cbn [Variables.nameEnd Variables.escapedString Variables.escapedName
         Variables.escapedSubstitutionParameter Variables.substitutionStart
         Variables.substitutionEnd Variables.modifierRead].
    rewrite Z.eqb_refl.
    replace (jj + 1 - i - 2) with (jj - i - 2 + 1) by lia.
    rewrite (firstn_snoc_nth name (jj - i - 2) c) by (lia || exact Hcn).
    reflexivity.
  - split; [lia|]. replace (i + 2 - i - 2) with 0 by lia. reflexivity.
  - rewrite Heq. apply HP. rewrite Hs'.
    unfold ne. replace (i + 2 + len name - i - 2) with (len name) by lia.
    rewrite firstn_len. reflexivity.
Qed.

End Tail.

(** [${name}] *)
Lemma braced_plain :
  let j := ne in
  parse (before ++ DOLLAR :: LBRACE :: name ++ RBRACE :: after)
  = push [] i name (at_ (i + 2) ne) (at_ i (j + 1)) None None None None
         (DOLLAR :: LBRACE :: name ++ [RBRACE]).
Proof.
  intros j.
  set (tail := RBRACE :: after).
  set (arg := before ++ DOLLAR :: LBRACE :: name ++ tail).
  destruct (braced_len tail) as [Hi [Hn Hln]]. fold arg in Hn.
  pose proof (len_nonneg after) as Hla.
  assert (Hlt : len tail = 1 + len after) by apply len_cons.
  destruct (braced_dollar tail) as [Hdollar Hbrace].
  fold arg in Hdollar, Hbrace.
  apply parse_one_reference with (j' := j + 1).
  - apply braced_before.
  - fold arg. fold i. lia.
  - intros k Hk. fold arg in Hk |- *.
    rewrite (braced_tail tail) by (unfold j in Hk; lia).
    unfold tail. rewrite charAt_cons by (unfold j in Hk; lia).
    destruct (charAt_Forall _ after (k - ne - 1) after_chars
                ltac:(unfold j in Hk; lia)) as [c [-> Hc]].
    exact Hc.
  - fold arg. fold i. unfold body, Variables.variable_body.
    change (Variables.escChar this) with e.
    rewrite Hdollar, Hbrace. cbn [isChar].
    assert (Hed : Ascii.eqb DOLLAR e = false)
      by (destruct e_cases as [->| ->]; reflexivity).
    rewrite Hed, !Ascii.eqb_refl.
    refine (braced_name_loop tail
              (fun r =>
                 match r with
                 | Next j1 s1 =>
                     len before <= j1 /\ j + 1 <= j1 + 1 /\ _ = Ok s1
                 | Done r => r = _
                 end) _ _); [|fold arg; lia].
    fold arg. intros r Hr.
    rewrite loop_unfold in Hr by apply brace_forward.
    destruct (Z.ltb_spec ne (len arg)); [|lia].
    assert (Hchar : charAt arg ne = Some RBRACE).
    { unfold arg. rewrite (braced_tail tail) by lia.
      rewrite Z.sub_diag. reflexivity. }
    assert (He : Ascii.eqb RBRACE e = false)
      by (destruct e_cases as [->| ->]; reflexivity).
    assert (Hstep :
              brace arg [] i ne
                (Variables.mkBraceState (DOLLAR :: LBRACE :: name) name (-1)
                   [] (-1) (-1) (-1))
              = match push [] i name (at_ (i + 2) ne) (at_ i (ne + 1)) None
                           None None None
                           (DOLLAR :: LBRACE :: name ++ [RBRACE]) with
                | TypeError => Done (Done TypeError)
                | Ok variables' => Done (Next ne variables')
                end).
    { unfold brace, Variables.brace_body.
      change (Variables.escChar this) with e.
      rewrite Hchar. cbn [isChar]. rewrite He, Ascii.eqb_refl.
      reflexivity. }
    rewrite Hstep in Hr. unfold j.
    destruct (push [] i name (at_ (i + 2) ne) (at_ i (ne + 1)) None None None
                   None (DOLLAR :: LBRACE :: name ++ [RBRACE])) as [vars|];
      cbn iota beta in Hr; subst r; [|reflexivity].
    split; [unfold ne, i; lia|]. split; [lia | reflexivity].
Qed.

(** [${name:-parameter}], for any modifier character *)
Lemma braced_modifier (m : ascii) (parameter : jsstring) :
  isBraceNameChar e m = true ->
  Forall (fun c => isBraceParameterChar e c = true) parameter ->
  let j := ne + 2 + len parameter in
  parse (before ++ DOLLAR :: LBRACE :: name
           ++ COLON :: m :: parameter ++ RBRACE :: after)
  = push [] i name (at_ (i + 2) ne) (at_ i (j + 1)) (Some [m])
         (Some (at_ (ne + 1) (ne + 2))) (Some parameter)
         (Some (at_ (ne + 2) (ne + 2 + len parameter)))
         (DOLLAR :: LBRACE :: name ++ COLON :: m :: parameter ++ [RBRACE]).
Proof.
  intros Hm Hparameter j.
  set (tail := COLON :: m :: parameter ++ RBRACE :: after).
  set (arg := before ++ DOLLAR :: LBRACE :: name ++ tail).
  set (expected := push [] i name (at_ (i + 2) ne) (at_ i (j + 1)) (Some [m])
                        (Some (at_ (ne + 1) (ne + 2))) (Some parameter)
                        (Some (at_ (ne + 2) (ne + 2 + len parameter)))
                        (DOLLAR :: LBRACE :: name
                           ++ COLON :: m :: parameter ++ [RBRACE])).
  destruct (braced_len tail) as [Hi [Hn Hln]]. fold arg in Hn.
  pose proof (len_nonneg after) as Hla.
  pose proof (len_nonneg parameter) as Hlp.
  assert (Hlt : len tail = 2 + len parameter + 1 + len after).
  { unfold tail. rewrite !len_cons, len_app, len_cons. lia. }
  destruct (braced_dollar tail) as [Hdollar Hbrace].
  fold arg in Hdollar, Hbrace.
  assert (Hcolon : charAt arg ne = Some COLON).
  { unfold arg. rewrite (braced_tail tail) by lia.
    rewrite Z.sub_diag. reflexivity. }
  assert (Hmod : charAt arg (ne + 1) = Some m).
  { unfold arg. rewrite (braced_tail tail) by lia.
    replace (ne + 1 - ne) with 1 by lia. reflexivity. }
  assert (Hparam : forall k, ne + 2 <= k < j ->
             exists c, charAt arg k = Some c
                       /\ charAt parameter (k - ne - 2) = Some c
                       /\ isBraceParameterChar e c = true).
  { intros k Hk. unfold arg. rewrite (braced_tail tail) by lia.
    unfold tail. rewrite !charAt_cons by lia.
    rewrite charAt_app_left by (unfold j in Hk; lia).
    replace (k - ne - 1 - 1) with (k - ne - 2) by lia.
    destruct (charAt_Forall _ parameter (k - ne - 2) Hparameter
                ltac:(unfold j in Hk; lia)) as [c [Hc Hpc]].
    exists c. auto. }
  assert (Hclose : charAt arg j = Some RBRACE).
  { unfold arg. rewrite (braced_tail tail) by (unfold j; lia).
    unfold tail. rewrite !charAt_cons by (unfold j; lia).
    rewrite charAt_app_r by (unfold j; lia).
    replace (j - ne - 1 - 1 - len parameter) with 0 by (unfold j; lia).
    reflexivity. }
  apply parse_one_reference with (j' := j + 1).
  - apply braced_before.
  - fold arg. fold i. lia.
  - intros k Hk. fold arg in Hk |- *.
    rewrite (braced_tail tail) by (unfold j in Hk; lia).
    unfold tail. rewrite !charAt_cons by (unfold j in Hk; lia).
    rewrite charAt_app_r by (unfold j in Hk; lia).
    rewrite charAt_cons by (unfold j in Hk; lia).
    destruct (charAt_Forall _ after (k - ne - 1 - 1 - len parameter - 1)
                after_chars ltac:(unfold j in Hk; lia)) as [c [-> Hc]].
    exact Hc.
  - fold arg. fold i. unfold body, Variables.variable_body.
    change (Variables.escChar this) with e.
    rewrite Hdollar, Hbrace. cbn [isChar].
    assert (Hed : Ascii.eqb DOLLAR e = false)
      by (destruct e_cases as [->| ->]; reflexivity).
    rewrite Hed, !Ascii.eqb_refl.
    refine (braced_name_loop tail
              (fun r =>
                 match r with
                 | Next j1 s1 =>
                     len before <= j1 /\ j + 1 <= j1 + 1 /\ _ = Ok s1
                 | Done r => r = _
                 end) _ _); [|fold arg; lia].
    fold arg. intros r Hr.
    (* the colon *)
    assert (Hec : Ascii.eqb COLON e = false)
      by (destruct e_cases as [->| ->]; reflexivity).
    rewrite loop_unfold in Hr by apply brace_forward.
    destruct (Z.ltb_spec ne (len arg)); [|lia].
    assert (Hstep1 :
              brace arg [] i ne
                (Variables.mkBraceState (DOLLAR :: LBRACE :: name) name (-1)
                   [] (-1) (-1) (-1))
              = Next ne
                  (Variables.mkBraceState
                     (DOLLAR :: LBRACE :: name ++ [COLON]) name ne [] (-1)
                     (-1) (-1))).
    { unfold brace, Variables.brace_body.
      change (Variables.escChar this) with e.
      rewrite Hcolon. cbn [isChar]. rewrite Hec. reflexivity. }
    rewrite Hstep1 in Hr.
    (* the modifier *)
    apply isBraceNameChar_spec in Hm.
    destruct Hm as [Hme [Hmr [Hmc Hmw]]].
    assert (Hne1 : (ne =? -1) = false) by (apply Z.eqb_neq; lia).
    rewrite loop_unfold in Hr by apply brace_forward.
    destruct (Z.ltb_spec (ne + 1) (len arg)); [|lia].
    assert (Hstep2 :
              brace arg [] i (ne + 1)
                (Variables.mkBraceState
                   (DOLLAR :: LBRACE :: name ++ [COLON]) name ne [] (-1)
                   (-1) (-1))
              = Next (ne + 1)
                  (Variables.mkBraceState
                     (DOLLAR :: LBRACE :: name ++ [COLON; m]) name ne [] (-1)
                     (-1) (ne + 1))).
    { unfold brace, Variables.brace_body.
      change (Variables.escChar this) with e.
      rewrite Hmod. cbn [isChar chars]. rewrite Hme, Hmr, Hmc, Hmw.
      cbn [Variables.nameEnd]. rewrite Hne1.
      unfold Variables.afterName.
      cbn [Variables.nameEnd Variables.escapedString Variables.escapedName
           Variables.escapedSubstitutionParameter Variables.substitutionStart
           Variables.substitutionEnd Variables.modifierRead].
      change (-1 =? -1) with true. cbn [negb].
      do 2 f_equal. cbn [app]. do 2 f_equal.
      rewrite <- app_assoc. reflexivity. }
    rewrite Hstep2 in Hr.
    (* the substitution parameter *)
    destruct (loop_run
                (fun jj s =>
                   ne + 2 <= jj
                   /\ s = Variables.mkBraceState
                            (DOLLAR :: LBRACE :: name
                               ++ COLON :: m
                               :: firstn (Z.to_nat (jj - ne - 2)) parameter)
                            name ne
                            (firstn (Z.to_nat (jj - ne - 2)) parameter)
                            (if jj =? ne + 2 then -1 else ne + 2)
                            (if jj =? ne + 2 then -1 else jj - 1)
                            (ne + 1))
                (len arg) (brace arg [] i) (fun _ => Done (Ok [])) j
                (brace_forward arg [] i))
      with (fuel := Z.to_nat (len parameter)) (j := ne + 1 + 1)
           (s := Variables.mkBraceState
                   (DOLLAR :: LBRACE :: name ++ [COLON; m]) name ne [] (-1)
                   (-1) (ne + 1))
      as [s3 [[_ Hs3] Heq]]; try (unfold j; lia).
    { intros jj s [Hjj ->] Hjlt.
      destruct (Hparam jj ltac:(lia)) as [c [Hc [Hcp Hchar]]].
      apply isBraceParameterChar_spec in Hchar.
      destruct Hchar as [He [Hrb Hws]].
      eexists jj, _. split; [|split; [lia|split; [lia | reflexivity]]].
      unfold brace, Variables.brace_body.
      change (Variables.escChar this) with e.
      rewrite Hc. cbn [isChar chars]. rewrite He, Hrb, Hws.
      cbn [Variables.nameEnd]. rewrite Hne1.
      assert (Hafter :
                Variables.afterName
                  (Variables.mkBraceState
                     (DOLLAR :: LBRACE :: name
                        ++ COLON :: m
                        :: firstn (Z.to_nat (jj - ne - 2)) parameter)
                     name ne (firstn (Z.to_nat (jj - ne - 2)) parameter)
                     (if jj =? ne + 2 then -1 else ne + 2)
                     (if jj =? ne + 2 then -1 else jj - 1) (ne + 1))
                  jj [c]
                = Variables.mkBraceState
                    (DOLLAR :: LBRACE :: name
                       ++ COLON :: m
                       :: firstn (Z.to_nat (jj + 1 - ne - 2)) parameter)
                    name ne (firstn (Z.to_nat (jj + 1 - ne - 2)) parameter)
                    (if jj + 1 =? ne + 2 then -1 else ne + 2)
                    (if jj + 1 =? ne + 2 then -1 else jj + 1 - 1) (ne + 1)).
      { unfold Variables.afterName.
        cbn [Variables.nameEnd Variables.escapedString Variables.escapedName
             Variables.escapedSubstitutionParameter
             Variables.substitutionStart Variables.substitutionEnd
             Variables.modifierRead].
        destruct (Z.eqb_spec (ne + 1) (-1)); [lia|]. cbn [negb].
        replace (jj + 1 - ne - 2) with (jj - ne - 2 + 1) by lia.
        rewrite (firstn_snoc_nth parameter (jj - ne - 2) c)
          by (lia || exact Hcp).
        destruct (Z.eqb_spec (jj + 1) (ne + 2)); [lia|].
        f_equal.
        - cbn [app]. do 2 f_equal. rewrite <- app_assoc. reflexivity.
        - destruct (Z.eqb_spec jj (ne + 2)) as [->|].
          + reflexivity.
          + destruct (Z.eqb_spec (ne + 2) (-1)); [lia | reflexivity].
        - lia. }
      destruct (Ascii.eqb c COLON) eqn:Ecc.
      - apply Ascii.eqb_eq in Ecc. subst c. rewrite Hafter. reflexivity.
      - rewrite Hafter. reflexivity. }
    { split; [lia|]. replace (ne + 1 + 1 - ne - 2) with 0 by lia.
      destruct (Z.eqb_spec (ne + 1 + 1) (ne + 2)); [|lia]. reflexivity. }
    rewrite Heq in Hr.
    (* the closing brace *)
    assert (Hfull : firstn (Z.to_nat (j - ne - 2)) parameter = parameter).
    { unfold j. replace (ne + 2 + len parameter - ne - 2) with (len parameter)
        by lia. apply firstn_len. }
    rewrite Hfull in Hs3.
    assert (Her : Ascii.eqb RBRACE e = false)
      by (destruct e_cases as [->| ->]; reflexivity).
    assert (Hstep4 :
              brace arg [] i j s3
              = match expected with
                | TypeError => Done (Done TypeError)
                | Ok variables' => Done (Next j variables')
                end).
    { unfold brace, Variables.brace_body.
      change (Variables.escChar this) with e.
      rewrite Hclose. cbn [isChar]. rewrite Her, Ascii.eqb_refl.
      replace (Variables.closeBrace text resolveVariable ImageTemplate
                 getInitialARGs getContainingImage getENVs getARGs isBefore
                 getProperties getProperty this offset arg [] i j s3)
        with expected; [reflexivity|].
      rewrite Hs3. unfold Variables.closeBrace.
      cbn [Variables.nameEnd Variables.escapedString Variables.escapedName
           Variables.escapedSubstitutionParameter Variables.substitutionStart
           Variables.substitutionEnd Variables.modifierRead].
      rewrite Hne1.
      destruct (Z.eqb_spec (ne + 1) j); [unfold j in *; lia|].
      destruct (Z.eqb_spec (ne + 1) (-1)); [lia|]. cbn [negb].
      rewrite (substring_char arg (ne + 1) m) by (lia || exact Hmod).
      unfold expected. fold push. fold at_.
      change (Variables.pushVariable text resolveVariable ImageTemplate
                getInitialARGs getContainingImage getENVs getARGs isBefore
                getProperties getProperty this offset) with push.
      change (Variables.at_ text offset) with at_.
      assert (Hrange :
                (let '(substitutionStart, substitutionEnd) :=
                   if (if j =? ne + 2 then -1 else ne + 2) =? -1
                   then (ne + 1 + 1, ne + 1 + 1)
                   else (if j =? ne + 2 then -1 else ne + 2,
                         (if j =? ne + 2 then -1 else j - 1) + 1) in
                 at_ substitutionStart substitutionEnd)
                = at_ (ne + 2) (ne + 2 + len parameter)).
      { destruct (Z.eqb_spec j (ne + 2)) as [E|E].
        - change (-1 =? -1) with true. cbv iota beta. f_equal; unfold j in E; lia.
        - destruct (Z.eqb_spec (ne + 2) (-1)); [lia|].
          cbv iota beta. f_equal. unfold j. lia. }
      destruct (if (if j =? ne + 2 then -1 else ne + 2) =? -1
                then (ne + 1 + 1, ne + 1 + 1)
                else (if j =? ne + 2 then -1 else ne + 2,
                      (if j =? ne + 2 then -1 else j - 1) + 1))
        as [ss se].
      cbv iota beta in Hrange |- *. rewrite Hrange.
      replace (ne + 1 + 1) with (ne + 2) by lia.
      f_equal. cbn [app]. do 2 f_equal. rewrite <- app_assoc. reflexivity. }
    rewrite loop_unfold in Hr by apply brace_forward.
    destruct (Z.ltb_spec j (len arg)); [|unfold j in *; lia].
    rewrite Hstep4 in Hr.
    destruct expected as [vars|]; cbn iota beta in Hr; subst r;
      [|reflexivity].
    split; [unfold j, ne, i; lia|]. split; [lia | reflexivity].
Qed.

(** X10: in an argument made of text without [$] or escape character, a
    braced reference and text without [$], exactly this reference is found.
    For [${name}] it has the name and neither modifier nor substitution
    parameter; for [${name:Mparameter}] its modifier is the character [M]
    after the colon and its substitution parameter is the text up to the
    closing brace, which may be empty. *)
Theorem parseVariables_braced (modifier : option (ascii * jsstring)) :
  match modifier with
  | None => True
  | Some (m, parameter) =>
      isBraceNameChar e m = true
      /\ Forall (fun c => isBraceParameterChar e c = true) parameter
  end ->
  let j := ne + len (modifierText modifier) in
  parse (before ++ DOLLAR :: LBRACE :: name
           ++ modifierText modifier ++ RBRACE :: after)
  = match modifier with
    | None =>
        push [] i name (at_ (i + 2) ne) (at_ i (j + 1)) None None None None
             (DOLLAR :: LBRACE :: name ++ [RBRACE])
    | Some (m, parameter) =>
        push [] i name (at_ (i + 2) ne) (at_ i (j + 1)) (Some [m])
             (Some (at_ (ne + 1) (ne + 2))) (Some parameter)
             (Some (at_ (ne + 2) (ne + 2 + len parameter)))
             (DOLLAR :: LBRACE :: name ++ COLON :: m :: parameter ++ [RBRACE])
    end.
Proof.
  destruct modifier as [[m parameter]|]; intros Hmodifier j.
  - destruct Hmodifier as [Hm Hparameter].
    assert (Hj : j = ne + 2 + len parameter).
    { unfold j, modifierText. rewrite !len_cons. lia. }
    rewrite Hj. apply (braced_modifier m parameter Hm Hparameter).
  - assert (Hj : j = ne).
    { unfold j, modifierText. change (len []) with 0. lia. }
    rewrite Hj. apply braced_plain.
Qed.

End BracedReference.

Lemma parseVariables_braced_witness :
  parseUndeclared echoReferences 18
    ([] ++ DOLLAR :: LBRACE :: str "name"
        ++ modifierText (Some ("-"%char, str "value")) ++ RBRACE :: [])
  = Ok [mkVariable (str "name")
          (mkRange (mkPosition 0 20) (mkPosition 0 24))
          (mkRange (mkPosition 0 18) (mkPosition 0 32))
          (Some (str "-"))
          (Some (mkRange (mkPosition 0 25) (mkPosition 0 26)))
          (Some (str "value"))
          (Some (mkRange (mkPosition 0 26) (mkPosition 0 31)))
          false None (str "${name:-value}")].
Proof.
  unfold parseUndeclared.
  rewrite (parseVariables_braced _ _ _ _ _ _ _ _ _ _ _ _ [] []).
  - vm_compute. reflexivity.
  - left. reflexivity.
  - constructor.
  - constructor.
  - repeat constructor.
  - split; [reflexivity | repeat constructor].
Defined.

(** ** Values without escape characters *)

Lemma isPlainChar_spec (e c : ascii) :
  isPlainChar e c = true ->
  Ascii.eqb c e = false /\ Ascii.eqb c CR = false /\ Ascii.eqb c LF = false.
Proof.
  unfold isPlainChar, Util.isNewline. cbn [isChar].
  destruct (Ascii.eqb c e), (Ascii.eqb c CR), (Ascii.eqb c LF);
    simpl; intros H; try discriminate; auto.
Qed.

Lemma substring_full (s : jsstring) : substring s 0 (len s) = s.
Proof.
  pose proof (len_nonneg s).
  rewrite substring_ordered by lia.
  rewrite Z.sub_0_r. simpl skipn. apply firstn_len.
Qed.

Lemma Forall_substring (P : ascii -> Prop) (s : jsstring) (a b : Z) :
  Forall P s -> Forall P (substring s a b).
Proof.
  intros H. unfold substring. cbv zeta.
  apply Forall_forall. intros x Hx.
  rewrite Forall_forall in H. apply H.
  match type of Hx with
  | In x (firstn ?n (skipn ?m s)) =>
      rewrite <- (firstn_skipn m s); apply in_or_app; right;
      rewrite <- (firstn_skipn n (skipn m s)); apply in_or_app; left;
      exact Hx
  end.
Qed.

(** Without escape characters, a value that starts with a double quote is
    in double quotes when it also ends with one. *)
Lemma scanInDouble_plain (e : ascii) (value : jsstring) :
  Forall (fun c => isPlainChar e c = true) value ->
  PropertyM.scanInDouble e value
  = (2 <=? len value) && isChar DQUOTE (charAt value (len value - 1)).
Proof.
  intros Hplain. unfold PropertyM.scanInDouble.
  set (X := isChar DQUOTE (charAt value (len value - 1))).
  apply loop_invariant with
    (I := fun i b =>
            1 <= i /\ b = (2 <=? len value) && (len value - 1 <? i) && X).
  - intros i b [Hi ->] Hlt. unfold PropertyM.inDouble_body.
    destruct (charAt_Forall _ value i Hplain ltac:(lia)) as [c [Hc Hchar]].
    apply isPlainChar_spec in Hchar. destruct Hchar as [He _].
    rewrite Hc. cbn [isChar]. rewrite He.
    destruct (Z.leb_spec 2 (len value)); [|lia]. cbn [andb].
    destruct (Z.eqb_spec i (len value - 1)) as [Hlast|Hmid].
    + assert (HX : X = Ascii.eqb c DQUOTE).
      { unfold X. rewrite <- Hlast, Hc. reflexivity. }
      rewrite HX.
      destruct (Z.ltb_spec (len value - 1) i); [lia|].
      destruct (Z.ltb_spec (len value - 1) (i + 1)); [|lia].
      destruct (Ascii.eqb c DQUOTE); simpl; split; try lia; split; try lia;
        reflexivity.
    + rewrite andb_false_r.
      destruct (Z.ltb_spec (len value - 1) i); [lia|].
      destruct (Z.ltb_spec (len value - 1) (i + 1)); [lia|].
      split; [lia|]. split; [lia | reflexivity].
  - intros i b [Hi ->] Hge.
    destruct (Z.leb_spec 2 (len value)); [|reflexivity].
    destruct (Z.ltb_spec (len value - 1) i); [reflexivity | lia].
  - split; [lia|].
    destruct (Z.leb_spec 2 (len value)); [|reflexivity].
    destruct (Z.ltb_spec (len value - 1) 1); [lia | reflexivity].
Qed.

(** Without escape characters and line breaks, the loop of
    [Property.getValue] copies the value. *)
Lemma parseValue_plain (e : ascii) (value : jsstring)
    (inDouble inSingle literal : bool) :
  Forall (fun c => isPlainChar e c = true) value ->
  loop (len value) (PropertyM.value_body e value inDouble inSingle literal)
       (fun s => PropertyM.escapedValue s) 0
       (PropertyM.mkValueState false (-1) [])
  = value.
Proof.
  intros Hplain.
  apply loop_invariant with
    (I := fun i s =>
            0 <= i <= len value
            /\ s = PropertyM.mkValueState false (-1)
                     (firstn (Z.to_nat i) value)).
  - intros i s [Hi ->] Hlt. unfold PropertyM.value_body.
    destruct (charAt_Forall _ value i Hplain ltac:(lia)) as [c [Hc Hchar]].
    apply isPlainChar_spec in Hchar. destruct Hchar as [He [Hcr Hlf]].
    rewrite Hc. cbn [isChar chars]. rewrite He, Hcr, Hlf.
    cbn [PropertyM.escaped PropertyM.commentCheck PropertyM.escapedValue andb].
    rewrite <- (firstn_snoc_nth value i c) by (lia || exact Hc).
    destruct (Ascii.eqb c SP || Ascii.eqb c TAB);
      [split; [lia|]; split; [lia | reflexivity]|].
    destruct (Ascii.eqb c HASH); split; try lia; split; try lia; reflexivity.
  - intros i s [Hi ->] Hge. cbn [PropertyM.escapedValue].
    replace i with (len value) by lia. apply firstn_len.
  - split; [pose proof (len_nonneg value); lia | reflexivity].
Qed.

(** X11: for a value without escape character or line break whose first
    character is not leading whitespace, [Property.getValue] returns the
    text between the enclosing pair of single or double quotes when there is
    one, and the value unchanged otherwise: a quote that is not closed, a
    [#] and blanks are kept. *)
Theorem getValue_unquote (findLeadingNonWhitespace : jsstring -> ascii -> Z)
    (e : ascii) (value : jsstring) :
  findLeadingNonWhitespace value e = 0 ->
  Forall (fun c => isPlainChar e c = true) value ->
  PropertyM.getValue findLeadingNonWhitespace e value = unquote value.
Proof.
  intros Hskip Hplain. unfold PropertyM.getValue.
  rewrite Hskip. change (0 =? 0) with true. cbn [negb andb].
  unfold substringFrom. rewrite substring_full.
  rewrite (scanInDouble_plain e value Hplain).
  unfold unquote.
  set (first := charAt value 0).
  set (last := charAt value (len value - 1)).
  destruct (isChar SQUOTE first && isChar SQUOTE last) eqn:Esingle.
  - (* in single quotes *)
    cbn [orb].
    destruct (Z.leb_spec 2 (len value)) as [Hlen|Hlen].
    + cbn [andb]. apply parseValue_plain. apply Forall_substring. exact Hplain.
    + cbn [andb].
      assert (Hone : substring value 1 (len value - 1) = value).
      { destruct value as [|x [|y rest]].
        - reflexivity.
        - reflexivity.
        - rewrite !len_cons in Hlen. pose proof (len_nonneg rest). lia. }
      rewrite Hone. apply parseValue_plain. exact Hplain.
  - cbn [orb].
    destruct (isChar DQUOTE first) eqn:Efirst.
    + cbn [andb].
      destruct ((2 <=? len value) && isChar DQUOTE last) eqn:Edouble.
      * apply parseValue_plain. apply Forall_substring. exact Hplain.
      * apply parseValue_plain. exact Hplain.
    + cbn [andb]. rewrite andb_false_r. apply parseValue_plain. exact Hplain.
Qed.

Lemma getValue_unquote_witness :
  PropertyM.getValue Util.findLeadingNonWhitespace BACKSLASH
    (DQUOTE :: str "a b#c" ++ [DQUOTE])
  = str "a b#c"
  /\ PropertyM.getValue Util.findLeadingNonWhitespace BACKSLASH
       (DQUOTE :: str "open")
     = DQUOTE :: str "open".
Proof.
  split.
  - rewrite getValue_unquote.
    + vm_compute. reflexivity.
    + vm_compute. reflexivity.
    + repeat constructor.
  - rewrite getValue_unquote.
    + vm_compute. reflexivity.
    + vm_compute. reflexivity.
    + repeat constructor.
Defined.

(** ** The raw value of a property *)

Lemma isBlank_cases (c : ascii) :
  isBlank (Some c) = true -> c = SP \/ c = TAB.
Proof.
  unfold isBlank. cbn [isChar]. intros H. apply orb_true_iff in H.
  destruct H as [H|H]; apply Ascii.eqb_eq in H; auto.
Qed.

(** Without escape characters and line breaks, the raw value is the text
    of the value. *)
Lemma unescape_plain (e : ascii) (value : jsstring) :
  Forall (fun c => isPlainChar e c = true) value ->
  PropertyText.unescape e value = value.
Proof.
  intros Hplain. unfold PropertyText.unescape.
  apply loop_invariant with
    (I := fun i s =>
            0 <= i <= len value
            /\ s = PropertyText.mkRawState false (firstn (Z.to_nat i) value)).
  - intros i s [Hi ->] Hlt. unfold PropertyText.raw_body.
    destruct (charAt_Forall _ value i Hplain ltac:(lia)) as [c [Hc Hchar]].
    apply isPlainChar_spec in Hchar. destruct Hchar as [He [Hcr Hlf]].
    rewrite Hc. cbn [isChar chars]. rewrite He, Hcr, Hlf.
    cbn [PropertyText.rawEscaped PropertyText.rawValue orb negb].
    rewrite <- (firstn_snoc_nth value i c) by (lia || exact Hc).
    destruct (Ascii.eqb c SP || Ascii.eqb c TAB);
      [split; [lia|]; split; [lia | reflexivity]|].
    destruct (Ascii.eqb c HASH); split; try lia; split; try lia; reflexivity.
  - intros i s [Hi ->] Hge. cbn [PropertyText.rawValue].
    replace i with (len value) by lia. apply firstn_len.
  - split; [pose proof (len_nonneg value); lia | reflexivity].
Qed.

(** X12: [getUnescapedValue] is [null] for a property without value;
    for a value without escape character or line break it is the text of
    the value range, enclosing quotes included. *)
Theorem getUnescapedValue_plain (text : jsstring) (e : ascii) (p : Property) :
  match propValueRange p with
  | None => PropertyText.getUnescapedValue text e p = None
  | Some valueRange =>
      Forall (fun c => isPlainChar e c = true) (textOf text valueRange) ->
      PropertyText.getUnescapedValue text e p
      = Some (textOf text valueRange)
  end.
Proof.
  unfold PropertyText.getUnescapedValue.
  destruct (propValueRange p) as [valueRange|]; [|reflexivity].
  intros Hplain. cbv zeta. f_equal.
  apply (unescape_plain e (textOf text valueRange) Hplain).
Qed.

Lemma getUnescapedValue_plain_witness :
  PropertyText.getUnescapedValue quotedNameARG BACKSLASH
    (PropertyM.newProperty Util.findLeadingNonWhitespace BACKSLASH
       quotedNameARG quotedNameArgument None)
  = Some (str "value").
Proof.
  pose proof (getUnescapedValue_plain quotedNameARG BACKSLASH
                (PropertyM.newProperty Util.findLeadingNonWhitespace BACKSLASH
                   quotedNameARG quotedNameArgument None)) as H.
  assert (Hrange :
            propValueRange
              (PropertyM.newProperty Util.findLeadingNonWhitespace BACKSLASH
                 quotedNameARG quotedNameArgument None)
            = Some (mkRange (mkPosition 0 10) (mkPosition 0 15)))
    by (vm_compute; reflexivity).
  rewrite Hrange in H. rewrite H.
  - vm_compute. reflexivity.
  - vm_compute. repeat constructor.
Defined.

Section Continuation.

Variable e : ascii.
Variables a gap blanks b : jsstring.
Variable crlf : bool.

Let nl : jsstring := if crlf then [CR; LF] else [LF].
Let value : jsstring := a ++ [e] ++ gap ++ nl ++ blanks ++ b.

Hypothesis e_not_whitespace : Util.isWhitespace (Some e) = false.
Hypothesis a_chars : Forall (fun c => isPlainChar e c = true) a.
Hypothesis gap_chars : Forall (fun c => isBlank (Some c) = true) gap.
Hypothesis blanks_chars : Forall (fun c => isBlank (Some c) = true) blanks.
Hypothesis b_chars : Forall (fun c => isPlainChar e c = true) b.
Hypothesis b_first :
  b = [] \/ exists c rest, b = c :: rest /\ isContinuationStart e c = true.

Let p : Z := len a.
Let q : Z := p + len gap + len nl.
Let r0 : Z := q + 1 + len blanks.

Lemma continuation_len :
  0 <= p /\ 0 <= len gap /\ 1 <= len nl <= 2 /\ 0 <= len blanks
  /\ 0 <= len b /\ len value = r0 + len b.
Proof.
  pose proof (len_nonneg a). pose proof (len_nonneg gap).
  pose proof (len_nonneg blanks). pose proof (len_nonneg b).
  assert (Hnl : 1 <= len nl <= 2) by (unfold nl; destruct crlf; cbv; split; discriminate).
  unfold value, r0, q, p. rewrite !len_app. change (len [e]) with 1. lia.
Qed.

Lemma continuation_a (k : Z) :
  0 <= k < p ->
  exists c, charAt value k = Some c /\ charAt a k = Some c
            /\ isPlainChar e c = true.
Proof.
  intros Hk. unfold value. rewrite charAt_app_left by (fold p; lia).
  destruct (charAt_Forall _ a k a_chars Hk) as [c [Hc Hp]].
  exists c. auto.
Qed.

Lemma continuation_e : charAt value p = Some e.
Proof.
  pose proof (len_nonneg a).
  unfold value. rewrite charAt_app_r by (fold p; lia). fold p.
  rewrite Z.sub_diag. reflexivity.
Qed.

Lemma continuation_gap (k : Z) :
  p + 1 <= k < p + 1 + len gap ->
  isBlank (charAt value k) = true.
Proof.
  intros Hk.
  assert (Hshape : value = (a ++ [e]) ++ gap ++ (nl ++ blanks ++ b)).
  { unfold value. rewrite <- !app_assoc. reflexivity. }
  assert (Hl : len (a ++ [e]) = p + 1) by (rewrite len_app; reflexivity).
  rewrite Hshape, charAt_middle by (rewrite Hl; lia).
  rewrite Hl.
  destruct (charAt_Forall _ gap (k - (p + 1)) gap_chars ltac:(lia))
    as [c [-> Hc]].
  exact Hc.
Qed.

Lemma continuation_nl :
  (charAt value (p + 1 + len gap) = Some CR /\ q = p + len gap + 2)
  \/ (charAt value q = Some LF /\ q = p + len gap + 1).
Proof.
  destruct continuation_len as [Hp [Hg [Hnl _]]].
  assert (Hshape : value = (a ++ [e] ++ gap) ++ nl ++ (blanks ++ b)).
  { unfold value. rewrite <- !app_assoc. reflexivity. }
  assert (Hl : len (a ++ [e] ++ gap) = p + 1 + len gap).
  { rewrite !len_app. change (len [e]) with 1. fold p. lia. }
  unfold q in *. unfold nl in *. destruct crlf.
  - left. change (len [CR; LF]) with 2 in *.
    split; [|reflexivity].
    rewrite Hshape, charAt_middle by (rewrite Hl; change (len [CR; LF]) with 2; lia).
    rewrite Hl, Z.sub_diag. reflexivity.
  - right. change (len [LF]) with 1 in *.
    split; [|reflexivity].
    rewrite Hshape, charAt_middle by (rewrite Hl; change (len [LF]) with 1; lia).
    rewrite Hl. replace (p + len gap + 1 - (p + 1 + len gap)) with 0 by lia.
    reflexivity.
Qed.

Lemma continuation_blanks (k : Z) :
  q + 1 <= k < r0 -> isBlank (charAt value k) = true.
Proof.
  intros Hk.
  assert (Hshape : value = (a ++ [e] ++ gap ++ nl) ++ blanks ++ b).
  { unfold value. rewrite <- !app_assoc. reflexivity. }
  assert (Hl : len (a ++ [e] ++ gap ++ nl) = q + 1).
  { rewrite !len_app. change (len [e]) with 1. unfold q, p. lia. }
  rewrite Hshape, charAt_middle by (rewrite Hl; unfold r0 in Hk; lia).
  rewrite Hl.
  destruct (charAt_Forall _ blanks (k - (q + 1)) blanks_chars
              ltac:(unfold r0 in Hk; lia)) as [c [-> Hc]].
  exact Hc.
Qed.

Lemma continuation_b (k : Z) :
  r0 <= k < len value ->
  exists c, charAt value k = Some c /\ charAt b (k - r0) = Some c
            /\ isPlainChar e c = true.
Proof.
  intros Hk. destruct continuation_len as [_ [_ [_ [_ [_ Hn]]]]].
  assert (Hshape : value = (a ++ [e] ++ gap ++ nl ++ blanks) ++ b).
  { unfold value. rewrite <- !app_assoc. reflexivity. }
  assert (Hl : len (a ++ [e] ++ gap ++ nl ++ blanks) = r0).
  { rewrite !len_app. change (len [e]) with 1. unfold r0, q, p. lia. }
  rewrite Hshape, charAt_app_r by (rewrite Hl; lia).
  rewrite Hl.
  destruct (charAt_Forall _ b (k - r0) b_chars ltac:(lia)) as [c [Hc Hp]].
  exists c. auto.
Qed.

(** The loop after the escape character finds the line break. *)
Lemma continuation_escape (s : PropertyText.RawState) :
  loop (len value) (PropertyText.rawEscape_body value s p (Some e))
       (fun _ =>
          Next p (PropertyText.mkRawState (PropertyText.rawEscaped s)
                    (PropertyText.rawValue s ++ [e])))
       (p + 1) tt
  = Next q (PropertyText.mkRawState true (PropertyText.rawValue s)).
Proof.
  destruct continuation_len as [Hp [Hg [Hnl [Hb [Hlb Hn]]]]].
  apply loop_invariant with
    (I := fun j (_ : unit) => p + 1 <= j <= p + 1 + len gap).
  - intros j [] Hj Hlt. unfold PropertyText.rawEscape_body.
    destruct (Z.eq_dec j (p + 1 + len gap)) as [Hend|Hmid].
    + destruct continuation_nl as [[Hcr Hq]|[Hlf Hq]].
      * rewrite Hend, Hcr. cbn [isChar]. rewrite Ascii.eqb_refl.
        replace (p + 1 + len gap + 1) with q by lia. reflexivity.
      * assert (Hjq : j = q) by lia.
        rewrite Hjq, Hlf. reflexivity.
    + pose proof (continuation_gap j ltac:(lia)) as Hblank.
      destruct (charAt value j) as [c|]; [|discriminate].
      apply isBlank_cases in Hblank.
      destruct Hblank as [->| ->]; cbn; lia.
  - intros j [] Hj Hge. unfold r0, q in Hn. lia.
  - lia.
Qed.

(** X13: an escaped line break and the blanks and tabs around it are no
    part of the raw value: for a value made of text, the escape character,
    blanks, a line break (LF or CR LF), blanks and text that does not start
    with [#], where neither text holds an escape character or a line break,
    the raw value is the first text followed by the second. *)
Theorem unescape_continuation :
  PropertyText.unescape e value = a ++ b.
Proof.
  destruct continuation_len as [Hp [Hg [Hnl [Hb [Hlb Hn]]]]].
  unfold PropertyText.unescape.
  apply loop_invariant with
    (I := fun i s =>
            (0 <= i <= p
             /\ s = PropertyText.mkRawState false (firstn (Z.to_nat i) a))
            \/ (q + 1 <= i <= r0 /\ s = PropertyText.mkRawState true a)
            \/ (r0 < i <= len value
                /\ s = PropertyText.mkRawState false
                         (a ++ firstn (Z.to_nat (i - r0)) b))).
  - intros i s HI Hlt.
    destruct HI as [[Hi ->]|[[Hi ->]|[Hi ->]]].
    + destruct (Z.eq_dec i p) as [->|Hne].
      * (* the escape character *)
        unfold PropertyText.raw_body. rewrite continuation_e.
        cbn [isChar chars]. rewrite Ascii.eqb_refl.
        rewrite continuation_escape.
        cbn [PropertyText.rawValue]. unfold p. rewrite firstn_len.
        fold p. split; [unfold q; lia|].
        right. left. split; [unfold r0; lia | reflexivity].
      * destruct (continuation_a i ltac:(lia)) as [c [Hc [Hca Hchar]]].
        apply isPlainChar_spec in Hchar. destruct Hchar as [He [Hcr Hlf]].
        unfold PropertyText.raw_body.
        rewrite Hc. cbn [isChar chars]. rewrite He, Hcr, Hlf.
        cbn [PropertyText.rawEscaped PropertyText.rawValue orb negb].
        rewrite <- (firstn_snoc_nth a i c) by (lia || exact Hca).
        destruct (Ascii.eqb c SP || Ascii.eqb c TAB);
          [split; [lia|]; left; split; [lia | reflexivity]|].
        destruct (Ascii.eqb c HASH); split; try lia; left; split; try lia;
          reflexivity.
    + destruct (Z.eq_dec i r0) as [->|Hne].
      * (* the first character of the second text *)
        destruct (continuation_b r0 ltac:(lia)) as [c [Hc [Hcb _]]].
        destruct b_first as [Hnil|[c0 [rest [Hcons Hstart]]]];
          [rewrite Hnil in Hcb; rewrite charAt_past in Hcb
             by (change (len []) with 0; lia); discriminate|].
        assert (c = c0).
        { rewrite Hcons, Z.sub_diag in Hcb. cbn in Hcb. congruence. }
        subst c0.
        unfold isContinuationStart in Hstart.
        apply andb_true_iff in Hstart. destruct Hstart as [Hstart Hhash].
        apply andb_true_iff in Hstart. destruct Hstart as [Hws He].
        apply negb_true_iff in Hws, He, Hhash.
        unfold Util.isWhitespace, Util.isNewline in Hws. cbn [isChar] in Hws.
        apply orb_false_iff in Hws. destruct Hws as [Hbl Hnlc].
        unfold PropertyText.raw_body.
        rewrite Hc. cbn [isChar chars]. rewrite He, Hnlc, Hbl, Hhash.
        cbn [PropertyText.rawValue].
        split; [lia|]. right. right.
        split; [lia|].
        replace (r0 + 1 - r0) with (0 + 1) by lia.
        rewrite (firstn_snoc_nth b 0 c) by (lia || (rewrite <- Hcb; f_equal; lia)).
        reflexivity.
      * pose proof (continuation_blanks i ltac:(lia)) as Hblank.
        destruct (charAt value i) as [c|] eqn:Hc; [|discriminate].
        assert (He : Ascii.eqb c e = false).
        { destruct (Ascii.eqb_spec c e) as [->|]; [|reflexivity].
          unfold isBlank in Hblank. unfold Util.isWhitespace in e_not_whitespace.
          rewrite Hblank in e_not_whitespace. discriminate. }
        apply isBlank_cases in Hblank.
        unfold PropertyText.raw_body. rewrite Hc. cbn [isChar]. rewrite He.
        destruct Hblank as [->| ->]; cbn; (split; [lia|]); right; left;
          (split; [lia | reflexivity]).
    + destruct (continuation_b i ltac:(lia)) as [c [Hc [Hcb Hchar]]].
      apply isPlainChar_spec in Hchar. destruct Hchar as [He [Hcr Hlf]].
      unfold PropertyText.raw_body.
      rewrite Hc. cbn [isChar chars]. rewrite He, Hcr, Hlf.
      cbn [PropertyText.rawEscaped PropertyText.rawValue orb negb].
      assert (Hnext : a ++ firstn (Z.to_nat (i + 1 - r0)) b
                      = (a ++ firstn (Z.to_nat (i - r0)) b) ++ [c]).
      { replace (i + 1 - r0) with (i - r0 + 1) by lia.
        rewrite (firstn_snoc_nth b (i - r0) c) by (lia || exact Hcb).
        apply app_assoc. }
      rewrite <- Hnext.
      destruct (Ascii.eqb c SP || Ascii.eqb c TAB);
        [split; [lia|]; right; right; split; [lia | reflexivity]|].
      destruct (Ascii.eqb c HASH); split; try lia; right; right;
        split; try lia; reflexivity.
  - intros i s HI Hge.
    destruct HI as [[Hi ->]|[[Hi ->]|[Hi ->]]]; cbn [PropertyText.rawValue].
    + unfold r0, q in Hn. lia.
    + assert (Hnil : b = []).
      { destruct b as [|x rest]; [reflexivity|].
        rewrite len_cons in Hn. pose proof (len_nonneg rest). lia. }
      rewrite Hnil. symmetry. apply app_nil_r.
    + replace (i - r0) with (len b) by lia. rewrite firstn_len. reflexivity.
  - left. split; [lia | reflexivity].
Qed.

End Continuation.

Lemma unescape_continuation_witness :
  PropertyText.unescape BACKSLASH
    (str "a b" ++ [BACKSLASH] ++ str " " ++ [CR; LF] ++ [TAB; SP] ++ str "c #d")
  = str "a bc #d".
Proof.
  rewrite (unescape_continuation BACKSLASH (str "a b") (str " ") [TAB; SP]
             (str "c #d") true).
  - reflexivity.
  - reflexivity.
  - repeat constructor.
  - repeat constructor.
  - repeat constructor.
  - repeat constructor.
  - right. exists "c"%char, (str " #d"). split; reflexivity.
Defined.

(** ** Expanded arguments *)

Lemma substring_empty (s : jsstring) (a : Z) : substring s a a = [].
Proof.
  unfold substring. cbv zeta.
  rewrite Z.min_id, Z.max_id, Z.sub_diag. reflexivity.
Qed.

Section ExpansionFacts.

Variable text : jsstring.
Variable resolveVariable : jsstring -> Z -> resolved.
Variable ImageTemplate : Type.
Variable getInitialARGs : list Instruction.
Variable getContainingImage : Position -> option ImageTemplate.
Variable getENVs : ImageTemplate -> list Instruction.
Variable getARGs : ImageTemplate -> list Instruction.
Variable isBefore : Instruction -> Z -> bool.
Variable getProperties : Instruction -> list Property.
Variable getProperty : Instruction -> option Property.

Variable this : Instruction.

Let e : ascii := escapeChar this.

Let parse :=
  Variables.parseVariables text resolveVariable ImageTemplate getInitialARGs
    getContainingImage getENVs getARGs isBefore getProperties getProperty
    this.

Let resolveAll := Expansion.resolveAll resolveVariable.

Let expandArgument :=
  Expansion.expandArgument text resolveVariable ImageTemplate getInitialARGs
    getContainingImage getENVs getARGs isBefore getProperties getProperty
    this.

Let expandAll :=
  Expansion.expandAll text resolveVariable ImageTemplate getInitialARGs
    getContainingImage getENVs getARGs isBefore getProperties getProperty
    this.

Lemma resolveAll_undefined (variables : list VariableT) :
  (forall name line, resolveVariable name line = Undefined) ->
  snd (resolveAll variables) = false.
Proof.
  intros Hundefined. unfold resolveAll, Expansion.resolveAll.
  assert (H : forall (acc : list resolved * bool),
             snd acc = false ->
             snd (fold_left
                    (fun (acc : list resolved * bool) variable =>
                       (fst acc
                          ++ [resolveVariable (varName variable)
                                (line (start (varNameRange variable)))],
                        snd acc
                        || isDefined
                             (resolveVariable (varName variable)
                                (line (start (varNameRange variable))))))
                    variables acc) = false).
  { induction variables as [|v rest IH]; intros acc Hacc; [exact Hacc|].
    cbn [fold_left]. apply IH. cbn [snd].
    rewrite Hacc, Hundefined. reflexivity. }
  apply H. reflexivity.
Qed.

Lemma expandArgument_range (arg arg' : Argument) :
  expandArgument arg = Ok arg' -> argRange arg' = argRange arg.
Proof.
  unfold expandArgument, Expansion.expandArgument. cbv zeta.
  destruct (Variables.parseVariables _ _ _ _ _ _ _ _ _ _ _ _ _)
    as [variables|]; [|discriminate].
  destruct (Expansion.resolveAll resolveVariable variables)
    as [swaps requiresExpansion].
  destruct requiresExpansion.
  - destruct (fold_left _ _ _) as [offset expanded].
    intros H. injection H as <-. reflexivity.
  - intros H. injection H as <-. reflexivity.
Qed.

Lemma expandArgument_unchanged (arg arg' : Argument) :
  expandArgument arg = Ok arg' ->
  noReference (argValue arg)
  \/ (forall name line, resolveVariable name line = Undefined) ->
  arg' = arg.
Proof.
  unfold expandArgument, Expansion.expandArgument. cbv zeta.
  intros H [Hno|Hundefined].
  - rewrite (parse_noReference text resolveVariable ImageTemplate
               getInitialARGs getContainingImage getENVs getARGs isBefore
               getProperties getProperty this _ (argValue arg) Hno) in H.
    cbn in H. injection H as <-. reflexivity.
  - destruct (Variables.parseVariables _ _ _ _ _ _ _ _ _ _ _ _ _)
      as [variables|]; [|discriminate].
    pose proof (resolveAll_undefined variables Hundefined) as Hall.
    unfold resolveAll in Hall.
    destruct (Expansion.resolveAll resolveVariable variables)
      as [swaps requiresExpansion].
    cbn [snd] in Hall. subst requiresExpansion.
    injection H as <-. reflexivity.
Qed.

Lemma expandAll_conservative (args : list Argument) :
  forall args', expandAll args = Ok args' ->
    map argRange args' = map argRange args
    /\ Forall2
         (fun arg arg' =>
            noReference (argValue arg)
            \/ (forall name line, resolveVariable name line = Undefined) ->
            arg' = arg)
         args args'.
Proof.
  induction args as [|arg rest IH]; intros args' H.
  - cbn in H. injection H as <-. split; constructor.
  - unfold expandAll in H. cbn [Expansion.expandAll] in H.
    fold expandAll in H.
    change (Expansion.expandArgument text resolveVariable ImageTemplate
              getInitialARGs getContainingImage getENVs getARGs isBefore
              getProperties getProperty this arg)
      with (expandArgument arg) in H.
    change (Expansion.expandAll text resolveVariable ImageTemplate
              getInitialARGs getContainingImage getENVs getARGs isBefore
              getProperties getProperty this rest)
      with (expandAll rest) in H.
    destruct (expandArgument arg) as [arg'|] eqn:Earg; [|discriminate].
    destruct (expandAll rest) as [rest'|] eqn:Erest; [|discriminate].
    injection H as <-.
    destruct (IH rest' eq_refl) as [Hranges Hall].
    split.
    + cbn [map]. rewrite Hranges, (expandArgument_range arg arg' Earg).
      reflexivity.
    + constructor; [|exact Hall].
      apply (expandArgument_unchanged arg arg' Earg).
Qed.

(** X14: [getExpandedArguments] keeps the number of arguments and their
    ranges; it leaves an argument as [getArguments] gives it when the
    argument holds no reference or when every variable resolves to
    [undefined]. *)
Theorem getExpandedArguments_conservative (args' : list Argument) :
  Expansion.getExpandedArguments text resolveVariable ImageTemplate
    getInitialARGs getContainingImage getENVs getARGs isBefore getProperties
    getProperty this = Ok args' ->
  map argRange args' = map argRange (InstructionM.getArguments text this)
  /\ Forall2
       (fun arg arg' =>
          noReference (argValue arg)
          \/ (forall name line, resolveVariable name line = Undefined) ->
          arg' = arg)
       (InstructionM.getArguments text this) args'.
Proof. apply expandAll_conservative. Qed.

(** X15: an argument that is the reference [$name] expands to the value the
    name resolves to when that is a string that is not empty; it keeps the
    value [getArguments] gave it when the name resolves to [undefined]; and
    it becomes the text of the document in its range when the name resolves
    to [null] or to the empty string. *)
Theorem expandArgument_reference (name : jsstring) (o : Z) (arg : Argument)
    (build : option bool) :
  e = BACKSLASH \/ e = BACKTICK ->
  name <> [] ->
  Forall (fun c => Variables.isNameChar c = true) name ->
  argValue arg = DOLLAR :: name ->
  argRange arg = rangeAt text o (o + 1 + len name) ->
  0 <= o -> o + 1 + len name <= len text ->
  Variables.isBuildVariable ImageTemplate getInitialARGs getContainingImage
    getENVs getARGs isBefore getProperties getProperty this name
    (line (positionAt text o)) = Ok build ->
  expandArgument arg
  = Ok (mkArgument
          match resolveVariable name (line (positionAt text (o + 1))) with
          | Value (c :: rest) => c :: rest
          | Undefined => DOLLAR :: name
          | _ => substring text o (o + 1 + len name)
          end
          (argRange arg)).
Proof.
  intros He Hne Hname Hvalue Hrange Ho Hlen Hbuild.
  pose proof (len_nonneg name) as Hln.
  destruct arg as [value range]. cbn [argValue argRange] in *. subst value.
  pose proof (parse_plain text resolveVariable ImageTemplate getInitialARGs
                getContainingImage getENVs getARGs isBefore getProperties
                getProperty this o [] [] He (Forall_nil _) name Hne Hname
                (Forall_nil _) (or_introl eq_refl)) as Hparse.
  cbv zeta in Hparse. change (len []) with 0 in Hparse.
  cbn [app] in Hparse. rewrite app_nil_r in Hparse.
  unfold Variables.pushVariable, Variables.at_ in Hparse.
  replace (o + 0) with o in Hparse by lia.
  rewrite Hbuild in Hparse. cbn [app] in Hparse.
  unfold expandArgument, Expansion.expandArgument. cbv zeta.
  cbn [argValue argRange]. rewrite Hrange. unfold rangeAt at 1.
  cbn [start]. rewrite offsetAt_positionAt by lia.
  rewrite Hparse.
  unfold Expansion.resolveAll. cbn [fold_left fst snd app varName varNameRange].
  unfold rangeAt at 1. cbn [start orb].
  cbn [combine fold_left Expansion.swap fst snd varRange].
  unfold rangeAt. cbn [start end_].
  rewrite !offsetAt_positionAt by lia.
  replace (o + (0 + 1)) with (o + 1) by lia.
  replace (o + (0 + 1 + len name)) with (o + 1 + len name) by lia.
  destruct (resolveVariable name (line (positionAt text (o + 1))))
    as [[|c rest]| |] eqn:Eresolve;
    cbn [isDefined Expansion.truthy]; cbv iota beta;
    rewrite ?Z.eqb_refl, ?substring_empty; reflexivity.
Qed.

End ExpansionFacts.

Lemma getExpandedArguments_conservative_witness :
  exists args',
    expandedExample = Ok args'
    /\ map argValue args' = [str "echo"; str "1"; str "x"]
    /\ map argRange args'
       = map argRange
           (InstructionM.getArguments expandExample
              (nthInstruction expandExample 0)).
Proof.
  assert (H : expandedExample
              = Ok [mkArgument (str "echo")
                      (mkRange (mkPosition 0 4) (mkPosition 0 8));
                    mkArgument (str "1")
                      (mkRange (mkPosition 0 9) (mkPosition 0 11));
                    mkArgument (str "x")
                      (mkRange (mkPosition 0 12) (mkPosition 0 13))])
    by (vm_compute; reflexivity).
  eexists. split; [exact H|]. split; [reflexivity|].
  apply (getExpandedArguments_conservative _ _ _ _ _ _ _ _ _ _ _ _ H).
Defined.

Lemma expandArgument_reference_witness :
  expandExampleArgument
    (mkArgument (str "$v") (rangeAt expandExample 9 11))
  = Ok (mkArgument (str "1") (rangeAt expandExample 9 11)).
Proof.
  unfold expandExampleArgument.
  rewrite (expandArgument_reference expandExample resolveExample unit []
             (fun _ => Some tt) (fun _ => []) (fun _ => [])
             (fun _ _ => false) (fun _ => []) (fun _ => None)
             (nthInstruction expandExample 0) (str "v") 9 _ None).
  - reflexivity.
  - left. reflexivity.
  - discriminate.
  - repeat constructor.
  - reflexivity.
  - reflexivity.
  - lia.
  - vm_compute. discriminate.
  - vm_compute. reflexivity.
Defined.

(** ** The scan records the lines in order *)

Lemma notNewline_hash (char : option ascii) :
  isChar HASH char = true -> notNewline char = true.
Proof.
  intros H. apply isChar_Some in H. subst char. reflexivity.
Qed.

Lemma notNewline_other (char : option ascii) :
  isChar CR char = false -> isChar LF char = false -> notNewline char = true.
Proof.
  intros Hcr Hlf. unfold notNewline, Util.isNewline. rewrite Hcr, Hlf.
  reflexivity.
Qed.

Lemma isNewline_CR (char : option ascii) :
  isChar CR char = true -> Util.isNewline char = true.
Proof. intros H. unfold Util.isNewline. rewrite H. reflexivity. Qed.

Lemma isNewline_LF (char : option ascii) :
  isChar LF char = true -> Util.isNewline char = true.
Proof. intros H. unfold Util.isNewline. rewrite H. apply orb_true_r. Qed.

Section LineOrder.

Variable buffer : jsstring.
Variable e : ascii.
Variable K : Z -> Z -> Dockerfile -> Prop.

Hypothesis K_mono : forall ic ii ic' ii' d,
  ic <= ic' -> ii <= ii' -> K ic ii d -> K ic' ii' d.

Hypothesis K_comment : forall ic ii d a b,
  K ic ii d -> ic <= a -> 0 <= a -> a < b -> b <= len buffer ->
  isChar HASH (charAt buffer a) = true ->
  allBetween notNewline buffer a b ->
  b = len buffer \/ Util.isNewline (charAt buffer b) = true ->
  K b ii (addComment d (mkComment (rangeAt buffer a b))).

Hypothesis K_instruction : forall ic ii d a c b keyword,
  K ic ii d -> ii <= a -> 0 <= a -> a < c -> c <= b -> b <= len buffer ->
  notWhitespace (charAt buffer a) = true ->
  isChar HASH (charAt buffer a) = false ->
  K ic b (addInstruction d
            (Parser.createInstruction e (rangeAt buffer a b) keyword
               (rangeAt buffer a c))).

Lemma resumesAt_weaken (lo lo' : Z) (r : ctl Dockerfile Dockerfile) :
  lo' <= lo -> resumesAt K lo r -> resumesAt K lo' r.
Proof.
  intros Hle. destruct r as [i d|d]; cbn [resumesAt]; [|auto].
  intros [Hi Hd]. split; [lia | exact Hd].
Qed.

Lemma commentLoop_order (d : Dockerfile) (i : Z) :
  K i i d -> 0 <= i < len buffer ->
  isChar HASH (charAt buffer i) = true ->
  resumesAt K i (Parser.commentLoop buffer d i).
Proof.
  intros Hd Hi Hhash. unfold Parser.commentLoop.
  apply loop_invariant with
    (I := fun j (_ : unit) => i < j /\ allBetween notNewline buffer i j).
  - intros j [] [Hj Hall] Hlt. unfold Parser.comment_body.
    destruct (isChar CR (charAt buffer j)) eqn:Ecr;
      [|destruct (isChar LF (charAt buffer j)) eqn:Elf].
    + cbn [resumesAt]. split; [lia|].
      apply (K_mono j i); [lia | lia|].
      apply (K_comment i i); auto; try lia.
      right. apply isNewline_CR. exact Ecr.
    + cbn [resumesAt]. split; [lia|].
      apply (K_mono j i); [lia | lia|].
      apply (K_comment i i); auto; try lia.
      right. apply isNewline_LF. exact Elf.
    + split; [lia|]. split; [lia|].
      apply allBetween_snoc; [exact Hall|].
      apply notNewline_other; assumption.
  - intros j [] [Hj Hall] Hge. cbn [resumesAt].
    exists (len buffer).
    apply (K_mono (len buffer) i); [lia | lia|].
    apply (K_comment i i); auto; try lia.
    apply (allBetween_shrink _ _ _ _ _ _ Hall); lia.
  - split; [lia|]. intros x Hx. replace x with i by lia.
    apply notNewline_hash. exact Hhash.
Qed.

Section Arguments.

Variable a : Z.
Variable instruction : jsstring.
Variable c : Z.
Variable ii0 : Z.

Hypothesis Ha : 0 <= a.
Hypothesis Hac : a < c.
Hypothesis Hc : c <= len buffer.
Hypothesis Hii : ii0 <= a.
Hypothesis Hnw : notWhitespace (charAt buffer a) = true.
Hypothesis Hnh : isChar HASH (charAt buffer a) = false.

Lemma completed_K (d : Dockerfile) (lineEnd ic : Z) :
  K ic ii0 d -> c <= lineEnd -> lineEnd <= len buffer ->
  K ic lineEnd (Parser.completed buffer e a instruction c d lineEnd).
Proof.
  intros Hd Hle Hlen. unfold Parser.completed.
  apply (K_instruction ic ii0); auto.
Qed.

Lemma nestedComment_order (escaped : bool) (d : Dockerfile) (k : Z) :
  K k ii0 d -> 0 <= k < len buffer -> c <= k ->
  isChar HASH (charAt buffer k) = true ->
  match Parser.nestedComment buffer e a instruction c escaped d k with
  | Next k' s => k <= k' /\ K (k' + 1) ii0 (snd s)
  | Done r => resumesAt K k r
  end.
Proof.
  intros Hd Hk Hck Hhash. unfold Parser.nestedComment.
  apply loop_invariant with
    (I := fun l (_ : unit) => k < l /\ allBetween notNewline buffer k l).
  - intros l [] [Hl Hall] Hlt. unfold Parser.nested_body.
    destruct (isChar CR (charAt buffer l)) eqn:Ecr;
      [|destruct (isChar LF (charAt buffer l)) eqn:Elf].
    + cbn [snd]. split; [lia|].
      apply (K_mono l ii0); [lia | lia|].
      apply (K_comment k ii0); auto; try lia.
      right. apply isNewline_CR. exact Ecr.
    + cbn [snd]. split; [lia|].
      apply (K_mono l ii0); [lia | lia|].
      apply (K_comment k ii0); auto; try lia.
      right. apply isNewline_LF. exact Elf.
    + split; [lia|]. split; [lia|].
      apply allBetween_snoc; [exact Hall|].
      apply notNewline_other; assumption.
  - intros l [] [Hl Hall] Hge. cbn [resumesAt].
    exists (len buffer).
    apply completed_K; [|lia | lia].
    apply (K_comment k ii0); auto; try lia.
    apply (allBetween_shrink _ _ _ _ _ _ Hall); lia.
  - split; [lia|]. intros x Hx. replace x with k by lia.
    apply notNewline_hash. exact Hhash.
Qed.

Lemma argumentsCheck_order (d : Dockerfile) (j : Z) :
  K (j + 1) ii0 d -> c <= j -> j < len buffer ->
  resumesAt K j (Parser.argumentsCheck buffer e a instruction c d j).
Proof.
  intros Hd Hcj Hjn. unfold Parser.argumentsCheck.
  apply loop_invariant with
    (I := fun k (s : bool * Dockerfile) => j < k /\ K k ii0 (snd s)).
  - intros k [escaped d'] [Hk Hd'] Hlt. cbn [snd] in Hd'.
    assert (Hnext : forall k', k <= k' -> K (k' + 1) ii0 d')
      by (intros k' Hk'; apply (K_mono k ii0); [lia | lia | exact Hd']).
    unfold Parser.arguments_body.
    destruct (isChar CR (charAt buffer k) || isChar LF (charAt buffer k)).
    { destruct escaped.
      - split; [lia|]. split; [lia|]. cbn [snd]. apply Hnext. lia.
      - cbn [resumesAt]. split; [lia|].
        apply (K_mono k k); [lia | lia|].
        apply completed_K; [exact Hd' | lia | lia]. }
    destruct (isChar e (charAt buffer k)).
    { destruct (isChar LF (charAt buffer (k + 1)));
        [split; [lia|]; split; [lia|]; cbn [snd]; apply Hnext; lia|].
      destruct (isChar CR (charAt buffer (k + 1)));
        [split; [lia|]; split; [lia|]; cbn [snd]; apply Hnext; lia|].
      destruct (isChar SP (charAt buffer (k + 1))
                || isChar TAB (charAt buffer (k + 1))).
      - pose proof (escapeCheck_forward buffer escaped k) as Hf.
        destruct (Parser.escapeCheck buffer escaped k) as [escaped' k'].
        cbn [snd] in *. split; [lia|]. split; [lia|]. apply Hnext. lia.
      - split; [lia|]. split; [lia|]. cbn [snd]. apply Hnext. lia. }
    destruct (isChar HASH (charAt buffer k)) eqn:Ehash.
    { destruct escaped.
      - pose proof (nestedComment_order true d' k Hd' ltac:(lia) ltac:(lia)
                      Ehash) as Hn.
        destruct (Parser.nestedComment buffer e a instruction c true d' k)
          as [k' s'|r].
        + destruct Hn as [Hle Hs]. split; [lia|]. split; [lia | exact Hs].
        + destruct r as [i' d''|d'']; cbn [resumesAt] in *;
            [destruct Hn as [Hle Hd'']; split; [lia | exact Hd''] | exact Hn].
      - split; [lia|]. split; [lia|]. cbn [snd]. apply Hnext. lia. }
    destruct (isChar SP (charAt buffer k) || isChar TAB (charAt buffer k));
      (split; [lia|]); (split; [lia|]); cbn [snd]; apply Hnext; lia.
  - intros k [escaped d'] [Hk Hd'] Hge. cbn [snd] in *. cbn [resumesAt].
    exists (Z.max k (len buffer)).
    apply (K_mono k (len buffer)); [lia | lia|].
    apply completed_K; [exact Hd' | lia | lia].
  - cbn [snd]. split; [lia | exact Hd].
Qed.

End Arguments.

Lemma bare_K (d : Dockerfile) (a : Z) (instruction : jsstring) (c ic ii : Z) :
  K ic ii d -> ii <= a -> 0 <= a -> a < c -> c <= len buffer ->
  notWhitespace (charAt buffer a) = true ->
  isChar HASH (charAt buffer a) = false ->
  K ic c (Parser.bare buffer e d a instruction c).
Proof.
  intros Hd Hii Ha Hac Hc Hnw Hnh. unfold Parser.bare. cbv zeta.
  apply (K_instruction ic ii); auto. lia.
Qed.

Lemma instructionCheck_order (d : Dockerfile) (i : Z) (char : option ascii) :
  K i i d -> 0 <= i < len buffer ->
  notWhitespace (charAt buffer i) = true ->
  isChar HASH (charAt buffer i) = false ->
  resumesAt K i (Parser.instructionCheck buffer e d i char).
Proof.
  intros Hd Hi Hnw Hnh. unfold Parser.instructionCheck.
  assert (Hbare : forall instruction c m,
             i < c -> c <= len buffer -> i <= m -> c <= m ->
             K m m (Parser.bare buffer e d i instruction c)).
  { intros instruction c m Hic Hc Him Hcm.
    apply (K_mono i c); [lia | lia|].
    apply (bare_K d i instruction c i i); auto; lia. }
  apply loop_invariant with
    (I := fun j (s : jsstring * Z) =>
            i < j
            /\ (snd s = -1 \/ (i < snd s /\ snd s <= j /\ snd s <= len buffer))).
  - intros j [instruction ie] [Hj Hie] Hlt. cbn [snd] in Hie.
    assert (Hend : exists c, (if ie =? -1 then j else ie) = c
                             /\ i < c /\ c <= j /\ c <= len buffer).
    { destruct (Z.eqb_spec ie (-1)) as [->|Hne].
      - exists j. repeat split; lia.
      - exists ie. destruct Hie as [Hie|Hie]; [contradiction|].
        repeat split; lia. }
    unfold Parser.instruction_body.
    destruct (isChar e (charAt buffer j)).
    { destruct (isChar CR (charAt buffer (j + 1)));
        [split; [lia|]; split; [lia|]; cbn [snd]; lia|].
      destruct (isChar LF (charAt buffer (j + 1)));
        [split; [lia|]; split; [lia|]; cbn [snd]; lia|].
      destruct (isChar SP (charAt buffer (j + 1))
                || isChar TAB (charAt buffer (j + 1)));
        [|split; [lia|]; split; [lia|]; cbn [snd]; lia].
      apply loop_invariant with (I := fun k (_ : unit) => j + 2 <= k).
      - intros k [] Hk Hklt. unfold Parser.keywordEscape_body.
        destruct (isChar SP (charAt buffer k) || isChar TAB (charAt buffer k));
          [lia|].
        destruct (isChar CR (charAt buffer k));
          [split; [lia|]; split; [lia|]; cbn [snd]; lia|].
        destruct (isChar LF (charAt buffer k));
          [split; [lia|]; split; [lia|]; cbn [snd]; lia|].
        split; [lia|]. split; [lia|]. cbn [snd]. lia.
      - intros k [] _ _. cbn [resumesAt]. exists (len buffer).
        apply Hbare; lia.
      - lia. }
    destruct (isChar SP (charAt buffer j) || isChar TAB (charAt buffer j)).
    { destruct Hend as [c [-> [Hic [Hcj Hcn]]]].
      apply (resumesAt_weaken j i); [lia|].
      apply (argumentsCheck_order i instruction c i); auto; try lia.
      apply (K_mono i i); [lia | lia | exact Hd]. }
    destruct (isChar CR (charAt buffer j)).
    { destruct Hend as [c [-> [Hic [Hcj Hcn]]]].
      destruct (Z.eqb_spec c (-1)); [lia|].
      cbn [resumesAt]. split; [lia|]. apply Hbare; lia. }
    destruct (isChar LF (charAt buffer j)).
    { destruct Hend as [c [-> [Hic [Hcj Hcn]]]].
      cbn [resumesAt]. split; [lia|]. apply Hbare; lia. }
    split; [lia|]. split; [lia|]. cbn [snd]. lia.
  - intros j [instruction ie] [Hj Hie] Hge. cbn [snd] in Hie.
    cbn [resumesAt]. exists (len buffer).
    destruct (Z.eqb_spec ie (-1)) as [->|Hne].
    + apply Hbare; lia.
    + destruct Hie as [Hie|Hie]; [contradiction|]. apply Hbare; lia.
  - split; [lia|]. left. reflexivity.
Qed.

Lemma lineCheck_order (d : Dockerfile) (offset : Z) :
  K offset offset d -> 0 <= offset ->
  exists m, K m m (Parser.lineCheck buffer e offset d).
Proof.
  intros Hd Hoffset. unfold Parser.lineCheck.
  apply loop_invariant with (I := fun i d => 0 <= i /\ K i i d).
  - intros i d' [Hi Hd'] Hlt. unfold Parser.line_body.
    destruct (isChar SP (charAt buffer i)) eqn:Esp;
      [split; [lia|]; split; [lia|]; apply (K_mono i i); auto; lia|].
    destruct (isChar TAB (charAt buffer i)) eqn:Etab;
      [split; [lia|]; split; [lia|]; apply (K_mono i i); auto; lia|].
    destruct (isChar CR (charAt buffer i)) eqn:Ecr;
      [split; [lia|]; split; [lia|]; apply (K_mono i i); auto; lia|].
    destruct (isChar LF (charAt buffer i)) eqn:Elf;
      [split; [lia|]; split; [lia|]; apply (K_mono i i); auto; lia|].
    cbn [orb].
    destruct (isChar HASH (charAt buffer i)) eqn:Ehash.
    + pose proof (commentLoop_order d' i Hd' ltac:(lia) Ehash) as Hc.
      destruct (Parser.commentLoop buffer d' i) as [i' d''|d''];
        cbn [resumesAt] in Hc.
      * destruct Hc as [Hle Hd'']. split; [lia|]. split; [lia | exact Hd''].
      * exact Hc.
    + assert (Hnw : notWhitespace (charAt buffer i) = true).
      { unfold notWhitespace, Util.isWhitespace, Util.isNewline.
        rewrite Esp, Etab, Ecr, Elf. reflexivity. }
      pose proof (instructionCheck_order d' i (charAt buffer i) Hd'
                    ltac:(lia) Hnw Ehash) as Hc.
      destruct (Parser.instructionCheck buffer e d' i (charAt buffer i))
        as [i' d''|d'']; cbn [resumesAt] in Hc.
      * destruct Hc as [Hle Hd'']. split; [lia|]. split; [lia | exact Hd''].
      * exact Hc.
  - intros i d' [_ Hd'] _. exists i. exact Hd'.
  - split; [lia | exact Hd].
Qed.

End LineOrder.

(** ** Instructions and comments of a parsed document *)

Lemma lineOffsets_nonneg (text : jsstring) (k : nat) :
  0 <= nth k (TextDocument.getLineOffsets text) 0.
Proof.
  unfold TextDocument.getLineOffsets.
  destruct (computeLineOffsets_breaks (List.length text) text 0 true
              (Nat.le_refl _)) as [more [Heq Hmore]].
  rewrite Heq.
  assert (Hall : Forall (fun x => 0 <= x)
                   ((match text with
                     | [] => if 0 <? 0 then [0] else []
                     | _ :: _ => [0]
                     end) ++ more)).
  { apply Forall_app. split.
    - destruct text; cbn; repeat constructor; lia.
    - apply Forall_forall. intros x Hx. apply Hmore in Hx. lia. }
  cbn [Z.ltb Z.compare] in *.
  destruct (nth_in_or_default k
              ((match text with
                | [] => []
                | _ :: _ => [0]
                end) ++ more) 0) as [Hin|Hdef].
  - rewrite Forall_forall in Hall. apply Hall. exact Hin.
  - rewrite Hdef. lia.
Qed.

Lemma offsetAt_nonneg (text : jsstring) (position : Position) :
  0 <= offsetAt text position.
Proof.
  unfold offsetAt, TextDocument.offsetAt. cbv zeta.
  destruct (_ <=? line position); [apply len_nonneg|].
  destruct (line position <? 0); [lia|].
  pose proof (lineOffsets_nonneg text (Z.to_nat (line position))) as H.
  unfold TextDocument.nthZ. lia.
Qed.

Lemma prologue_offset (buffer : jsstring) :
  0 <= snd (Parser.prologue buffer).
Proof.
  unfold Parser.prologue.
  destruct (Parser.getDirectiveSymbol buffer) as [[c|p|i]|]; cbn [snd];
    try apply offsetAt_nonneg; lia.
Qed.

Lemma prologue_instructions (buffer : jsstring) :
  instructions (fst (fst (Parser.prologue buffer))) = [].
Proof.
  unfold Parser.prologue.
  destruct (Parser.getDirectiveSymbol buffer) as [[c|p|i]|]; reflexivity.
Qed.

Lemma inOrder_snoc {A : Type} (R : A -> A -> Prop) (l : list A) (x : A) :
  inOrder R l -> Forall (fun y => R y x) l -> inOrder R (l ++ [x]).
Proof.
  induction l as [|y l IH]; intros Hl Hx.
  - cbn. split; constructor.
  - cbn [app inOrder] in *. destruct Hl as [Hy Hl].
    apply Forall_cons_iff in Hx. destruct Hx as [Hyx Hx].
    split; [|apply IH; assumption].
    apply Forall_app. split; [exact Hy | constructor; [exact Hyx | constructor]].
Qed.

Lemma scannedInstruction_mono (buffer : jsstring) (hi hi' : Z)
    (x : Instruction) :
  hi <= hi' -> scannedInstruction buffer hi x -> scannedInstruction buffer hi' x.
Proof.
  intros Hle [a [c [b H]]]. exists a, c, b.
  repeat match goal with
         | H : _ /\ _ |- _ => destruct H
         end.
  repeat split; auto; lia.
Qed.

(** X16: the instructions of a parsed document are in the order of the
    text and do not overlap: every instruction ends at or before the start
    of the ones after it.  Every instruction starts at a character that is
    neither whitespace nor [#]; its keyword range starts there, is not
    empty and lies within its range. *)
Theorem parse_instructions_ordered (buffer : jsstring) :
  Forall (scannedInstruction buffer (len buffer))
         (getInstructions (Parser.parse buffer))
  /\ inOrder (fun x y => endsBefore buffer (range x) (range y))
             (getInstructions (Parser.parse buffer)).
Proof.
  rewrite parse_lineCheck. unfold getInstructions.
  destruct (lineCheck_order buffer (Parser.parserEscapeChar buffer)
              (fun (_ ii : Z) d =>
                 Forall (scannedInstruction buffer ii) (instructions d)
                 /\ inOrder (fun x y => endsBefore buffer (range x) (range y))
                            (instructions d)))
    with (d := fst (fst (Parser.prologue buffer)))
         (offset := snd (Parser.prologue buffer))
    as [m [Hall Hordered]].
  - intros ic ii ic' ii' d Hic Hii [Hall Hordered].
    split; [|exact Hordered].
    eapply Forall_impl; [|exact Hall].
    intros x. apply scannedInstruction_mono. exact Hii.
  - intros ic ii d a b Hd _ _ _ _ _ _ _. exact Hd.
  - intros ic ii d a c b keyword [Hall Hordered] Hii Ha Hac Hcb Hb Hnw Hnh.
    cbn [addInstruction instructions]. split.
    + apply Forall_app. split.
      * eapply Forall_impl; [|exact Hall].
        intros x. apply scannedInstruction_mono. lia.
      * constructor; [|constructor].
        exists a, c, b. repeat split; auto; lia.
    + apply inOrder_snoc; [exact Hordered|].
      eapply Forall_impl; [|exact Hall].
      intros x [a' [c' [b' H]]].
      repeat match goal with
             | H : _ /\ _ |- _ => destruct H
             end.
      unfold endsBefore.
      match goal with
      | H : range x = _ |- _ => rewrite H
      end.
      cbn [range Parser.createInstruction]. unfold rangeAt. cbn [start end_].
      rewrite !offsetAt_positionAt by lia. lia.
  - rewrite prologue_instructions. split; constructor.
  - apply prologue_offset.
  - split; [|exact Hordered].
    eapply Forall_impl; [|exact Hall].
    intros x [a [c [b H]]]. exists a, c, b.
    repeat match goal with
           | H : _ /\ _ |- _ => destruct H
           end.
    repeat split; auto; lia.
Qed.

(** *** The comment of the first line *)

Lemma directiveValue_lineEnd (buffer : jsstring) (j : Z) :
  0 <= j < len buffer ->
  let lineEnd := snd (Parser.directiveValue buffer j) in
  j + 1 <= lineEnd <= len buffer
  /\ allBetween notNewline buffer (j + 1) lineEnd
  /\ (lineEnd = len buffer \/ Util.isNewline (charAt buffer lineEnd) = true).
Proof.
  intros Hj. cbv zeta. unfold Parser.directiveValue.
  apply loop_invariant with
    (I := fun k (_ : Z * Z) =>
            j + 1 <= k <= len buffer
            /\ allBetween notNewline buffer (j + 1) k).
  - intros k [vs ve] [Hk Hall] Hlt. unfold Parser.directiveValue_body.
    destruct (isChar CR (charAt buffer k) || isChar LF (charAt buffer k))
      eqn:Enl.
    + cbn [snd]. split; [lia|]. split; [exact Hall|]. right. exact Enl.
    + assert (Hnn : notNewline (charAt buffer k) = true).
      { unfold notNewline, Util.isNewline. rewrite Enl. reflexivity. }
      destruct (isChar TAB (charAt buffer k) || isChar SP (charAt buffer k));
        (split; [lia|]); (split; [lia|]); apply allBetween_snoc; assumption.
  - intros k [vs ve] [Hk Hall] Hge. cbn [snd fst].
    assert (k = len buffer) by lia. subst k.
    split; [lia|]. split; [exact Hall|]. left. reflexivity.
  - split; [lia|]. apply allBetween_nil. lia.
Qed.

Lemma directiveName_comment (buffer : jsstring) (commentStart : Z) :
  0 <= commentStart < len buffer ->
  isChar HASH (charAt buffer commentStart) = true ->
  forall a b,
    Parser.directiveName buffer commentStart = Some (Parser.SComment a b) ->
    scannedComment buffer (len buffer) (mkComment (rangeAt buffer a b)).
Proof.
  intros Hcs Hhash. unfold Parser.directiveName.
  apply loop_invariant with
    (I := fun j (_ : Z * Z) =>
            commentStart < j <= len buffer
            /\ allBetween notNewline buffer commentStart j).
  - intros j [ds de] [Hj Hall] Hlt. unfold Parser.directiveName_body.
    destruct (isChar SP (charAt buffer j) || isChar TAB (charAt buffer j))
      eqn:Ebl.
    { split; [lia|]. split; [lia|]. apply allBetween_snoc; [exact Hall|].
      unfold notNewline, Util.isNewline.
      destruct (charAt buffer j) as [x|]; [|reflexivity].
      cbn [isChar] in *. apply orb_true_iff in Ebl.
      destruct Ebl as [E|E]; apply Ascii.eqb_eq in E; subst x; reflexivity. }
    destruct (isChar CR (charAt buffer j) || isChar LF (charAt buffer j))
      eqn:Enl.
    { intros a b H. injection H as <- <-.
      exists commentStart, j. repeat split; auto; try lia. }
    assert (Hnn : notNewline (charAt buffer j) = true).
    { unfold notNewline, Util.isNewline. rewrite Enl. reflexivity. }
    destruct (isChar EQUALS (charAt buffer j)).
    { intros a b. unfold Parser.directiveAtEquals.
      pose proof (directiveValue_lineEnd buffer j ltac:(lia)) as Hv.
      cbv zeta in Hv.
      destruct (Parser.directiveValue buffer j) as [[vs ve] le].
      cbn [snd] in Hv. destruct Hv as [Hle [Hrest Hend]].
      destruct (ds =? -1).
      - intros H. injection H as <- <-.
        exists commentStart, le. repeat split; auto; try lia.
        intros x Hx. destruct (Z.lt_ge_cases x j) as [Hxj|Hxj].
        + apply Hall. lia.
        + destruct (Z.eq_dec x j) as [->|Hne]; [exact Hnn|].
          apply Hrest. lia.
      - destruct (if vs =? -1 then (j + 1, le)
                  else if ve =? -1 then (vs, len buffer) else (vs, ve));
          discriminate. }
    split; [lia|]. split; [lia|]. apply allBetween_snoc; assumption.
  - intros j s _ _ a b H. discriminate.
  - split; [lia|]. intros x Hx. replace x with commentStart by lia.
    apply notNewline_hash. exact Hhash.
Qed.

Lemma getDirectiveOffsets_comment (buffer : jsstring) (a b : Z) :
  Parser.getDirectiveOffsets buffer = Some (Parser.SComment a b) ->
  scannedComment buffer (len buffer) (mkComment (rangeAt buffer a b)).
Proof.
  revert a b. unfold Parser.getDirectiveOffsets.
  apply loop_invariant with (I := fun i (_ : unit) => 0 <= i).
  - intros i [] Hi Hlt. unfold Parser.directiveCheck_body.
    destruct (isChar SP (charAt buffer i) || isChar TAB (charAt buffer i));
      [lia|].
    destruct (isChar CR (charAt buffer i) || isChar LF (charAt buffer i));
      [intros a b H; discriminate|].
    destruct (isChar HASH (charAt buffer i)) eqn:Ehash;
      [|intros a b H; discriminate].
    destruct (Parser.directiveName buffer i) as [l|] eqn:El; [|lia].
    intros a b H. injection H as ->.
    apply (directiveName_comment buffer i); auto; lia.
  - intros i [] _ _ a b H. discriminate.
  - lia.
Qed.

(** X17: every comment of a parsed document starts at a [#], holds no
    line break, and ends at a line break or at the end of the text. *)
Theorem parse_comments_scanned (buffer : jsstring) :
  Forall (scannedComment buffer (len buffer))
         (getComments (Parser.parse buffer)).
Proof.
  rewrite parse_lineCheck. unfold getComments.
  destruct (lineCheck_order buffer (Parser.parserEscapeChar buffer)
              (fun (_ _ : Z) d =>
                 Forall (scannedComment buffer (len buffer)) (comments d)))
    with (d := fst (fst (Parser.prologue buffer)))
         (offset := snd (Parser.prologue buffer))
    as [m Hall].
  - intros ic ii ic' ii' d _ _ Hd. exact Hd.
  - intros ic ii d a b Hd _ Ha Hab Hb Hhash Hall Hend.
    cbn [addComment comments]. apply Forall_app. split; [exact Hd|].
    constructor; [|constructor].
    exists a, b. repeat split; auto; lia.
  - intros ic ii d a c b keyword Hd _ _ _ _ _ _ _. exact Hd.
  - unfold Parser.prologue, Parser.getDirectiveSymbol.
    destruct (Parser.getDirectiveOffsets buffer) as [[a b|cs le ds de vs ve]|]
      eqn:Esym; cbn; try constructor.
    + apply (getDirectiveOffsets_comment buffer a b Esym).
    + constructor.
  - apply prologue_offset.
  - exact Hall.
Qed.

(** ** A directive has an equals sign *)

Lemma isBlank_notNewline (char : option ascii) :
  isBlank char = true -> notNewline char = true.
Proof.
  destruct char as [c|]; [|discriminate]. intros H.
  apply isBlank_cases in H. destruct H as [->| ->]; reflexivity.
Qed.

Lemma directiveName_equals (buffer : jsstring) (commentStart : Z) :
  0 <= commentStart < len buffer ->
  allBetween notNewline buffer 0 (commentStart + 1) ->
  forall cs le ds de vs ve,
    Parser.directiveName buffer commentStart
    = Some (Parser.SDirective cs le ds de vs ve) ->
    exists j, de <= j /\ j < vs /\ 0 <= j < len buffer
              /\ charAt buffer j = Some EQUALS
              /\ allBetween notNewline buffer 0 j.
Proof.
  intros Hcs Hbefore. unfold Parser.directiveName.
  apply loop_invariant with
    (I := fun j (s : Z * Z) =>
            commentStart < j <= len buffer
            /\ allBetween notNewline buffer 0 j
            /\ (snd s = -1 \/ snd s < j)).
  - intros j [ds de] [Hj [Hall Hde]] Hlt. cbn [snd] in Hde.
    unfold Parser.directiveName_body.
    destruct (isChar SP (charAt buffer j) || isChar TAB (charAt buffer j))
      eqn:Ebl.
    { split; [lia|]. split; [lia|]. split.
      - apply allBetween_snoc; [exact Hall|].
        apply isBlank_notNewline. exact Ebl.
      - cbn [snd].
        destruct (negb (ds =? -1) && (de =? -1)); [right; lia|].
        destruct Hde as [->|Hde]; [left; reflexivity | right; lia]. }
    destruct (isChar CR (charAt buffer j) || isChar LF (charAt buffer j))
      eqn:Enl.
    { intros cs le ds' de' vs ve H. discriminate. }
    assert (Hnn : notNewline (charAt buffer j) = true).
    { unfold notNewline, Util.isNewline. rewrite Enl. reflexivity. }
    destruct (isChar EQUALS (charAt buffer j)) eqn:Eeq.
    { intros cs le ds' de' vs' ve'. unfold Parser.directiveAtEquals.
      pose proof (directiveValue_spec buffer j ltac:(lia)) as Hv.
      destruct (Parser.directiveValue buffer j) as [[vs ve] lineEnd].
      unfold valueResult in Hv. destruct Hv as [Hle Hv].
      destruct (ds =? -1); [discriminate|].
      assert (Hvs : forall a b,
                 (if vs =? -1 then (j + 1, lineEnd)
                  else if ve =? -1 then (vs, len buffer) else (vs, ve))
                 = (a, b) -> j < a).
      { intros a b. destruct (Z.eqb_spec vs (-1)) as [->|Hne].
        - intros H. injection H as <- _. lia.
        - destruct Hv as [[Hbad _]|[Hvs _]]; [contradiction|].
          destruct (ve =? -1); intros H; injection H as <- _; lia. }
      destruct (if vs =? -1 then (j + 1, lineEnd)
                else if ve =? -1 then (vs, len buffer) else (vs, ve))
        as [a b] eqn:Epair.
      specialize (Hvs a b eq_refl).
      intros H. injection H as _ _ _ Hd Hs _. subst de' vs'.
      exists j. split.
      - destruct (Z.eqb_spec de (-1)); [lia|].
        destruct Hde as [Hde|Hde]; [contradiction | lia].
      - split; [exact Hvs|]. split; [lia|]. split; [|exact Hall].
        apply isChar_Some. exact Eeq. }
    split; [lia|]. split; [lia|]. split.
    + apply allBetween_snoc; assumption.
    + cbn [snd]. destruct Hde as [->|Hde]; [left; reflexivity | right; lia].
  - intros j s _ _ cs le ds de vs ve H. discriminate.
  - split; [lia|]. split; [exact Hbefore|]. left. reflexivity.
Qed.

Lemma getDirectiveOffsets_equals (buffer : jsstring)
    (cs le ds de vs ve : Z) :
  Parser.getDirectiveOffsets buffer
  = Some (Parser.SDirective cs le ds de vs ve) ->
  exists j, de <= j /\ j < vs /\ 0 <= j < len buffer
            /\ charAt buffer j = Some EQUALS
            /\ allBetween notNewline buffer 0 j.
Proof.
  revert cs le ds de vs ve. unfold Parser.getDirectiveOffsets.
  apply loop_invariant with
    (I := fun i (_ : unit) =>
            0 <= i <= len buffer
            /\ (allBetween notNewline buffer 0 i
                \/ allBetween notDirectiveStop buffer i (len buffer))).
  - intros i [] [Hi Hblank] Hlt. unfold Parser.directiveCheck_body.
    destruct (isChar SP (charAt buffer i) || isChar TAB (charAt buffer i))
      eqn:Ebl.
    + split; [lia|]. split; [lia|].
      destruct Hblank as [Hblank|Hns].
      * left. apply allBetween_snoc; [exact Hblank|].
        apply isBlank_notNewline. exact Ebl.
      * right. apply (allBetween_shrink _ _ _ _ _ _ Hns); lia.
    + destruct (isChar CR (charAt buffer i) || isChar LF (charAt buffer i)).
      * intros cs le ds de vs ve H. discriminate.
      * destruct (isChar HASH (charAt buffer i)) eqn:Ehash;
          [|intros cs le ds de vs ve H; discriminate].
        destruct (Parser.directiveName buffer i) as [l|] eqn:El.
        -- intros cs le ds de vs ve H. injection H as ->.
           destruct Hblank as [Hblank|Hns].
           ++ apply (directiveName_equals buffer i ltac:(lia)) with
                (cs := cs) (le := le) (ds := ds) (ve := ve); [|exact El].
              apply allBetween_snoc; [exact Hblank|].
              apply notNewline_hash. exact Ehash.
           ++ rewrite directiveName_stays_None in El; [discriminate|].
              apply (allBetween_shrink _ _ _ _ _ _ Hns); lia.
        -- split; [lia|]. split; [lia|]. right.
           apply directiveName_None; [lia | exact El].
  - intros i [] _ _ cs le ds de vs ve H. discriminate.
  - split; [pose proof (len_nonneg buffer); lia|].
    left. apply allBetween_nil. lia.
Qed.

(** X18: a parsed document has a directive only when its first line holds
    an equals sign: the sign stands between the end of the name of the
    directive and the start of its value, and no line break comes before
    it. *)
Theorem directive_needs_equals (buffer : jsstring) (p : ParserDirective) :
  getDirective (Parser.parse buffer) = Some p ->
  exists j,
    charAt buffer j = Some EQUALS
    /\ allBetween notNewline buffer 0 j
    /\ offsetAt buffer (end_ (nameRange p)) <= j
    /\ j < offsetAt buffer (start (valueRange p)).
Proof.
  rewrite parse_directive. unfold Parser.getDirectiveSymbol.
  destruct (Parser.getDirectiveOffsets buffer) as [[a b|cs le ds de vs ve]|]
    eqn:Esym; cbn [option_map Parser.lineOfSymbol]; try discriminate.
  intros H. injection H as <-.
  pose proof (getDirectiveOffsets_good buffer _ Esym) as Hgood.
  cbn [goodSymbol] in Hgood.
  destruct Hgood as [H0 [H1 [H2 [H3 [H4 [H5 [H6 _]]]]]]].
  destruct (getDirectiveOffsets_equals buffer cs le ds de vs ve Esym)
    as [j [Hde [Hvs [Hj [Hchar Hall]]]]].
  exists j. cbn [nameRange valueRange]. unfold rangeAt. cbn [start end_].
  rewrite !offsetAt_positionAt by lia.
  repeat split; auto.
Qed.

Lemma directive_needs_equals_witness :
  exists j,
    charAt escapeBacktick j = Some EQUALS
    /\ offsetAt escapeBacktick (end_ (nameRange (directiveAt 10))) <= j
    /\ j < offsetAt escapeBacktick (start (valueRange (directiveAt 10))).
Proof.
  destruct (directive_needs_equals escapeBacktick (directiveAt 10))
    as [j [Hchar [_ [Hname Hvalue]]]].
  - vm_compute. reflexivity.
  - exists j. repeat split; assumption.
Defined.

(** ** Instructions without references *)

Lemma noReference_no_dollar (arg : jsstring) :
  Forall (fun c => Ascii.eqb c DOLLAR = false) arg -> noReference arg.
Proof.
  intros Hall i Hi. exfalso.
  destruct (Z.lt_ge_cases i 0) as [Hneg|Hpos].
  - unfold charAt in Hi. destruct (Z.ltb_spec i 0); [discriminate | lia].
  - destruct (Z.lt_ge_cases i (len arg)) as [Hlt|Hge].
    + destruct (charAt_Forall _ arg i Hall ltac:(lia)) as [c [Hc Hd]].
      rewrite Hc in Hi. injection Hi as ->. discriminate.
    + rewrite charAt_past in Hi by lia. discriminate.
Qed.

(** X19: an instruction of a document without [$] has no variables. *)
Theorem getVariables_no_dollar (text : jsstring)
    (resolveVariable : jsstring -> Z -> resolved) (ImageTemplate : Type)
    (getInitialARGs : list Instruction)
    (getContainingImage : Position -> option ImageTemplate)
    (getENVs getARGs : ImageTemplate -> list Instruction)
    (isBefore : Instruction -> Z -> bool)
    (getProperties : Instruction -> list Property)
    (getProperty : Instruction -> option Property) (this : Instruction) :
  Forall (fun c => Ascii.eqb c DOLLAR = false) text ->
  Variables.getVariables text resolveVariable ImageTemplate getInitialARGs
    getContainingImage getENVs getARGs isBefore getProperties getProperty
    this = Ok [].
Proof.
  intros Htext. unfold Variables.getVariables.
  generalize (InstructionM.getArguments text this). intros args.
  induction args as [|arg rest IH]; [reflexivity|].
  cbn [Variables.collectVariables]. cbv zeta.
  rewrite (parse_noReference text resolveVariable ImageTemplate getInitialARGs
             getContainingImage getENVs getARGs isBefore getProperties
             getProperty this)
    by (apply noReference_no_dollar, Forall_substring; exact Htext).
  rewrite IH. reflexivity.
Qed.

Lemma getVariables_no_dollar_witness :
  variablesUndeclared (str "RUN echo hello # world") = Ok [].
Proof.
  apply getVariables_no_dollar. repeat constructor.
Defined.

(** ** Lines and columns *)

Lemma computeLineOffsets_sorted :
  forall n text i b, (List.length text <= n)%nat ->
    let l := TextDocument.computeLineOffsets text i b in
    (forall x y, (x < y < List.length l)%nat -> nth x l 0 < nth y l 0)
    /\ Forall (fun x => i <= x) l.
Proof.
  assert (Hcat : forall (i k : Z) (b : bool) (l : list Z),
             1 <= k ->
             (forall x y, (x < y < List.length l)%nat -> nth x l 0 < nth y l 0)
             /\ Forall (fun x => i + k <= x) l ->
             let l' := (if b then [i] else []) ++ l in
             (forall x y, (x < y < List.length l')%nat ->
                nth x l' 0 < nth y l' 0)
             /\ Forall (fun x => i <= x) l').
  { intros i k b l Hk [Hs Hall].
    assert (Hall' : Forall (fun x => i <= x) l).
    { eapply Forall_impl; [|exact Hall]. simpl. intros; lia. }
    destruct b; simpl; [|auto]. split.
    - intros x y Hxy. destruct y as [|y]; [lia|]. destruct x as [|x].
      + rewrite Forall_forall in Hall.
        assert (i + k <= nth y l 0) by (apply Hall, nth_In; lia). lia.
      + apply Hs. lia.
    - constructor; [lia | exact Hall']. }
  induction n as [|n IH]; intros text i b Hn.
  - destruct text; [|simpl in Hn; lia]. simpl.
    destruct (b && (0 <? i)); split; simpl; try (intros; lia);
      repeat constructor; lia.
  - destruct text as [|ch rest].
    + simpl. destruct (b && (0 <? i)); split; simpl; try (intros; lia);
        repeat constructor; lia.
    + simpl in Hn. cbn [TextDocument.computeLineOffsets].
      destruct (Ascii.eqb ch CR).
      * destruct rest as [|ch2 rest2].
        -- apply (Hcat i 1); [lia|]. apply IH. simpl. lia.
        -- destruct (Ascii.eqb ch2 LF).
           ++ apply (Hcat i 2); [lia|]. apply IH. simpl in Hn. lia.
           ++ apply (Hcat i 1); [lia|]. apply IH. simpl in *. lia.
      * apply (Hcat i 1); [lia|]. apply IH. lia.
Qed.

Lemma computeLineOffsets_head (text : jsstring) (i : Z) :
  0 < i -> In i (TextDocument.computeLineOffsets text i true).
Proof.
  intros Hi. destruct text as [|ch rest]; simpl.
  - destruct (Z.ltb_spec 0 i); [left; reflexivity | lia].
  - left. reflexivity.
Qed.

(** The offset after a line feed is a line offset. *)
Lemma computeLineOffsets_LF :
  forall n text i b k, (List.length text <= n)%nat -> 0 <= i ->
    charAt text k = Some LF ->
    In (i + k + 1) (TextDocument.computeLineOffsets text i b).
Proof.
  induction n as [|n IH]; intros text i b k Hn Hi Hk.
  - destruct text; [|simpl in Hn; lia].
    unfold charAt in Hk. destruct (k <? 0); [discriminate|].
    destruct (Z.to_nat k); discriminate.
  - destruct text as [|ch rest].
    + unfold charAt in Hk. destruct (k <? 0); [discriminate|].
      destruct (Z.to_nat k); discriminate.
    + simpl in Hn.
      assert (Hk0 : 0 <= k).
      { unfold charAt in Hk. destruct (Z.ltb_spec k 0); [discriminate|lia]. }
      cbn [TextDocument.computeLineOffsets]. apply in_or_app. right.
      destruct (Z.eq_dec k 0) as [->|Hne].
      * unfold charAt in Hk. simpl in Hk. injection Hk as ->.
        change (Ascii.eqb LF CR) with false. cbv iota.
        change (Ascii.eqb LF LF) with true.
        replace (i + 0 + 1) with (i + 1) by lia.
        apply computeLineOffsets_head. lia.
      * assert (Hrest : charAt rest (k - 1) = Some LF).
        { rewrite <- Hk. symmetry. apply charAt_cons. lia. }
        destruct (Ascii.eqb ch CR).
        -- destruct rest as [|ch2 rest2].
           ++ unfold charAt in Hrest. destruct (k - 1 <? 0); [discriminate|].
              destruct (Z.to_nat (k - 1)); discriminate.
           ++ destruct (Ascii.eqb ch2 LF).
              ** destruct (Z.eq_dec k 1) as [->|Hne1].
                 --- replace (i + 1 + 1) with (i + 2) by lia.
                     apply computeLineOffsets_head. lia.
                 --- replace (i + k + 1) with ((i + 2) + (k - 2) + 1) by lia.
                     apply IH; [simpl in Hn; lia | lia |].
                     rewrite <- Hrest. symmetry.
                     replace (k - 2) with (k - 1 - 1) by lia.
                     apply charAt_cons. lia.
              ** replace (i + k + 1) with ((i + 1) + (k - 1) + 1) by lia.
                 apply IH; [simpl in *; lia | lia | exact Hrest].
        -- replace (i + k + 1) with ((i + 1) + (k - 1) + 1) by lia.
           apply IH; [lia | lia | exact Hrest].
Qed.

(** The character after a line feed is at column 0. *)
Lemma positionAt_after_LF (text : jsstring) (k : Z) :
  charAt text k = Some LF ->
  character (positionAt text (k + 1)) = 0.
Proof.
  intros Hk.
  assert (Hk0 : 0 <= k < len text).
  { unfold charAt in Hk. destruct (Z.ltb_spec k 0); [discriminate|].
    split; [lia|].
    assert (Hs : nth_error text (Z.to_nat k) <> None) by congruence.
    apply nth_error_Some in Hs. unfold len. lia. }
  unfold positionAt, TextDocument.positionAt.
  replace (Z.max (Z.min (k + 1) (len text)) 0) with (k + 1) by lia.
  pose proof (computeLineOffsets_LF (List.length text) text 0 true k
                (Nat.le_refl _) (Z.le_refl 0) Hk) as Hin.
  destruct (computeLineOffsets_sorted (List.length text) text 0 true
              (Nat.le_refl _)) as [Hsorted _]. cbv zeta in Hsorted.
  fold (TextDocument.getLineOffsets text) in Hin, Hsorted.
  set (lo := TextDocument.getLineOffsets text) in *.
  destruct (In_nth lo (0 + k + 1) 0 Hin) as [m [Hm Hnth]].
  replace (0 + k + 1) with (k + 1) in Hnth by lia.
  pose proof (upperBound_spec lo (k + 1) 0) as Hub. cbv zeta in Hub.
  set (K := TextDocument.upperBound lo (k + 1) 0) in *.
  destruct Hub as [HK [Hle Hgt]].
  assert (HKm : K = Z.of_nat m + 1).
  { destruct (Z.lt_trichotomy K (Z.of_nat m + 1)) as [Hlt|[Heq|Hlt]];
      [|exact Heq|].
    - exfalso.
      assert (Hlen : K - 0 < Z.of_nat (List.length lo)) by lia.
      specialize (Hgt Hlen).
      destruct (Nat.eq_dec (Z.to_nat (K - 0)) m) as [E|E].
      + rewrite E, Hnth in Hgt. lia.
      + pose proof (Hsorted (Z.to_nat (K - 0)) m) as Hs.
        rewrite Hnth in Hs. lia.
    - exfalso.
      assert (Hidx : (S m < Z.to_nat (K - 0))%nat) by lia.
      specialize (Hle (S m) Hidx).
      pose proof (Hsorted m (S m)) as Hs.
      rewrite Hnth in Hs. lia. }
  destruct lo as [|x lo'] eqn:Elo; [simpl in Hm; lia|].
  rewrite <- Elo in *. cbn [character].
  unfold TextDocument.nthZ. rewrite HKm.
  replace (Z.to_nat (Z.of_nat m + 1 - 1)) with m by lia.
  rewrite Hnth. lia.
Qed.

(** Offsets that no line break separates are on the same line. *)
Lemma positionAt_same_line (text : jsstring) (x y : Z) :
  0 <= x <= y -> y <= len text ->
  allBetween notNewline text x y ->
  positionAt text y
  = mkPosition (line (positionAt text x))
               (character (positionAt text x) + (y - x)).
Proof.
  intros Hx Hy Hall.
  unfold positionAt, TextDocument.positionAt.
  replace (Z.max (Z.min x (len text)) 0) with x by lia.
  replace (Z.max (Z.min y (len text)) 0) with y by lia.
  destruct text as [|ch rest] eqn:Et.
  - unfold len in Hy. simpl in *. f_equal. lia.
  - rewrite <- Et in *.
    destruct (computeLineOffsets_breaks (List.length text) text 0 true
                (Nat.le_refl _)) as [more [Heq Hmore]].
    unfold TextDocument.getLineOffsets. rewrite Heq.
    replace (match text with
             | [] => if 0 <? 0 then [0] else []
             | _ :: _ => [0]
             end) with [0] by (rewrite Et; reflexivity).
    change ([0] ++ more) with (0 :: more).
    set (lo := 0 :: more).
    pose proof (upperBound_spec lo x 0) as Hux.
    pose proof (upperBound_spec lo y 0) as Huy. cbv zeta in Hux, Huy.
    set (Kx := TextDocument.upperBound lo x 0) in *.
    set (Ky := TextDocument.upperBound lo y 0) in *.
    destruct Hux as [HKx [Hlex Hgtx]]. destruct Huy as [HKy [Hley Hgty]].
    assert (Hx1 : 1 <= Kx).
    { destruct (Z.ltb_spec Kx 1) as [Hk0|]; [|assumption].
      assert (H : Kx - 0 < Z.of_nat (List.length lo)) by (subst lo; simpl; lia).
      specialize (Hgtx H). replace (Z.to_nat (Kx - 0)) with O in Hgtx by lia.
      subst lo. simpl in Hgtx. lia. }
    assert (HK : Kx = Ky).
    { destruct (Z.lt_trichotomy Kx Ky) as [Hlt|[Heq'|Hlt]]; [|exact Heq'|].
      - exfalso.
        assert (Hlen : Kx - 0 < Z.of_nat (List.length lo)) by lia.
        specialize (Hgtx Hlen).
        assert (Hidx : (Z.to_nat (Kx - 0) < Z.to_nat (Ky - 0))%nat) by lia.
        specialize (Hley _ Hidx).
        set (L := nth (Z.to_nat (Kx - 0)) lo 0) in *.
        assert (Hin : In L more).
        { subst L lo.
          replace (Z.to_nat (Kx - 0)) with (S (Z.to_nat (Kx - 1))) by lia.
          simpl. apply nth_In. simpl in Hlen. lia. }
        destruct (Hmore L Hin) as [_ Hnl].
        assert (Hr : x <= L - 0 - 1 < y) by lia.
        specialize (Hall _ Hr). unfold notNewline in Hall.
        rewrite Hnl in Hall. discriminate.
      - exfalso.
        assert (Hlen : Ky - 0 < Z.of_nat (List.length lo)) by lia.
        specialize (Hgty Hlen).
        assert (Hidx : (Z.to_nat (Ky - 0) < Z.to_nat (Kx - 0))%nat) by lia.
        specialize (Hlex _ Hidx). lia. }
    subst lo. cbn [line character]. rewrite <- HK. f_equal. lia.
Qed.

(** ** The ranges and the content of the arguments *)

Section RangesScan.

Variable text : jsstring.
Variable e : ascii.
Variable fullArgs : jsstring.
Variable offset : Z.
Variable origin : Position.

Lemma pushed_shape (s : InstructionRanges.RangesState) (p upTo : Position)
    (st cm : bool) :
  rangesShape origin s ->
  InstructionRanges.startPosition s = Some p ->
  rangesShape origin
    (InstructionRanges.mkRangesState
       (InstructionRanges.ranges s ++ [mkRange p upTo])
       (InstructionRanges.lastEnd s) None st cm).
Proof.
  unfold rangesShape. intros Hs Hp. cbn [InstructionRanges.ranges
    InstructionRanges.startPosition].
  destruct (InstructionRanges.ranges s) as [|r more]; simpl.
  - rewrite Hp in Hs. injection Hs as ->. auto.
  - destruct Hs as [Hr [Hmore Hstart]]. rewrite Hp in Hstart.
    split; [exact Hr|]. split; [|exact I].
    apply Forall_app. split; [exact Hmore|]. constructor; [exact Hstart|constructor].
Qed.

Lemma continueLine_shape (s s' : InstructionRanges.RangesState) :
  rangesShape origin s ->
  InstructionRanges.continueLine text offset s = Some s' ->
  rangesShape origin s'.
Proof.
  intros Hs. unfold InstructionRanges.continueLine, InstructionRanges.createRange.
  destruct (InstructionRanges.startPosition s) as [p|] eqn:Ep; [|discriminate].
  intros H. injection H as <-. apply pushed_shape; assumption.
Qed.

Lemma rangesWhitespace_shape (s : InstructionRanges.RangesState) (i : Z) :
  rangesShape origin s ->
  match InstructionRanges.whitespaceCheck text fullArgs offset s i with
  | Some (i', s') => i <= i' /\ rangesShape origin s'
  | None => True
  end.
Proof.
  intros Hs. unfold InstructionRanges.whitespaceCheck.
  apply loop_invariant with (I := fun j (_ : unit) => i + 2 <= j).
  - intros j [] Hj _. unfold InstructionRanges.whitespaceCheck_body. cbv zeta.
    destruct (isChar SP _ || isChar TAB _); [lia|].
    destruct (isChar CR _).
    + destruct (InstructionRanges.continueLine text offset s) as [s'|] eqn:E;
        [|exact I].
      split; [lia | eapply continueLine_shape; eauto].
    + destruct (isChar LF _).
      * destruct (InstructionRanges.continueLine text offset s) as [s'|] eqn:E;
          [|exact I].
        split; [lia | eapply continueLine_shape; eauto].
      * split; [lia | exact Hs].
  - intros j _ _ _. split; [lia | exact Hs].
  - lia.
Qed.

Lemma range_body_shape (j : Z) (s : InstructionRanges.RangesState) :
  rangesShape origin s ->
  match InstructionRanges.range_body text e fullArgs offset j s with
  | Next j' s' => j <= j' /\ rangesShape origin s'
  | Done r => r = None
  end.
Proof.
  intros Hs. unfold InstructionRanges.range_body. cbv zeta.
  destruct (isChar e (charAt fullArgs j)).
  - destruct (isChar SP _ || isChar TAB _).
    + pose proof (rangesWhitespace_shape s j Hs) as Hw.
      destruct (InstructionRanges.whitespaceCheck text fullArgs offset s j)
        as [[i' s']|]; [exact Hw | reflexivity].
    + destruct (isChar CR _).
      * destruct (InstructionRanges.continueLine text offset s) as [s'|] eqn:E;
          [|reflexivity].
        split; [lia | eapply continueLine_shape; eauto].
      * destruct (isChar LF _).
        -- destruct (InstructionRanges.continueLine text offset s) as [s'|] eqn:E;
             [|reflexivity].
           split; [lia | eapply continueLine_shape; eauto].
        -- split; [lia | exact Hs].
  - destruct (Util.isNewline (charAt fullArgs j)).
    + destruct (InstructionRanges.comment s); [|split; [lia | exact Hs]].
      split; [lia|].
      destruct (InstructionRanges.startPosition s) as [p|] eqn:Ep.
      * apply pushed_shape; assumption.
      * unfold rangesShape in *. cbn [InstructionRanges.ranges
          InstructionRanges.startPosition].
        destruct (InstructionRanges.ranges s) as [|r more];
          [congruence|]. tauto.
    + destruct (negb (InstructionRanges.comment s)); [|split; [lia | exact Hs]].
      destruct (InstructionRanges.startPosition s) as [p|] eqn:Ep.
      * split; [lia|]. unfold rangesShape in *.
        cbn [InstructionRanges.ranges InstructionRanges.startPosition].
        rewrite Ep in *. exact Hs.
      * split; [lia|]. unfold rangesShape in *.
        cbn [InstructionRanges.ranges InstructionRanges.startPosition].
        rewrite Ep in Hs.
        destruct (InstructionRanges.ranges s) as [|r more]; [discriminate|].
        destruct Hs as [Hr [Hmore _]]. split; [exact Hr|].
        split; [exact Hmore|].
        destruct (negb (character (positionAt text (offset + j)) =? 0));
          [reflexivity | exact I].
Qed.

Lemma range_body_forward (j : Z) (s : InstructionRanges.RangesState)
    (j' : Z) (s' : InstructionRanges.RangesState) :
  InstructionRanges.range_body text e fullArgs offset j s = Next j' s' ->
  j <= j'.
Proof.
  unfold InstructionRanges.range_body. cbv zeta.
  destruct (isChar e (charAt fullArgs j)).
  - destruct (isChar SP _ || isChar TAB _).
    + assert (Hw : match InstructionRanges.whitespaceCheck text fullArgs offset s j with
                   | Some (i', _) => j <= i'
                   | None => True
                   end).
      { unfold InstructionRanges.whitespaceCheck.
        apply loop_invariant with (I := fun k (_ : unit) => j + 2 <= k).
        - intros k [] Hk _. unfold InstructionRanges.whitespaceCheck_body.
          cbv zeta.
          destruct (isChar SP _ || isChar TAB _); [lia|].
          destruct (isChar CR _).
          + destruct (InstructionRanges.continueLine text offset s); [lia|exact I].
          + destruct (isChar LF _); [|lia].
            destruct (InstructionRanges.continueLine text offset s); [lia|exact I].
        - intros; lia.
        - lia. }
      destruct (InstructionRanges.whitespaceCheck text fullArgs offset s j)
        as [[i' s'']|]; [|discriminate].
      intros H. injection H as <- _. exact Hw.
    + destruct (isChar CR _).
      * destruct (InstructionRanges.continueLine text offset s);
          [|discriminate]. intros H. injection H as <- _. lia.
      * destruct (isChar LF _).
        -- destruct (InstructionRanges.continueLine text offset s);
             [|discriminate]. intros H. injection H as <- _. lia.
        -- intros H. injection H as <- _. lia.
  - destruct (Util.isNewline _).
    + destruct (InstructionRanges.comment s); intros H; injection H as <- _; lia.
    + destruct (negb _).
      * destruct (InstructionRanges.startPosition s);
          intros H; injection H as <- _; lia.
      * intros H. injection H as <- _. lia.
Qed.

Lemma scanRanges_shape (ranges : list Range) :
  InstructionRanges.scanRanges text e fullArgs offset origin = Some ranges ->
  rangesFrom origin ranges.
Proof.
  unfold InstructionRanges.scanRanges.
  apply loop_invariant with
    (I := fun (_ : Z) s => rangesShape origin s)
    (P := fun r => r = Some ranges -> rangesFrom origin ranges).
  - intros j s Hs _. pose proof (range_body_shape j s Hs) as Hb.
    destruct (InstructionRanges.range_body text e fullArgs offset j s)
      as [j' s'|r]; [exact Hb|]. subst r. discriminate.
  - intros j s Hs _. unfold InstructionRanges.finishRanges,
      InstructionRanges.createRange.
    destruct (InstructionRanges.startPosition s) as [p|] eqn:Ep; [|discriminate].
    intros H. injection H as <-.
    unfold rangesShape in Hs. unfold rangesFrom.
    destruct (InstructionRanges.ranges s) as [|r more]; simpl.
    + rewrite Ep in Hs. injection Hs as ->. auto.
    + destruct Hs as [Hr [Hmore Hstart]]. rewrite Ep in Hstart.
      split; [exact Hr|]. apply Forall_app. split; [exact Hmore|].
      constructor; [exact Hstart | constructor].
  - unfold rangesShape. reflexivity.
Qed.

End RangesScan.

(** X21: of the ranges [getArgumentsRanges] returns, the first starts where
    the first argument starts and every other one starts at column 0 of its
    line. *)
Theorem getArgumentsRanges_starts (text : jsstring) (i : Instruction)
    (first : Argument) (rest : list Argument) (ranges : list Range) :
  InstructionM.getArguments text i = first :: rest ->
  InstructionRanges.getArgumentsRanges text i = Some ranges ->
  exists r more,
    ranges = r :: more
    /\ start r = start (argRange first)
    /\ Forall (fun r' => character (start r') = 0) more.
Proof.
  intros Hargs. unfold InstructionRanges.getArgumentsRanges.
  rewrite Hargs. cbv zeta.
  destruct (_ =? _).
  - intros H. injection H as <-. eexists. exists []. repeat split. constructor.
  - intros H. apply scanRanges_shape in H. unfold rangesFrom in H.
    destruct ranges as [|r more]; [destruct H|].
    exists r, more. tauto.
Qed.

(** ** A line continuation between the arguments *)

Lemma isArgumentChar_spec (e ch : ascii) :
  isArgumentChar e ch = true ->
  isChar e (Some ch) = false /\ Util.isNewline (Some ch) = false.
Proof.
  unfold isArgumentChar. intros H. apply andb_true_iff in H.
  destruct H as [He Hn]. apply negb_true_iff in He, Hn. simpl. auto.
Qed.

Lemma range_body_plain (text : jsstring) (e : ascii) (fullArgs : jsstring)
    (offset j : Z) (s : InstructionRanges.RangesState) (ch : ascii)
    (p : Position) :
  charAt fullArgs j = Some ch -> isArgumentChar e ch = true ->
  InstructionRanges.comment s = false ->
  InstructionRanges.startPosition s = Some p ->
  InstructionRanges.range_body text e fullArgs offset j s
  = Next j (InstructionRanges.mkRangesState (InstructionRanges.ranges s) j
              (Some p) (InstructionRanges.start_ s) false).
Proof.
  intros Hch Harg Hc Hp. destruct (isArgumentChar_spec e ch Harg) as [He Hn].
  unfold InstructionRanges.range_body. cbv zeta.
  rewrite Hch, He, Hn, Hc, Hp. reflexivity.
Qed.

Lemma range_body_null (text : jsstring) (e : ascii) (fullArgs : jsstring)
    (offset j : Z) (s : InstructionRanges.RangesState) (ch : ascii) :
  charAt fullArgs j = Some ch -> isArgumentChar e ch = true ->
  InstructionRanges.comment s = false ->
  InstructionRanges.startPosition s = None ->
  InstructionRanges.range_body text e fullArgs offset j s
  = Next j (InstructionRanges.mkRangesState (InstructionRanges.ranges s) j
              (if negb (character (positionAt text (offset + j)) =? 0)
               then Some (mkPosition (line (positionAt text (offset + j))) 0)
               else None)
              (InstructionRanges.start_ s) (Ascii.eqb ch HASH)).
Proof.
  intros Hch Harg Hc Hp. destruct (isArgumentChar_spec e ch Harg) as [He Hn].
  unfold InstructionRanges.range_body. cbv zeta.
  rewrite Hch, He, Hn, Hc, Hp. simpl.
  destruct (Ascii.eqb ch HASH); reflexivity.
Qed.

Section RangesContinuation.

Variable text : jsstring.
Variable e : ascii.
Variable c q : Z.
Variable origin : Position.
Variable front tail : jsstring.

Hypothesis c_q : 0 <= c <= q.
Hypothesis q_text : q <= len text.
Hypothesis text_c_q : substring text c q = front ++ [e; LF] ++ tail.
Hypothesis front_chars : Forall (fun ch => isArgumentChar e ch = true) front.

Let fullArgs := front ++ [e; LF] ++ tail.
Let k := len front.
Let run :=
  loop (len fullArgs) (InstructionRanges.range_body text e fullArgs c)
       (InstructionRanges.finishRanges text c).
Let first :=
  mkRange origin (positionAt text (c + k)).

Lemma continuationRanges_len :
  0 <= k /\ len fullArgs = k + 2 + len tail /\ q - c = k + 2 + len tail.
Proof.
  assert (Hl : len fullArgs = k + 2 + len tail).
  { unfold fullArgs, k. rewrite len_app, len_app.
    change (len [e; LF]) with 2. lia. }
  split; [apply len_nonneg|]. split; [exact Hl|].
  rewrite <- Hl. unfold fullArgs. rewrite <- text_c_q.
  symmetry. apply substring_length; lia.
Qed.

Lemma continuationRanges_text (j : Z) :
  0 <= j < len fullArgs -> charAt text (c + j) = charAt fullArgs j.
Proof.
  intros Hj. destruct continuationRanges_len as [_ [Hl Hq]].
  unfold fullArgs. rewrite <- text_c_q. symmetry.
  apply charAt_substring; lia.
Qed.

Lemma continuationRanges_front (j : Z) :
  0 <= j < k ->
  exists ch, charAt fullArgs j = Some ch /\ isArgumentChar e ch = true.
Proof.
  intros Hj. unfold fullArgs. rewrite charAt_app_left by (fold k; lia).
  apply (charAt_Forall _ front j front_chars). fold k. lia.
Qed.

Lemma continuationRanges_escape :
  charAt fullArgs k = Some e /\ charAt fullArgs (k + 1) = Some LF.
Proof.
  pose proof (len_nonneg front) as Hk. fold k in Hk.
  unfold fullArgs. split.
  - rewrite charAt_app_r by (fold k; lia). fold k.
    replace (k - k) with 0 by lia. reflexivity.
  - rewrite charAt_app_r by (fold k; lia). fold k.
    replace (k + 1 - k) with 1 by lia. reflexivity.
Qed.

Lemma continuationRanges_tail (j : Z) :
  k + 2 <= j -> charAt fullArgs j = charAt tail (j - k - 2).
Proof.
  intros Hj. pose proof (len_nonneg front) as Hk. fold k in Hk.
  unfold fullArgs. rewrite charAt_app_r by (fold k; lia). fold k.
  change ([e; LF] ++ tail) with (e :: LF :: tail).
  rewrite charAt_cons by lia. rewrite charAt_cons by lia.
  f_equal. lia.
Qed.

Lemma continuationRanges_forward :
  forall j s j' s', j < len fullArgs ->
    InstructionRanges.range_body text e fullArgs c j s = Next j' s' -> j <= j'.
Proof. intros j s j' s' _. apply range_body_forward. Qed.

(** The scan of the text before the escape character. *)
Lemma continuationRanges_before :
  run 0 (InstructionRanges.mkRangesState [] (-1) (Some origin) false false)
  = run k (InstructionRanges.mkRangesState [] (k - 1) (Some origin) false
             false).
Proof.
  destruct continuationRanges_len as [Hk [Hl _]].
  pose proof (len_nonneg tail) as Ht.
  destruct (loop_run
              (fun j s => 0 <= j
                          /\ s = InstructionRanges.mkRangesState [] (j - 1)
                                  (Some origin) false false)
              (len fullArgs)
              (InstructionRanges.range_body text e fullArgs c)
              (InstructionRanges.finishRanges text c) k
              continuationRanges_forward)
    with (fuel := Z.to_nat k) (j := 0)
         (s := InstructionRanges.mkRangesState [] (-1) (Some origin) false
                 false)
    as [s' [[_ Hs'] Heq]].
  - intros j s [Hj0 ->] Hj.
    destruct (continuationRanges_front j ltac:(lia)) as [ch [Hch Harg]].
    eexists. eexists. split.
    + apply (range_body_plain text e fullArgs c j _ ch origin Hch Harg);
        reflexivity.
    + split; [lia|]. split; [lia|].
      cbn [InstructionRanges.ranges InstructionRanges.start_].
      replace (j + 1 - 1) with j by lia. reflexivity.
  - lia.
  - lia.
  - split; [lia | reflexivity].
  - exact Hk.
  - unfold run. rewrite Heq, Hs'. reflexivity.
Qed.

(** The escape character and the line feed after it end the first range. *)
Lemma continuationRanges_break :
  run k (InstructionRanges.mkRangesState [] (k - 1) (Some origin) false false)
  = run (k + 2)
        (InstructionRanges.mkRangesState [first] (k - 1) None true false).
Proof.
  destruct continuationRanges_len as [Hk [Hl _]].
  pose proof (len_nonneg tail) as Ht.
  destruct continuationRanges_escape as [He Hlf].
  unfold run. rewrite loop_unfold by exact continuationRanges_forward.
  destruct (Z.ltb_spec k (len fullArgs)) as [_|Hbad]; [|lia].
  unfold InstructionRanges.range_body. cbv zeta.
  rewrite He, Hlf. cbn [isChar]. rewrite Ascii.eqb_refl.
  change (Ascii.eqb LF SP || Ascii.eqb LF TAB) with false.
  change (Ascii.eqb LF CR) with false. change (Ascii.eqb LF LF) with true.
  cbv iota. unfold InstructionRanges.continueLine, InstructionRanges.createRange.
  cbn [InstructionRanges.startPosition InstructionRanges.ranges
       InstructionRanges.lastEnd app].
  replace (c + (k - 1) + 1) with (c + k) by lia.
  replace (k + 1 + 1) with (k + 2) by lia. reflexivity.
Qed.

(** The character after the line feed is at column 0. *)
Lemma continuationRanges_column :
  character (positionAt text (c + (k + 2))) = 0.
Proof.
  destruct continuationRanges_len as [Hk [Hl _]].
  pose proof (len_nonneg tail) as Ht.
  destruct continuationRanges_escape as [_ Hlf].
  replace (c + (k + 2)) with (c + (k + 1) + 1) by lia.
  apply positionAt_after_LF.
  rewrite continuationRanges_text by lia. exact Hlf.
Qed.

(** A last line of one character: the last range has no start. *)
Lemma continuationRanges_lone (t0 : ascii) :
  tail = [t0] ->
  run 0 (InstructionRanges.mkRangesState [] (-1) (Some origin) false false)
  = None.
Proof.
  intros Htail.
  destruct continuationRanges_len as [Hk [Hl _]].
  assert (Hn : len fullArgs = k + 3).
  { rewrite Hl, Htail. change (len [t0]) with 1. lia. }
  assert (Hch : charAt fullArgs (k + 2) = Some t0).
  { rewrite continuationRanges_tail by lia. rewrite Htail.
    replace (k + 2 - k - 2) with 0 by lia. reflexivity. }
  assert (Hpast : charAt fullArgs (k + 2 + 1) = None).
  { apply charAt_past. lia. }
  rewrite continuationRanges_before, continuationRanges_break.
  unfold run. rewrite loop_unfold by exact continuationRanges_forward.
  destruct (Z.ltb_spec (k + 2) (len fullArgs)) as [_|Hbad]; [|lia].
  unfold InstructionRanges.range_body. cbv zeta.
  rewrite Hch, Hpast, continuationRanges_column.
  cbn [InstructionRanges.comment InstructionRanges.startPosition
       InstructionRanges.ranges InstructionRanges.start_
       InstructionRanges.lastEnd isChar orb negb].
  change (0 =? 0) with true. cbn [negb].
  destruct (Ascii.eqb t0 e);
    [|destruct (Util.isNewline (Some t0))];
    (rewrite loop_end by lia); reflexivity.
Qed.

(** The characters after the line feed are on one line. *)
Lemma continuationRanges_positions (y : Z) :
  Forall (fun ch => isArgumentChar e ch = true) tail ->
  c + (k + 2) <= y <= q ->
  positionAt text y
  = mkPosition (line (positionAt text (c + (k + 2)))) (y - (c + (k + 2))).
Proof.
  intros Hchars Hy.
  destruct continuationRanges_len as [Hk [Hl Hq]].
  rewrite (positionAt_same_line text (c + (k + 2)) y); try lia.
  - rewrite continuationRanges_column. f_equal.
  - intros x Hx. replace x with (c + (x - c)) by lia.
    rewrite continuationRanges_text by lia.
    rewrite continuationRanges_tail by lia.
    destruct (charAt_Forall _ tail (x - c - k - 2) Hchars ltac:(lia))
      as [ch [-> Harg]].
    unfold notNewline.
    destruct (isArgumentChar_spec e ch Harg) as [_ ->]. reflexivity.
Qed.

(** A last line of two characters or more: the last range starts at
    column 0 of this line. *)
Lemma continuationRanges_line (t0 t1 : ascii) (more : jsstring) :
  tail = t0 :: t1 :: more ->
  Forall (fun ch => isArgumentChar e ch = true) tail ->
  Ascii.eqb t0 HASH = false -> Ascii.eqb t1 HASH = false ->
  run 0 (InstructionRanges.mkRangesState [] (-1) (Some origin) false false)
  = Some [first;
          mkRange (mkPosition (line (positionAt text q)) 0)
                  (positionAt text q)].
Proof.
  intros Htail Hchars Ht0 Ht1.
  destruct continuationRanges_len as [Hk [Hl Hq]].
  pose proof (len_nonneg more) as Hmore.
  assert (Hn : len tail = 2 + len more).
  { rewrite Htail, !len_cons. lia. }
  assert (Hchar : forall j, k + 2 <= j < len fullArgs ->
            exists ch, charAt fullArgs j = Some ch
                       /\ isArgumentChar e ch = true).
  { intros j Hj. rewrite continuationRanges_tail by lia.
    apply (charAt_Forall _ tail (j - k - 2) Hchars). lia. }
  assert (Hch0 : charAt fullArgs (k + 2) = Some t0).
  { rewrite continuationRanges_tail by lia. rewrite Htail.
    replace (k + 2 - k - 2) with 0 by lia. reflexivity. }
  assert (Hch1 : charAt fullArgs (k + 3) = Some t1).
  { rewrite continuationRanges_tail by lia. rewrite Htail.
    replace (k + 3 - k - 2) with 1 by lia. reflexivity. }
  assert (Harg0 : isArgumentChar e t0 = true).
  { rewrite Htail in Hchars. inversion Hchars. assumption. }
  assert (Harg1 : isArgumentChar e t1 = true).
  { rewrite Htail in Hchars. inversion Hchars as [|x l Hx Hrest].
    inversion Hrest. assumption. }
  assert (Hline : forall y, c + (k + 2) <= y <= q ->
            positionAt text y
            = mkPosition (line (positionAt text (c + (k + 2))))
                         (y - (c + (k + 2)))).
  { intros y Hy. apply continuationRanges_positions; assumption. }
  set (l := line (positionAt text (c + (k + 2)))) in *.
  rewrite continuationRanges_before, continuationRanges_break.
  unfold run. rewrite loop_unfold by exact continuationRanges_forward.
  destruct (Z.ltb_spec (k + 2) (len fullArgs)) as [_|Hbad]; [|lia].
  rewrite (range_body_null text e fullArgs c (k + 2) _ t0 Hch0 Harg0)
    by reflexivity.
  rewrite continuationRanges_column, Ht0. change (0 =? 0) with true.
  cbn [negb InstructionRanges.ranges InstructionRanges.start_].
  rewrite loop_unfold by exact continuationRanges_forward.
  destruct (Z.ltb_spec (k + 2 + 1) (len fullArgs)) as [_|Hbad]; [|lia].
  replace (k + 2 + 1) with (k + 3) by lia.
  rewrite (range_body_null text e fullArgs c (k + 3) _ t1 Hch1 Harg1)
    by reflexivity.
  rewrite (Hline (c + (k + 3))) by lia. cbn [character line].
  replace (c + (k + 3) - (c + (k + 2))) with 1 by lia.
  change (negb (1 =? 0)) with true. cbv iota. rewrite Ht1.
  cbn [InstructionRanges.ranges InstructionRanges.start_].
  destruct (loop_run
              (fun j s => k + 4 <= j
                          /\ s = InstructionRanges.mkRangesState [first]
                                   (j - 1) (Some (mkPosition l 0)) true false)
              (len fullArgs)
              (InstructionRanges.range_body text e fullArgs c)
              (InstructionRanges.finishRanges text c) (len fullArgs)
              continuationRanges_forward)
    with (fuel := Z.to_nat (len fullArgs)) (j := k + 3 + 1)
         (s := InstructionRanges.mkRangesState [first] (k + 3)
                 (Some (mkPosition l 0)) true false)
    as [s' [[_ Hs'] Heq]].
  - intros j s [Hj0 ->] Hj.
    destruct (Hchar j ltac:(lia)) as [ch [Hch Harg]].
    eexists. eexists. split.
    + apply (range_body_plain text e fullArgs c j _ ch (mkPosition l 0)
               Hch Harg); reflexivity.
    + split; [lia|]. split; [lia|].
      cbn [InstructionRanges.ranges InstructionRanges.start_].
      replace (j + 1 - 1) with j by lia. reflexivity.
  - lia.
  - lia.
  - split; [lia|]. replace (k + 3 + 1 - 1) with (k + 3) by lia. reflexivity.
  - lia.
  - rewrite Heq, Hs'. rewrite loop_end by lia.
    unfold InstructionRanges.finishRanges, InstructionRanges.createRange.
    cbn [InstructionRanges.ranges InstructionRanges.startPosition
         InstructionRanges.lastEnd app].
    replace (c + (len fullArgs - 1) + 1) with q by lia.
    rewrite (Hline q) by lia. cbn [line]. reflexivity.
Qed.

End RangesContinuation.

(** ** The ranges of arguments on two lines *)

Lemma substring_suffix (s : jsstring) (c q : Z) (pre post : jsstring) :
  0 <= c <= q -> q <= len s ->
  substring s c q = pre ++ post ->
  substring s (c + len pre) q = post.
Proof.
  intros Hc Hq Heq.
  pose proof (len_nonneg pre) as Hpre. pose proof (len_nonneg post) as Hpost.
  assert (Hl : q - c = len pre + len post).
  { rewrite <- len_app, <- Heq. symmetry. apply substring_length; lia. }
  replace q with (c + (q - c)) at 1 by lia.
  rewrite <- (substring_substring s c q (len pre) (q - c)) by lia.
  rewrite Heq, Hl, <- len_app. apply substring_app_right.
Qed.

(** [getArgumentsRanges] scans the text between the keyword and the end of
    the last argument when the arguments are not on one line. *)
Lemma getArgumentsRanges_scan (text : jsstring) (i : Instruction)
    (a c b q : Z) (first : Argument) (rest : list Argument) :
  instructionAt text i a c b ->
  InstructionM.getArguments text i = first :: rest ->
  end_ (argRange (last (first :: rest) first)) = positionAt text q ->
  c <= q <= b ->
  line (start (argRange first)) <> line (positionAt text q) ->
  InstructionRanges.getArgumentsRanges text i
  = InstructionRanges.scanRanges text (escapeChar i) (substring text c q) c
      (start (argRange first)).
Proof.
  intros [Hrange [Hkeyword [Hac Hcb]]] Hargs Hlast Hq Hlines.
  unfold InstructionRanges.getArgumentsRanges. rewrite Hargs. cbv zeta.
  rewrite Hlast.
  destruct (Z.eqb_spec (line (start (argRange first)))
                       (line (positionAt text q))) as [E|_];
    [contradiction|].
  unfold InstructionText.getInstructionRange, InstructionM.getTextContent.
  rewrite Hrange, Hkeyword.
  replace (offsetAt text (start (rangeAt text a c))) with a
    by (symmetry; apply offsetAt_positionAt; lia).
  replace (offsetAt text (end_ (rangeAt text a c))) with c
    by (symmetry; apply offsetAt_positionAt; lia).
  rewrite offsetAt_positionAt by lia.
  rewrite textOf_rangeAt by lia.
  rewrite substring_substring by lia.
  replace (a + (c - a)) with c by lia.
  replace (a + (q - a)) with q by lia.
  reflexivity.
Qed.

(** X22: a line continuation splits the ranges.  When the text between the
    keyword and the end of the last argument is text without escape
    character or line break, then the escape character and a line feed, then
    a last line of two characters or more, without escape character, of
    which the first two are not [#], [getArgumentsRanges] returns two
    ranges: from the first argument to the escape character, and from
    column 0 of the last line to the end of the last argument.
    [getArgumentsContent] is the text of the first followed by the whole
    last line, leading whitespace included. *)
Theorem getArgumentsRanges_continuation (text : jsstring) (i : Instruction)
    (a c b q : Z) (first : Argument) (rest : list Argument)
    (front : jsstring) (t0 t1 : ascii) (more : jsstring) :
  instructionAt text i a c b ->
  InstructionM.getArguments text i = first :: rest ->
  end_ (argRange (last (first :: rest) first)) = positionAt text q ->
  c <= q <= b ->
  line (start (argRange first)) <> line (positionAt text q) ->
  substring text c q = front ++ [escapeChar i; LF] ++ t0 :: t1 :: more ->
  Forall (fun ch => isArgumentChar (escapeChar i) ch = true) front ->
  Forall (fun ch => isArgumentChar (escapeChar i) ch = true)
         (t0 :: t1 :: more) ->
  Ascii.eqb t0 HASH = false -> Ascii.eqb t1 HASH = false ->
  InstructionRanges.getArgumentsRanges text i
  = Some [mkRange (start (argRange first)) (positionAt text (c + len front));
          mkRange (mkPosition (line (positionAt text q)) 0)
                  (positionAt text q)]
  /\ InstructionRanges.getArgumentsContent text i
     = Some (Some (substring text (offsetAt text (start (argRange first)))
                             (c + len front)
                   ++ t0 :: t1 :: more)).
Proof.
  intros Hi Hargs Hlast Hq Hlines Htext Hfront Htail Ht0 Ht1.
  pose proof Hi as [_ [_ [Hac Hcb]]].
  assert (Hcq : 0 <= c <= q) by lia.
  assert (Hqt : q <= len text) by lia.
  assert (Hranges :
            InstructionRanges.getArgumentsRanges text i
            = Some [mkRange (start (argRange first))
                            (positionAt text (c + len front));
                    mkRange (mkPosition (line (positionAt text q)) 0)
                            (positionAt text q)]).
  { rewrite (getArgumentsRanges_scan text i a c b q first rest)
      by assumption.
    unfold InstructionRanges.scanRanges. rewrite Htext.
    apply (continuationRanges_line text (escapeChar i) c q
             (start (argRange first)) front (t0 :: t1 :: more)
             Hcq Hqt Htext Hfront t0 t1 more eq_refl Htail Ht0 Ht1). }
  split; [exact Hranges|].
  destruct (continuationRanges_len text (escapeChar i) c q front
              (t0 :: t1 :: more) Hcq Hqt Htext) as [Hk [_ Hl]].
  pose proof (len_nonneg (t0 :: t1 :: more)) as Hlt.
  pose proof (continuationRanges_positions text (escapeChar i) c q front
                (t0 :: t1 :: more) Hcq Hqt Htext q Htail ltac:(lia))
    as Hend.
  pose proof (continuationRanges_positions text (escapeChar i) c q front
                (t0 :: t1 :: more) Hcq Hqt Htext (c + (len front + 2)) Htail
                ltac:(lia)) as Hstart.
  replace (c + (len front + 2) - (c + (len front + 2))) with 0 in Hstart
    by lia.
  assert (Hline : line (positionAt text q)
                  = line (positionAt text (c + (len front + 2)))).
  { rewrite Hend. reflexivity. }
  unfold InstructionRanges.getArgumentsContent. rewrite Hargs, Hranges.
  cbn [fold_left start end_ app]. rewrite Hline, <- Hstart.
  rewrite !offsetAt_positionAt by lia.
  f_equal. f_equal. f_equal.
  replace (c + (len front + 2)) with (c + len (front ++ [escapeChar i; LF])).
  - apply substring_suffix; [lia | lia |].
    rewrite Htext, <- app_assoc. reflexivity.
  - rewrite len_app. change (len [escapeChar i; LF]) with 2. lia.
Qed.

Lemma getArgumentsRanges_continuation_witness :
  InstructionRanges.getArgumentsRanges
    (str "RUN a " ++ [BACKSLASH; LF] ++ str "  b")
    (nthInstruction (str "RUN a " ++ [BACKSLASH; LF] ++ str "  b") 0)
  = Some [mkRange (mkPosition 0 4) (mkPosition 0 6);
          mkRange (mkPosition 1 0) (mkPosition 1 3)]
  /\ InstructionRanges.getArgumentsContent
       (str "RUN a " ++ [BACKSLASH; LF] ++ str "  b")
       (nthInstruction (str "RUN a " ++ [BACKSLASH; LF] ++ str "  b") 0)
     = Some (Some (str "a   b")).
Proof.
  apply (getArgumentsRanges_continuation
           (str "RUN a " ++ [BACKSLASH; LF] ++ str "  b")
           (nthInstruction (str "RUN a " ++ [BACKSLASH; LF] ++ str "  b") 0)
           0 3 11 11
           (mkArgument (str "a") (mkRange (mkPosition 0 4) (mkPosition 0 5)))
           [mkArgument (str "b") (mkRange (mkPosition 1 2) (mkPosition 1 3))]
           (str " a ") SP SP (str "b")).
  - repeat split; try (vm_compute; reflexivity); try lia;
      vm_compute; discriminate.
  - vm_compute. reflexivity.
  - vm_compute. reflexivity.
  - lia.
  - vm_compute. discriminate.
  - vm_compute. reflexivity.
  - repeat constructor.
  - repeat constructor.
  - reflexivity.
  - reflexivity.
Defined.

(** X23: a last line of one character.  When the text between the keyword
    and the end of the last argument is text without escape character or
    line break, then the escape character, a line feed and one character,
    [getArgumentsRanges] calls [Range.create] with [null] as start position
    and does not return; neither does [getArgumentsContent]. *)
Theorem getArgumentsRanges_lone_character (text : jsstring)
    (i : Instruction) (a c b q : Z) (first : Argument)
    (rest : list Argument) (front : jsstring) (t0 : ascii) :
  instructionAt text i a c b ->
  InstructionM.getArguments text i = first :: rest ->
  end_ (argRange (last (first :: rest) first)) = positionAt text q ->
  c <= q <= b ->
  line (start (argRange first)) <> line (positionAt text q) ->
  substring text c q = front ++ [escapeChar i; LF] ++ [t0] ->
  Forall (fun ch => isArgumentChar (escapeChar i) ch = true) front ->
  InstructionRanges.getArgumentsRanges text i = None
  /\ InstructionRanges.getArgumentsContent text i = None.
Proof.
  intros Hi Hargs Hlast Hq Hlines Htext Hfront.
  pose proof Hi as [_ [_ [Hac Hcb]]].
  assert (Hranges : InstructionRanges.getArgumentsRanges text i = None).
  { rewrite (getArgumentsRanges_scan text i a c b q first rest)
      by assumption.
    unfold InstructionRanges.scanRanges. rewrite Htext.
    apply (continuationRanges_lone text (escapeChar i) c q
             (start (argRange first)) front [t0]
             ltac:(lia) ltac:(lia) Htext Hfront t0 eq_refl). }
  split; [exact Hranges|].
  unfold InstructionRanges.getArgumentsContent. rewrite Hargs, Hranges.
  reflexivity.
Qed.

Lemma getArgumentsRanges_lone_character_witness :
  InstructionRanges.getArgumentsRanges
    (str "RUN a " ++ [BACKSLASH; LF] ++ str "b")
    (nthInstruction (str "RUN a " ++ [BACKSLASH; LF] ++ str "b") 0)
  = None
  /\ InstructionRanges.getArgumentsContent
       (str "RUN a " ++ [BACKSLASH; LF] ++ str "b")
       (nthInstruction (str "RUN a " ++ [BACKSLASH; LF] ++ str "b") 0)
     = None.
Proof.
  apply (getArgumentsRanges_lone_character
           (str "RUN a " ++ [BACKSLASH; LF] ++ str "b")
           (nthInstruction (str "RUN a " ++ [BACKSLASH; LF] ++ str "b") 0)
           0 3 9 9
           (mkArgument (str "a") (mkRange (mkPosition 0 4) (mkPosition 0 5)))
           [mkArgument (str "b") (mkRange (mkPosition 1 0) (mkPosition 1 1))]
           (str " a ") "b"%char).
  - repeat split; try (vm_compute; reflexivity); try lia;
      vm_compute; discriminate.
  - vm_compute. reflexivity.
  - vm_compute. reflexivity.
  - lia.
  - vm_compute. discriminate.
  - vm_compute. reflexivity.
  - repeat constructor.
Defined.

Lemma getArgumentsRanges_starts_witness :
  exists r more,
    [mkRange (mkPosition 0 4) (mkPosition 0 6);
     mkRange (mkPosition 1 0) (mkPosition 1 3)] = r :: more
    /\ start r = mkPosition 0 4
    /\ Forall (fun r' => character (start r') = 0) more.
Proof.
  apply (getArgumentsRanges_starts
           (str "RUN a " ++ [BACKSLASH; LF] ++ str "  b")
           (nthInstruction (str "RUN a " ++ [BACKSLASH; LF] ++ str "  b") 0)
           (mkArgument (str "a") (mkRange (mkPosition 0 4) (mkPosition 0 5)))
           [mkArgument (str "b") (mkRange (mkPosition 1 2) (mkPosition 1 3))]).
  - vm_compute. reflexivity.
  - vm_compute. reflexivity.
Defined.

(** ** Documents of instructions, one on each line *)

Lemma arguments_body_forward (buffer : jsstring) (e : ascii)
    (instructionStart : Z) (instruction : jsstring) (instructionEnd : Z)
    (k : Z) (s : bool * Dockerfile) (k' : Z) (s' : bool * Dockerfile) :
  Parser.arguments_body buffer e instructionStart instruction instructionEnd
    k s = Next k' s' ->
  k <= k'.
Proof.
  unfold Parser.arguments_body. destruct s as [escaped d].
  destruct (isChar CR (charAt buffer k) || isChar LF (charAt buffer k)).
  { destruct escaped; [|discriminate]. intros H. injection H as <- _. lia. }
  destruct (isChar e (charAt buffer k)).
  { destruct (isChar LF (charAt buffer (k + 1))).
    { intros H. injection H as <- _. lia. }
    destruct (isChar CR (charAt buffer (k + 1))).
    { intros H. injection H as <- _. lia. }
    destruct (isChar SP (charAt buffer (k + 1))
              || isChar TAB (charAt buffer (k + 1))).
    - pose proof (escapeCheck_forward buffer escaped k) as Hf.
      destruct (Parser.escapeCheck buffer escaped k) as [esc l].
      simpl in Hf. intros H. injection H as <- _. exact Hf.
    - intros H. injection H as <- _. lia. }
  destruct (isChar HASH (charAt buffer k)).
  { destruct escaped; [|intros H; injection H as <- _; lia].
    unfold Parser.nestedComment. revert k' s'.
    apply loop_invariant with
      (I := fun l (_ : unit) => k + 1 <= l)
      (P := fun r => forall k' s', r = Next k' s' -> k <= k').
    - intros l [] Hl _. unfold Parser.nested_body.
      destruct (isChar CR (charAt buffer l)).
      { intros k' s' H. injection H as <- _. lia. }
      destruct (isChar LF (charAt buffer l)).
      { intros k' s' H. injection H as <- _. lia. }
      lia.
    - intros l [] _ _ k' s' H. discriminate.
    - lia. }
  destruct (isChar SP (charAt buffer k) || isChar TAB (charAt buffer k));
    intros H; injection H as <- _; lia.
Qed.

Lemma isContinuedChar_spec (c : ascii) :
  isContinuedChar c = true ->
  Ascii.eqb c CR = false /\ Ascii.eqb c LF = false
  /\ Ascii.eqb c BACKSLASH = false /\ Ascii.eqb c HASH = false.
Proof.
  unfold isContinuedChar. intros H. apply andb_true_iff in H.
  destruct H as [Hl Hh]. apply isLineChar_spec in Hl.
  apply negb_true_iff in Hh. tauto.
Qed.

Section LineAt.

Variable buffer : jsstring.
Variable pre : jsstring.
Variable keyword : jsstring.
Variable arguments : jsstring.
Variable later : list jsstring.
Variable post : jsstring.
Variable d : Dockerfile.

Hypothesis buffer_parts :
  buffer
  = pre ++ keyword ++ arguments ++ continuedLines BACKSLASH later ++ post.
Hypothesis keyword_chars : Forall (fun c => isKeywordChar c = true) keyword.
Hypothesis keyword_first :
  exists c word, keyword = c :: word /\ Ascii.eqb c HASH = false.
Hypothesis arguments_chars : Forall (fun c => isLineChar c = true) arguments.
Hypothesis arguments_first :
  match arguments with
  | [] => later = []
  | b :: _ => isBlank (Some b) = true
  end.
Hypothesis later_good : Forall goodContinued later.
Hypothesis post_first : post = [] \/ exists more, post = LF :: more.

Let o := len pre.
Let a0 := len pre + len keyword.
Let a1 := len pre + len keyword + len arguments.
Let m :=
  len pre + len keyword + len arguments
  + len (continuedLines BACKSLASH later).
Let created : Dockerfile :=
  addInstruction d
    (Parser.createInstruction BACKSLASH (rangeAt buffer o m) keyword
       (rangeAt buffer o a0)).
Let run :=
  loop (len buffer)
       (Parser.arguments_body buffer BACKSLASH o keyword a0)
       (fun s => Done (Parser.completed buffer BACKSLASH o keyword a0 (snd s)
                         (len buffer))).

Lemma lineAt_len :
  0 <= o /\ 0 < len keyword /\ 0 <= len arguments
  /\ 0 <= len (continuedLines BACKSLASH later)
  /\ len buffer = m + len post /\ 0 <= len post.
Proof.
  pose proof (len_nonneg pre). pose proof (len_nonneg arguments).
  pose proof (len_nonneg (continuedLines BACKSLASH later)).
  pose proof (len_nonneg post).
  assert (0 < len keyword).
  { destruct keyword_first as [c [word [-> _]]]. rewrite len_cons.
    pose proof (len_nonneg word). lia. }
  unfold o, m. rewrite buffer_parts, !len_app. lia.
Qed.

Lemma lineAt_keyword (j : Z) :
  o <= j < a0 ->
  exists c, charAt buffer j = Some c /\ charAt keyword (j - o) = Some c
            /\ isKeywordChar c = true.
Proof.
  unfold o, a0. intros Hj. rewrite buffer_parts.
  rewrite charAt_middle by lia.
  destruct (charAt_Forall _ keyword (j - len pre) keyword_chars ltac:(lia))
    as [c [Hc Hk]].
  exists c. auto.
Qed.

Lemma lineAt_arguments (j : Z) :
  a0 <= j < a1 ->
  exists c, charAt buffer j = Some c /\ charAt arguments (j - a0) = Some c
            /\ isLineChar c = true.
Proof.
  unfold a0, a1. intros Hj. rewrite buffer_parts.
  rewrite (app_assoc pre keyword).
  rewrite charAt_middle by (rewrite len_app; lia).
  rewrite len_app.
  destruct (charAt_Forall _ arguments (j - (len pre + len keyword))
              arguments_chars ltac:(lia)) as [c [Hc Hk]].
  exists c. auto.
Qed.

Lemma lineAt_end :
  m < len buffer -> charAt buffer m = Some LF.
Proof.
  destruct lineAt_len as [_ [_ [_ [_ [Hn _]]]]]. intros Hlt.
  destruct post_first as [E|[more E]].
  - rewrite E in Hn. change (len []) with 0 in Hn. lia.
  - rewrite buffer_parts, !app_assoc.
    rewrite charAt_app_r by (rewrite !len_app; unfold m; lia).
    rewrite !len_app. unfold m.
    replace (_ - _) with 0 by lia. rewrite E. reflexivity.
Qed.

Lemma lineAt_forward :
  forall k s k' s', k < len buffer ->
    Parser.arguments_body buffer BACKSLASH o keyword a0 k s = Next k' s' ->
    k <= k'.
Proof. intros k s k' s' _. apply arguments_body_forward. Qed.

(** The arguments on the line of the keyword. *)
Lemma lineAt_first_line :
  a0 < a1 -> run (a0 + 1) (false, d) = run a1 (false, d).
Proof.
  intros Hlt. destruct lineAt_len as [Ho [Hk [Ha [Hc [Hn Hp]]]]].
  destruct (loop_run
              (fun k s => a0 < k /\ s = (false, d))
              (len buffer)
              (Parser.arguments_body buffer BACKSLASH o keyword a0)
              (fun s => Done (Parser.completed buffer BACKSLASH o keyword a0
                                (snd s) (len buffer)))
              a1 lineAt_forward)
    with (fuel := Z.to_nat a1) (j := a0 + 1) (s := (false, d))
    as [s' [[_ Hs'] Heq]].
  - intros k s [Hk0 ->] Hk1.
    destruct (lineAt_arguments k ltac:(lia)) as [c [Hc0 [_ Hchar]]].
    unfold Parser.arguments_body. rewrite Hc0.
    apply isLineChar_spec in Hchar. destruct Hchar as [Hcr [Hlf He]].
    cbn [isChar]. rewrite Hcr, Hlf, He. cbn [orb].
    destruct (Ascii.eqb c HASH).
    { eexists. eexists. split; [reflexivity|]. split; [lia|]. auto with zarith. }
    destruct (Ascii.eqb c SP || Ascii.eqb c TAB);
      eexists; eexists; (split; [reflexivity|]); (split; [lia|]);
      auto with zarith.
  - unfold a1, m in *. lia.
  - lia.
  - split; [lia | reflexivity].
  - lia.
  - unfold run. rewrite Heq, Hs'. reflexivity.
Qed.

(** The lines of continuation: the scan is not in an escaped line break
    after the last of them. *)
Lemma lineAt_continued :
  forall (lines : list jsstring) (before after : jsstring) (escaped : bool),
    buffer = before ++ continuedLines BACKSLASH lines ++ after ->
    Forall goodContinued lines ->
    run (len before) (escaped, d)
    = run (len before + len (continuedLines BACKSLASH lines))
          (match lines with [] => escaped | _ :: _ => false end, d).
Proof.
  induction lines as [|l lines IH]; intros before after escaped Hb Hgood.
  - simpl. change (len []) with 0. rewrite Z.add_0_r. reflexivity.
  - inversion Hgood as [|x xs [Hchars Hsome] Hrest]; subst x xs.
    pose proof (len_nonneg before) as Hbefore.
    pose proof (len_nonneg l) as Hl.
    pose proof (len_nonneg (continuedLines BACKSLASH lines)) as Hlines.
    pose proof (len_nonneg after) as Hafter.
    set (k := len before).
    assert (Hparts : buffer
                     = before ++ (BACKSLASH :: LF :: l)
                       ++ (continuedLines BACKSLASH lines ++ after)).
    { rewrite Hb. simpl. rewrite <- app_assoc. reflexivity. }
    assert (Hn : len buffer
                 = k + 2 + len l + len (continuedLines BACKSLASH lines)
                   + len after).
    { rewrite Hparts, !len_app, !len_cons. unfold k. lia. }
    assert (He : charAt buffer k = Some BACKSLASH).
    { rewrite Hparts. rewrite charAt_middle by (rewrite !len_cons; lia).
      unfold k. rewrite Z.sub_diag. reflexivity. }
    assert (Hlf : charAt buffer (k + 1) = Some LF).
    { rewrite Hparts. rewrite charAt_middle by (rewrite !len_cons; lia).
      unfold k. replace (len before + 1 - len before) with 1 by lia.
      reflexivity. }
    assert (Hchar : forall j, k + 2 <= j < k + 2 + len l ->
              exists c, charAt buffer j = Some c
                        /\ charAt l (j - (k + 2)) = Some c
                        /\ isContinuedChar c = true).
    { intros j Hj. rewrite Hparts.
      rewrite charAt_middle by (rewrite !len_cons; unfold k in Hj; lia).
      rewrite charAt_cons by (unfold k in Hj; lia).
      rewrite charAt_cons by (unfold k in Hj; lia).
      replace (j - len before - 1 - 1) with (j - (k + 2)) by (unfold k; lia).
      destruct (charAt_Forall _ l (j - (k + 2)) Hchars ltac:(lia))
        as [c [Hc Hk]].
      exists c. auto. }
    (* the escape character and the line feed *)
    assert (Hstep : run k (escaped, d) = run (k + 2) (true, d)).
    { unfold run. rewrite loop_unfold by exact lineAt_forward.
      destruct (Z.ltb_spec k (len buffer)) as [_|Hbad]; [|lia].
      unfold Parser.arguments_body. rewrite He, Hlf. cbn [isChar].
      change (Ascii.eqb BACKSLASH CR || Ascii.eqb BACKSLASH LF) with false.
      change (Ascii.eqb BACKSLASH BACKSLASH) with true.
      change (Ascii.eqb LF LF) with true. cbv iota.
      replace (k + 1 + 1) with (k + 2) by lia. reflexivity. }
    (* the line *)
    assert (Hline : run (k + 2) (true, d) = run (k + 2 + len l) (false, d)).
    { destruct (loop_run
                  (fun j s =>
                     k + 2 <= j
                     /\ exists esc, s = (esc, d)
                          /\ (esc = true ->
                              Forall (fun c => isBlank (Some c) = true)
                                     (firstn (Z.to_nat (j - (k + 2))) l)))
                  (len buffer)
                  (Parser.arguments_body buffer BACKSLASH o keyword a0)
                  (fun s => Done (Parser.completed buffer BACKSLASH o keyword
                                    a0 (snd s) (len buffer)))
                  (k + 2 + len l) lineAt_forward)
        with (fuel := Z.to_nat (len l)) (j := k + 2) (s := (true, d))
        as [s' [[_ [esc [Hs' Hesc]]] Heq]].
      - intros j s [Hj0 [esc [-> Hesc]]] Hj1.
        destruct (Hchar j ltac:(lia)) as [c [Hc [Hlc Hcont]]].
        unfold Parser.arguments_body. rewrite Hc.
        apply isContinuedChar_spec in Hcont.
        destruct Hcont as [Hcr [Hlf' [Hbs Hhash]]].
        cbn [isChar]. rewrite Hcr, Hlf', Hbs, Hhash. cbn [orb].
        destruct (Ascii.eqb c SP || Ascii.eqb c TAB) eqn:Eblank.
        + eexists. eexists. split; [reflexivity|]. split; [lia|].
          split; [lia|]. exists esc. split; [reflexivity|].
          intros Etrue. specialize (Hesc Etrue).
          replace (j + 1 - (k + 2)) with (j - (k + 2) + 1) by lia.
          rewrite (firstn_snoc_nth l (j - (k + 2)) c) by (lia || exact Hlc).
          apply Forall_app. split; [exact Hesc|].
          constructor; [exact Eblank | constructor].
        + eexists. eexists. split; [reflexivity|]. split; [lia|].
          split; [lia|]. exists false. split; [reflexivity|]. discriminate.
      - lia.
      - lia.
      - split; [lia|]. exists true. split; [reflexivity|].
        intros _. replace (k + 2 - (k + 2)) with 0 by lia. constructor.
      - lia.
      - unfold run. rewrite Heq, Hs'. f_equal. f_equal.
        destruct esc; [|reflexivity]. exfalso.
        specialize (Hesc eq_refl).
        replace (k + 2 + len l - (k + 2)) with (len l) in Hesc by lia.
        rewrite firstn_len in Hesc.
        apply Exists_exists in Hsome. destruct Hsome as [c [Hin Hc]].
        rewrite Forall_forall in Hesc. rewrite (Hesc c Hin) in Hc.
        discriminate. }
    rewrite Hstep, Hline.
    specialize (IH (before ++ BACKSLASH :: LF :: l) after false).
    rewrite len_app, !len_cons in IH. fold k in IH.
    replace (k + (1 + (1 + len l))) with (k + 2 + len l) in IH by lia.
    rewrite IH.
    + f_equal.
      * change (continuedLines BACKSLASH (l :: lines))
          with ((BACKSLASH :: LF :: l) ++ continuedLines BACKSLASH lines).
        rewrite len_app, !len_cons. lia.
      * destruct lines; reflexivity.
    + rewrite Hparts, <- app_assoc. reflexivity.
    + exact Hrest.
Qed.

(** The arguments end at the end of the text or at the line feed. *)
Lemma lineAt_argumentsCheck :
  a0 < a1 ->
  Parser.argumentsCheck buffer BACKSLASH o keyword a0 d a0
  = if m <? len buffer then Next m created else Done created.
Proof.
  intros Hlt. destruct lineAt_len as [Ho [Hk [Ha [Hc [Hn Hp]]]]].
  unfold Parser.argumentsCheck. fold run.
  rewrite lineAt_first_line by exact Hlt.
  assert (Hcont : run a1 (false, d) = run m (false, d)).
  { pose proof (lineAt_continued later (pre ++ keyword ++ arguments) post
                  false) as H.
    rewrite !len_app in H. unfold a1, m.
    replace (len pre + len keyword + len arguments)
      with (len pre + (len keyword + len arguments)) by lia.
    rewrite H.
    - destruct later; reflexivity.
    - rewrite buffer_parts, <- !app_assoc. reflexivity.
    - exact later_good. }
  rewrite Hcont. unfold run.
  destruct (Z.ltb_spec m (len buffer)) as [Hm|Hm].
  - rewrite loop_unfold by exact lineAt_forward.
    destruct (Z.ltb_spec m (len buffer)) as [_|Hbad]; [|lia].
    unfold Parser.arguments_body. rewrite (lineAt_end Hm). reflexivity.
  - rewrite loop_end by lia. cbn [snd].
    replace (len buffer) with m by lia. reflexivity.
Qed.

Lemma lineAt_instructionCheck (c0 : ascii) :
  charAt buffer o = Some c0 ->
  Parser.instructionCheck buffer BACKSLASH d o (Some c0)
  = if m <? len buffer then Next m created else Done created.
Proof.
  intros Hfirst. destruct lineAt_len as [Ho [Hk [Ha [Hc [Hn Hp]]]]].
  unfold Parser.instructionCheck.
  apply loop_invariant with
    (I := fun j (s : jsstring * Z) =>
            o + 1 <= j <= a0
            /\ s = (firstn (Z.to_nat (j - o)) keyword,
                    if j =? o + 1 then -1 else j)).
  - intros j s [Hj ->] Hjn. unfold Parser.instruction_body.
    assert (Hend : forall x,
              (if (if j =? o + 1 then -1 else j) =? -1 then x
               else if j =? o + 1 then -1 else j)
              = if j =? o + 1 then x else j).
    { intros x. destruct (Z.eqb_spec j (o + 1)); [reflexivity|].
      destruct (Z.eqb_spec j (-1)); [lia | reflexivity]. }
    destruct (Z.eq_dec j a0) as [Hja|Hja].
    + (* the end of the keyword *)
      assert (Hkw : firstn (Z.to_nat (j - o)) keyword = keyword).
      { rewrite Hja. unfold a0, o.
        replace (len pre + len keyword - len pre) with (len keyword) by lia.
        apply firstn_len. }
      rewrite Hkw.
      assert (Hcase : (arguments = [] /\ later = [])
                      \/ exists b more, arguments = b :: more
                                        /\ isBlank (Some b) = true).
      { pose proof arguments_first as Hf. clear -Hf.
        destruct arguments as [|b more]; [left; auto | right; eauto]. }
      destruct Hcase as [[Eargs Elater]|[b [more [Eargs Hblank]]]].
      * (* a keyword alone on its line: the line feed *)
        assert (Hm : m = a0).
        { unfold m, a0. rewrite Eargs, Elater.
          change (len []) with 0. simpl. change (len []) with 0. lia. }
        assert (Hlf : charAt buffer j = Some LF).
        { rewrite Hja, <- Hm. apply lineAt_end. lia. }
        rewrite Hlf. cbn [isChar].
        change (Ascii.eqb LF BACKSLASH) with false.
        change (Ascii.eqb LF SP || Ascii.eqb LF TAB) with false.
        change (Ascii.eqb LF CR) with false.
        change (Ascii.eqb LF LF) with true. cbv iota.
        destruct (Z.ltb_spec m (len buffer)) as [_|Hbad]; [|lia].
        rewrite Hend. unfold Parser.bare, created. cbv zeta.
        replace (if j =? o + 1 then j else j) with j
          by (destruct (j =? o + 1); reflexivity).
        rewrite Hm, Hja. reflexivity.
      * (* the blank after the keyword *)
        assert (Hlt : a0 < a1).
        { unfold a0, a1. rewrite Eargs, len_cons.
          pose proof (len_nonneg more). lia. }
        destruct (lineAt_arguments a0 ltac:(lia)) as [c [Hc0 [Hca _]]].
        rewrite Z.sub_diag, Eargs in Hca. simpl in Hca. injection Hca as <-.
        rewrite Hja, Hc0. cbn [isChar].
        unfold isBlank in Hblank. cbn [isChar] in Hblank.
        assert (He : Ascii.eqb b BACKSLASH = false).
        { apply orb_true_iff in Hblank.
          destruct Hblank as [E|E]; apply Ascii.eqb_eq in E; subst b;
            reflexivity. }
        rewrite He, Hblank. rewrite <- Hja, Hend, Hja.
        replace (if a0 =? o + 1 then a0 else a0) with a0
          by (destruct (a0 =? o + 1); reflexivity).
        apply lineAt_argumentsCheck. exact Hlt.
    + (* a character of the keyword *)
      destruct (lineAt_keyword j ltac:(lia)) as [x [Hx [Hkx Hchar]]].
      rewrite Hx. apply isKeywordChar_spec in Hchar.
      destruct Hchar as [Hsp [Htab [Hcr [Hlf He]]]].
      cbn [isChar chars]. rewrite He, Hsp, Htab, Hcr, Hlf. cbn [orb].
      split; [lia|]. split; [lia|].
      replace (j + 1 - o) with (j - o + 1) by lia.
      rewrite (firstn_snoc_nth keyword (j - o) x) by (lia || exact Hkx).
      destruct (Z.eqb_spec (j + 1) (o + 1)); [lia | reflexivity].
  - (* the text ends with the keyword *)
    intros j s [Hj ->] Hge.
    assert (Hja : j = a0) by (unfold a0, a1, m in *; lia).
    assert (Hm : m = a0 /\ len buffer = a0) by (unfold a0, a1, m in *; lia).
    destruct Hm as [Hm Hbuf].
    destruct (Z.ltb_spec m (len buffer)) as [Hbad|_]; [lia|].
    assert (Hkw : firstn (Z.to_nat (j - o)) keyword = keyword).
    { rewrite Hja. unfold a0, o.
      replace (len pre + len keyword - len pre) with (len keyword) by lia.
      apply firstn_len. }
    rewrite Hkw. unfold Parser.bare, created. cbv zeta.
    replace (if (if j =? o + 1 then -1 else j) =? -1 then len buffer
             else if j =? o + 1 then -1 else j) with a0.
    + rewrite Hm. reflexivity.
    + destruct (Z.eqb_spec j (o + 1)); [simpl; lia|].
      destruct (Z.eqb_spec j (-1)); lia.
  - split; [unfold a0, o; lia|].
    replace (o + 1 - o) with 1 by lia.
    destruct keyword_first as [c [word [E _]]].
    pose proof (lineAt_keyword o ltac:(unfold a0, o; lia)) as [x [Hx [Hkx _]]].
    rewrite Z.sub_diag, E in Hkx. simpl in Hkx. injection Hkx as <-.
    rewrite Hx in Hfirst. injection Hfirst as <-.
    rewrite E. rewrite Z.eqb_refl. reflexivity.
Qed.

(** The main loop at the start of the line. *)
Lemma lineAt_line_body :
  Parser.line_body buffer BACKSLASH o d
  = if m <? len buffer then Next m created else Done created.
Proof.
  destruct lineAt_len as [Ho [Hk [Ha [Hc [Hn Hp]]]]].
  destruct (lineAt_keyword o ltac:(unfold a0, o; lia))
    as [c [Hc0 [Hkc Hchar]]].
  unfold Parser.line_body. rewrite Hc0.
  apply isKeywordChar_spec in Hchar.
  destruct Hchar as [Hsp [Htab [Hcr [Hlf _]]]].
  cbn [isChar]. rewrite Hsp, Htab, Hcr, Hlf. cbn [orb].
  destruct keyword_first as [c1 [word [E Hhash]]].
  rewrite Z.sub_diag, E in Hkc. simpl in Hkc. injection Hkc as <-.
  rewrite Hhash. apply lineAt_instructionCheck. exact Hc0.
Qed.

End LineAt.

Lemma lineText_len (l : SourceLine) :
  len (lineText l)
  = len (lineKeyword l) + len (lineArguments l)
    + len (continuedLines BACKSLASH (lineContinued l)).
Proof. unfold lineText. rewrite !len_app. lia. Qed.

(** The main loop at the start of a line of a document of lines. *)
Lemma line_body_line (buffer pre post : jsstring) (l : SourceLine)
    (d : Dockerfile) :
  buffer = pre ++ lineText l ++ post ->
  goodLine l ->
  post = [] \/ (exists more, post = LF :: more) ->
  Parser.line_body buffer BACKSLASH (len pre) d
  = let upTo := len pre + len (lineText l) in
    let created :=
      addInstruction d
        (Parser.createInstruction BACKSLASH (rangeAt buffer (len pre) upTo)
           (lineKeyword l)
           (rangeAt buffer (len pre) (len pre + len (lineKeyword l)))) in
    if upTo <? len buffer then Next upTo created else Done created.
Proof.
  intros Hb [Hk [Hfirst [Hargs [Hblank Hlater]]]] Hpost. cbv zeta.
  rewrite (lineAt_line_body buffer pre (lineKeyword l) (lineArguments l)
             (lineContinued l) post d); try assumption.
  - rewrite lineText_len.
    replace (len pre + (len (lineKeyword l) + len (lineArguments l)
                        + len (continuedLines BACKSLASH (lineContinued l))))
      with (len pre + len (lineKeyword l) + len (lineArguments l)
            + len (continuedLines BACKSLASH (lineContinued l))) by lia.
    reflexivity.
  - rewrite Hb. unfold lineText. rewrite <- !app_assoc. reflexivity.
Qed.

Lemma lineText_nonempty (l : SourceLine) : goodLine l -> 0 < len (lineText l).
Proof.
  intros [_ [[c [word [E _]]] _]]. rewrite lineText_len, E, len_cons.
  pose proof (len_nonneg word). pose proof (len_nonneg (lineArguments l)).
  pose proof (len_nonneg (continuedLines BACKSLASH (lineContinued l))). lia.
Qed.

Lemma lineCheck_lines :
  forall (lines : list SourceLine) (buffer pre : jsstring) (d : Dockerfile),
    buffer = pre ++ documentOf lines ->
    Forall goodLine lines ->
    Parser.lineCheck buffer BACKSLASH (len pre) d
    = mkDockerfile (directive d) (comments d)
        (instructions d ++ lineInstructions buffer (len pre) lines).
Proof.
  induction lines as [|l rest IH]; intros buffer pre d Hb Hgood.
  - simpl in Hb. rewrite app_nil_r in Hb. subst buffer.
    rewrite lineCheck_equation, Z.ltb_irrefl. simpl. rewrite app_nil_r.
    destruct d; reflexivity.
  - inversion Hgood as [|x xs Hl Hrest]; subst x xs.
    pose proof (lineText_nonempty l Hl) as Hpos.
    pose proof (len_nonneg pre) as Hpre.
    rewrite lineCheck_equation.
    destruct rest as [|l2 rest'].
    + simpl in Hb.
      assert (Hn : len buffer = len pre + len (lineText l)).
      { rewrite Hb, len_app. reflexivity. }
      destruct (Z.ltb_spec (len pre) (len buffer)) as [_|Hbad]; [|lia].
      rewrite (line_body_line buffer pre [] l d);
        [| rewrite app_nil_r; exact Hb | exact Hl | left; reflexivity].
      cbv zeta.
      destruct (Z.ltb_spec (len pre + len (lineText l)) (len buffer))
        as [Hbad|_]; [lia|]. reflexivity.
    + assert (Hparts : buffer
                       = pre ++ lineText l
                         ++ LF :: documentOf (l2 :: rest')).
      { exact Hb. }
      assert (Hn : len buffer
                   = len pre + len (lineText l) + 1
                     + len (documentOf (l2 :: rest'))).
      { rewrite Hparts, !len_app, len_cons. lia. }
      pose proof (len_nonneg (documentOf (l2 :: rest'))) as Hdoc.
      destruct (Z.ltb_spec (len pre) (len buffer)) as [_|Hbad]; [|lia].
      rewrite (line_body_line buffer pre (LF :: documentOf (l2 :: rest')) l d);
        [| exact Hparts | exact Hl | right; eexists; reflexivity].
      cbv zeta.
      destruct (Z.ltb_spec (len pre + len (lineText l)) (len buffer))
        as [_|Hbad]; [|lia].
      specialize (IH buffer (pre ++ lineText l ++ [LF])
                    (addInstruction d
                       (Parser.createInstruction BACKSLASH
                          (rangeAt buffer (len pre)
                             (len pre + len (lineText l)))
                          (lineKeyword l)
                          (rangeAt buffer (len pre)
                             (len pre + len (lineKeyword l)))))).
      rewrite !len_app in IH. change (len [LF]) with 1 in IH.
      replace (len pre + (len (lineText l) + 1))
        with (len pre + len (lineText l) + 1) in IH by lia.
      rewrite IH.
      * cbn [directive comments instructions addInstruction lineInstructions].
        rewrite <- app_assoc. reflexivity.
      * rewrite Hparts, <- !app_assoc. reflexivity.
      * exact Hrest.
Qed.

(** X24: a document of lines that a line feed separates, each made of a
    keyword (no whitespace, no backslash, not starting with [#]), then
    nothing, or a blank and characters that are neither line breaks nor
    backslashes, and lines of continuation, each after a backslash and a
    line feed and holding no line break, no backslash, no [#] and at least
    one character that is not a blank, has exactly one instruction for each
    line, in order: its range is the line with its continuations and its
    keyword range is the keyword.  The document has no directive and no
    comment. *)
Theorem parse_lines (lines : list SourceLine) :
  Forall goodLine lines ->
  Parser.parse (documentOf lines)
  = mkDockerfile None []
      (lineInstructions (documentOf lines) 0 lines).
Proof.
  intros Hgood.
  destruct lines as [|l rest] eqn:Elines; [reflexivity|].
  rewrite <- Elines in *.
  assert (Hdir : Parser.getDirectiveOffsets (documentOf lines) = None).
  { rewrite Elines in Hgood |- *.
    inversion Hgood as [|x xs [Hk [Hfirst _]] _]; subst x xs.
    destruct rest; simpl; unfold lineText; rewrite <- ?app_assoc;
      apply singleLine_directive; assumption. }
  unfold Parser.parse, Parser.prologue, Parser.getDirectiveSymbol.
  rewrite Hdir. simpl. unfold organizeComments.
  pose proof (lineCheck_lines lines (documentOf lines) [] newDockerfile
                eq_refl Hgood) as H.
  change (len []) with 0 in H. rewrite H. reflexivity.
Qed.

Lemma parse_lines_witness :
  Parser.parse
    (str "FROM alpine" ++ [LF] ++ str "RUN echo a " ++ [BACKSLASH; LF]
     ++ str "  b" ++ [LF] ++ str "CMD")
  = mkDockerfile None []
      [mkInstruction From (mkRange (mkPosition 0 0) (mkPosition 0 11))
         BACKSLASH (str "FROM") (mkRange (mkPosition 0 0) (mkPosition 0 4));
       mkInstruction JSONInstruction
         (mkRange (mkPosition 1 0) (mkPosition 2 3))
         BACKSLASH (str "RUN") (mkRange (mkPosition 1 0) (mkPosition 1 3));
       mkInstruction Cmd (mkRange (mkPosition 3 0) (mkPosition 3 3))
         BACKSLASH (str "CMD") (mkRange (mkPosition 3 0) (mkPosition 3 3))].
Proof.
  change (str "FROM alpine" ++ [LF] ++ str "RUN echo a " ++ [BACKSLASH; LF]
          ++ str "  b" ++ [LF] ++ str "CMD")
    with (documentOf
            [mkSourceLine (str "FROM") (str " alpine") [];
             mkSourceLine (str "RUN") (str " echo a ") [str "  b"];
             mkSourceLine (str "CMD") [] []]).
  rewrite parse_lines.
  - vm_compute. reflexivity.
  - constructor; [|constructor; [|constructor; [|constructor]]];
      unfold goodLine; cbn [lineKeyword lineArguments lineContinued str
                            list_ascii_of_string];
      (split; [repeat constructor|]);
      (split; [eexists; eexists; split; reflexivity|]);
      (split; [repeat constructor|]);
      (split; [reflexivity|]).
    + constructor.
    + constructor; [|constructor]. split; [repeat constructor|].
      apply Exists_cons_tl, Exists_cons_tl, Exists_cons_hd. reflexivity.
    + constructor.
Defined.

(** ** Arguments on several lines *)

Section ContinuedScan.

Variable text : jsstring.
Variable e : ascii.
Variable fullArgs : jsstring.
Variable offset : Z.

Hypothesis e_cases : e = BACKSLASH \/ e = BACKTICK.

Let run (j : Z) (s : InstructionM.ArgState) : InstructionM.ArgState :=
  loop (len fullArgs) (InstructionM.arg_body text e fullArgs offset)
       (fun s => s) j s.

Let argumentAt (token : jsstring) (p : Z) : Argument :=
  mkArgument token (rangeAt text (offset + p) (offset + p + len token)).

Lemma continued_progress :
  forall j s j' s', j < len fullArgs ->
    InstructionM.arg_body text e fullArgs offset j s = Next j' s' -> j <= j'.
Proof. intros j s j' s' _. apply arg_body_forward. Qed.

(** Whitespace between two arguments. *)
Lemma between_whitespace (pre ws post : jsstring) (A : list Argument)
    (st ewd esc : bool) :
  fullArgs = pre ++ ws ++ post ->
  Forall (fun c => Util.isWhitespace (Some c) = true) ws ->
  exists ewd',
    run (len pre) (betweenState A st ewd esc)
    = run (len pre + len ws) (betweenState A st ewd' esc).
Proof.
  intros Hfull Hws.
  pose proof (len_nonneg pre) as Hpre. pose proof (len_nonneg ws) as Hlw.
  pose proof (len_nonneg post) as Hpost.
  assert (Hn : len fullArgs = len pre + len ws + len post).
  { rewrite Hfull, !len_app. lia. }
  destruct (loop_run
              (fun j s => len pre <= j
                          /\ exists ewd', s = betweenState A st ewd' esc)
              (len fullArgs) (InstructionM.arg_body text e fullArgs offset)
              (fun s => s) (len pre + len ws) continued_progress)
    with (fuel := Z.to_nat (len ws)) (j := len pre)
         (s := betweenState A st ewd esc)
    as [s' [[_ [ewd' ->]] Heq]]; try lia.
  - intros j s [Hj [ewd0 ->]] Hlt.
    unfold InstructionM.arg_body.
    rewrite Hfull, charAt_middle by lia.
    destruct (charAt_Forall _ ws (j - len pre) Hws ltac:(lia)) as [c [-> Hc]].
    rewrite Hc. unfold betweenState at 1.
    cbn [InstructionM.escaping InstructionM.found].
    destruct esc.
    + eexists. eexists. split; [reflexivity|]. split; [lia|].
      split; [lia|]. exists (negb (Util.isNewline (Some c))).
      unfold betweenState.
      cbn [InstructionM.args InstructionM.start_ InstructionM.comment
           InstructionM.found InstructionM.escaping
           InstructionM.escapeMarker InstructionM.escapedArg].
      destruct (Util.isNewline (Some c)); reflexivity.
    + change (negb (-1 =? -1)) with false. cbv iota.
      eexists. eexists. split; [reflexivity|]. split; [lia|].
      split; [lia|]. exists ewd0. reflexivity.
  - split; [lia|]. exists ewd. reflexivity.
  - exists ewd'. exact Heq.
Qed.

(** The characters of a token are appended one by one. *)
Lemma between_token (pre token post : jsstring) (A : list Argument)
    (st ewd esc : bool) :
  fullArgs = pre ++ token ++ post ->
  token <> [] ->
  tokenOk e st token ->
  run (len pre) (betweenState A st ewd esc)
  = run (len pre + len token) (insideState A st (len pre) token).
Proof.
  intros Hfull Hne Htoken.
  pose proof (len_nonneg pre) as Hpre. pose proof (len_nonneg post) as Hpost.
  assert (Hlt : 0 < len token).
  { destruct token; [contradiction|]. rewrite len_cons.
    pose proof (len_nonneg token). lia. }
  assert (Hn : len fullArgs = len pre + len token + len post).
  { rewrite Hfull, !len_app. lia. }
  set (p := len pre) in *.
  destruct (loop_run
              (fun j s =>
                 (j = p /\ s = betweenState A st ewd esc)
                 \/ (p < j
                     /\ s = insideState A st p
                              (firstn (Z.to_nat (j - p)) token)))
              (len fullArgs) (InstructionM.arg_body text e fullArgs offset)
              (fun s => s) (p + len token) continued_progress)
    with (fuel := Z.to_nat (len token)) (j := p)
         (s := betweenState A st ewd esc)
    as [s' [Hs' Heq]]; try lia.
  - intros j s HI Hjlt.
    assert (Hj : p <= j) by (destruct HI as [[-> _]|[? _]]; lia).
    destruct (charAt_Forall _ token (j - p) Htoken ltac:(lia))
      as [c [Hc [Hws [He Hhash]]]].
    assert (Hstart : st && Ascii.eqb c HASH = false).
    { destruct st; [apply Hhash; reflexivity | reflexivity]. }
    exists j, (insideState A st p (firstn (Z.to_nat (j + 1 - p)) token)).
    split; [|split; [lia | right; split; [lia | reflexivity]]].
    unfold InstructionM.arg_body.
    rewrite Hfull, charAt_middle by (fold p; lia). fold p.
    rewrite Hc, Hws. cbn [isChar]. rewrite He.
    replace (j + 1 - p) with (j - p + 1) by lia.
    rewrite (firstn_snoc_nth token (j - p) c) by (lia || exact Hc).
    destruct HI as [[-> ->]|[Hpj ->]].
    + unfold betweenState, insideState, InstructionM.flushEscaped.
      cbn [InstructionM.comment InstructionM.start_ negb isChar
           InstructionM.escapedWhitespaceDetected InstructionM.escapeMarker].
      rewrite Hstart. change (negb (-1 =? -1)) with false.
      rewrite andb_false_r.
      cbn [InstructionM.args InstructionM.start_ InstructionM.comment
           InstructionM.found InstructionM.escapedArg chars].
      rewrite Z.sub_diag. reflexivity.
    + unfold insideState, InstructionM.flushEscaped.
      cbn [InstructionM.comment InstructionM.start_ negb isChar
           InstructionM.escapedWhitespaceDetected InstructionM.escapeMarker
           andb].
      rewrite Hstart.
      cbn [InstructionM.args InstructionM.start_ InstructionM.comment
           InstructionM.found InstructionM.escapedArg chars].
      destruct (Z.eqb_spec p (-1)); [lia | reflexivity].
  - left. split; reflexivity.
  - unfold run. rewrite Heq. f_equal.
    destruct Hs' as [[Hbad _]|[_ ->]]; [lia|].
    replace (p + len token - p) with (len token) by lia.
    rewrite firstn_len. reflexivity.
Qed.

(** The whitespace after a token: its first character ends the argument. *)
Lemma inside_gap (pre token ws post : jsstring) (A : list Argument)
    (st : bool) :
  fullArgs = (pre ++ token) ++ ws ++ post ->
  ws <> [] ->
  Forall (fun c => Util.isWhitespace (Some c) = true) ws ->
  run (len pre + len token) (insideState A st (len pre) token)
  = run (len pre + len token + len ws)
        (betweenState (A ++ [argumentAt token (len pre)]) st false false).
Proof.
  intros Hfull Hne Hws.
  pose proof (len_nonneg pre) as Hpre. pose proof (len_nonneg token) as Htok.
  pose proof (len_nonneg post) as Hpost.
  assert (Hlt : 0 < len ws).
  { destruct ws; [contradiction|]. rewrite len_cons.
    pose proof (len_nonneg ws). lia. }
  assert (Hn : len fullArgs = len pre + len token + len ws + len post).
  { rewrite Hfull, !len_app. lia. }
  set (p := len pre) in *. set (q := p + len token) in *.
  destruct (loop_run
              (fun j s =>
                 (j = q /\ s = insideState A st p token)
                 \/ (q < j
                     /\ s = betweenState (A ++ [argumentAt token p]) st false
                              false))
              (len fullArgs) (InstructionM.arg_body text e fullArgs offset)
              (fun s => s) (q + len ws) continued_progress)
    with (fuel := Z.to_nat (len ws)) (j := q) (s := insideState A st p token)
    as [s' [Hs' Heq]]; try lia.
  - intros j s HI Hjlt.
    assert (Hj : q <= j) by (destruct HI as [[-> _]|[? _]]; lia).
    assert (Hchar : exists c, charAt fullArgs j = Some c
                              /\ Util.isWhitespace (Some c) = true).
    { rewrite Hfull, charAt_middle by (rewrite len_app; fold p q; lia).
      rewrite len_app. fold p q.
      apply (charAt_Forall _ ws (j - q) Hws). lia. }
    destruct Hchar as [c [Hc Hw]].
    exists j, (betweenState (A ++ [argumentAt token p]) st false false).
    split; [|split; [lia | right; split; [lia | reflexivity]]].
    unfold InstructionM.arg_body. rewrite Hc, Hw.
    destruct HI as [[-> ->]|[_ ->]].
    + unfold insideState. cbn [InstructionM.escaping InstructionM.found].
      destruct (Z.eqb_spec p (-1)) as [E|E]; [lia|]. cbn [negb].
      cbn [InstructionM.escapeMarker]. rewrite Z.eqb_refl.
      unfold InstructionM.pushArg, betweenState, argumentAt.
      cbn [InstructionM.args InstructionM.start_ InstructionM.comment
           InstructionM.found InstructionM.escapedWhitespaceDetected
           InstructionM.escaping InstructionM.escapeMarker
           InstructionM.escapedArg].
      unfold q. replace (offset + (p + len token)) with (offset + p + len token)
        by lia. reflexivity.
    + reflexivity.
  - left. split; reflexivity.
  - destruct Hs' as [[Hq _]|[_ ->]]; [lia|]. exact Heq.
Qed.

(** The escape character and the line feed between two arguments. *)
Lemma between_escape (pre post : jsstring) (A : list Argument)
    (st ewd esc : bool) :
  fullArgs = pre ++ [e; LF] ++ post ->
  run (len pre) (betweenState A st ewd esc)
  = run (len pre + 2) (betweenState A true ewd true).
Proof.
  intros Hfull.
  pose proof (len_nonneg pre) as Hpre. pose proof (len_nonneg post) as Hpost.
  assert (Hn : len fullArgs = len pre + 2 + len post).
  { rewrite Hfull, !len_app. change (len [e; LF]) with 2. lia. }
  assert (He : charAt fullArgs (len pre) = Some e).
  { rewrite Hfull, charAt_middle by (change (len [e; LF]) with 2; lia).
    rewrite Z.sub_diag. reflexivity. }
  assert (Hlf : charAt fullArgs (len pre + 1) = Some LF).
  { rewrite Hfull, charAt_middle by (change (len [e; LF]) with 2; lia).
    replace (len pre + 1 - len pre) with 1 by lia. reflexivity. }
  assert (Hws : Util.isWhitespace (Some e) = false).
  { destruct e_cases as [-> | ->]; reflexivity. }
  unfold run. rewrite loop_unfold by exact continued_progress.
  destruct (Z.ltb_spec (len pre) (len fullArgs)) as [_|Hbad]; [|lia].
  unfold InstructionM.arg_body. rewrite He, Hlf, Hws. cbn [isChar].
  rewrite Ascii.eqb_refl.
  change (Ascii.eqb LF SP || Ascii.eqb LF TAB) with false.
  change (Ascii.eqb LF CR) with false. change (Ascii.eqb LF LF) with true.
  cbv iota.
  replace (len pre + 1 + 1) with (len pre + 2) by lia. reflexivity.
Qed.

(** From the start of a token to the end of the whitespace that follows
    the last token. *)
Lemma tokens_then_whitespace (ws post : jsstring) (st : bool) :
  ws <> [] ->
  Forall (fun c => Util.isWhitespace (Some c) = true) ws ->
  forall (rest : list (jsstring * jsstring)) (pre token : jsstring)
         (A : list Argument) (ewd esc : bool),
    fullArgs = pre ++ token ++ joinSegments rest ++ ws ++ post ->
    token <> [] ->
    tokenOk e st token ->
    Forall (segmentOk e st) rest ->
    run (len pre) (betweenState A st ewd esc)
    = run (len pre + len token + len (joinSegments rest) + len ws)
          (betweenState
             (A ++ argumentAt token (len pre)
                :: tokenArguments text (offset + len pre + len token) rest)
             st false false).
Proof.
  intros Hwne Hws rest.
  induction rest as [|[gap token'] rest IH];
    intros pre token A ewd esc Hfull Hne Htoken Hrest.
  - simpl in Hfull.
    rewrite (between_token pre token _ A st ewd esc Hfull Hne Htoken).
    rewrite (inside_gap pre token ws post A st);
      [|rewrite Hfull, <- app_assoc; reflexivity | exact Hwne | exact Hws].
    change (len (joinSegments [])) with 0. rewrite Z.add_0_r. reflexivity.
  - apply Forall_cons_iff in Hrest. destruct Hrest as [Hseg Hrest].
    destruct Hseg as [Hgne [Hgap [Hne' Htoken']]].
    simpl in Hgne, Hgap, Hne', Htoken'.
    assert (Hfull' : fullArgs
                     = (pre ++ token) ++ gap
                       ++ (token' ++ joinSegments rest ++ ws ++ post)).
    { rewrite Hfull. simpl. rewrite <- !app_assoc. reflexivity. }
    rewrite (between_token pre token _ A st ewd esc Hfull Hne Htoken).
    rewrite (inside_gap pre token gap _ A st Hfull' Hgne Hgap).
    assert (Hfull'' : fullArgs
                      = ((pre ++ token) ++ gap) ++ token'
                        ++ joinSegments rest ++ ws ++ post).
    { rewrite Hfull'. rewrite <- !app_assoc. reflexivity. }
    specialize (IH ((pre ++ token) ++ gap) token'
                  (A ++ [argumentAt token (len pre)]) false false
                  Hfull'' Hne' Htoken' Hrest).
    rewrite !len_app in IH. rewrite IH.
    rewrite len_joinSegments_cons. cbn [fst snd].
    rewrite <- app_assoc. cbn [app tokenArguments fst snd].
    unfold argumentAt.
    replace (offset + (len pre + len token + len gap))
      with (offset + len pre + len token + len gap) by lia.
    f_equal. lia.
Qed.

(** The segments of a line that whitespace follows. *)
Lemma line_then_whitespace (segments : list (jsstring * jsstring))
    (pre ws post : jsstring) (A : list Argument) (st ewd esc : bool) :
  fullArgs = pre ++ joinSegments segments ++ ws ++ post ->
  Forall (segmentOk e st) segments ->
  ws <> [] ->
  Forall (fun c => Util.isWhitespace (Some c) = true) ws ->
  exists ewd' esc',
    run (len pre) (betweenState A st ewd esc)
    = run (len pre + len (joinSegments segments) + len ws)
          (betweenState (A ++ tokenArguments text (offset + len pre) segments)
             st ewd' esc').
Proof.
  intros Hfull Hsegments Hwne Hws.
  destruct segments as [|[gap token] rest].
  - simpl in Hfull. simpl.
    destruct (between_whitespace pre ws post A st ewd esc Hfull Hws)
      as [ewd' Heq].
    exists ewd', esc. rewrite Heq, app_nil_r.
    change (len []) with 0. rewrite Z.add_0_r. reflexivity.
  - apply Forall_cons_iff in Hsegments. destruct Hsegments as [Hseg Hrest].
    destruct Hseg as [Hgne [Hgap [Hne Htoken]]].
    simpl in Hgne, Hgap, Hne, Htoken.
    assert (Hfull' : fullArgs
                     = pre ++ gap
                       ++ (token ++ joinSegments rest ++ ws ++ post)).
    { rewrite Hfull. simpl. rewrite <- !app_assoc. reflexivity. }
    destruct (between_whitespace pre gap _ A st ewd esc Hfull' Hgap)
      as [ewd' Heq].
    exists false, false. rewrite Heq.
    assert (Hfull'' : fullArgs
                      = (pre ++ gap) ++ token ++ joinSegments rest
                        ++ ws ++ post).
    { rewrite Hfull'. rewrite <- !app_assoc. reflexivity. }
    pose proof (tokens_then_whitespace ws post st Hwne Hws rest (pre ++ gap)
                  token A ewd' esc Hfull'' Hne Htoken Hrest) as Hrun.
    rewrite !len_app in Hrun. rewrite Hrun.
    rewrite len_joinSegments_cons. cbn [fst snd tokenArguments].
    unfold argumentAt.
    replace (offset + (len pre + len gap)) with (offset + len pre + len gap)
      by lia.
    f_equal. lia.
Qed.

(** From the start of a token to the end of the text. *)
Lemma tokens_to_end (trailing : jsstring) (st : bool) :
  Forall (fun c => Util.isWhitespace (Some c) = true) trailing ->
  forall (rest : list (jsstring * jsstring)) (pre token : jsstring)
         (A : list Argument) (ewd esc : bool),
    fullArgs = pre ++ token ++ joinSegments rest ++ trailing ->
    token <> [] ->
    tokenOk e st token ->
    Forall (segmentOk e st) rest ->
    InstructionM.finishArgs text fullArgs offset
      (run (len pre) (betweenState A st ewd esc))
    = A ++ argumentAt token (len pre)
        :: tokenArguments text (offset + len pre + len token) rest.
Proof.
  intros Htrailing rest pre token A ewd esc Hfull Hne Htoken Hrest.
  pose proof (len_nonneg pre) as Hpre.
  destruct trailing as [|w ws'] eqn:Et.
  - (* the text ends with a token *)
    revert pre token A ewd esc Hfull Hne Htoken Hrest Hpre.
    induction rest as [|[gap token'] rest IH];
      intros pre token A ewd esc Hfull Hne Htoken Hrest Hpre.
    + simpl in Hfull.
      rewrite (between_token pre token [] A st ewd esc Hfull Hne Htoken).
      assert (Hn : len fullArgs = len pre + len token).
      { rewrite Hfull, !len_app. change (len []) with 0. lia. }
      unfold run. rewrite loop_end by lia.
      unfold InstructionM.finishArgs, insideState.
      cbn [InstructionM.found InstructionM.escapeMarker].
      destruct (Z.eqb_spec (len pre) (-1)); [lia|]. cbn [negb].
      rewrite Z.eqb_refl. unfold InstructionM.pushArg, argumentAt.
      cbn [InstructionM.args InstructionM.escapedArg InstructionM.found].
      simpl tokenArguments.
      replace (len fullArgs) with (len pre + len token) by lia.
      replace (offset + (len pre + len token))
        with (offset + len pre + len token) by lia.
      reflexivity.
    + apply Forall_cons_iff in Hrest. destruct Hrest as [Hseg Hrest].
      destruct Hseg as [Hgne [Hgap [Hne' Htoken']]].
      simpl in Hgne, Hgap, Hne', Htoken'.
      assert (Hfull' : fullArgs
                       = (pre ++ token) ++ gap
                         ++ (token' ++ joinSegments rest ++ [])).
      { rewrite Hfull. simpl. rewrite <- !app_assoc. reflexivity. }
      rewrite (between_token pre token _ A st ewd esc Hfull Hne Htoken).
      rewrite (inside_gap pre token gap _ A st Hfull' Hgne Hgap).
      assert (Hfull'' : fullArgs
                        = ((pre ++ token) ++ gap) ++ token'
                          ++ joinSegments rest ++ []).
      { rewrite Hfull'. rewrite <- !app_assoc. reflexivity. }
      specialize (IH ((pre ++ token) ++ gap) token'
                    (A ++ [argumentAt token (len pre)]) false false
                    Hfull'' Hne' Htoken' Hrest (len_nonneg _)).
      rewrite !len_app in IH. rewrite IH.
      rewrite <- app_assoc. cbn [app tokenArguments fst snd].
      unfold argumentAt.
      replace (offset + (len pre + len token + len gap))
        with (offset + len pre + len token + len gap) by lia.
      reflexivity.
  - (* whitespace ends the text *)
    assert (Hfull' : fullArgs
                     = pre ++ token ++ joinSegments rest ++ (w :: ws') ++ []).
    { rewrite Hfull, app_nil_r. reflexivity. }
    rewrite (tokens_then_whitespace (w :: ws') [] st ltac:(discriminate)
               Htrailing rest pre token A ewd esc Hfull' Hne Htoken Hrest).
    assert (Hn : len fullArgs
                 = len pre + len token + len (joinSegments rest)
                   + len (w :: ws')).
    { rewrite Hfull, !len_app. lia. }
    unfold run. rewrite loop_end by lia. reflexivity.
Qed.

(** The segments of the last line. *)
Lemma line_to_end (segments : list (jsstring * jsstring))
    (pre trailing : jsstring) (A : list Argument) (st ewd esc : bool) :
  fullArgs = pre ++ joinSegments segments ++ trailing ->
  Forall (segmentOk e st) segments ->
  Forall (fun c => Util.isWhitespace (Some c) = true) trailing ->
  InstructionM.finishArgs text fullArgs offset
    (run (len pre) (betweenState A st ewd esc))
  = A ++ tokenArguments text (offset + len pre) segments.
Proof.
  intros Hfull Hsegments Htrailing.
  destruct segments as [|[gap token] rest].
  - simpl in Hfull.
    destruct (between_whitespace pre trailing [] A st ewd esc) as [ewd' Heq];
      [rewrite app_nil_r; exact Hfull | exact Htrailing |].
    rewrite Heq. unfold run.
    rewrite loop_end by (rewrite Hfull, len_app; lia).
    simpl. rewrite app_nil_r. reflexivity.
  - apply Forall_cons_iff in Hsegments. destruct Hsegments as [Hseg Hrest].
    destruct Hseg as [Hgne [Hgap [Hne Htoken]]].
    simpl in Hgne, Hgap, Hne, Htoken.
    assert (Hfull' : fullArgs
                     = pre ++ gap ++ (token ++ joinSegments rest ++ trailing)).
    { rewrite Hfull. simpl. rewrite <- !app_assoc. reflexivity. }
    destruct (between_whitespace pre gap _ A st ewd esc Hfull' Hgap)
      as [ewd' Heq].
    rewrite Heq.
    assert (Hfull'' : fullArgs
                      = (pre ++ gap) ++ token ++ joinSegments rest
                        ++ trailing).
    { rewrite Hfull'. rewrite <- !app_assoc. reflexivity. }
    pose proof (tokens_to_end trailing st Htrailing rest (pre ++ gap) token A
                  ewd' esc Hfull'' Hne Htoken Hrest) as Hrun.
    rewrite !len_app in Hrun. rewrite Hrun.
    cbn [tokenArguments fst snd]. unfold argumentAt.
    replace (offset + (len pre + len gap)) with (offset + len pre + len gap)
      by lia.
    reflexivity.
Qed.

Lemma continuedSegment_ok (segment : jsstring * jsstring) (st : bool) :
  continuedSegment e segment -> segmentOk e st segment.
Proof.
  intros [[Hgne [Hgap [Hne Htoken]]] Hhash].
  split; [exact Hgne|]. split; [exact Hgap|]. split; [exact Hne|].
  unfold tokenOk. rewrite Forall_forall in *. intros c Hc.
  destruct (Htoken c Hc) as [Hw He]. split; [exact Hw|]. split; [exact He|].
  intros _. apply Hhash. exact Hc.
Qed.

Lemma goodSegment_ok (segment : jsstring * jsstring) :
  goodSegment e segment -> segmentOk e false segment.
Proof.
  intros [Hgne [Hgap [Hne Htoken]]].
  split; [exact Hgne|]. split; [exact Hgap|]. split; [exact Hne|].
  unfold tokenOk. rewrite Forall_forall in *. intros c Hc.
  destruct (Htoken c Hc) as [Hw He]. split; [exact Hw|]. split; [exact He|].
  discriminate.
Qed.

(** The lines of an instruction, from the start of a line to the end of the
    text. *)
Lemma continued_to_end (trailing : jsstring) :
  Forall (fun c => Util.isWhitespace (Some c) = true) trailing ->
  forall (later : list (jsstring * list (jsstring * jsstring)))
         (segments : list (jsstring * jsstring)) (pre : jsstring)
         (A : list Argument) (st ewd esc : bool),
    fullArgs = pre ++ joinSegments segments ++ continuedText e later
               ++ trailing ->
    Forall (segmentOk e st) segments ->
    Forall (goodContinuation e) later ->
    InstructionM.finishArgs text fullArgs offset
      (run (len pre) (betweenState A st ewd esc))
    = A ++ tokenArguments text (offset + len pre) segments
        ++ continuedTokens text
             (offset + len pre + len (joinSegments segments)) later.
Proof.
  intros Htrailing later.
  induction later as [|[ws segments'] later IH];
    intros segments pre A st ewd esc Hfull Hsegments Hlater.
  - simpl in Hfull. simpl. rewrite app_nil_r.
    apply line_to_end with (trailing := trailing); assumption.
  - apply Forall_cons_iff in Hlater. destruct Hlater as [Hl Hlater].
    destruct Hl as [Hwne [Hws Hsegments']]. simpl in Hwne, Hws, Hsegments'.
    assert (Hfull' : fullArgs
                     = pre ++ joinSegments segments ++ ws
                       ++ ([e; LF] ++ joinSegments segments'
                           ++ continuedText e later ++ trailing)).
    { rewrite Hfull. unfold continuedText. cbn [flat_map].
      unfold continuationText at 1. cbn [fst snd].
      rewrite <- !app_assoc. reflexivity. }
    destruct (line_then_whitespace segments pre ws _ A st ewd esc Hfull'
                Hsegments Hwne Hws) as [ewd' [esc' Heq]].
    rewrite Heq.
    set (A1 := A ++ tokenArguments text (offset + len pre) segments).
    assert (Hfull'' : fullArgs
                      = (pre ++ joinSegments segments ++ ws) ++ [e; LF]
                        ++ (joinSegments segments' ++ continuedText e later
                            ++ trailing)).
    { rewrite Hfull'. rewrite <- !app_assoc. reflexivity. }
    pose proof (between_escape (pre ++ joinSegments segments ++ ws) _ A1 st
                  ewd' esc' Hfull'') as Hesc.
    rewrite !len_app in Hesc.
    replace (len pre + (len (joinSegments segments) + len ws))
      with (len pre + len (joinSegments segments) + len ws) in Hesc by lia.
    rewrite Hesc.
    assert (Hfull3 : fullArgs
                     = ((pre ++ joinSegments segments ++ ws) ++ [e; LF])
                       ++ joinSegments segments' ++ continuedText e later
                       ++ trailing).
    { rewrite Hfull''. rewrite <- !app_assoc. reflexivity. }
    specialize (IH segments' ((pre ++ joinSegments segments ++ ws) ++ [e; LF])
                  A1 true ewd' true Hfull3).
    rewrite !len_app in IH. change (len [e; LF]) with 2 in IH.
    replace (len pre + (len (joinSegments segments) + len ws) + 2)
      with (len pre + len (joinSegments segments) + len ws + 2) in IH by lia.
    rewrite IH.
    + unfold A1. rewrite <- app_assoc. f_equal. f_equal.
      cbn [continuedTokens fst snd].
      replace (offset + len pre + len (joinSegments segments) + len ws + 2)
        with (offset + (len pre + len (joinSegments segments) + len ws + 2))
        by lia.
      reflexivity.
    + eapply Forall_impl; [|exact Hsegments'].
      intros seg Hseg. apply continuedSegment_ok. exact Hseg.
    + exact Hlater.
Qed.

End ContinuedScan.

Lemma continuedTokens_values (text : jsstring)
    (later : list (jsstring * list (jsstring * jsstring))) :
  forall from,
    map argValue (continuedTokens text from later)
    = flat_map (fun l => map snd (snd l)) later.
Proof.
  induction later as [|l rest IH]; intros from; simpl; [reflexivity|].
  rewrite map_app, tokenArguments_values, IH. reflexivity.
Qed.

(** X25: the arguments of an instruction that continues over lines.  When
    the text after the keyword is a list of tokens, each after whitespace,
    then line continuations, each made of whitespace, the escape character,
    a line feed and the tokens of the next line, each after whitespace, and
    possibly whitespace at the end, where no token holds whitespace or the
    escape character and no token of a continued line holds [#],
    [getArguments] returns the tokens of all the lines in order, each with
    the range of its occurrence. *)
Theorem getArguments_continued (text : jsstring) (i : Instruction)
    (a c b : Z) (segments : list (jsstring * jsstring))
    (later : list (jsstring * list (jsstring * jsstring)))
    (trailing : jsstring) :
  instructionAt text i a c b ->
  escapeChar i = BACKSLASH \/ escapeChar i = BACKTICK ->
  substring text c b
  = joinSegments segments ++ continuedText (escapeChar i) later ++ trailing ->
  Forall (goodSegment (escapeChar i)) segments ->
  Forall (goodContinuation (escapeChar i)) later ->
  Forall (fun c => Util.isWhitespace (Some c) = true) trailing ->
  InstructionM.getArguments text i
  = tokenArguments text c segments
    ++ continuedTokens text (c + len (joinSegments segments)) later
  /\ map argValue (InstructionM.getArguments text i)
     = map snd segments ++ flat_map (fun l => map snd (snd l)) later.
Proof.
  intros Hat He Htext Hsegments Hlater Htrailing.
  assert (Hargs : InstructionM.getArguments text i
                  = tokenArguments text c segments
                    ++ continuedTokens text (c + len (joinSegments segments))
                         later).
  { rewrite (getArguments_scan text i a c b Hat).
    unfold InstructionM.scanArgs.
    change InstructionM.initialArgState
      with (betweenState [] false false false).
    pose proof (continued_to_end text (escapeChar i) (substring text c b) c
                  He trailing Htrailing later segments [] [] false false
                  false Htext) as H.
    change (len []) with 0 in H. rewrite !Z.add_0_r in H.
    apply H; [|exact Hlater].
    eapply Forall_impl; [|exact Hsegments].
    intros seg Hseg. apply goodSegment_ok. exact Hseg. }
  split; [exact Hargs|].
  rewrite Hargs, map_app, tokenArguments_values, continuedTokens_values.
  reflexivity.
Qed.

Lemma getArguments_continued_witness :
  InstructionM.getArguments
    (str "RUN echo a " ++ [BACKSLASH; LF] ++ str "  b c")
    (nthInstruction (str "RUN echo a " ++ [BACKSLASH; LF] ++ str "  b c") 0)
  = [mkArgument (str "echo") (mkRange (mkPosition 0 4) (mkPosition 0 8));
     mkArgument (str "a") (mkRange (mkPosition 0 9) (mkPosition 0 10));
     mkArgument (str "b") (mkRange (mkPosition 1 2) (mkPosition 1 3));
     mkArgument (str "c") (mkRange (mkPosition 1 4) (mkPosition 1 5))].
Proof.
  destruct (getArguments_continued
              (str "RUN echo a " ++ [BACKSLASH; LF] ++ str "  b c")
              (nthInstruction
                 (str "RUN echo a " ++ [BACKSLASH; LF] ++ str "  b c") 0)
              0 3 18
              [(str " ", str "echo"); (str " ", str "a")]
              [(str " ", [(str "  ", str "b"); (str " ", str "c")])]
              []) as [Hargs _].
  - repeat split; try (vm_compute; reflexivity); try lia;
      vm_compute; discriminate.
  - left. vm_compute. reflexivity.
  - vm_compute. reflexivity.
  - repeat constructor; discriminate.
  - repeat constructor; discriminate.
  - constructor.
  - rewrite Hargs. vm_compute. reflexivity.
Defined.

(** ** An escaped character in a value *)

Section EscapedValue.

Variable e : ascii.
Variable a b : jsstring.
Variable x : ascii.

Hypothesis e_cases : e = BACKSLASH \/ e = BACKTICK.
Hypothesis a_plain : Forall (fun c => isPlainChar e c = true) a.
Hypothesis b_plain : Forall (fun c => isPlainChar e c = true) b.
Hypothesis x_not_blank : isBlank (Some x) = false.
Hypothesis x_not_CR : Ascii.eqb x CR = false.
Hypothesis b_no_comment :
  x = LF -> Forall (fun c => Ascii.eqb c HASH = false) b.

Let value := a ++ e :: x :: b.
Let k := len a.
Let run :=
  loop (len value) (PropertyM.value_body e value false false false)
       (fun s => PropertyM.escapedValue s).

Lemma escapedValue_len : 0 <= k /\ len value = k + 2 + len b /\ 0 <= len b.
Proof.
  unfold value, k. rewrite len_app, !len_cons.
  pose proof (len_nonneg a). pose proof (len_nonneg b). lia.
Qed.

Lemma escapedValue_forward :
  forall j s j' s', j < len value ->
    PropertyM.value_body e value false false false j s = Next j' s' ->
    j <= j'.
Proof. intros j s j' s' _. apply value_body_forward. Qed.

Lemma escapedValue_tail (j : Z) :
  k + 2 <= j -> charAt value j = charAt b (j - (k + 2)).
Proof.
  intros Hj. destruct escapedValue_len as [Hk _].
  unfold value. rewrite charAt_app_r by (fold k; lia). fold k.
  rewrite charAt_cons by lia. rewrite charAt_cons by lia.
  f_equal. lia.
Qed.

(** The text before the escape character is copied. *)
Lemma escapedValue_before :
  run 0 (PropertyM.mkValueState false (-1) [])
  = run k (PropertyM.mkValueState false (-1) a).
Proof.
  destruct escapedValue_len as [Hk [Hn Hb]].
  destruct (loop_run
              (fun j s => 0 <= j
                          /\ s = PropertyM.mkValueState false (-1)
                                   (firstn (Z.to_nat j) a))
              (len value) (PropertyM.value_body e value false false false)
              (fun s => PropertyM.escapedValue s) k escapedValue_forward)
    with (fuel := Z.to_nat k) (j := 0)
         (s := PropertyM.mkValueState false (-1) [])
    as [s' [[_ Hs'] Heq]]; try lia.
  - intros j s [Hj ->] Hlt. unfold PropertyM.value_body.
    unfold value. rewrite charAt_app_left by (fold k; lia).
    destruct (charAt_Forall _ a j a_plain ltac:(fold k; lia))
      as [c [Hc Hchar]].
    apply isPlainChar_spec in Hchar. destruct Hchar as [He [Hcr Hlf]].
    rewrite Hc. cbn [isChar chars]. rewrite He, Hcr, Hlf.
    cbn [PropertyM.escaped PropertyM.commentCheck PropertyM.escapedValue andb].
    rewrite <- (firstn_snoc_nth a j c) by (lia || exact Hc).
    destruct (Ascii.eqb c SP || Ascii.eqb c TAB).
    { eexists. eexists. split; [reflexivity|]. split; [lia|]. split;
        [lia | reflexivity]. }
    destruct (Ascii.eqb c HASH);
      eexists; eexists; (split; [reflexivity|]); (split; [lia|]);
      (split; [lia | reflexivity]).
  - split; [lia | reflexivity].
  - unfold run. rewrite Heq, Hs'. unfold k. rewrite firstn_len. reflexivity.
Qed.

(** The escape character and the character after it. *)
Lemma escapedValue_escape :
  run k (PropertyM.mkValueState false (-1) a)
  = run (k + 2)
        (if Ascii.eqb x LF then PropertyM.mkValueState true (-1) a
         else PropertyM.mkValueState false (-1) (a ++ [x])).
Proof.
  destruct escapedValue_len as [Hk [Hn Hb]].
  assert (He : charAt value k = Some e).
  { unfold value. rewrite charAt_app_r by (fold k; lia). fold k.
    rewrite Z.sub_diag. reflexivity. }
  assert (Hx : charAt value (k + 1) = Some x).
  { unfold value. rewrite charAt_app_r by (fold k; lia). fold k.
    replace (k + 1 - k) with 1 by lia. reflexivity. }
  assert (Hstep :
            PropertyM.value_body e value false false false k
              (PropertyM.mkValueState false (-1) a)
            = Next (k + 1)
                (if Ascii.eqb x LF then PropertyM.mkValueState true (-1) a
                 else PropertyM.mkValueState false (-1) (a ++ [x]))).
  { unfold PropertyM.value_body. rewrite He, Hx. cbn [isChar].
    rewrite Ascii.eqb_refl.
    destruct (Z.eqb_spec (k + 1) (len value)) as [Hbad|_]; [lia|].
    unfold isBlank in x_not_blank. cbn [isChar] in x_not_blank.
    rewrite x_not_blank.
    unfold PropertyM.valueEscape. cbn [orb isChar chars].
    cbn [PropertyM.escaped PropertyM.commentCheck PropertyM.escapedValue].
    rewrite x_not_CR.
    destruct (Ascii.eqb x e) eqn:Exe.
    - apply Ascii.eqb_eq in Exe.
      assert (Hlf : Ascii.eqb x LF = false).
      { rewrite Exe. destruct e_cases as [-> | ->]; reflexivity. }
      rewrite Hlf, Exe. reflexivity.
    - destruct (Ascii.eqb x LF); reflexivity. }
  unfold run. rewrite parseValue_equation.
  destruct (Z.ltb_spec k (len value)) as [_|Hbad]; [|lia].
  rewrite Hstep. replace (k + 1 + 1) with (k + 2) by lia. reflexivity.
Qed.

(** The text after the escaped character is copied. *)
Lemma escapedValue_after (esc : bool) (acc : jsstring) :
  (esc = true -> x = LF) ->
  run (k + 2) (PropertyM.mkValueState esc (-1) acc) = acc ++ b.
Proof.
  intros Hesc. destruct escapedValue_len as [Hk [Hn Hb]].
  destruct (loop_run
              (fun j s =>
                 k + 2 <= j
                 /\ exists esc' cc,
                      s = PropertyM.mkValueState esc' cc
                            (acc ++ firstn (Z.to_nat (j - (k + 2))) b)
                      /\ (esc' = true -> x = LF))
              (len value) (PropertyM.value_body e value false false false)
              (fun s => PropertyM.escapedValue s) (len value)
              escapedValue_forward)
    with (fuel := Z.to_nat (len b)) (j := k + 2)
         (s := PropertyM.mkValueState esc (-1) acc)
    as [s' [[_ [esc' [cc [Hs' _]]]] Heq]]; try lia.
  - intros j s [Hj [esc' [cc [-> Hesc']]]] Hlt.
    unfold PropertyM.value_body. rewrite escapedValue_tail by lia.
    destruct (charAt_Forall _ b (j - (k + 2)) b_plain ltac:(lia))
      as [c [Hc Hchar]].
    apply isPlainChar_spec in Hchar. destruct Hchar as [He [Hcr Hlf]].
    rewrite Hc. cbn [isChar chars]. rewrite He, Hcr, Hlf.
    cbn [PropertyM.escaped PropertyM.commentCheck PropertyM.escapedValue].
    assert (Hnext : acc ++ firstn (Z.to_nat (j + 1 - (k + 2))) b
                    = (acc ++ firstn (Z.to_nat (j - (k + 2))) b) ++ [c]).
    { replace (j + 1 - (k + 2)) with (j - (k + 2) + 1) by lia.
      rewrite (firstn_snoc_nth b (j - (k + 2)) c) by (lia || exact Hc).
      apply app_assoc. }
    destruct (Ascii.eqb c SP || Ascii.eqb c TAB).
    { eexists. eexists. split; [reflexivity|]. split; [lia|]. split; [lia|].
      eexists. eexists. split; [rewrite Hnext; reflexivity | exact Hesc']. }
    destruct (Ascii.eqb c HASH) eqn:Ehash.
    + destruct esc'.
      * exfalso. specialize (b_no_comment (Hesc' eq_refl)).
        rewrite Forall_forall in b_no_comment.
        assert (Hin : In c b).
        { unfold charAt in Hc. destruct (_ <? 0); [discriminate|].
          eapply nth_error_In. exact Hc. }
        rewrite (b_no_comment c Hin) in Ehash. discriminate.
      * eexists. eexists. split; [reflexivity|]. split; [lia|]. split; [lia|].
        eexists. eexists. split; [rewrite Hnext; reflexivity | discriminate].
    + eexists. eexists. split; [reflexivity|]. split; [lia|]. split; [lia|].
      eexists. eexists. split; [rewrite Hnext; reflexivity | discriminate].
  - split; [lia|]. exists esc, (-1). split; [|exact Hesc].
    rewrite Z.sub_diag. simpl. rewrite app_nil_r. reflexivity.
  - unfold run. rewrite Heq, Hs'. rewrite loop_end by lia.
    cbn [PropertyM.escapedValue].
    replace (len value - (k + 2)) with (len b) by lia.
    rewrite firstn_len. reflexivity.
Qed.

Lemma escapedValue_run :
  run 0 (PropertyM.mkValueState false (-1) [])
  = a ++ (if Ascii.eqb x LF then [] else [x]) ++ b.
Proof.
  rewrite escapedValue_before, escapedValue_escape.
  destruct (Ascii.eqb x LF) eqn:Elf.
  - apply Ascii.eqb_eq in Elf. apply escapedValue_after. auto.
  - rewrite escapedValue_after by discriminate.
    rewrite <- app_assoc. reflexivity.
Qed.

End EscapedValue.

(** X26: an escape character in a value that is not in quotes.  The value
    is made of the leading whitespace that [Util.findLeadingNonWhitespace]
    skips, if any, and of a rest that starts neither with a quote nor,
    after skipped whitespace, with [#]; the rest is made of text, the
    escape character (the backslash or the backtick), a character that is
    neither a blank nor a carriage return, and text, where neither text
    holds an escape character or a line break.  [Property.getValue] drops
    the skipped whitespace and the escape character and keeps the
    character after it, and drops both when that character is a line
    feed, provided the text after it holds no [#]; the text around the
    escape sequence is kept unchanged. *)
Theorem getValue_escaped (findLeadingNonWhitespace : jsstring -> ascii -> Z)
    (e : ascii) (lead a b : jsstring) (x : ascii) :
  e = BACKSLASH \/ e = BACKTICK ->
  findLeadingNonWhitespace (lead ++ a ++ e :: x :: b) e = len lead ->
  lead = [] \/ isChar HASH (charAt (a ++ e :: x :: b) 0) = false ->
  isChar SQUOTE (charAt (a ++ e :: x :: b) 0) = false ->
  isChar DQUOTE (charAt (a ++ e :: x :: b) 0) = false ->
  Forall (fun c => isPlainChar e c = true) a ->
  Forall (fun c => isPlainChar e c = true) b ->
  isBlank (Some x) = false ->
  Ascii.eqb x CR = false ->
  (x = LF -> Forall (fun c => Ascii.eqb c HASH = false) b) ->
  PropertyM.getValue findLeadingNonWhitespace e (lead ++ a ++ e :: x :: b)
  = a ++ (if Ascii.eqb x LF then [] else [x]) ++ b.
Proof.
  intros He Hskip Hhash Hsingle Hdouble Ha Hb Hblank Hcr Hcomment.
  unfold PropertyM.getValue.
  rewrite Hskip.
  assert (Hescaped : negb (len lead =? 0)
                     && isChar HASH
                          (charAt (lead ++ a ++ e :: x :: b) (len lead))
                     = false).
  { destruct Hhash as [->|Hhash]; [reflexivity|].
    rewrite charAt_app_r by lia.
    replace (len lead - len lead) with 0 by lia.
    rewrite Hhash. apply andb_false_r. }
  rewrite Hescaped.
  unfold substringFrom. rewrite substring_app_right.
  rewrite Hsingle, Hdouble. cbn [orb andb].
  apply (escapedValue_run e a b x He Ha Hb Hblank Hcr Hcomment).
Qed.

Lemma getValue_escaped_witness :
  PropertyM.getValue Util.findLeadingNonWhitespace BACKSLASH
    (str "a b" ++ BACKSLASH :: "c"%char :: str " #d")
  = str "a bc #d"
  /\ PropertyM.getValue Util.findLeadingNonWhitespace BACKSLASH
       (str "  " ++ str "a" ++ BACKSLASH :: LF :: str "  b")
     = str "a  b".
Proof.
  split.
  - apply (getValue_escaped Util.findLeadingNonWhitespace BACKSLASH []
             (str "a b") (str " #d") "c"%char); try reflexivity.
    + left. reflexivity.
    + left. reflexivity.
    + repeat constructor.
    + repeat constructor.
    + discriminate.
  - apply (getValue_escaped Util.findLeadingNonWhitespace BACKSLASH
             (str "  ") (str "a") (str "  b") LF); try reflexivity.
    + left. reflexivity.
    + right. reflexivity.
    + repeat constructor.
    + repeat constructor.
    + intros _. repeat constructor.
Defined.

(** ** The directive of the first line, offset by offset *)

Lemma notWhitespace_of (char : option ascii) :
  isChar CR char || isChar LF char = false ->
  isChar TAB char || isChar SP char = false ->
  notWhitespace char = true.
Proof.
  intros Enl Ebl. unfold notWhitespace, Util.isWhitespace, Util.isNewline.
  apply orb_false_iff in Enl, Ebl. destruct Enl as [E1 E2], Ebl as [E3 E4].
  rewrite E1, E2, E3, E4. reflexivity.
Qed.

Lemma notNewline_of (char : option ascii) :
  isChar CR char || isChar LF char = false -> notNewline char = true.
Proof.
  intros Enl. unfold notNewline, Util.isNewline. rewrite Enl. reflexivity.
Qed.

(** The loop over the value of a directive. *)
Lemma directiveValue_exact (buffer : jsstring) (j : Z) :
  0 <= j < len buffer ->
  let '(valueStart, valueEnd, lineEnd) := Parser.directiveValue buffer j in
  scannedLineEnd buffer j lineEnd
  /\ scannedValue buffer j lineEnd
       (if valueStart =? -1 then j + 1 else valueStart)
       (if valueStart =? -1 then lineEnd
        else if valueEnd =? -1 then len buffer else valueEnd).
Proof.
  intros Hj. unfold Parser.directiveValue.
  apply loop_invariant with
    (I := fun k s =>
            let '(valueStart, valueEnd) := s in
            j + 1 <= k <= len buffer
            /\ allBetween notNewline buffer (j + 1) k
            /\ ((valueStart = -1 /\ valueEnd = -1
                 /\ allBetween isBlank buffer (j + 1) k)
                \/ (j + 1 <= valueStart < k
                    /\ allBetween isBlank buffer (j + 1) valueStart
                    /\ ((valueEnd = -1
                         /\ allBetween notWhitespace buffer valueStart k)
                        \/ (valueStart < valueEnd < k
                            /\ allBetween notWhitespace buffer valueStart
                                 valueEnd
                            /\ isBlank (charAt buffer valueEnd) = true)))))
    (P := fun r =>
            let '(valueStart, valueEnd, lineEnd) := r in
            scannedLineEnd buffer j lineEnd
            /\ scannedValue buffer j lineEnd
                 (if valueStart =? -1 then j + 1 else valueStart)
                 (if valueStart =? -1 then lineEnd
                  else if valueEnd =? -1 then len buffer else valueEnd)).
  - intros k [vs ve] [Hk [Hline HI]] Hlt.
    unfold Parser.directiveValue_body.
    destruct (isChar CR (charAt buffer k) || isChar LF (charAt buffer k))
      eqn:Enl;
      [|destruct (isChar TAB (charAt buffer k) || isChar SP (charAt buffer k))
          eqn:Ebl].
    + (* line break *)
      split.
      { split; [lia|]. split; [exact Hline|]. right.
        unfold Util.isNewline. exact Enl. }
      destruct HI as [[-> [-> Hall]]|[Hvs [Hbl [[-> Hall]|[Hve [Hall Hb]]]]]].
      * simpl. right. auto.
      * destruct (Z.eqb_spec vs (-1)); [lia|]. simpl.
        destruct (Z.eqb_spec k (-1)); [lia|]. left.
        repeat split; try lia; auto.
      * destruct (Z.eqb_spec vs (-1)); [lia|].
        destruct (Z.eqb_spec ve (-1)); [lia|]. simpl.
        destruct (Z.eqb_spec ve (-1)); [lia|]. left.
        repeat split; try lia; auto.
    + (* blank *)
      assert (Hblank : isBlank (charAt buffer k) = true).
      { unfold isBlank. rewrite orb_comm. exact Ebl. }
      split; [lia|]. split; [lia|]. split.
      { apply allBetween_snoc; [exact Hline|]. apply notNewline_of. exact Enl. }
      destruct HI as [[-> [-> Hall]]|[Hvs [Hbl [[-> Hall]|[Hve [Hall Hb]]]]]].
      * left. simpl. repeat split; try reflexivity.
        apply allBetween_snoc; assumption.
      * right. split; [lia|]. split; [exact Hbl|]. right.
        destruct (Z.eqb_spec vs (-1)); [lia|]. simpl.
        repeat split; try lia; auto.
      * right. split; [lia|]. split; [exact Hbl|]. right.
        destruct (Z.eqb_spec vs (-1)); [lia|].
        destruct (Z.eqb_spec ve (-1)); [lia|]. simpl.
        repeat split; try lia; auto.
    + (* any other character *)
      pose proof (notWhitespace_of _ Enl Ebl) as Hnw.
      split; [lia|]. split; [lia|]. split.
      { apply allBetween_snoc; [exact Hline|]. apply notNewline_of. exact Enl. }
      destruct HI as [[-> [-> Hall]]|[Hvs [Hbl [[-> Hall]|[Hve [Hall Hb]]]]]].
      * right. simpl. split; [lia|]. split; [exact Hall|]. left.
        split; [reflexivity|].
        intros x Hx. replace x with k by lia. exact Hnw.
      * right. destruct (Z.eqb_spec vs (-1)); [lia|]. split; [lia|].
        split; [exact Hbl|]. left.
        split; [reflexivity|]. apply allBetween_snoc; assumption.
      * right. destruct (Z.eqb_spec vs (-1)); [lia|]. split; [lia|].
        split; [exact Hbl|]. right. repeat split; try lia; auto.
  - intros k [vs ve] [Hk [Hline HI]] Hge. cbn [fst snd].
    assert (k = len buffer) by lia. subst k.
    split.
    { split; [lia|]. split; [exact Hline|]. left. reflexivity. }
    destruct HI as [[-> [-> Hall]]|[Hvs [Hbl [[-> Hall]|[Hve [Hall Hb]]]]]].
    + simpl. right. auto.
    + destruct (Z.eqb_spec vs (-1)); [lia|]. simpl. left.
      repeat split; try lia; auto.
    + destruct (Z.eqb_spec vs (-1)); [lia|].
      destruct (Z.eqb_spec ve (-1)); [lia|]. left.
      repeat split; try lia; auto.
  - simpl. split; [lia|]. split; [apply allBetween_nil; lia|]. left.
    repeat split; try reflexivity. apply allBetween_nil. lia.
Qed.

(** The loop over the comment of the first line. *)
Lemma directiveName_exact (buffer : jsstring) (commentStart : Z) :
  0 <= commentStart < len buffer ->
  forall cs le ds de vs ve,
    Parser.directiveName buffer commentStart
    = Some (Parser.SDirective cs le ds de vs ve) ->
    cs = commentStart
    /\ exists j,
         commentStart < j < len buffer
         /\ charAt buffer j = Some EQUALS
         /\ allBetween notDirectiveStop buffer (commentStart + 1) j
         /\ scannedName buffer commentStart j ds de
         /\ scannedLineEnd buffer j le
         /\ scannedValue buffer j le vs ve.
Proof.
  intros Hcs. unfold Parser.directiveName.
  apply loop_invariant with
    (I := fun i s =>
            let '(directiveStart, directiveEnd) := s in
            commentStart < i <= len buffer
            /\ allBetween notDirectiveStop buffer (commentStart + 1) i
            /\ ((directiveStart = -1 /\ directiveEnd = -1
                 /\ allBetween isBlank buffer (commentStart + 1) i)
                \/ (commentStart < directiveStart < i
                    /\ allBetween isBlank buffer (commentStart + 1)
                         directiveStart
                    /\ ((directiveEnd = -1
                         /\ allBetween isDirectiveNameChar buffer
                              directiveStart i)
                        \/ (directiveStart < directiveEnd < i
                            /\ isBlank (charAt buffer directiveEnd) = true
                            /\ allBetween isDirectiveNameChar buffer
                                 directiveStart directiveEnd))))).
  - intros i [ds0 de0] [Hi [Hstop HI]] Hlt.
    unfold Parser.directiveName_body.
    destruct (isChar SP (charAt buffer i) || isChar TAB (charAt buffer i))
      eqn:Ebl;
      [|destruct (isChar CR (charAt buffer i) || isChar LF (charAt buffer i))
          eqn:Enl;
        [|destruct (isChar EQUALS (charAt buffer i)) eqn:Eeq]].
    + (* blank *)
      assert (Hns : notDirectiveStop (charAt buffer i) = true).
      { unfold notDirectiveStop.
        destruct (charAt buffer i) as [c|]; [|reflexivity].
        simpl in *. apply orb_true_iff in Ebl.
        destruct Ebl as [E|E]; apply Ascii.eqb_eq in E; subst c; reflexivity. }
      split; [lia|]. split; [lia|]. split.
      { apply allBetween_snoc; assumption. }
      destruct HI as [[-> [-> Hall]]|[Hds [Hbl [[-> Hall]|[Hde [Hb Hall]]]]]].
      * left. simpl. repeat split; try reflexivity.
        apply allBetween_snoc; assumption.
      * right. split; [lia|]. split; [exact Hbl|]. right.
        destruct (Z.eqb_spec ds0 (-1)); [lia|]. simpl.
        repeat split; try lia; auto.
      * right. split; [lia|]. split; [exact Hbl|]. right.
        destruct (Z.eqb_spec ds0 (-1)); [lia|].
        destruct (Z.eqb_spec de0 (-1)); [lia|]. simpl.
        repeat split; try lia; auto.
    + (* line break: a comment *)
      intros cs le ds de vs ve H. discriminate.
    + (* the equals sign *)
      intros cs le ds de vs ve. unfold Parser.directiveAtEquals.
      pose proof (directiveValue_exact buffer i ltac:(lia)) as Hv.
      destruct (Parser.directiveValue buffer i) as [[vs0 ve0] le0].
      destruct Hv as [Hle Hval].
      destruct (Z.eqb_spec ds0 (-1)) as [Hds|Hds]; [discriminate|].
      destruct HI as [[Hbad _]|[Hds' [Hbl Hname]]]; [contradiction|].
      assert (Hpair :
                (if vs0 =? -1 then (i + 1, le0)
                 else if ve0 =? -1 then (vs0, len buffer) else (vs0, ve0))
                = (if vs0 =? -1 then i + 1 else vs0,
                   if vs0 =? -1 then le0
                   else if ve0 =? -1 then len buffer else ve0)).
      { destruct (vs0 =? -1); [reflexivity|].
        destruct (ve0 =? -1); reflexivity. }
      rewrite Hpair. intros H. injection H as <- <- <- <- <- <-.
      split; [reflexivity|]. exists i.
      split; [lia|]. split; [apply isChar_Some; exact Eeq|].
      split; [exact Hstop|]. split; [|split; assumption].
      unfold scannedName. split; [lia|]. split; [exact Hbl|].
      destruct Hname as [[-> Hall]|[Hde [Hb Hall]]].
      * simpl. repeat split; try lia; auto.
      * destruct (Z.eqb_spec de0 (-1)); [lia|].
        repeat split; try lia; auto.
    + (* a character of the name, or after it *)
      assert (Hnc : isDirectiveNameChar (charAt buffer i) = true).
      { unfold isDirectiveNameChar, Util.isWhitespace, Util.isNewline.
        apply orb_false_iff in Enl, Ebl. destruct Enl as [E1 E2], Ebl as [E3 E4].
        rewrite E1, E2, E3, E4, Eeq. reflexivity. }
      assert (Hns : notDirectiveStop (charAt buffer i) = true).
      { unfold notDirectiveStop. apply orb_false_iff in Enl.
        destruct Enl as [E1 E2]. rewrite E1, E2, Eeq. reflexivity. }
      split; [lia|]. split; [lia|]. split.
      { apply allBetween_snoc; assumption. }
      destruct HI as [[-> [-> Hall]]|[Hds [Hbl [[-> Hall]|[Hde [Hb Hall]]]]]].
      * right. simpl. split; [lia|]. split; [exact Hall|]. left.
        split; [reflexivity|].
        intros x Hx. replace x with i by lia. exact Hnc.
      * right. destruct (Z.eqb_spec ds0 (-1)); [lia|]. split; [lia|].
        split; [exact Hbl|]. left.
        split; [reflexivity|]. apply allBetween_snoc; assumption.
      * right. destruct (Z.eqb_spec ds0 (-1)); [lia|]. split; [lia|].
        split; [exact Hbl|]. right. repeat split; try lia; auto.
  - intros i s _ _ cs le ds de vs ve H. discriminate.
  - simpl. split; [lia|]. split; [apply allBetween_nil; lia|]. left.
    repeat split; try reflexivity. apply allBetween_nil. lia.
Qed.

Lemma getDirectiveOffsets_exact (buffer : jsstring) (cs le ds de vs ve : Z) :
  Parser.getDirectiveOffsets buffer
  = Some (Parser.SDirective cs le ds de vs ve) ->
  scannedDirective buffer cs le ds de vs ve.
Proof.
  revert cs le ds de vs ve. unfold Parser.getDirectiveOffsets.
  apply loop_invariant with
    (I := fun i (_ : unit) =>
            0 <= i <= len buffer
            /\ (allBetween isBlank buffer 0 i
                \/ allBetween notDirectiveStop buffer i (len buffer))).
  - intros i [] [Hi Hblank] Hlt. unfold Parser.directiveCheck_body.
    destruct (isChar SP (charAt buffer i) || isChar TAB (charAt buffer i))
      eqn:Ebl.
    + split; [lia|]. split; [lia|].
      destruct Hblank as [Hblank|Hns].
      * left. apply allBetween_snoc; assumption.
      * right. apply (allBetween_shrink _ _ _ _ _ _ Hns); lia.
    + destruct (isChar CR (charAt buffer i) || isChar LF (charAt buffer i)).
      * intros cs le ds de vs ve H. discriminate.
      * destruct (isChar HASH (charAt buffer i)) eqn:Ehash;
          [|intros cs le ds de vs ve H; discriminate].
        destruct (Parser.directiveName buffer i) as [l|] eqn:El.
        -- intros cs le ds de vs ve H. injection H as ->.
           destruct Hblank as [Hblank|Hns].
           ++ destruct (directiveName_exact buffer i ltac:(lia)
                          cs le ds de vs ve El)
                as [-> [j [Hj [Heq [Hstop [Hname [Hline Hvalue]]]]]]].
              exists j. split; [lia|]. split; [exact Hblank|].
              split; [apply isChar_Some; exact Ehash|].
              split; [lia|]. split; [exact Heq|]. split; [exact Hstop|].
              split; [exact Hname|]. split; assumption.
           ++ rewrite directiveName_stays_None in El; [discriminate|].
              apply (allBetween_shrink _ _ _ _ _ _ Hns); lia.
        -- split; [lia|]. split; [lia|]. right.
           apply directiveName_None; [lia | exact El].
  - intros i [] _ _ cs le ds de vs ve H. discriminate.
  - split; [pose proof (len_nonneg buffer); lia|].
    left. apply allBetween_nil. lia.
Qed.

(** C6, as the code has it: a parsed directive is the comment sign after
    blanks only, with the first [=] of its line; its name starts at the
    first character after the sign that is not a blank and stops at the
    first blank or at the [=]; its value starts at the first character
    after the [=] that is not a blank and stops at the first whitespace or
    at the end of the text, unless nothing but blanks and tabs follows the
    [=] on the line, in which case the value range covers all of them up
    to the end of the line.  So the name is a non-empty run of characters
    without whitespace or [=], and the value holds no whitespace or is
    that blank rest of the line. *)
Theorem directive_name_value_trimmed (buffer : jsstring) (p : ParserDirective) :
  getDirective (Parser.parse buffer) = Some p ->
  let name := ParserDirectiveM.getName buffer p in
  let value := ParserDirectiveM.getValue buffer p in
  (exists commentStart lineEnd directiveStart directiveEnd valueStart valueEnd,
     scannedDirective buffer commentStart lineEnd directiveStart directiveEnd
       valueStart valueEnd
     /\ directiveRange p = rangeAt buffer commentStart lineEnd
     /\ nameRange p = rangeAt buffer directiveStart directiveEnd
     /\ valueRange p = rangeAt buffer valueStart valueEnd
     /\ name = substring buffer directiveStart directiveEnd
     /\ value = substring buffer valueStart valueEnd)
  /\ name <> []
  /\ Forall (fun c => isDirectiveNameChar (Some c) = true) name
  /\ ((value <> [] /\ Forall (fun c => notWhitespace (Some c) = true) value)
      \/ (Forall (fun c => isBlank (Some c) = true) value
          /\ end_ (valueRange p) = end_ (directiveRange p))).
Proof.
  rewrite parse_directive. intros H.
  unfold Parser.getDirectiveSymbol in H.
  destruct (Parser.getDirectiveOffsets buffer) as [sym|] eqn:E;
    [|discriminate].
  destruct sym as [cs le|cs le ds de vs ve]; simpl in H; [discriminate|].
  injection H as <-.
  pose proof (getDirectiveOffsets_exact _ _ _ _ _ _ _ E) as Hs.
  assert (Hs' := Hs).
  destruct Hs' as [j [Hcs [_ [_ [Hj [_ [_ [Hname [Hline Hvalue]]]]]]]]].
  destruct Hname as [Hds [_ [Hde [Hname _]]]].
  destruct Hline as [Hle _].
  assert (Hv : 0 <= vs <= ve /\ ve <= len buffer).
  { destruct Hvalue as [[H1 [_ [H2 _]]]|[_ [-> ->]]]; lia. }
  cbv zeta.
  unfold ParserDirectiveM.getName, ParserDirectiveM.getValue. simpl.
  rewrite !textOf_rangeAt by lia.
  split.
  { exists cs, le, ds, de, vs, ve. repeat split; auto. }
  split; [|split].
  - intros Hnil.
    assert (Hl : len (substring buffer ds de) = de - ds)
      by (apply substring_length; lia).
    rewrite Hnil in Hl. unfold len in Hl. simpl in Hl. lia.
  - apply substring_Forall; [lia | lia | exact Hname].
  - destruct Hvalue as [[H1 [_ [H2 [Hnw _]]]]|[Hbl [-> ->]]].
    + left. split.
      * intros Hnil.
        assert (Hl : len (substring buffer vs ve) = ve - vs)
          by (apply substring_length; lia).
        rewrite Hnil in Hl. unfold len in Hl. simpl in Hl. lia.
      * apply substring_Forall; [lia | lia | exact Hnw].
    + right. split; [|reflexivity].
      apply substring_Forall; [lia | lia | exact Hbl].
Qed.

Lemma directive_name_value_trimmed_witness :
  getDirective (Parser.parse escapeBacktick) = Some (directiveAt 10)
  /\ ParserDirectiveM.getName escapeBacktick (directiveAt 10) <> []
  /\ Forall (fun c => notWhitespace (Some c) = true)
            (ParserDirectiveM.getValue escapeBacktick (directiveAt 10)).
Proof.
  assert (H : getDirective (Parser.parse escapeBacktick) = Some (directiveAt 10))
    by (vm_compute; reflexivity).
  destruct (directive_name_value_trimmed escapeBacktick (directiveAt 10) H)
    as [_ [Hname [_ Hvalue]]].
  split; [exact H|]. split; [exact Hname|].
  repeat constructor.
Defined.

(** ** The offsets of a directive are those of its text *)

Lemma blank_cases (char : option ascii) :
  isBlank char = true -> char = Some SP \/ char = Some TAB.
Proof.
  unfold isBlank. intros H. apply orb_true_iff in H.
  destruct H as [H|H]; apply isChar_Some in H; auto.
Qed.

Lemma blank_not_hash (char : option ascii) :
  isBlank char = true -> char = Some HASH -> False.
Proof. intros H ->. vm_compute in H. discriminate. Qed.

Lemma blank_not_equals (char : option ascii) :
  isBlank char = true -> char = Some EQUALS -> False.
Proof. intros H ->. vm_compute in H. discriminate. Qed.

Lemma blank_not_name (char : option ascii) :
  isBlank char = true -> isDirectiveNameChar char = true -> False.
Proof.
  unfold isBlank, isDirectiveNameChar, Util.isWhitespace. intros H.
  rewrite H. simpl. discriminate.
Qed.

Lemma blank_whitespace (char : option ascii) :
  isBlank char = true -> notWhitespace char = true -> False.
Proof.
  unfold isBlank, notWhitespace, Util.isWhitespace. intros H.
  rewrite H. simpl. discriminate.
Qed.

Lemma equals_not_name (char : option ascii) :
  char = Some EQUALS -> isDirectiveNameChar char = true -> False.
Proof. intros -> H. vm_compute in H. discriminate. Qed.

Lemma equals_stop (char : option ascii) :
  char = Some EQUALS -> notDirectiveStop char = true -> False.
Proof. intros -> H. vm_compute in H. discriminate. Qed.

Lemma newline_notNewline (char : option ascii) :
  Util.isNewline char = true -> notNewline char = true -> False.
Proof. unfold notNewline. intros ->. discriminate. Qed.

(** The first index from [a] on at which [p] fails is unique. *)
Lemma first_unique (p : option ascii -> bool) (q : option ascii -> Prop)
    (s : jsstring) (a x y : Z) :
  (forall char, p char = true -> q char -> False) ->
  a <= x -> a <= y ->
  allBetween p s a x -> q (charAt s x) ->
  allBetween p s a y -> q (charAt s y) ->
  x = y.
Proof.
  intros Hclash Hx Hy Hpx Hqx Hpy Hqy.
  destruct (Z.lt_trichotomy x y) as [Hlt|[Heq|Hgt]]; [|exact Heq|].
  - exfalso. apply (Hclash (charAt s x)); [apply Hpy; lia | exact Hqx].
  - exfalso. apply (Hclash (charAt s y)); [apply Hpx; lia | exact Hqy].
Qed.

Lemma scannedLineEnd_unique (buffer : jsstring) (j le le' : Z) :
  scannedLineEnd buffer j le -> scannedLineEnd buffer j le' -> le = le'.
Proof.
  intros [H1 [H2 H3]] [H1' [H2' H3']].
  destruct (Z.lt_trichotomy le le') as [Hlt|[Heq|Hgt]]; [|exact Heq|].
  - destruct H3 as [H3|H3]; [lia|]. exfalso.
    apply (newline_notNewline _ H3). apply H2'. lia.
  - destruct H3' as [H3'|H3']; [lia|]. exfalso.
    apply (newline_notNewline _ H3'). apply H2. lia.
Qed.

Lemma scannedName_unique (buffer : jsstring) (cs j ds de ds' de' : Z) :
  charAt buffer j = Some EQUALS ->
  scannedName buffer cs j ds de -> scannedName buffer cs j ds' de' ->
  ds = ds' /\ de = de'.
Proof.
  intros Heq [H1 [H2 [H3 [H4 H5]]]] [H1' [H2' [H3' [H4' H5']]]].
  assert (Hds : ds = ds').
  { apply (first_unique isBlank (fun c => isDirectiveNameChar c = true)
             buffer (cs + 1));
      [exact blank_not_name | lia | lia | exact H2 | apply H4; lia
       | exact H2' | apply H4'; lia]. }
  subst ds'. split; [reflexivity|].
  apply (first_unique isDirectiveNameChar
           (fun c => c = Some EQUALS \/ isBlank c = true) buffer ds);
    [|lia|lia|exact H4| |exact H4'|].
  - intros char Hn [He|Hb];
      [exact (equals_not_name _ He Hn) | exact (blank_not_name _ Hb Hn)].
  - destruct H5 as [->|H5]; auto.
  - destruct H5' as [->|H5']; auto.
Qed.

Lemma scannedValue_unique (buffer : jsstring) (j le vs ve vs' ve' : Z) :
  scannedValue buffer j le vs ve -> scannedValue buffer j le vs' ve' ->
  vs = vs' /\ ve = ve'.
Proof.
  intros [[H1 [H2 [H3 [H4 H5]]]]|[H1 [-> ->]]]
         [[H1' [H2' [H3' [H4' H5']]]]|[H1' [-> ->]]].
  - assert (Hvs : vs = vs').
    { apply (first_unique isBlank (fun c => notWhitespace c = true)
               buffer (j + 1));
        [exact blank_whitespace | lia | lia | exact H2 | apply H4; lia
         | exact H2' | apply H4'; lia]. }
    subst vs'. split; [reflexivity|].
    destruct (Z.lt_trichotomy ve ve') as [Hlt|[Heq|Hgt]]; [|exact Heq|].
    + destruct H5 as [H5|H5]; [lia|]. exfalso.
      apply (blank_whitespace _ H5). apply H4'. lia.
    + destruct H5' as [H5'|H5']; [lia|]. exfalso.
      apply (blank_whitespace _ H5'). apply H4. lia.
  - exfalso. apply (blank_whitespace (charAt buffer vs)).
    + apply H1'. lia.
    + apply H4. lia.
  - exfalso. apply (blank_whitespace (charAt buffer vs')).
    + apply H1. lia.
    + apply H4'. lia.
  - auto.
Qed.

(** A text has the offsets of one directive at most. *)
Lemma scannedDirective_unique (buffer : jsstring)
    (cs le ds de vs ve cs' le' ds' de' vs' ve' : Z) :
  scannedDirective buffer cs le ds de vs ve ->
  scannedDirective buffer cs' le' ds' de' vs' ve' ->
  cs = cs' /\ le = le' /\ ds = ds' /\ de = de' /\ vs = vs' /\ ve = ve'.
Proof.
  intros [j [H0 [Hbl [Hhash [Hj [Heq [Hstop [Hname [Hline Hvalue]]]]]]]]]
         [j' [H0' [Hbl' [Hhash' [Hj' [Heq' [Hstop' [Hname' [Hline' Hvalue']]]]]]]]].
  assert (Hcs : cs = cs').
  { apply (first_unique isBlank (fun c => c = Some HASH) buffer 0);
      [exact blank_not_hash | lia | lia | exact Hbl | exact Hhash
       | exact Hbl' | exact Hhash']. }
  subst cs'.
  assert (Hjj : j = j').
  { apply (first_unique notDirectiveStop (fun c => c = Some EQUALS)
             buffer (cs + 1));
      [|lia|lia|exact Hstop|exact Heq|exact Hstop'|exact Heq'].
    intros char Hs He. exact (equals_stop _ He Hs). }
  subst j'.
  destruct (scannedName_unique _ _ _ _ _ _ _ Heq Hname Hname') as [<- <-].
  pose proof (scannedLineEnd_unique _ _ _ _ Hline Hline') as <-.
  destruct (scannedValue_unique _ _ _ _ _ _ _ Hvalue Hvalue') as [<- <-].
  repeat split; reflexivity.
Qed.

(** A comment with a name before the first [=] of its line is a
    directive. *)
Lemma directiveName_total (buffer : jsstring) (commentStart j d : Z) :
  0 <= commentStart < d -> d < j < len buffer ->
  allBetween notDirectiveStop buffer (commentStart + 1) j ->
  charAt buffer j = Some EQUALS ->
  isBlank (charAt buffer d) = false ->
  exists le ds de vs ve,
    Parser.directiveName buffer commentStart
    = Some (Parser.SDirective commentStart le ds de vs ve).
Proof.
  intros Hcs Hj Hstop Heq Hd. unfold Parser.directiveName.
  apply loop_invariant with
    (I := fun i s =>
            let '(directiveStart, directiveEnd) := s in
            commentStart < i <= j /\ (directiveStart = -1 -> i <= d)).
  - intros i [ds0 de0] [Hi Hstart] Hlt.
    unfold Parser.directiveName_body.
    destruct (Z.eq_dec i j) as [->|Hne].
    + rewrite Heq.
      replace (isChar SP (Some EQUALS) || isChar TAB (Some EQUALS))
        with false by reflexivity.
      replace (isChar CR (Some EQUALS) || isChar LF (Some EQUALS))
        with false by reflexivity.
      replace (isChar EQUALS (Some EQUALS)) with true by reflexivity.
      unfold Parser.directiveAtEquals.
      destruct (Parser.directiveValue buffer j) as [[vs0 ve0] le0].
      destruct (Z.eqb_spec ds0 (-1)) as [Hds|Hds]; [lia|].
      destruct (if vs0 =? -1 then (j + 1, le0)
                else if ve0 =? -1 then (vs0, len buffer) else (vs0, ve0))
        as [vs ve].
      eexists _, _, _, _, _. reflexivity.
    + assert (Hs : notDirectiveStop (charAt buffer i) = true)
        by (apply Hstop; lia).
      unfold notDirectiveStop in Hs.
      apply andb_true_iff in Hs. destruct Hs as [Hs Hs3].
      apply andb_true_iff in Hs. destruct Hs as [Hs1 Hs2].
      apply negb_true_iff in Hs1, Hs2, Hs3. rewrite Hs1, Hs2, Hs3.
      destruct (isChar SP (charAt buffer i) || isChar TAB (charAt buffer i))
        eqn:Ebl.
      * split; [lia|]. split; [lia|]. intros Hm1.
        specialize (Hstart Hm1).
        destruct (Z.eq_dec i d) as [->|]; [|lia].
        unfold isBlank in Hd. rewrite Hd in Ebl. discriminate.
      * simpl. split; [lia|]. split; [lia|].
        destruct (Z.eqb_spec ds0 (-1)); lia.
  - intros i [ds0 de0] [Hi _] Hge. lia.
  - simpl. split; lia.
Qed.

Lemma getDirectiveOffsets_total (buffer : jsstring) (commentStart j d : Z) :
  0 <= commentStart < d -> d < j < len buffer ->
  allBetween isBlank buffer 0 commentStart ->
  charAt buffer commentStart = Some HASH ->
  allBetween notDirectiveStop buffer (commentStart + 1) j ->
  charAt buffer j = Some EQUALS ->
  isBlank (charAt buffer d) = false ->
  exists le ds de vs ve,
    Parser.getDirectiveOffsets buffer
    = Some (Parser.SDirective commentStart le ds de vs ve).
Proof.
  intros Hcs Hj Hbl Hhash Hstop Heq Hd.
  destruct (directiveName_total buffer commentStart j d Hcs Hj Hstop Heq Hd)
    as [le [ds [de [vs [ve Hname]]]]].
  exists le, ds, de, vs, ve.
  unfold Parser.getDirectiveOffsets.
  apply loop_invariant with (I := fun i (_ : unit) => 0 <= i <= commentStart).
  - intros i [] Hi Hlt. unfold Parser.directiveCheck_body.
    destruct (Z.eq_dec i commentStart) as [->|Hne].
    + rewrite Hhash.
      replace (isChar SP (Some HASH) || isChar TAB (Some HASH))
        with false by reflexivity.
      replace (isChar CR (Some HASH) || isChar LF (Some HASH))
        with false by reflexivity.
      replace (isChar HASH (Some HASH)) with true by reflexivity.
      rewrite Hname. reflexivity.
    + assert (Hb : isBlank (charAt buffer i) = true) by (apply Hbl; lia).
      unfold isBlank in Hb. rewrite Hb. lia.
  - intros i [] Hi Hge. lia.
  - lia.
Qed.

(** A text with the offsets of a directive is scanned as that directive. *)
Lemma getDirectiveOffsets_complete (buffer : jsstring)
    (cs le ds de vs ve : Z) :
  scannedDirective buffer cs le ds de vs ve ->
  Parser.getDirectiveOffsets buffer
  = Some (Parser.SDirective cs le ds de vs ve).
Proof.
  intros Hs. assert (Hs' := Hs).
  destruct Hs' as [j [H0 [Hbl [Hhash [Hj [Heq [Hstop [Hname _]]]]]]]].
  destruct Hname as [H1 [_ [H3 [H4 _]]]].
  assert (Hd : isBlank (charAt buffer ds) = false).
  { destruct (isBlank (charAt buffer ds)) eqn:E; [|reflexivity].
    exfalso. apply (blank_not_name _ E). apply H4. lia. }
  destruct (getDirectiveOffsets_total buffer cs j ds ltac:(lia) ltac:(lia)
              Hbl Hhash Hstop Heq Hd)
    as [le' [ds' [de' [vs' [ve' E]]]]].
  rewrite E.
  pose proof (getDirectiveOffsets_exact _ _ _ _ _ _ _ E) as Hs'.
  destruct (scannedDirective_unique _ _ _ _ _ _ _ _ _ _ _ _ _ Hs Hs')
    as [_ [<- [<- [<- [<- <-]]]]].
  reflexivity.
Qed.

(** ** A first line that is a directive *)

Lemma allBetween_segment (p : option ascii -> bool) (s pre seg post : jsstring)
    (a b : Z) :
  s = pre ++ seg ++ post -> a = len pre -> b = a + len seg ->
  Forall (fun c => p (Some c) = true) seg ->
  allBetween p s a b.
Proof.
  intros -> -> -> Hall x Hx.
  rewrite charAt_middle by lia.
  destruct (charAt_Forall _ seg (x - len pre) Hall ltac:(lia)) as [c [-> Hc]].
  exact Hc.
Qed.

Lemma charAt_segment (s pre post : jsstring) (c : ascii) (a : Z) :
  s = pre ++ c :: post -> a = len pre -> charAt s a = Some c.
Proof.
  intros -> ->. pose proof (len_nonneg pre).
  rewrite charAt_app_r by lia. replace (len pre - len pre) with 0 by lia.
  reflexivity.
Qed.

Lemma charAt_segment_end (s pre : jsstring) (a : Z) :
  s = pre -> a = len pre -> charAt s a = None.
Proof. intros -> ->. apply charAt_past. lia. Qed.

Lemma toLowerChar_name (c : ascii) :
  isDirectiveNameChar (Some (toLowerChar c)) = true ->
  isDirectiveNameChar (Some c) = true.
Proof.
  destruct c as [[] [] [] [] [] [] [] []]; vm_compute; intros H; exact H.
Qed.

(** A name that is [escape] in some letter case holds no whitespace and no
    [=]. *)
Lemma escape_name (name : jsstring) :
  toLowerCase name = str "escape" ->
  name <> [] /\ Forall (fun c => isDirectiveNameChar (Some c) = true) name.
Proof.
  intros H. split.
  - intros ->. discriminate.
  - apply Forall_forall. intros c Hc. apply toLowerChar_name.
    assert (Hin : In (toLowerChar c) (str "escape")).
    { rewrite <- H. unfold toLowerCase. apply in_map. exact Hc. }
    assert (Hall : Forall (fun x => isDirectiveNameChar (Some x) = true)
                          (str "escape")) by (repeat constructor).
    rewrite Forall_forall in Hall. apply Hall. exact Hin.
Qed.

Lemma blank_notDirectiveStop (char : option ascii) :
  isBlank char = true -> notDirectiveStop char = true.
Proof.
  intros H. destruct (blank_cases _ H) as [->| ->]; reflexivity.
Qed.

Lemma blank_notNewline (char : option ascii) :
  isBlank char = true -> notNewline char = true.
Proof.
  intros H. destruct (blank_cases _ H) as [->| ->]; reflexivity.
Qed.

Lemma name_notDirectiveStop (char : option ascii) :
  isDirectiveNameChar char = true -> notDirectiveStop char = true.
Proof.
  unfold isDirectiveNameChar, notDirectiveStop, Util.isWhitespace,
    Util.isNewline.
  destruct (isChar SP char), (isChar TAB char), (isChar CR char),
    (isChar LF char), (isChar EQUALS char); simpl; auto.
Qed.

Lemma notWhitespace_notNewline (char : option ascii) :
  notWhitespace char = true -> notNewline char = true.
Proof.
  unfold notWhitespace, notNewline, Util.isWhitespace, Util.isNewline.
  destruct (isChar SP char), (isChar TAB char), (isChar CR char),
    (isChar LF char); simpl; auto.
Qed.

Ltac flat_lists :=
  rewrite <- ?app_assoc; cbn [app]; rewrite <- ?app_assoc; cbn [app];
  rewrite <- ?app_assoc; cbn [app]; rewrite <- ?app_assoc; reflexivity.

Ltac flat_lens :=
  unfold len;
  rewrite ?length_app; cbn [List.length];
  rewrite ?length_app; cbn [List.length];
  rewrite ?length_app; cbn [List.length];
  rewrite ?length_app; lia.

(** The offsets of the directive of a line [# name = value]. *)
Lemma directiveLine_scanned (lead ws1 name ws2 ws3 value ws4 rest : jsstring) :
  allBlank lead -> allBlank ws1 -> allBlank ws2 -> allBlank ws3 ->
  allBlank ws4 ->
  name <> [] ->
  Forall (fun c => isDirectiveNameChar (Some c) = true) name ->
  value <> [] ->
  Forall (fun c => notWhitespace (Some c) = true) value ->
  startsWithNewline rest ->
  let line := directiveLine lead ws1 name ws2 ws3 value ws4 in
  let directiveStart := len lead + 1 + len ws1 in
  let directiveEnd := directiveStart + len name in
  let valueStart := directiveEnd + len ws2 + 1 + len ws3 in
  scannedDirective (line ++ rest) (len lead) (len line)
    directiveStart directiveEnd valueStart (valueStart + len value).
Proof.
  intros Hlead Hws1 Hws2 Hws3 Hws4 Hname0 Hname Hvalue0 Hvalue Hrest.
  unfold allBlank in *. cbv zeta.
  set (buffer := directiveLine lead ws1 name ws2 ws3 value ws4 ++ rest).
  pose proof (len_nonneg lead) as L0. pose proof (len_nonneg ws1) as L1.
  pose proof (len_nonneg ws2) as L2. pose proof (len_nonneg ws3) as L3.
  pose proof (len_nonneg ws4) as L4. pose proof (len_nonneg rest) as L5.
  assert (Ln : 0 < len name).
  { destruct name; [contradiction|]. rewrite len_cons.
    pose proof (len_nonneg name). lia. }
  assert (Lv : 0 < len value).
  { destruct value; [contradiction|]. rewrite len_cons.
    pose proof (len_nonneg value). lia. }
  assert (Lline : len (directiveLine lead ws1 name ws2 ws3 value ws4)
                  = len lead + 1 + len ws1 + len name + len ws2 + 1
                    + len ws3 + len value + len ws4).
  { unfold directiveLine. flat_lens. }
  assert (Lbuf : len buffer
                 = len lead + 1 + len ws1 + len name + len ws2 + 1
                   + len ws3 + len value + len ws4 + len rest).
  { unfold buffer. rewrite len_app, Lline. reflexivity. }
  rewrite Lline.
  exists (len lead + 1 + len ws1 + len name + len ws2).
  split; [lia|]. split.
  { apply (allBetween_segment _ _ [] lead
             (HASH :: ws1 ++ name ++ ws2 ++ EQUALS :: ws3 ++ value ++ ws4
                ++ rest));
      [unfold buffer, directiveLine; flat_lists | reflexivity
       | simpl; lia | exact Hlead]. }
  split.
  { apply (charAt_segment _ lead
             (ws1 ++ name ++ ws2 ++ EQUALS :: ws3 ++ value ++ ws4 ++ rest));
      [unfold buffer, directiveLine; flat_lists | reflexivity]. }
  split; [lia|]. split.
  { apply (charAt_segment _ (lead ++ HASH :: ws1 ++ name ++ ws2)
             (ws3 ++ value ++ ws4 ++ rest));
      [unfold buffer, directiveLine; flat_lists | flat_lens]. }
  split.
  { apply (allBetween_segment _ _ (lead ++ [HASH]) (ws1 ++ name ++ ws2)
             (EQUALS :: ws3 ++ value ++ ws4 ++ rest));
      [unfold buffer, directiveLine; flat_lists | flat_lens | flat_lens |].
    apply Forall_app. split; [|apply Forall_app; split].
    - apply (Forall_impl _ (fun c => blank_notDirectiveStop (Some c)) Hws1).
    - apply (Forall_impl _ (fun c => name_notDirectiveStop (Some c)) Hname).
    - apply (Forall_impl _ (fun c => blank_notDirectiveStop (Some c)) Hws2). }
  split.
  { (* the name *)
    split; [lia|]. split.
    { apply (allBetween_segment _ _ (lead ++ [HASH]) ws1
               (name ++ ws2 ++ EQUALS :: ws3 ++ value ++ ws4 ++ rest));
        [unfold buffer, directiveLine; flat_lists | flat_lens | lia
         | exact Hws1]. }
    split; [lia|]. split.
    { apply (allBetween_segment _ _ (lead ++ HASH :: ws1) name
               (ws2 ++ EQUALS :: ws3 ++ value ++ ws4 ++ rest));
        [unfold buffer, directiveLine; flat_lists | flat_lens | lia
         | exact Hname]. }
    destruct ws2 as [|c ws2].
    - left. change (len []) with 0. lia.
    - right.
      rewrite (charAt_segment buffer (lead ++ HASH :: ws1 ++ name)
                 (ws2 ++ EQUALS :: ws3 ++ value ++ ws4 ++ rest) c);
        [|unfold buffer, directiveLine; flat_lists | flat_lens].
      inversion Hws2. assumption. }
  split.
  { (* the end of the line *)
    split; [lia|]. split.
    { apply (allBetween_segment _ _
               (lead ++ HASH :: ws1 ++ name ++ ws2 ++ [EQUALS])
               (ws3 ++ value ++ ws4) rest);
        [unfold buffer, directiveLine; flat_lists | flat_lens | flat_lens |].
      apply Forall_app. split; [|apply Forall_app; split].
      - apply (Forall_impl _ (fun c => blank_notNewline (Some c)) Hws3).
      - apply (Forall_impl _ (fun c => notWhitespace_notNewline (Some c))
                 Hvalue).
      - apply (Forall_impl _ (fun c => blank_notNewline (Some c)) Hws4). }
    destruct Hrest as [->|Hrest].
    - left. change (len []) with 0 in Lbuf. lia.
    - right. destruct rest as [|c rest]; [discriminate|].
      rewrite (charAt_segment buffer
                 (directiveLine lead ws1 name ws2 ws3 value ws4) rest c);
        [exact Hrest | reflexivity | rewrite Lline; reflexivity]. }
  (* the value *)
  left. split; [lia|]. split.
  { apply (allBetween_segment _ _
             (lead ++ HASH :: ws1 ++ name ++ ws2 ++ [EQUALS]) ws3
             (value ++ ws4 ++ rest));
      [unfold buffer, directiveLine; flat_lists | flat_lens | lia
       | exact Hws3]. }
  split; [lia|]. split.
  { apply (allBetween_segment _ _
             (lead ++ HASH :: ws1 ++ name ++ ws2 ++ EQUALS :: ws3) value
             (ws4 ++ rest));
      [unfold buffer, directiveLine; flat_lists | flat_lens | lia
       | exact Hvalue]. }
  destruct ws4 as [|c ws4].
  - left. change (len []) with 0. lia.
  - right.
    rewrite (charAt_segment buffer
               (lead ++ HASH :: ws1 ++ name ++ ws2 ++ EQUALS :: ws3 ++ value)
               (ws4 ++ rest) c);
      [|unfold buffer, directiveLine; flat_lists | flat_lens].
    inversion Hws4. assumption.
Qed.

(** C10: a document whose first line is [# name = value], where [name] is
    [escape] in any letter case, blanks and tabs may stand around the
    parts and [value] is a non-empty text without whitespace, has a
    directive of the escape kind whose name is [name] as it was written
    and whose value is [value]; the directive covers the line from its
    comment sign to its end, every comment of the document starts at or
    after the end of that line, and there is no comment at all when the
    document is that one line. *)
Theorem escape_directive_any_case
    (lead ws1 name ws2 ws3 value ws4 rest : jsstring) :
  let line := directiveLine lead ws1 name ws2 ws3 value ws4 in
  let buffer := line ++ rest in
  allBlank lead -> allBlank ws1 -> allBlank ws2 -> allBlank ws3 ->
  allBlank ws4 ->
  toLowerCase name = str "escape" ->
  value <> [] ->
  Forall (fun c => notWhitespace (Some c) = true) value ->
  startsWithNewline rest ->
  exists p,
    getDirective (Parser.parse buffer) = Some p
    /\ ParserDirectiveM.getDirective buffer p = Some escape
    /\ ParserDirectiveM.getName buffer p = name
    /\ ParserDirectiveM.getValue buffer p = value
    /\ directiveRange p = rangeAt buffer (len lead) (len line)
    /\ (forall c, In c (getComments (Parser.parse buffer)) ->
          exists a b, len line <= a < len buffer
                      /\ commentRange c = rangeAt buffer a b)
    /\ (rest = [] -> getComments (Parser.parse buffer) = []).
Proof.
  intros line buffer Hlead Hws1 Hws2 Hws3 Hws4 Hlower Hvalue0 Hvalue Hrest.
  destruct (escape_name name Hlower) as [Hname0 Hname].
  pose proof (directiveLine_scanned lead ws1 name ws2 ws3 value ws4 rest
                Hlead Hws1 Hws2 Hws3 Hws4 Hname0 Hname Hvalue0 Hvalue Hrest)
    as Hscan.
  cbv zeta in Hscan. fold line in Hscan. fold buffer in Hscan.
  pose proof (getDirectiveOffsets_complete _ _ _ _ _ _ _ Hscan) as Hoff.
  set (ds := len lead + 1 + len ws1) in *.
  set (vs := ds + len name + len ws2 + 1 + len ws3) in *.
  set (p := mkParserDirective
              (rangeAt buffer (len lead) (len line))
              (rangeAt buffer ds (ds + len name))
              (rangeAt buffer vs (vs + len value))).
  assert (Hsym : Parser.getDirectiveSymbol buffer = Some (LDirective p)).
  { unfold Parser.getDirectiveSymbol. rewrite Hoff. reflexivity. }
  pose proof (len_nonneg lead) as L0. pose proof (len_nonneg ws1) as L1.
  pose proof (len_nonneg ws2) as L2. pose proof (len_nonneg ws3) as L3.
  pose proof (len_nonneg ws4) as L4. pose proof (len_nonneg rest) as L5.
  pose proof (len_nonneg name) as L6. pose proof (len_nonneg value) as L7.
  assert (Lline : len line
                  = len lead + 1 + len ws1 + len name + len ws2 + 1
                    + len ws3 + len value + len ws4).
  { unfold line, directiveLine. flat_lens. }
  assert (Lbuf : len buffer = len line + len rest).
  { unfold buffer. apply len_app. }
  assert (Hn : ParserDirectiveM.getName buffer p = name).
  { unfold ParserDirectiveM.getName, p. simpl.
    rewrite textOf_rangeAt by (unfold ds; lia).
    replace buffer
      with ((lead ++ HASH :: ws1) ++ name
            ++ (ws2 ++ EQUALS :: ws3 ++ value ++ ws4 ++ rest))
      by (unfold buffer, line, directiveLine; flat_lists).
    replace ds with (len (lead ++ HASH :: ws1)) by (unfold ds; flat_lens).
    apply substring_middle. }
  assert (Hv : ParserDirectiveM.getValue buffer p = value).
  { unfold ParserDirectiveM.getValue, p. simpl.
    rewrite textOf_rangeAt by (unfold vs, ds; lia).
    replace buffer
      with ((lead ++ HASH :: ws1 ++ name ++ ws2 ++ EQUALS :: ws3) ++ value
            ++ (ws4 ++ rest))
      by (unfold buffer, line, directiveLine; flat_lists).
    replace vs
      with (len (lead ++ HASH :: ws1 ++ name ++ ws2 ++ EQUALS :: ws3))
      by (unfold vs, ds; flat_lens).
    apply substring_middle. }
  assert (Hcomments :
            forall c, In c (getComments (Parser.parse buffer)) ->
              exists a b, len line <= a < len buffer
                          /\ commentRange c = rangeAt buffer a b).
  { intros c Hc. apply parse_comments in Hc.
    unfold Parser.prologue in Hc. rewrite Hsym in Hc. simpl in Hc.
    destruct Hc as [[]|[a [b [Ha Hr]]]].
    rewrite offsetAt_positionAt in Ha by lia.
    exists a, b. split; [lia | exact Hr]. }
  exists p. split; [rewrite parse_directive, Hsym; reflexivity|].
  split.
  { unfold ParserDirectiveM.getDirective. rewrite Hn, Hlower. reflexivity. }
  split; [exact Hn|]. split; [exact Hv|]. split; [reflexivity|].
  split; [exact Hcomments|].
  intros ->.
  destruct (getComments (Parser.parse buffer)) as [|c l]; [reflexivity|].
  destruct (Hcomments c (or_introl eq_refl)) as [a [b [Ha _]]].
  change (len []) with 0 in Lbuf. lia.
Qed.

Lemma escape_directive_any_case_witness :
  (exists p,
     getDirective (Parser.parse capitalEscape) = Some p
     /\ ParserDirectiveM.getDirective capitalEscape p = Some escape
     /\ ParserDirectiveM.getName capitalEscape p = str "Escape"
     /\ getComments (Parser.parse capitalEscape) = [])
  /\ (exists p,
        getDirective (Parser.parse spacedEscape) = Some p
        /\ ParserDirectiveM.getDirective spacedEscape p = Some escape
        /\ ParserDirectiveM.getName spacedEscape p = str "Escape"
        /\ ParserDirectiveM.getValue spacedEscape p = [BACKTICK]
        /\ directiveRange p = rangeAt spacedEscape 0 15).
Proof.
  split.
  - destruct (escape_directive_any_case [] [SP] (str "Escape") [] []
                [BACKTICK] [] [])
      as [p [H1 [H2 [H3 [_ [_ [_ H7]]]]]]].
    + constructor.
    + repeat constructor.
    + constructor.
    + constructor.
    + constructor.
    + reflexivity.
    + discriminate.
    + repeat constructor.
    + left. reflexivity.
    + exists p. split; [exact H1|]. split; [exact H2|]. split; [exact H3|].
      apply H7. reflexivity.
  - destruct (escape_directive_any_case [] [TAB; TAB] (str "Escape")
                [SP; SP; SP] [] [BACKTICK] [SP] (CR :: LF :: str "FROM x"))
      as [p [H1 [H2 [H3 [H4 [H5 _]]]]]].
    + constructor.
    + repeat constructor.
    + repeat constructor.
    + constructor.
    + repeat constructor.
    + reflexivity.
    + discriminate.
    + repeat constructor.
    + right. reflexivity.
    + exists p. split; [exact H1|]. split; [exact H2|]. split; [exact H3|].
      split; [exact H4 | exact H5].
Defined.

(** ** Property extraction, for any argument *)








(** ** The ranges and the content of arguments on one line *)

Lemma substring_allBetween (p : option ascii -> bool) (text s : jsstring)
    (x y : Z) :
  0 <= x <= y -> y <= len text ->
  substring text x y = s ->
  Forall (fun c => p (Some c) = true) s ->
  allBetween p text x y.
Proof.
  intros Hx Hy Hs Hall k Hk.
  assert (Hlen : len s = y - x) by (rewrite <- Hs; apply substring_length; lia).
  replace k with (x + (k - x)) by lia.
  rewrite <- (charAt_substring text x y (k - x)) by lia.
  rewrite Hs.
  destruct (charAt_Forall _ s (k - x) Hall ltac:(lia)) as [ch [-> Hch]].
  exact Hch.
Qed.

Lemma whitespace_false_notNewline (c : ascii) :
  Util.isWhitespace (Some c) = false -> notNewline (Some c) = true.
Proof.
  unfold Util.isWhitespace, notNewline. intros H.
  apply orb_false_iff in H. destruct H as [_ ->]. reflexivity.
Qed.

Lemma token_notNewline (e : ascii) (segment : jsstring * jsstring) :
  goodSegment e segment ->
  Forall (fun c => notNewline (Some c) = true) (snd segment).
Proof.
  intros [_ [_ [_ H]]]. eapply Forall_impl; [|exact H].
  intros c [Hc _]. apply whitespace_false_notNewline. exact Hc.
Qed.

Lemma blankSegments_notNewline (e : ascii)
    (segments : list (jsstring * jsstring)) :
  Forall (goodSegment e) segments ->
  Forall (fun segment => allBlank (fst segment)) segments ->
  Forall (fun c => notNewline (Some c) = true) (joinSegments segments).
Proof.
  induction segments as [|segment rest IH]; intros Hgood Hblank;
    [constructor|].
  inversion Hgood as [|? ? Hg Hgrest]. inversion Hblank as [|? ? Hb Hbrest].
  subst. simpl. rewrite <- app_assoc.
  apply Forall_app. split; [|apply Forall_app; split].
  - eapply Forall_impl; [|exact Hb]. intros c Hc.
    apply (blank_notNewline (Some c)). exact Hc.
  - apply (token_notNewline e). exact Hg.
  - apply IH; assumption.
Qed.

(** X20: when the text after the keyword of an instruction is a list of
    tokens, each after whitespace and none with whitespace or the escape
    character in it, and only blanks and tabs separate the tokens from one
    another, [getArgumentsRanges] is the one range from the start of the
    first token to the end of the last one and [getArgumentsContent] is the
    text from the first token to the last one; without tokens there is no
    range and the content is [null]. *)
Theorem getArgumentsContent_tokens (text : jsstring) (i : Instruction)
    (a c b : Z) (segments : list (jsstring * jsstring)) (trailing : jsstring) :
  instructionAt text i a c b ->
  substring text c b = joinSegments segments ++ trailing ->
  Forall (goodSegment (escapeChar i)) segments ->
  Forall (fun c => Util.isWhitespace (Some c) = true) trailing ->
  Forall (fun segment => allBlank (fst segment)) (tl segments) ->
  match segments with
  | [] =>
      InstructionRanges.getArgumentsRanges text i = Some []
      /\ InstructionRanges.getArgumentsContent text i = Some None
  | segment :: _ =>
      InstructionRanges.getArgumentsRanges text i
      = Some [rangeAt text (c + len (fst segment)) (b - len trailing)]
      /\ InstructionRanges.getArgumentsContent text i
         = Some (Some (trimSegments segments))
  end.
Proof.
  intros Hat Htext Hsegments Htrailing Hblank.
  destruct segments as [|segment rest] eqn:Es.
  - unfold InstructionRanges.getArgumentsContent,
      InstructionRanges.getArgumentsRanges.
    rewrite (tokens_getArguments text i a c b [] trailing) by assumption.
    split; reflexivity.
  - pose proof (tokens_range text i a c b (segment :: rest) trailing
                  Hat Htext Hsegments Htrailing segment rest eq_refl)
      as Hrange.
    pose proof (tokens_raw text i a c b (segment :: rest) trailing
                  Hat Htext Hsegments Htrailing segment rest eq_refl)
      as Hraw.
    pose proof (tokens_length text i a c b (segment :: rest) trailing
                  Hat Htext) as Hlen.
    rewrite len_joinSegments_cons in Hlen.
    assert (Hbounds := Hat). destruct Hbounds as [_ [_ [Hac Hcb]]].
    pose proof (len_nonneg (fst segment)). pose proof (len_nonneg (snd segment)).
    pose proof (len_nonneg (joinSegments rest)).
    pose proof (len_nonneg trailing).
    set (x := c + len (fst segment)) in *.
    set (y := b - len trailing) in *.
    assert (Hx : 0 <= x <= y) by (unfold x, y; lia).
    assert (Hy : y <= len text) by (unfold y; lia).
    unfold InstructionText.getArgumentsRange in Hrange.
    unfold InstructionText.getRawArgumentsContent in Hraw.
    unfold InstructionRanges.getArgumentsContent,
      InstructionRanges.getArgumentsRanges.
    destruct (InstructionM.getArguments text i) as [|first more];
      [discriminate|].
    cbv zeta in Hrange, Hraw |- *.
    remember (last (first :: more) first) as final eqn:Hfinal. clear Hfinal.
    injection Hrange as Hstart Hend.
    unfold InstructionText.getRangeContent in Hraw. cbn [start end_] in Hraw.
    rewrite Hstart, Hend in Hraw |- *.
    rewrite !offsetAt_positionAt in Hraw by lia.
    injection Hraw as Hraw.
    assert (Hline : allBetween notNewline text x y).
    { apply (substring_allBetween _ _ _ _ _ Hx Hy Hraw).
      simpl. apply Forall_app. split.
      - apply (token_notNewline (escapeChar i)).
        inversion Hsegments. assumption.
      - apply (blankSegments_notNewline (escapeChar i)).
        + inversion Hsegments. assumption.
        + exact Hblank. }
    rewrite (positionAt_same_line text x y Hx Hy Hline).
    cbn [line]. rewrite Z.eqb_refl.
    rewrite <- (positionAt_same_line text x y Hx Hy Hline).
    split; [reflexivity|].
    cbn [fold_left start end_ app].
    rewrite !offsetAt_positionAt by lia.
    rewrite Hraw. reflexivity.
Qed.

Lemma getArgumentsContent_tokens_witness :
  InstructionRanges.getArgumentsRanges (str "RUN echo  hello ")
    (nthInstruction (str "RUN echo  hello ") 0)
  = Some [mkRange (mkPosition 0 4) (mkPosition 0 15)]
  /\ InstructionRanges.getArgumentsContent (str "RUN echo  hello ")
       (nthInstruction (str "RUN echo  hello ") 0)
     = Some (Some (str "echo  hello")).
Proof.
  apply (getArgumentsContent_tokens (str "RUN echo  hello ")
           (nthInstruction (str "RUN echo  hello ") 0) 0 3 16
           [(str " ", str "echo"); (str "  ", str "hello")] (str " ")).
  - repeat split; try (vm_compute; reflexivity); try lia;
      vm_compute; discriminate.
  - vm_compute. reflexivity.
  - repeat constructor; discriminate.
  - repeat constructor.
  - repeat constructor.
Defined.
